(** * go-distance: the weighted-graph engine of graph.go

    A shallow embedding of [graph.go] (package [distance]): the graph
    store, the priority queue driven by Go's [container/heap], Dijkstra,
    Bellman-Ford, Floyd-Warshall, A*, BFS, the DFS connectivity analysis
    and the edit-distance approximation.

    Modelling choices, all taken from the source:
    - [float64] is Rocq's primitive binary64 [float] (IEEE 754, round to
      nearest even, as Go computes); [math.Inf(1)] is [infinity].
    - [int] is [Z]. Node identifiers are only compared and used as keys.
      The arithmetic on [int] is that of the heap indices, of BFS's hop
      count and of [len(g.nodes) - 1]; none exceeds twice the length of a
      slice or map held in memory, so no wrap-around is reachable.
    - a Go [map[int]V] is a [gmap Z V]; reading a missing key yields the
      zero value of [V] ([m .[ k ]]), and [range] visits the entries in an
      order Go leaves unspecified: every algorithm takes a [RangeOrder],
      which fixes that order, and theorems quantify over all of them.
    - loops that the source bounds only by its data take a [fuel] and
      return [None] when it runs out; theorems about results give the fuel
      that suffices. *)

From Stdlib Require Import ZArith Lia Uint63 PrimFloat FloatOps FloatAxioms SpecFloat.
From stdpp Require Import gmap list sorting.

Local Open Scope Z_scope.

(** ** Go values: zero values, map reads, [range] *)

Class GoZero (V : Type) := zero_value : V.
#[global] Instance float_zero : GoZero float := 0%float.
#[global] Instance int_zero : GoZero Z := 0.
#[global] Instance bool_zero : GoZero bool := false.
#[global] Instance map_zero {V} : GoZero (gmap Z V) := (∅ : gmap Z V).

(** [m[k]]: the stored value, or the zero value of the element type. *)
Definition index_map {V} `{GoZero V} (m : gmap Z V) (k : Z) : V :=
  default zero_value (m !! k).
Notation "m .[ k ]" := (index_map m k) (at level 1, left associativity, format "m .[ k ]").

(** The order in which [for k, v := range m] visits a map. *)
Record RangeOrder := {
  range : ∀ V, gmap Z V → list (Z * V);
  range_perm : ∀ V (m : gmap Z V), range V m ≡ₚ map_to_list m
}.
Arguments range _ {V} _.

Definition key_le {V} (a b : Z * V) : Prop := a.1 ≤ b.1.
Definition key_ge {V} (a b : Z * V) : Prop := b.1 ≤ a.1.

#[global] Instance key_le_dec {V} (a b : Z * V) : Decision (key_le a b).
Proof. unfold key_le. apply _. Defined.
#[global] Instance key_ge_dec {V} (a b : Z * V) : Decision (key_ge a b).
Proof. unfold key_ge. apply _. Defined.

(** Two concrete orders: by ascending and by descending key. *)
Definition ascending : RangeOrder :=
  {| range := λ V m, merge_sort key_le (map_to_list m);
     range_perm := λ V m, merge_sort_Permutation key_le (map_to_list m) |}.

Definition descending : RangeOrder :=
  {| range := λ V m, merge_sort key_ge (map_to_list m);
     range_perm := λ V m, merge_sort_Permutation key_ge (map_to_list m) |}.

(** ** The priority queue (graph.go, [item] and [priorityQueue]) *)

Record item := Item { node : Z; priority : float; index : Z }.

Definition set_index (it : item) (i : Z) : item :=
  {| node := node it; priority := priority it; index := i |}.

Definition pq_Len (pq : list item) : Z := Z.of_nat (length pq).

(** [Less(i, j)]; both indices are in range whenever the heap calls it. *)
Definition pq_Less (pq : list item) (i j : Z) : bool :=
  match pq !! Z.to_nat i, pq !! Z.to_nat j with
  | Some a, Some b => PrimFloat.ltb (priority a) (priority b)
  | _, _ => false
  end.

(** [Swap(i, j)]: exchange the two slots, then store each slot's position
    in the item it now holds. *)
Definition pq_Swap (pq : list item) (i j : Z) : list item :=
  match pq !! Z.to_nat i, pq !! Z.to_nat j with
  | Some a, Some b =>
      <[Z.to_nat j := set_index a j]> (<[Z.to_nat i := set_index b i]> pq)
  | _, _ => pq
  end.

Definition pq_Push (pq : list item) (x : item) : list item :=
  pq ++ [set_index x (pq_Len pq)].

(** [Pop()]: the slot [old[n-1]], its index set to -1, and the slice
    [old[0:n-1]]; [None] on an empty slice, where Go panics. *)
Definition pq_Pop (pq : list item) : option (item * list item) :=
  let n := pq_Len pq in
  it ← pq !! Z.to_nat (n - 1);
  if n =? 0 then None else Some (set_index it (-1), take (Z.to_nat (n - 1)) pq).

(** ** container/heap, as the Go standard library has it *)

(** [up(h, j)]: the parent is [(j-1)/2], Go's division truncating towards
    zero, so that the root is its own parent. *)
Fixpoint up (fuel : nat) (pq : list item) (j : Z) : list item :=
  match fuel with
  | O => pq
  | S fuel' =>
      let i := Z.quot (j - 1) 2 in
      if (i =? j) || negb (pq_Less pq j i) then pq
      else up fuel' (pq_Swap pq i j) i
  end.

Fixpoint down (fuel : nat) (pq : list item) (i n : Z) : list item :=
  match fuel with
  | O => pq
  | S fuel' =>
      let j1 := 2 * i + 1 in
      if (n <=? j1) || (j1 <? 0) then pq
      else
        let j2 := j1 + 1 in
        let j := if (j2 <? n) && pq_Less pq j2 j1 then j2 else j1 in
        if negb (pq_Less pq j i) then pq
        else down fuel' (pq_Swap pq i j) j n
  end.

(** [heap.Init]: sift down every inner slot, from [n/2 - 1] to 0. *)
Definition heap_Init (pq : list item) : list item :=
  let n := pq_Len pq in
  foldl (λ q i, down (length pq) q (Z.of_nat i) n) pq
        (reverse (seq 0 (Z.to_nat (Z.quot n 2)))).

Definition heap_Push (pq : list item) (x : item) : list item :=
  let pq' := pq_Push pq x in
  up (length pq') pq' (pq_Len pq' - 1).

Definition heap_Pop (pq : list item) : option (item * list item) :=
  let n := pq_Len pq - 1 in
  pq_Pop (down (length pq) (pq_Swap pq 0 n) 0 n).

(** ** The graph store *)

Record Graph := {
  adjacency : gmap Z (gmap Z float);
  nodes : gmap Z bool
}.

Definition NewGraph : Graph := {| adjacency := ∅; nodes := ∅ |}.

Definition AddEdge (g : Graph) (from to : Z) (weight : float) : Graph :=
  let nodes' := <[to := true]> (<[from := true]> (nodes g)) in
  let adj := match adjacency g !! from with
             | None => <[from := ∅]> (adjacency g)
             | Some _ => adjacency g
             end in
  {| adjacency := <[from := <[to := weight]> (adj.[from])]> adj;
     nodes := nodes' |}.

Definition AddUndirectedEdge (g : Graph) (a b : Z) (weight : float) : Graph :=
  AddEdge (AddEdge g a b weight) b a weight.

(** A graph as the API builds it: [NewGraph] and a sequence of [AddEdge]. *)
Definition build (es : list (Z * Z * float)) : Graph :=
  foldl (λ g e, AddEdge g e.1.1 e.1.2 e.2) NewGraph es.

(** ** Dijkstra *)

Record search := {
  dist : gmap Z float;
  prev : gmap Z Z;
  visited : gmap Z bool;
  pq : list item
}.

(** [for node := range g.nodes { dist[node] = math.Inf(1) }; dist[source] = 0] *)
Definition init_dist (ord : RangeOrder) (g : Graph) (source : Z) : gmap Z float :=
  <[source := 0%float]>
    (foldl (λ d e, <[e.1 := infinity]> d) ∅ (range ord (nodes g))).

(** One turn of the inner loop of Dijkstra and A*: relax the edge from
    [u] to [e.1] of weight [e.2]; [h] is the heuristic term of the
    priority of the entry pushed. *)
Definition relax (h : Z → float → float) (u : Z) (st : search) (e : Z * float) : search :=
  let '(neighbor, weight) := e in
  if (visited st).[neighbor] then st
  else
    let newDist := PrimFloat.add (dist st).[u] weight in
    if PrimFloat.ltb newDist (dist st).[neighbor] then
      {| dist := <[neighbor := newDist]> (dist st);
         prev := <[neighbor := u]> (prev st);
         visited := visited st;
         pq := heap_Push (pq st) (Item neighbor (h neighbor newDist) 0) |}
    else st.

(** The main loop; [None] when the fuel runs out, and at a [heap.Pop] of an
    empty queue, which the loop condition excludes. *)
Fixpoint search_loop (fuel : nat) (ord : RangeOrder) (g : Graph)
    (h : Z → float → float) (target : Z) (st : search) : option search :=
  match fuel with
  | O => None
  | S fuel' =>
      if 0 <? pq_Len (pq st) then
        match heap_Pop (pq st) with
        | None => None
        | Some (current, rest) =>
            let u := node current in
            if (visited st).[u] then
              search_loop fuel' ord g h target
                {| dist := dist st; prev := prev st; visited := visited st; pq := rest |}
            else
              let st1 := {| dist := dist st; prev := prev st;
                            visited := <[u := true]> (visited st); pq := rest |} in
              if u =? target then Some st1
              else search_loop fuel' ord g h target
                     (foldl (relax h u) st1 (range ord (adjacency g).[u]))
        end
      else Some st
  end.

(** [for node != source { path = append([]int{node}, path...); node = prev[node] }] *)
Fixpoint walk_back (fuel : nat) (prev : gmap Z Z) (source n : Z) (path : list Z)
    : option (list Z) :=
  match fuel with
  | O => None
  | S fuel' =>
      if n =? source then Some path
      else walk_back fuel' prev source prev.[n] (n :: path)
  end.

Definition reconstruct (fuel : nat) (st : search) (source target : Z)
    : option (float * list Z) :=
  if negb (PrimFloat.eqb (dist st).[target] infinity) then
    match walk_back fuel (prev st) source target [] with
    | Some path => Some ((dist st).[target], source :: path)
    | None => None
    end
  else Some ((dist st).[target], []).

Definition start (ord : RangeOrder) (g : Graph) (source : Z) (p0 : float) : search :=
  {| dist := init_dist ord g source; prev := ∅; visited := ∅;
     pq := heap_Push (heap_Init []) (Item source p0 0) |}.

Definition Dijkstra (fuel : nat) (ord : RangeOrder) (g : Graph) (source target : Z)
    : option (float * list Z) :=
  match search_loop fuel ord g (λ _ d, d) target (start ord g source 0%float) with
  | Some st => reconstruct fuel st source target
  | None => None
  end.

(** ** A* *)

Definition AStar (fuel : nat) (ord : RangeOrder) (g : Graph) (source target : Z)
    (heuristic : Z → Z → float) : option (float * list Z) :=
  match search_loop fuel ord g (λ n d, PrimFloat.add d (heuristic n target)) target
          (start ord g source (heuristic source target)) with
  | Some st => reconstruct fuel st source target
  | None => None
  end.

(** ** Bellman-Ford *)

(** The test both loops make on an edge: [dist[from]+weight < dist[to]]. *)
Definition improves (d : gmap Z float) (from : Z) (e : Z * float) : bool :=
  PrimFloat.ltb (PrimFloat.add d.[from] e.2) d.[e.1].

Definition relax_edge (from : Z) (d : gmap Z float) (e : Z * float) : gmap Z float :=
  if improves d from e then <[e.1 := PrimFloat.add d.[from] e.2]> d else d.

(** One pass over every edge: [for from := range g.adjacency { for to,
    weight := range g.adjacency[from] { ... } }]. *)
Definition relax_pass (ord : RangeOrder) (g : Graph) (d : gmap Z float) : gmap Z float :=
  foldl (λ d r, foldl (relax_edge r.1) d (range ord (adjacency g).[r.1]))
        d (range ord (adjacency g)).

(** The inner checking loop, left at the first improving edge. *)
Fixpoint check_row (d : gmap Z float) (from : Z) (row : list (Z * float)) : bool :=
  match row with
  | [] => false
  | e :: row' => if improves d from e then true else check_row d from row'
  end.

(** The outer checking loop, left as soon as the flag is set. *)
Fixpoint check_rows (ord : RangeOrder) (g : Graph) (d : gmap Z float)
    (rows : list (Z * gmap Z float)) : bool :=
  match rows with
  | [] => false
  | r :: rows' =>
      if check_row d r.1 (range ord (adjacency g).[r.1]) then true
      else check_rows ord g d rows'
  end.

(** [for i := 0; i < nodeCount-1; i++]: no pass when [nodeCount] is 0 or 1. *)
Definition pass_count (g : Graph) : nat := Z.to_nat (Z.of_nat (size (nodes g)) - 1).

Definition BellmanFord (ord : RangeOrder) (g : Graph) (source : Z)
    : gmap Z float * bool :=
  let d := Nat.iter (pass_count g) (relax_pass ord g) (init_dist ord g source) in
  (d, check_rows ord g d (range ord (adjacency g))).

(** ** Floyd-Warshall *)

(** [dist[i][j] = v]; writing through a missing row is a write to a nil
    map, at which Go panics: [None]. *)
Definition set_entry (d : gmap Z (gmap Z float)) (i j : Z) (v : float)
    : option (gmap Z (gmap Z float)) :=
  match d !! i with
  | Some row => Some (<[i := <[j := v]> row]> d)
  | None => None
  end.

(** The initialisation loop: the node list in range order, and the matrix
    with 0 on the diagonal and +Inf elsewhere. *)
Definition fw_init (ord : RangeOrder) (g : Graph) : list Z * gmap Z (gmap Z float) :=
  foldl (λ acc e,
           let n := e.1 in
           (acc.1 ++ [n],
            <[n := foldl (λ row e', <[e'.1 := if n =? e'.1 then 0%float else infinity]> row)
                         ∅ (range ord (nodes g))]> acc.2))
        ([], ∅) (range ord (nodes g)).

(** [for from := range g.adjacency { for to, weight := range
    g.adjacency[from] { dist[from][to] = weight } }] *)
Definition fw_edges (ord : RangeOrder) (g : Graph) (d : gmap Z (gmap Z float))
    : option (gmap Z (gmap Z float)) :=
  foldl (λ od r,
           foldl (λ od e, d ← od; set_entry d r.1 e.1 e.2) od
                 (range ord (adjacency g).[r.1]))
        (Some d) (range ord (adjacency g)).

Definition fw_relax (k i : Z) (od : option (gmap Z (gmap Z float))) (j : Z)
    : option (gmap Z (gmap Z float)) :=
  d ← od;
  let through := PrimFloat.add d.[i].[k] d.[k].[j] in
  if PrimFloat.ltb through d.[i].[j] then set_entry d i j through else Some d.

Definition FloydWarshall (ord : RangeOrder) (g : Graph) : option (gmap Z (gmap Z float)) :=
  let '(ns, d0) := fw_init ord g in
  foldl (λ od k, foldl (λ od i, foldl (fw_relax k i) od ns) od ns)
        (fw_edges ord g d0) ns.

Definition is_pos_inf (d : float) : bool := PrimFloat.eqb d infinity.

(** The largest finite entry of one row, starting from [start]. *)
Definition row_max (ord : RangeOrder) (allPairs : gmap Z (gmap Z float)) (from : Z)
    (start : float) : float :=
  foldl (λ best e,
           let d := allPairs.[from].[e.1] in
           if negb (is_pos_inf d) && PrimFloat.ltb best d then d else best)
        start (range ord allPairs.[from]).

Definition GraphDiameter (ord : RangeOrder) (g : Graph) : option float :=
  allPairs ← FloydWarshall ord g;
  Some (foldl (λ diameter r, row_max ord allPairs r.1 diameter)
              0%float (range ord allPairs)).

Definition GraphRadius (ord : RangeOrder) (g : Graph) : option float :=
  allPairs ← FloydWarshall ord g;
  Some (foldl (λ radius r,
                 let eccentricity := row_max ord allPairs r.1 0%float in
                 if PrimFloat.ltb eccentricity radius then eccentricity else radius)
              infinity (range ord allPairs)).

(** ** The edit-distance approximation *)

(** Nodes of [a] that [b] does not have; [nodeCount++] on a [float64]. *)
Definition count_nodes (ord : RangeOrder) (a b : Graph) (count : float) : float :=
  foldl (λ c e, if negb (nodes b).[e.1] then PrimFloat.add c 1%float else c)
        count (range ord (nodes a)).

(** Edges of [a] for which [b.adjacency[from] == nil ||
    b.adjacency[from][to] == 0]. *)
Definition count_edges (ord : RangeOrder) (a b : Graph) (count : float) : float :=
  foldl (λ c r,
           foldl (λ c e,
                    if bool_decide (adjacency b !! r.1 = None)
                       || PrimFloat.eqb (adjacency b).[r.1].[e.1] 0%float
                    then PrimFloat.add c 1%float else c)
                 c (range ord (adjacency a).[r.1]))
        count (range ord (adjacency a)).

Definition GraphEditDistance (ord : RangeOrder) (g1 g2 : Graph) : float :=
  let nodeCount := count_nodes ord g2 g1 (count_nodes ord g1 g2 0%float) in
  let edgeCount := count_edges ord g2 g1 (count_edges ord g1 g2 0%float) in
  PrimFloat.add nodeCount edgeCount.

(** ** BFS *)

Record bfs_state := {
  b_visited : gmap Z bool;
  b_parent : gmap Z Z;
  b_distance : gmap Z Z;
  queue : list Z
}.

Definition bfs_visit (u : Z) (st : bfs_state) (e : Z * float) : bfs_state :=
  let neighbor := e.1 in
  if negb (b_visited st).[neighbor] then
    {| b_visited := <[neighbor := true]> (b_visited st);
       b_parent := <[neighbor := u]> (b_parent st);
       b_distance := <[neighbor := (b_distance st).[u] + 1]> (b_distance st);
       queue := queue st ++ [neighbor] |}
  else st.

Fixpoint bfs_loop (fuel : nat) (ord : RangeOrder) (g : Graph) (target : Z)
    (st : bfs_state) : option bfs_state :=
  match fuel with
  | O => None
  | S fuel' =>
      match queue st with
      | [] => Some st
      | u :: rest =>
          let st1 := {| b_visited := b_visited st; b_parent := b_parent st;
                        b_distance := b_distance st; queue := rest |} in
          if u =? target then Some st1
          else bfs_loop fuel' ord g target
                 (foldl (bfs_visit u) st1 (range ord (adjacency g).[u]))
      end
  end.

(** The hop count and the path; [(-1, nil)] for an unreachable target. *)
Definition BFS (fuel : nat) (ord : RangeOrder) (g : Graph) (source target : Z)
    : option (Z * list Z) :=
  if source =? target then Some (0, [source])
  else
    st ← bfs_loop fuel ord g target
           {| b_visited := {[source := true]}; b_parent := ∅;
              b_distance := {[source := 0]}; queue := [source] |};
    if (b_visited st).[target] then
      path ← walk_back fuel (b_parent st) source target [];
      Some ((b_distance st).[target], source :: path)
    else Some (-1, []).

(** ** Connectivity *)

(** The recursive closure [dfs]; the pair is the shared [visited] map and
    the component under construction. [fuel] bounds the recursion depth. *)
Fixpoint dfs (fuel : nat) (ord : RangeOrder) (g : Graph) (n : Z)
    (st : gmap Z bool * list Z) : option (gmap Z bool * list Z) :=
  match fuel with
  | O => None
  | S fuel' =>
      foldl (λ ost e,
               st ← ost;
               if negb (st.1).[e.1] then dfs fuel' ord g e.1 st else Some st)
            (Some (<[n := true]> st.1, st.2 ++ [n]))
            (range ord (adjacency g).[n])
  end.

Definition ConnectedComponents (fuel : nat) (ord : RangeOrder) (g : Graph)
    : option (list (list Z)) :=
  snd <$>
  foldl (λ oacc e,
           acc ← oacc;
           if negb (acc.1).[e.1] then
             r ← dfs fuel ord g e.1 (acc.1, []);
             Some (r.1, acc.2 ++ [r.2])
           else Some acc)
        (Some (∅, [])) (range ord (nodes g)).

Definition IsConnected (fuel : nat) (ord : RangeOrder) (g : Graph) : option bool :=
  components ← ConnectedComponents fuel ord g;
  Some (bool_decide (length components = 1%nat)).

(** ** Basic facts about map reads and [range] *)

Lemma index_map_insert {V} `{GoZero V} (m : gmap Z V) k k' v :
  (<[k := v]> m).[k'] = if decide (k = k') then v else m.[k'].
Proof. unfold index_map. rewrite lookup_insert. by case_decide. Qed.

Lemma index_map_insert_eq {V} `{GoZero V} (m : gmap Z V) k v : (<[k := v]> m).[k] = v.
Proof. rewrite index_map_insert. by case_decide. Qed.

Lemma index_map_insert_ne {V} `{GoZero V} (m : gmap Z V) k k' v :
  k ≠ k' → (<[k := v]> m).[k'] = m.[k'].
Proof. intros. rewrite index_map_insert. by case_decide. Qed.

Lemma index_map_Some {V} `{GoZero V} (m : gmap Z V) k v : m !! k = Some v → m.[k] = v.
Proof. unfold index_map. by intros ->. Qed.

Lemma index_map_None {V} `{GoZero V} (m : gmap Z V) k : m !! k = None → m.[k] = zero_value.
Proof. unfold index_map. by intros ->. Qed.

Lemma elem_of_range ord {V} (m : gmap Z V) k v :
  (k, v) ∈ range ord m ↔ m !! k = Some v.
Proof. rewrite (range_perm ord V m). apply elem_of_map_to_list. Qed.

Lemma NoDup_range ord {V} (m : gmap Z V) : NoDup (range ord m).*1.
Proof. rewrite (range_perm ord V m). apply NoDup_fst_map_to_list. Qed.

Lemma length_range ord {V} (m : gmap Z V) : length (range ord m) = size m.
Proof. rewrite (range_perm ord V m). apply length_map_to_list. Qed.

Lemma range_empty ord {V} : range ord (∅ : gmap Z V) = [].
Proof. apply Permutation_nil_r. rewrite (range_perm ord V ∅). by rewrite map_to_list_empty. Qed.

Lemma range_small ord ord' {V} (m : gmap Z V) :
  (size m ≤ 1)%nat → range ord m = range ord' m.
Proof.
  intros Hs.
  pose proof (range_perm ord V m) as H1. pose proof (range_perm ord' V m) as H2.
  rewrite <- length_map_to_list in Hs.
  destruct (map_to_list m) as [|x [|y l]]; simpl in Hs; try lia.
  - apply Permutation_nil_r in H1, H2. congruence.
  - apply Permutation_singleton_r in H1, H2. congruence.
Qed.

Lemma foldl_ext_in {A B} (f g : A → B → A) (l : list B) (a : A) :
  (∀ a x, x ∈ l → f a x = g a x) → foldl f a l = foldl g a l.
Proof.
  revert a. induction l as [|x l IH]; intros a Hfg; simpl; [done|].
  rewrite Hfg; [|left]. apply IH. intros. apply Hfg. by right.
Qed.

(** The initial distances do not depend on the order of the range. *)
Lemma foldl_insert_const {V} (v : float) (l : list (Z * V)) (d : gmap Z float) k :
  foldl (λ d e, <[e.1 := v]> d) d l !! k =
  if decide (k ∈ l.*1) then Some v else d !! k.
Proof.
  revert d. induction l as [|[k' x] l IH]; intros d; simpl; [done|].
  rewrite IH. destruct (decide (k ∈ l.*1)).
  - rewrite decide_True; [done|]. by right.
  - rewrite lookup_insert. simpl. destruct (decide (k' = k)) as [->|].
    + rewrite decide_True; [done|]. left.
    + rewrite decide_False; [done|]. rewrite elem_of_cons. simpl in *. intros [?|?]; [congruence|done].
Qed.

Lemma init_dist_lookup ord g s k :
  init_dist ord g s !! k =
  if decide (s = k) then Some 0%float
  else if decide (is_Some (nodes g !! k)) then Some infinity else None.
Proof.
  unfold init_dist. rewrite lookup_insert. case_decide; [done|].
  rewrite foldl_insert_const, lookup_empty.
  destruct (decide (k ∈ (range ord (nodes g)).*1)) as [Hin|Hin].
  - rewrite decide_True; [done|].
    apply list_elem_of_fmap in Hin as [[k' b] [-> Hin]]. apply elem_of_range in Hin. eauto.
  - rewrite decide_False; [done|]. intros [b Hb]. apply Hin.
    apply list_elem_of_fmap. exists (k, b). split; [done|]. by apply elem_of_range.
Qed.

Lemma init_dist_order ord ord' g s : init_dist ord g s = init_dist ord' g s.
Proof. apply map_eq. intros k. by rewrite !init_dist_lookup. Qed.

(** ** The result depends on the range order only through the graph's maps *)

Definition same_rows (o1 o2 : RangeOrder) (g : Graph) : Prop :=
  ∀ n, range o1 (adjacency g).[n] = range o2 (adjacency g).[n].

Definition agree_on (g : Graph) (o1 o2 : RangeOrder) : Prop :=
  range o1 (nodes g) = range o2 (nodes g) ∧
  range o1 (adjacency g) = range o2 (adjacency g) ∧
  same_rows o1 o2 g.

Definition same_order (o1 o2 : RangeOrder) : Prop :=
  ∀ V (m : gmap Z V), range o1 m = range o2 m.

Lemma same_order_agree o1 o2 g : same_order o1 o2 → agree_on g o1 o2.
Proof. intros H. repeat split; try apply H. intros n. apply H. Qed.

Lemma search_loop_order o1 o2 g h target fuel st :
  same_rows o1 o2 g →
  search_loop fuel o1 g h target st = search_loop fuel o2 g h target st.
Proof.
  intros Hr. revert st. induction fuel as [|fuel IH]; intros st; simpl; [done|].
  destruct (0 <? pq_Len (pq st)); [|done].
  destruct (heap_Pop (pq st)) as [[cur rest]|]; [|done].
  destruct ((visited st).[node cur]); [apply IH|].
  destruct (node cur =? target); [done|].
  rewrite Hr. apply IH.
Qed.

Lemma Dijkstra_order o1 o2 g fuel s t :
  same_rows o1 o2 g → Dijkstra fuel o1 g s t = Dijkstra fuel o2 g s t.
Proof.
  intros Hr. unfold Dijkstra, start.
  by rewrite (init_dist_order o1 o2), (search_loop_order o1 o2).
Qed.

Lemma AStar_order o1 o2 g fuel s t h :
  same_rows o1 o2 g → AStar fuel o1 g s t h = AStar fuel o2 g s t h.
Proof.
  intros Hr. unfold AStar, start.
  by rewrite (init_dist_order o1 o2), (search_loop_order o1 o2).
Qed.

Lemma relax_pass_order o1 o2 g d :
  range o1 (adjacency g) = range o2 (adjacency g) → same_rows o1 o2 g →
  relax_pass o1 g d = relax_pass o2 g d.
Proof.
  intros Ha Hr. unfold relax_pass. rewrite Ha.
  apply foldl_ext_in. intros a x _. by rewrite Hr.
Qed.

Lemma check_rows_order o1 o2 g d rows :
  same_rows o1 o2 g → check_rows o1 g d rows = check_rows o2 g d rows.
Proof.
  intros Hr. induction rows as [|r rows IH]; simpl; [done|]. by rewrite Hr, IH.
Qed.

Lemma iter_ext {A} (f g : A → A) n a : (∀ a, f a = g a) → Nat.iter n f a = Nat.iter n g a.
Proof. intros E. induction n as [|n IH]; simpl; [done|]. by rewrite IH, E. Qed.

Lemma BellmanFord_order o1 o2 g s :
  range o1 (adjacency g) = range o2 (adjacency g) → same_rows o1 o2 g →
  BellmanFord o1 g s = BellmanFord o2 g s.
Proof.
  intros Ha Hr. unfold BellmanFord.
  rewrite (init_dist_order o1 o2), Ha.
  rewrite (iter_ext (relax_pass o1 g) (relax_pass o2 g));
    [|intros; by apply relax_pass_order].
  by rewrite (check_rows_order o1 o2).
Qed.

Lemma FloydWarshall_order o1 o2 g :
  agree_on g o1 o2 → FloydWarshall o1 g = FloydWarshall o2 g.
Proof.
  intros (Hn & Ha & Hr). unfold FloydWarshall, fw_init, fw_edges. rewrite Hn, Ha.
  destruct (foldl _ _ (range o2 (nodes g))) as [ns d0].
  f_equal. apply foldl_ext_in. intros a x _. by rewrite Hr.
Qed.

Lemma bfs_loop_order o1 o2 g target fuel st :
  same_rows o1 o2 g → bfs_loop fuel o1 g target st = bfs_loop fuel o2 g target st.
Proof.
  intros Hr. revert st. induction fuel as [|fuel IH]; intros st; simpl; [done|].
  destruct (queue st) as [|u rest]; [done|].
  destruct (u =? target); [done|]. rewrite Hr. apply IH.
Qed.

Lemma BFS_order o1 o2 g fuel s t :
  same_rows o1 o2 g → BFS fuel o1 g s t = BFS fuel o2 g s t.
Proof. intros Hr. unfold BFS. by rewrite (bfs_loop_order o1 o2). Qed.

Lemma dfs_order o1 o2 g fuel n st :
  same_rows o1 o2 g → dfs fuel o1 g n st = dfs fuel o2 g n st.
Proof.
  intros Hr. revert n st. induction fuel as [|fuel IH]; intros n st; simpl; [done|].
  rewrite Hr. apply foldl_ext_in. intros [a|] x _; simpl; [|done].
  destruct (negb _); [apply IH|done].
Qed.

Lemma ConnectedComponents_order o1 o2 g fuel :
  range o1 (nodes g) = range o2 (nodes g) → same_rows o1 o2 g →
  ConnectedComponents fuel o1 g = ConnectedComponents fuel o2 g.
Proof.
  intros Hn Hr. unfold ConnectedComponents. rewrite Hn. f_equal.
  apply foldl_ext_in. intros [a|] x _; simpl; [|done].
  destruct (negb _); [|done]. by rewrite (dfs_order o1 o2).
Qed.

Lemma IsConnected_order o1 o2 g fuel :
  range o1 (nodes g) = range o2 (nodes g) → same_rows o1 o2 g →
  IsConnected fuel o1 g = IsConnected fuel o2 g.
Proof. intros. unfold IsConnected. by rewrite (ConnectedComponents_order o1 o2). Qed.

Lemma row_max_order o1 o2 allPairs from start :
  same_order o1 o2 → row_max o1 allPairs from start = row_max o2 allPairs from start.
Proof. intros H. unfold row_max. by rewrite H. Qed.

Lemma GraphDiameter_order o1 o2 g :
  same_order o1 o2 → GraphDiameter o1 g = GraphDiameter o2 g.
Proof.
  intros H. unfold GraphDiameter.
  rewrite (FloydWarshall_order o1 o2) by by apply same_order_agree.
  destruct (FloydWarshall o2 g) as [ap|]; simpl; [|done]. f_equal.
  rewrite H. apply foldl_ext_in. intros. by apply row_max_order.
Qed.

Lemma GraphRadius_order o1 o2 g :
  same_order o1 o2 → GraphRadius o1 g = GraphRadius o2 g.
Proof.
  intros H. unfold GraphRadius.
  rewrite (FloydWarshall_order o1 o2) by by apply same_order_agree.
  destruct (FloydWarshall o2 g) as [ap|]; simpl; [|done]. f_equal.
  rewrite H. apply foldl_ext_in. intros. by rewrite (row_max_order o1 o2).
Qed.

Lemma count_nodes_order o1 o2 a b c :
  range o1 (nodes a) = range o2 (nodes a) → count_nodes o1 a b c = count_nodes o2 a b c.
Proof. intros H. unfold count_nodes. by rewrite H. Qed.

Lemma count_edges_order o1 o2 a b c :
  range o1 (adjacency a) = range o2 (adjacency a) → same_rows o1 o2 a →
  count_edges o1 a b c = count_edges o2 a b c.
Proof.
  intros Ha Hr. unfold count_edges. rewrite Ha.
  apply foldl_ext_in. intros ? x _. by rewrite Hr.
Qed.

Lemma GraphEditDistance_order o1 o2 g1 g2 :
  agree_on g1 o1 o2 → agree_on g2 o1 o2 →
  GraphEditDistance o1 g1 g2 = GraphEditDistance o2 g1 g2.
Proof.
  intros (Hn1 & Ha1 & Hr1) (Hn2 & Ha2 & Hr2). unfold GraphEditDistance.
  rewrite (count_nodes_order o1 o2 g1), (count_nodes_order o1 o2 g2) by done.
  by rewrite (count_edges_order o1 o2 g1), (count_edges_order o1 o2 g2).
Qed.

(** Graphs whose maps hold at most one entry are ranged in one way only. *)
Definition tiny (g : Graph) : Prop :=
  (size (nodes g) ≤ 1)%nat ∧ (size (adjacency g) ≤ 1)%nat ∧
  map_Forall (λ _ row, (size row ≤ 1)%nat) (adjacency g).

#[global] Instance tiny_dec g : Decision (tiny g).
Proof. unfold tiny. apply _. Defined.

Lemma small_rows_same o1 o2 g :
  map_Forall (λ (_ : Z) (row : gmap Z float), (size row ≤ 1)%nat) (adjacency g) →
  same_rows o1 o2 g.
Proof.
  intros Hs n. apply range_small. unfold index_map.
  destruct (adjacency g !! n) as [row|] eqn:E; simpl.
  - by apply (map_Forall_lookup_1 _ _ _ _ Hs E).
  - unfold zero_value, map_zero. rewrite map_size_empty. lia.
Qed.

Lemma tiny_agree o1 o2 g : tiny g → agree_on g o1 o2.
Proof.
  intros (Hn & Ha & Hr). split; [by apply range_small|].
  split; [by apply range_small|]. by apply small_rows_same.
Qed.

(** ** More fuel does not change a result *)

Lemma search_loop_more_fuel ord g h target fuel fuel' st r :
  search_loop fuel ord g h target st = Some r → (fuel ≤ fuel')%nat →
  search_loop fuel' ord g h target st = Some r.
Proof.
  revert fuel' st. induction fuel as [|fuel IH]; intros fuel' st; simpl; [done|].
  intros Hr Hle. destruct fuel' as [|fuel']; [lia|]. simpl.
  destruct (0 <? pq_Len (pq st)); [|done].
  destruct (heap_Pop (pq st)) as [[cur rest]|]; [|done].
  destruct ((visited st).[node cur]); [apply IH; [done|lia]|].
  destruct (node cur =? target); [done|]. apply IH; [done|lia].
Qed.

Lemma walk_back_more_fuel prev source fuel fuel' n path r :
  walk_back fuel prev source n path = Some r → (fuel ≤ fuel')%nat →
  walk_back fuel' prev source n path = Some r.
Proof.
  revert fuel' n path. induction fuel as [|fuel IH]; intros fuel' n path; simpl; [done|].
  intros Hr Hle. destruct fuel' as [|fuel']; [lia|]. simpl.
  destruct (n =? source); [done|]. apply IH; [done|lia].
Qed.

Ltac by_computation := apply (bool_decide_unpack _); vm_compute; exact I.

Lemma foldl_id {A B} (f : A → B → A) (l : list B) (a : A) :
  (∀ a x, x ∈ l → f a x = a) → foldl f a l = a.
Proof.
  revert a. induction l as [|x l IH]; intros a Hf; simpl; [done|].
  rewrite Hf; [|left]. apply IH. intros. apply Hf. by right.
Qed.

(** ** Concrete runs *)

Definition g_selfloop : Graph := build [(0, 0, 5%float)].

Lemma selfloop_tiny : tiny g_selfloop.
Proof. by_computation. Qed.

(** A loop on the diagonal: at a graph with one self-loop of weight 5,
    Dijkstra and Bellman-Ford give the distance 0 from node 0 to itself and
    Floyd-Warshall gives 5, whatever the range order. *)
Lemma FloydWarshall_selfloop_diverges (ord : RangeOrder) :
  Dijkstra 1 ord g_selfloop 0 0 = Some (0%float, [0]) ∧
  (BellmanFord ord g_selfloop 0).1 !! 0 = Some 0%float ∧
  (d ← FloydWarshall ord g_selfloop; d !! 0 ≫= (.!! 0)) = Some 5%float.
Proof.
  pose proof (tiny_agree ord ascending _ selfloop_tiny) as (Hn & Ha & Hr).
  rewrite (Dijkstra_order ord ascending) by done.
  rewrite (BellmanFord_order ord ascending) by done.
  rewrite (FloydWarshall_order ord ascending) by done.
  vm_compute. done.
Qed.

Definition g_zero_edge : Graph := build [(0, 1, 0%float)].

Lemma zero_edge_rows o1 o2 : same_rows o1 o2 g_zero_edge.
Proof. apply small_rows_same. by_computation. Qed.

(** C6, at a graph with the single edge 0→1 of weight 0, compared with
    itself: no node and no edge is in exactly one of the two graphs, and
    the code returns 2. *)
Theorem GraphEditDistance_zero_weight (ord : RangeOrder) :
  GraphEditDistance ord g_zero_edge g_zero_edge = 2%float.
Proof.
  assert (range ord (adjacency g_zero_edge) = range ascending (adjacency g_zero_edge)) as Ha
    by (apply range_small; by_computation).
  unfold GraphEditDistance.
  rewrite !(count_edges_order ord ascending g_zero_edge) by auto using zero_edge_rows.
  assert (∀ c, count_nodes ord g_zero_edge g_zero_edge c = c) as Hc.
  { intros c. unfold count_nodes. apply foldl_id. intros a [k b] Hin.
    apply elem_of_range in Hin. simpl.
    assert (map_Forall (λ _ v, v = true) (nodes g_zero_edge)) as Hall by by_computation.
    rewrite (index_map_Some _ _ _ Hin). by rewrite (Hall _ _ Hin). }
  rewrite !Hc. vm_compute. done.
Qed.

Definition g_edge : Graph := build [(0, 1, 1%float)].

Lemma edge_rows o1 o2 : same_rows o1 o2 g_edge.
Proof. apply small_rows_same. by_computation. Qed.

Lemma walk_back_stuck fuel n path :
  n ≠ 1 → walk_back fuel (∅ : gmap Z Z) 1 n path = None.
Proof.
  revert n path. induction fuel as [|fuel IH]; intros n path Hn; simpl; [done|].
  destruct (Z.eqb_spec n 1); [done|]. by apply IH.
Qed.

(** C3, at the graph with the single edge 0→1 and the target 5, which was
    never inserted: from source 0 the code returns the distance 0 and the
    path [0, 5], not the infinite sentinel and an empty path; from source
    1 the path reconstruction never reaches the source, whatever the fuel. *)
Theorem Dijkstra_absent_target (ord : RangeOrder) :
  Dijkstra 3 ord g_edge 0 5 = Some (0%float, [0; 5]) ∧
  ∀ fuel, Dijkstra fuel ord g_edge 1 5 = None.
Proof.
  split.
  - rewrite (Dijkstra_order ord ascending) by apply edge_rows. by vm_compute.
  - intros fuel. rewrite (Dijkstra_order ord ascending) by apply edge_rows.
    unfold Dijkstra.
    destruct (search_loop fuel _ _ _ _ _) as [st|] eqn:E; [|done].
    assert (search_loop 2 ascending g_edge (λ _ d, d) 5 (start ascending g_edge 1 0%float)
            = Some st) as E2.
    { destruct fuel as [|[|fuel]]; [done| |].
      - by vm_compute in E.
      - assert (is_Some (search_loop 2 ascending g_edge (λ _ d, d) 5
                           (start ascending g_edge 1 0%float))) as [st' E'] by (vm_compute; eexists; reflexivity).
        rewrite E'. f_equal.
        apply (search_loop_more_fuel _ _ _ _ _ (S (S fuel))) in E'; [|lia]. congruence. }
    vm_compute in E2. injection E2 as <-.
    unfold reconstruct.
    replace (negb _) with true by by vm_compute.
    change (prev _) with (∅ : gmap Z Z).
    by rewrite walk_back_stuck.
Qed.

(** C9, at the graph with the single edge 0→1: ranged by ascending key
    the nodes form one component, ranged by descending key two. *)
Lemma ConnectedComponents_order_matters :
  ConnectedComponents 3 ascending g_edge = Some [[0; 1]] ∧
  ConnectedComponents 3 descending g_edge = Some [[1]; [0]] ∧
  IsConnected 3 ascending g_edge = Some true ∧
  IsConnected 3 descending g_edge = Some false.
Proof. by vm_compute. Qed.

(** ** Bellman-Ford: the passes and the check *)

Definition has_edge (g : Graph) (from to : Z) (w : float) : Prop :=
  ∃ row, adjacency g !! from = Some row ∧ row !! to = Some w.

(** Every edge, in the order in which one pass of the nested [range]
    loops visits them. *)
Definition edges (ord : RangeOrder) (g : Graph) : list (Z * (Z * float)) :=
  r ← range ord (adjacency g); (λ e, (r.1, e)) <$> range ord (adjacency g).[r.1].

Lemma elem_of_edges ord g from to w :
  (from, (to, w)) ∈ edges ord g ↔ has_edge g from to w.
Proof.
  unfold edges, has_edge. rewrite list_elem_of_bind. split.
  - intros ([k row] & Hin & Hr). apply elem_of_range in Hr. simpl in Hin.
    rewrite (index_map_Some _ _ _ Hr) in Hin.
    apply list_elem_of_fmap in Hin as ([to' w'] & [= -> -> ->] & Hin).
    apply elem_of_range in Hin. eauto.
  - intros (row & Hr & Hw). exists (from, row). split; [|by apply elem_of_range].
    simpl. rewrite (index_map_Some _ _ _ Hr).
    apply list_elem_of_fmap. exists (to, w). split; [done|]. by apply elem_of_range.
Qed.

Lemma NoDup_edges ord g : NoDup (edges ord g).
Proof.
  unfold edges. apply NoDup_bind.
  - intros [k1 r1] [k2 r2] [from e] Hk1 Hk2 H1 H2.
    apply list_elem_of_fmap in H1 as (? & [= -> _] & _).
    apply list_elem_of_fmap in H2 as (? & [= E _] & _). simpl in E. subst k2.
    apply elem_of_range in Hk1, Hk2. congruence.
  - intros [k r] _. apply NoDup_fmap_2; [intros ?? [=]; done|].
    eapply NoDup_fmap_1, NoDup_range.
  - eapply NoDup_fmap_1, NoDup_range.
Qed.

Lemma relax_pass_edges ord g d :
  relax_pass ord g d = foldl (λ d e, relax_edge e.1 d e.2) d (edges ord g).
Proof.
  unfold relax_pass, edges. revert d.
  induction (range ord (adjacency g)) as [|r rows IH]; intros d; [done|].
  rewrite bind_cons, foldl_app. simpl. rewrite IH. f_equal.
  by rewrite foldl_fmap.
Qed.

Lemma check_row_true d from row :
  check_row d from row = true ↔ ∃ e, e ∈ row ∧ improves d from e = true.
Proof.
  induction row as [|e row IH]; simpl.
  - split; [done|]. intros (e & He & _). by apply elem_of_nil in He.
  - destruct (improves d from e) eqn:E.
    + split; [|done]. intros _. exists e. split; [left|done].
    + rewrite IH. split; intros (e' & He & Hi).
      * exists e'. split; [by right|done].
      * apply elem_of_cons in He as [->|He]; [congruence|eauto].
Qed.

Lemma check_rows_true ord g d rows :
  check_rows ord g d rows = true ↔
  ∃ r e, r ∈ rows ∧ e ∈ range ord (adjacency g).[r.1] ∧ improves d r.1 e = true.
Proof.
  induction rows as [|r rows IH]; simpl.
  - split; [done|]. intros (r & e & Hr & _). by apply elem_of_nil in Hr.
  - destruct (check_row d r.1 _) eqn:E.
    + split; [|done]. intros _. apply check_row_true in E as (e & He & Hi).
      exists r, e. split; [left|done].
    + rewrite IH. split; intros (r' & e & Hr & He & Hi).
      * exists r', e. split; [by right|done].
      * apply elem_of_cons in Hr as [->|Hr]; [|eauto].
        assert (check_row d r.1 (range ord (adjacency g).[r.1]) = true) as E'
          by (apply check_row_true; eauto). congruence.
Qed.

Lemma check_rows_edges ord g d :
  check_rows ord g d (range ord (adjacency g)) = true ↔
  ∃ from to w, has_edge g from to w ∧ improves d from (to, w) = true.
Proof.
  rewrite check_rows_true. split.
  - intros ([k row] & [to w] & Hr & He & Hi). exists k, to, w. split; [|done].
    apply (elem_of_edges ord). apply list_elem_of_bind. exists (k, row). split; [|done].
    apply list_elem_of_fmap. by exists (to, w).
  - intros (from & to & w & He & Hi).
    apply (elem_of_edges ord) in He. apply list_elem_of_bind in He as ([k row] & He & Hr).
    apply list_elem_of_fmap in He as (e & [= -> <-] & He). by exists (k, row), (to, w).
Qed.

Lemma pass_count_size g : pass_count g = (size (nodes g) - 1)%nat.
Proof. unfold pass_count. lia. Qed.

Definition g_negcycle : Graph := build [(0, 1, 1%float); (1, 0, (-3)%float)].

Lemma range_two ord {V} (m : gmap Z V) x y :
  map_to_list m = [x; y] → range ord m = [x; y] ∨ range ord m = [y; x].
Proof.
  intros E. pose proof (range_perm ord V m) as H. rewrite E in H.
  symmetry in H. by apply Permutation_length_2_inv in H.
Qed.

Lemma negcycle_flag ord : (BellmanFord ord g_negcycle 0).2 = true.
Proof.
  assert (same_rows ord ascending g_negcycle) as Hr1
    by (apply small_rows_same; by_computation).
  assert (same_rows ord descending g_negcycle) as Hr2
    by (apply small_rows_same; by_computation).
  destruct (range_two ord (adjacency g_negcycle) _ _ eq_refl) as [E|E].
  - rewrite (BellmanFord_order ord descending); [by vm_compute| |done].
    rewrite E. by vm_compute.
  - rewrite (BellmanFord_order ord ascending); [by vm_compute| |done].
    rewrite E. by vm_compute.
Qed.

(** C2: Bellman-Ford returns the distances reached by |V|-1 passes, each
    of which relaxes every edge of the graph once, in range order; the
    flag is true exactly when some edge still improves those distances,
    which the check leaves as they are. On the graph 0→1 (1), 1→0 (-3)
    the flag is true for source 0, whatever the range order. *)
Theorem BellmanFord_passes_then_check (ord : RangeOrder) :
  (∀ g source,
     let relaxed :=
       Nat.iter (size (nodes g) - 1)
                (λ d, foldl (λ d e, relax_edge e.1 d e.2) d (edges ord g))
                (init_dist ord g source) in
     (∀ from to w, (from, (to, w)) ∈ edges ord g ↔ has_edge g from to w) ∧
     NoDup (edges ord g) ∧
     (BellmanFord ord g source).1 = relaxed ∧
     ((BellmanFord ord g source).2 = true ↔
      ∃ from to w, has_edge g from to w ∧ improves relaxed from (to, w) = true)) ∧
  (BellmanFord ord g_negcycle 0).2 = true.
Proof.
  split; [|apply negcycle_flag].
  intros g source relaxed.
  assert ((BellmanFord ord g source).1 = relaxed) as E.
  { unfold BellmanFord, relaxed. simpl. rewrite pass_count_size.
    apply iter_ext. intros. apply relax_pass_edges. }
  split; [intros; apply elem_of_edges|]. split; [apply NoDup_edges|].
  split; [done|]. rewrite <- E. apply check_rows_edges.
Qed.

(** ** Graphs built by the API *)

(** Both endpoints of every edge are registered, and the registry holds
    [true] only. *)
Record wf (g : Graph) : Prop := {
  wf_from : ∀ from row, adjacency g !! from = Some row → is_Some (nodes g !! from);
  wf_to : ∀ from row to w,
    adjacency g !! from = Some row → row !! to = Some w → is_Some (nodes g !! to);
  wf_true : ∀ k b, nodes g !! k = Some b → b = true
}.

Lemma wf_NewGraph : wf NewGraph.
Proof. split; simpl; intros *; by rewrite lookup_empty. Qed.

Lemma wf_AddEdge g from to w : wf g → wf (AddEdge g from to w).
Proof.
  intros [Hf Ht Hb]. split; simpl.
  - intros k row. rewrite lookup_insert. case_decide as E; [subst|].
    + intros _. destruct (decide (to = k)) as [->|].
      * rewrite lookup_insert_eq. eauto.
      * rewrite lookup_insert_ne, lookup_insert_eq by done. eauto.
    + intros Hk. assert (adjacency g !! k = Some row) as Hk'.
      { destruct (adjacency g !! from); [done|]. by rewrite lookup_insert_ne in Hk. }
      rewrite !lookup_insert. repeat case_decide; eauto.
  - intros k row to' w'. rewrite lookup_insert. case_decide as E; [subst|].
    + intros [= <-]. rewrite lookup_insert. case_decide; [subst|].
      * intros _. rewrite lookup_insert_eq. eauto.
      * intros Hw. rewrite !lookup_insert. repeat case_decide; eauto.
        unfold index_map in Hw.
        destruct (adjacency g !! k) as [row|] eqn:Hk; simpl in Hw.
        -- rewrite Hk in Hw. simpl in Hw. eauto.
        -- rewrite lookup_insert_eq in Hw. simpl in Hw. by rewrite lookup_empty in Hw.
    + intros Hk Hw. assert (adjacency g !! k = Some row) as Hk'.
      { destruct (adjacency g !! from); [done|]. by rewrite lookup_insert_ne in Hk. }
      rewrite !lookup_insert. repeat case_decide; eauto.
  - intros k b. rewrite !lookup_insert. repeat case_decide; try congruence. eauto.
Qed.

Lemma wf_build es : wf (build es).
Proof.
  unfold build. generalize wf_NewGraph. generalize NewGraph.
  induction es as [|e es IH]; intros g Hg; simpl; [done|].
  apply IH. by apply wf_AddEdge.
Qed.

Lemma has_edge_row g from to w :
  has_edge g from to w ↔ (adjacency g).[from] !! to = Some w.
Proof.
  unfold has_edge, index_map. split.
  - by intros (row & -> & ?).
  - destruct (adjacency g !! from) as [row|]; simpl; [eauto|].
    unfold zero_value, map_zero. by rewrite lookup_empty.
Qed.

Lemma wf_edge g from to w :
  wf g → has_edge g from to w → is_Some (nodes g !! from) ∧ is_Some (nodes g !! to).
Proof. intros Hg (row & Hr & Hw). split; [by eapply wf_from|by eapply wf_to]. Qed.

(** ** Connectivity: the DFS visits every registered node once *)

Section dfs.
Context (ord : RangeOrder) (g : Graph) (Hg : wf g).

(** The registered nodes not yet visited. *)
Definition unvisited (vis : gmap Z bool) : gset Z :=
  filter (λ k, vis.[k] = false) (dom (nodes g)).

(** What a traversal that appended [new] has done to the visited map. *)
Record extends (vis vis' : gmap Z bool) (new : list Z) : Prop := {
  ext_NoDup : NoDup new;
  ext_fresh : ∀ k, k ∈ new → vis.[k] = false ∧ is_Some (nodes g !! k);
  ext_visited : ∀ k, vis'.[k] = true ↔ vis.[k] = true ∨ k ∈ new
}.

Lemma extends_unvisited vis vis' new :
  extends vis vis' new → unvisited vis' ⊆ unvisited vis.
Proof.
  intros [_ _ Hv] k. unfold unvisited. rewrite !elem_of_filter.
  intros [Hk ?]. split; [|done].
  destruct (vis.[k]) eqn:E; [|done]. rewrite (proj2 (Hv k)) in Hk; auto.
Qed.

Lemma extends_trans vis vis1 vis2 new1 new2 :
  extends vis vis1 new1 → extends vis1 vis2 new2 → extends vis vis2 (new1 ++ new2).
Proof.
  intros [N1 F1 V1] [N2 F2 V2]. split.
  - apply NoDup_app. split; [done|]. split; [|done].
    intros k Hk1 Hk2. destruct (F2 k Hk2) as [Hf _].
    rewrite (proj2 (V1 k)) in Hf; auto. done.
  - intros k [Hk|Hk]%elem_of_app; [auto|].
    destruct (F2 k Hk) as [Hf ?]. split; [|done].
    destruct (vis.[k]) eqn:E; [|done]. rewrite (proj2 (V1 k)) in Hf; auto.
  - intros k. rewrite V2, V1, elem_of_app. tauto.
Qed.

Lemma dfs_visits fuel n vis comp :
  is_Some (nodes g !! n) → vis.[n] = false → (size (unvisited vis) ≤ fuel)%nat →
  ∃ vis' new, dfs fuel ord g n (vis, comp) = Some (vis', comp ++ n :: new) ∧
              extends vis vis' (n :: new).
Proof.
  revert n vis comp. induction fuel as [|fuel IH]; intros n vis comp Hn Hv Hfuel.
  { assert (n ∈ unvisited vis) as Hin
      by (apply elem_of_filter; split; [done|by apply elem_of_dom]).
    assert (size (unvisited vis) = 0)%nat as E%size_empty_iff by lia.
    rewrite E in Hin. set_solver. }
  simpl.
  assert (∀ e, e ∈ range ord (adjacency g).[n] → is_Some (nodes g !! e.1)) as Hnb.
  { intros [to w] He. apply elem_of_range in He.
    by apply has_edge_row, (wf_edge _ _ _ _ Hg) in He as [_ ?]. }
  assert (extends vis (<[n := true]> vis) [n]) as Hext0.
  { split.
    - apply NoDup_singleton.
    - intros k ->%list_elem_of_singleton. done.
    - intros k. rewrite index_map_insert, list_elem_of_singleton.
      case_decide; [subst; tauto|]. split; [tauto|]. intros [?|?]; congruence. }
  revert Hext0 Hnb. generalize (@nil Z) as new. generalize (<[n := true]> vis) as vis1.
  induction (range ord (adjacency g).[n]) as [|e l IHl]; intros vis1 new Hext Hnb; simpl.
  { by exists vis1, new. }
  destruct (vis1.[e.1]) eqn:Ee; simpl.
  { apply IHl; [done|]. intros. apply Hnb. by right. }
  assert (n ∈ unvisited vis) as Hin
    by (apply elem_of_filter; split; [done|by apply elem_of_dom]).
  assert (n ∉ unvisited vis1) as Hout.
  { unfold unvisited. rewrite elem_of_filter. intros [Hf _].
    rewrite (proj2 (ext_visited _ _ _ Hext n)) in Hf; [done|]. right. left. }
  destruct (IH e.1 vis1 (comp ++ n :: new)) as (vis2 & new2 & -> & Hext2).
  - apply Hnb. left.
  - done.
  - assert (unvisited vis1 ⊂ unvisited vis) as Hsub.
    { split; [by eapply extends_unvisited|]. intros Hsub. by apply Hout, Hsub. }
    apply subset_size in Hsub. lia.
  - rewrite <- (assoc_L (++)). simpl.
    apply (IHl vis2 (new ++ e.1 :: new2)).
    + apply (extends_trans vis vis1 vis2 (n :: new) (e.1 :: new2)); done.
    + intros. apply Hnb. by right.
Qed.

(** The state of the outer loop: [comps] lists exactly the visited nodes,
    each once, and all of them registered. *)
Record cc_inv (vis : gmap Z bool) (comps : list (list Z)) : Prop := {
  cc_NoDup : NoDup (concat comps);
  cc_visited : ∀ k, vis.[k] = true ↔ k ∈ concat comps;
  cc_nodes : ∀ k, k ∈ concat comps → is_Some (nodes g !! k)
}.

Lemma cc_loop fuel (l : list (Z * bool)) vis comps :
  (size (nodes g) ≤ fuel)%nat → (∀ e, e ∈ l → is_Some (nodes g !! e.1)) →
  cc_inv vis comps →
  ∃ vis' comps',
    foldl (λ oacc e,
             acc ← oacc;
             if negb (acc.1).[e.1] then
               r ← dfs fuel ord g e.1 (acc.1, []);
               Some (r.1, acc.2 ++ [r.2])
             else Some acc)
          (Some (vis, comps)) l = Some (vis', comps') ∧
    cc_inv vis' comps' ∧
    (∀ k, vis.[k] = true → vis'.[k] = true) ∧
    (∀ e, e ∈ l → vis'.[e.1] = true).
Proof.
  intros Hfuel. revert vis comps.
  induction l as [|e l IH]; intros vis comps Hl Hinv; simpl.
  { exists vis, comps. split; [done|]. split; [done|]. split; [done|].
    intros e He. by apply elem_of_nil in He. }
  destruct (vis.[e.1]) eqn:Ee; simpl.
  - destruct (IH vis comps) as (vis' & comps' & -> & Hinv' & Hmono & Hall); [|done|].
    { intros. apply Hl. by right. }
    exists vis', comps'. split; [done|]. split; [done|]. split; [done|].
    intros e' [->|He]%elem_of_cons; auto.
  - destruct (dfs_visits fuel e.1 vis []) as (vis1 & new & -> & Hext).
    { apply Hl. left. }
    { done. }
    { etrans; [|exact Hfuel]. rewrite <- size_dom. apply subseteq_size.
      unfold unvisited. intros k. rewrite elem_of_filter. tauto. }
    simpl.
    destruct (IH vis1 (comps ++ [e.1 :: new])) as (vis' & comps' & -> & Hinv' & Hmono & Hall).
    { intros. apply Hl. by right. }
    { destruct Hinv as [N V R], Hext as [N1 F1 V1].
      split; rewrite concat_app; simpl; rewrite app_nil_r.
      - apply NoDup_app. split; [done|]. split; [|done].
        intros k Hk1 Hk2. apply V in Hk1. destruct (F1 k Hk2). congruence.
      - intros k. rewrite V1, V, elem_of_app. tauto.
      - intros k [Hk|Hk]%elem_of_app; [auto|]. by apply F1. }
    exists vis', comps'. split; [done|]. split; [done|].
    split.
    + intros k Hk. apply Hmono, (ext_visited _ _ _ Hext). auto.
    + intros e' [->|He]%elem_of_cons; [|auto].
      apply Hmono, (ext_visited _ _ _ Hext). right. left.
Qed.

Lemma ConnectedComponents_partition fuel :
  (size (nodes g) ≤ fuel)%nat →
  ∃ comps, ConnectedComponents fuel ord g = Some comps ∧
           NoDup (concat comps) ∧
           ∀ k, k ∈ concat comps ↔ is_Some (nodes g !! k).
Proof.
  intros Hfuel. unfold ConnectedComponents.
  destruct (cc_loop fuel (range ord (nodes g)) ∅ []) as (vis & comps & -> & Hinv & _ & Hall).
  - done.
  - intros [k b] He. apply elem_of_range in He. eauto.
  - split; simpl.
    + constructor.
    + intros k. unfold index_map. rewrite lookup_empty. simpl.
      split; [done|]. intros H. by apply elem_of_nil in H.
    + intros k H. by apply elem_of_nil in H.
  - exists comps. split; [done|]. split; [apply Hinv|].
    intros k. split; [apply Hinv|]. intros [b Hb].
    apply (cc_visited _ _ Hinv). apply (Hall (k, b)). by apply elem_of_range.
Qed.
End dfs.

(** ** A* with the zero heuristic *)

(** Adding [+0] to a priority does not change how it compares. *)
Lemma ltb_add_zero_l x r : PrimFloat.ltb (PrimFloat.add x 0%float) r = PrimFloat.ltb x r.
Proof.
  rewrite !FloatAxioms.ltb_spec, FloatAxioms.add_spec.
  change (Prim2SF 0) with (S754_zero false).
  by destruct (Prim2SF x) as [[]| | |].
Qed.

Lemma ltb_add_zero_r x r : PrimFloat.ltb r (PrimFloat.add x 0%float) = PrimFloat.ltb r x.
Proof.
  rewrite !FloatAxioms.ltb_spec, FloatAxioms.add_spec.
  change (Prim2SF 0) with (S754_zero false).
  destruct (Prim2SF x) as [[]| | |]; try done; by destruct (Prim2SF r) as [[]| | |].
Qed.

(** Two priorities that compare alike with every float. *)
Definition same_rank (p q : float) : Prop :=
  ∀ r, PrimFloat.ltb p r = PrimFloat.ltb q r ∧ PrimFloat.ltb r p = PrimFloat.ltb r q.

Lemma same_rank_add_zero p : same_rank p (PrimFloat.add p 0%float).
Proof. intros r. by rewrite ltb_add_zero_l, ltb_add_zero_r. Qed.

Lemma same_rank_ltb p1 q1 p2 q2 :
  same_rank p1 q1 → same_rank p2 q2 → PrimFloat.ltb p1 p2 = PrimFloat.ltb q1 q2.
Proof. intros H1 H2. rewrite (proj1 (H1 p2)). apply H2. Qed.

Definition item_rel (a b : item) : Prop :=
  node a = node b ∧ index a = index b ∧ same_rank (priority a) (priority b).

Abbreviation pq_rel := (Forall2 item_rel).

Lemma set_index_rel a b i : item_rel a b → item_rel (set_index a i) (set_index b i).
Proof. intros (? & ? & ?). done. Qed.

Lemma pq_rel_Len p q : pq_rel p q → pq_Len p = pq_Len q.
Proof. intros H. unfold pq_Len. by rewrite (Forall2_length _ _ _ H). Qed.

Lemma pq_rel_lookup p q i :
  pq_rel p q → option_Forall2 item_rel (p !! i) (q !! i).
Proof. intros H. by apply Forall2_lookup. Qed.

Lemma pq_Less_rel p q i j : pq_rel p q → pq_Less p i j = pq_Less q i j.
Proof.
  intros H. unfold pq_Less.
  destruct (pq_rel_lookup p q (Z.to_nat i) H) as [a b (_ & _ & Hab)|]; [|done].
  destruct (pq_rel_lookup p q (Z.to_nat j) H) as [c d (_ & _ & Hcd)|]; [|done].
  by apply same_rank_ltb.
Qed.

Lemma pq_Swap_rel p q i j : pq_rel p q → pq_rel (pq_Swap p i j) (pq_Swap q i j).
Proof.
  intros H. unfold pq_Swap.
  destruct (pq_rel_lookup p q (Z.to_nat i) H) as [a b Hab|]; [|done].
  destruct (pq_rel_lookup p q (Z.to_nat j) H) as [c d Hcd|]; [|done].
  auto using Forall2_insert, set_index_rel.
Qed.

Lemma up_rel fuel p q j : pq_rel p q → pq_rel (up fuel p j) (up fuel q j).
Proof.
  revert p q j. induction fuel as [|fuel IH]; intros p q j H; simpl; [done|].
  rewrite (pq_Less_rel p q) by done.
  destruct (_ || _); [done|]. by apply IH, pq_Swap_rel.
Qed.

Lemma down_rel fuel p q i n : pq_rel p q → pq_rel (down fuel p i n) (down fuel q i n).
Proof.
  revert p q i. induction fuel as [|fuel IH]; intros p q i H; simpl; [done|].
  destruct (_ || _); [done|].
  rewrite !(pq_Less_rel p q) by done.
  destruct (negb _); [done|]. by apply IH, pq_Swap_rel.
Qed.

Lemma heap_Push_rel p q x y :
  pq_rel p q → item_rel x y → pq_rel (heap_Push p x) (heap_Push q y).
Proof.
  intros H Hxy. unfold heap_Push.
  assert (pq_rel (pq_Push p x) (pq_Push q y)) as H'.
  { unfold pq_Push. rewrite (pq_rel_Len p q H).
    apply Forall2_app; [done|]. constructor; [|done]. by apply set_index_rel. }
  rewrite (pq_rel_Len _ _ H'), (Forall2_length _ _ _ H'). by apply up_rel.
Qed.

Lemma heap_Pop_rel p q :
  pq_rel p q →
  option_Forall2 (λ r1 r2, item_rel r1.1 r2.1 ∧ pq_rel r1.2 r2.2) (heap_Pop p) (heap_Pop q).
Proof.
  intros H. unfold heap_Pop.
  rewrite (pq_rel_Len p q H), (Forall2_length _ _ _ H).
  assert (pq_rel (down (length q) (pq_Swap p 0 (pq_Len q - 1)) 0 (pq_Len q - 1))
                 (down (length q) (pq_Swap q 0 (pq_Len q - 1)) 0 (pq_Len q - 1))) as H'
    by by apply down_rel, pq_Swap_rel.
  revert H'. generalize (down (length q) (pq_Swap p 0 (pq_Len q - 1)) 0 (pq_Len q - 1)).
  generalize (down (length q) (pq_Swap q 0 (pq_Len q - 1)) 0 (pq_Len q - 1)).
  intros q' p' H'. unfold pq_Pop. rewrite (pq_rel_Len p' q' H').
  destruct (pq_rel_lookup p' q' (Z.to_nat (pq_Len q' - 1)) H') as [a b Hab|]; simpl; [|constructor].
  destruct (pq_Len q' =? 0); constructor. simpl.
  split; [by apply set_index_rel|by apply Forall2_take].
Qed.

(** Two search states that differ only by the rank-preserving priorities
    of their queues. *)
Definition search_rel (s1 s2 : search) : Prop :=
  dist s1 = dist s2 ∧ prev s1 = prev s2 ∧ visited s1 = visited s2 ∧ pq_rel (pq s1) (pq s2).

Lemma relax_rel u s1 s2 e :
  search_rel s1 s2 →
  search_rel (relax (λ _ d, d) u s1 e)
             (relax (λ n d, PrimFloat.add d 0%float) u s2 e).
Proof.
  intros (Hd & Hp & Hv & Hq). destruct e as [nb w]. unfold relax.
  rewrite Hd, Hv. destruct (_.[nb]); [done|].
  destruct (PrimFloat.ltb _ _); [|done].
  split; [simpl; congruence|]. split; [simpl; congruence|]. split; [done|]. simpl.
  apply heap_Push_rel; [done|]. split; [done|]. split; [done|]. apply same_rank_add_zero.
Qed.

Lemma search_loop_rel fuel ord g target s1 s2 :
  search_rel s1 s2 →
  option_Forall2 search_rel
    (search_loop fuel ord g (λ _ d, d) target s1)
    (search_loop fuel ord g (λ n d, PrimFloat.add d 0%float) target s2).
Proof.
  revert s1 s2. induction fuel as [|fuel IH]; intros s1 s2 Hs; simpl; [constructor|].
  destruct Hs as (Hd & Hp & Hv & Hq).
  rewrite (pq_rel_Len _ _ Hq).
  destruct (0 <? pq_Len (pq s2)); [|by constructor].
  destruct (heap_Pop_rel _ _ Hq) as [[a p'] [b q'] [(Hn & _) Hq']|]; [|constructor].
  simpl in *. rewrite Hn, Hv.
  destruct (_.[node b]).
  { apply IH. by repeat split. }
  destruct (node b =? target).
  { constructor. repeat split; simpl; congruence. }
  apply IH.
  assert (search_rel
    {| dist := dist s1; prev := prev s1; visited := <[node b:=true]> (visited s2); pq := p' |}
    {| dist := dist s2; prev := prev s2; visited := <[node b:=true]> (visited s2); pq := q' |})
    as Hs by by repeat split.
  revert Hs. generalize (range ord (adjacency g).[node b]). intros l.
  match goal with |- search_rel ?a ?b → _ => generalize a b end.
  induction l as [|e l IHl]; intros t1 t2 Ht; simpl; [done|].
  by apply IHl, relax_rel.
Qed.

(** C4: with the heuristic that is zero everywhere, A* returns the
    distance and the path that Dijkstra returns, for every graph, source
    and target, the graph's maps being ranged in the same order. *)
Theorem AStar_zero_heuristic_is_Dijkstra (fuel : nat) (ord : RangeOrder) (g : Graph)
    (source target : Z) :
  AStar fuel ord g source target (λ _ _, 0%float) = Dijkstra fuel ord g source target.
Proof.
  unfold AStar, Dijkstra.
  assert (search_rel (start ord g source 0%float) (start ord g source 0%float)) as Hs.
  { repeat split. apply Forall2_same_length_lookup. split; [done|].
    intros i x y -> [= ->]. repeat split. }
  destruct (search_loop_rel fuel ord g target _ _ Hs) as [s1 s2 (Hd & Hp & _)|]; [|done].
  unfold reconstruct. by rewrite Hd, Hp.
Qed.

(** C7: for every graph built by the API and every range order, with a
    recursion depth of at least the number of registered nodes,
    [IsConnected] is true exactly when the components that
    [ConnectedComponents] returns are one, and these components list every
    registered node, and no node twice. *)
Theorem components_partition_registry (ord : RangeOrder) (es : list (Z * Z * float))
    (fuel : nat) :
  (size (nodes (build es)) ≤ fuel)%nat →
  ∃ comps,
    ConnectedComponents fuel ord (build es) = Some comps ∧
    (IsConnected fuel ord (build es) = Some true ↔ length comps = 1%nat) ∧
    (∃ b, IsConnected fuel ord (build es) = Some b) ∧
    (∀ k, k ∈ concat comps ↔ is_Some (nodes (build es) !! k)) ∧
    NoDup (concat comps).
Proof.
  intros Hfuel.
  destruct (ConnectedComponents_partition ord _ (wf_build es) fuel Hfuel)
    as (comps & E & HN & Hall).
  exists comps. unfold IsConnected. rewrite E. simpl.
  split; [done|]. split; [|by eauto].
  split; [intros [= H]; by apply bool_decide_eq_true in H|].
  intros H. by rewrite bool_decide_eq_true_2.
Qed.

Lemma components_partition_registry_witness :
  ∃ comps,
    ConnectedComponents 4 descending
      (build [(0, 1, 1%float); (1, 0, 1%float); (2, 3, 1%float)]) = Some comps ∧
    (IsConnected 4 descending
       (build [(0, 1, 1%float); (1, 0, 1%float); (2, 3, 1%float)]) = Some true
     ↔ length comps = 1%nat) ∧
    (∃ b, IsConnected 4 descending
            (build [(0, 1, 1%float); (1, 0, 1%float); (2, 3, 1%float)]) = Some b) ∧
    (∀ k, k ∈ concat comps
          ↔ is_Some (nodes (build [(0, 1, 1%float); (1, 0, 1%float); (2, 3, 1%float)]) !! k)) ∧
    NoDup (concat comps).
Proof.
  apply (components_partition_registry descending
           [(0, 1, 1%float); (1, 0, 1%float); (2, 3, 1%float)] 4).
  vm_compute. lia.
Defined.

(** ** The heap keeps its entries *)

(** What an item carries besides its position. *)
Definition entry (it : item) : Z * float := (node it, priority it).

Lemma entry_set_index it i : entry (set_index it i) = entry it.
Proof. done. Qed.

Lemma list_swap_perm {A} (l : list A) (i j : nat) (a b : A) :
  l !! i = Some a → l !! j = Some b → <[j := a]> (<[i := b]> l) ≡ₚ l.
Proof.
  intros Hi Hj. apply Permutation_inj. split; [by rewrite !length_insert|].
  pose proof (lookup_lt_Some _ _ _ Hi). pose proof (lookup_lt_Some _ _ _ Hj).
  exists (λ k, if decide (k = i) then j else if decide (k = j) then i else k). split.
  - intros x y. repeat case_decide; lia.
  - intros k. destruct (decide (k = j)) as [->|Hkj].
    + rewrite list_lookup_insert_eq by (rewrite length_insert; lia).
      case_decide; [subst|]; congruence.
    + rewrite list_lookup_insert_ne by done.
      destruct (decide (k = i)) as [->|Hki].
      * rewrite list_lookup_insert_eq by lia. congruence.
      * by rewrite list_lookup_insert_ne.
Qed.

Lemma pq_Swap_perm pq i j : entry <$> pq_Swap pq i j ≡ₚ entry <$> pq.
Proof.
  unfold pq_Swap.
  destruct (pq !! Z.to_nat i) as [a|] eqn:Ea; [|done].
  destruct (pq !! Z.to_nat j) as [b|] eqn:Eb; [|done].
  rewrite !list_fmap_insert, !entry_set_index.
  apply list_swap_perm; by rewrite list_lookup_fmap, ?Ea, ?Eb.
Qed.

Lemma up_perm fuel pq j : entry <$> up fuel pq j ≡ₚ entry <$> pq.
Proof.
  revert pq j. induction fuel as [|fuel IH]; intros pq j; simpl; [done|].
  destruct (_ || _); [done|]. by rewrite IH, pq_Swap_perm.
Qed.

Lemma down_perm fuel pq i n : entry <$> down fuel pq i n ≡ₚ entry <$> pq.
Proof.
  revert pq i. induction fuel as [|fuel IH]; intros pq i; simpl; [done|].
  destruct (_ || _); [done|]. destruct (negb _); [done|].
  by rewrite IH, pq_Swap_perm.
Qed.

Lemma heap_Push_perm pq x : entry <$> heap_Push pq x ≡ₚ entry x :: (entry <$> pq).
Proof.
  unfold heap_Push, pq_Push. rewrite up_perm, fmap_app. simpl.
  by rewrite entry_set_index, <- Permutation_cons_append.
Qed.

Lemma heap_Push_length pq x : length (heap_Push pq x) = S (length pq).
Proof.
  rewrite <- (length_fmap entry), heap_Push_perm. simpl. by rewrite length_fmap.
Qed.

Lemma heap_Pop_perm pq :
  pq ≠ [] →
  ∃ it rest, heap_Pop pq = Some (it, rest) ∧ entry it :: (entry <$> rest) ≡ₚ entry <$> pq.
Proof.
  intros Hne. unfold heap_Pop.
  pose proof (down_perm (length pq) (pq_Swap pq 0 (pq_Len pq - 1)) 0 (pq_Len pq - 1)) as Hp.
  rewrite pq_Swap_perm in Hp. revert Hp.
  generalize (down (length pq) (pq_Swap pq 0 (pq_Len pq - 1)) 0 (pq_Len pq - 1)).
  intros q Hp. unfold pq_Pop.
  assert (length q = length pq) as Hlen
    by (apply Permutation_length in Hp; by rewrite !length_fmap in Hp).
  assert (0 < length pq)%nat as Hpos by (destruct pq; [done|simpl; lia]).
  assert (Z.to_nat (pq_Len q - 1) = (length q - 1)%nat) as -> by (unfold pq_Len; lia).
  destruct (lookup_lt_is_Some_2 q (length q - 1)) as [it Hit]; [lia|].
  rewrite Hit. simpl.
  assert ((pq_Len q =? 0) = false) as -> by (unfold pq_Len; lia).
  eexists _, _. split; [done|].
  rewrite entry_set_index, <- Hp.
  rewrite <- (take_drop_middle q (length q - 1) it Hit) at 3.
  rewrite drop_ge by lia. rewrite fmap_app. simpl.
  by rewrite <- Permutation_cons_append.
Qed.

Lemma heap_Pop_Some pq it rest :
  heap_Pop pq = Some (it, rest) → entry it :: (entry <$> rest) ≡ₚ entry <$> pq.
Proof.
  intros E. destruct pq as [|x pq]; [done|].
  destruct (heap_Pop_perm (x :: pq)) as (it' & rest' & E' & Hp); [done|]. congruence.
Qed.

(** ** The fuel of [up] and [down] suffices *)

(** [up] moves from [j] to its parent, which is nearer to the root: with
    more than [j] steps of fuel the loop ends by its own test, and more
    fuel gives the same heap. *)
Lemma up_fuel_enough fuel fuel' q j :
  0 ≤ j → (Z.to_nat j < fuel)%nat → (Z.to_nat j < fuel')%nat →
  up fuel q j = up fuel' q j.
Proof.
  revert fuel' q j. induction fuel as [|fuel IH]; intros fuel' q j Hj Hf Hf'; [lia|].
  destruct fuel' as [|fuel']; [lia|]. simpl.
  destruct (Z.eqb_spec (Z.quot (j - 1) 2) j) as [E|E]; [done|]. simpl.
  destruct (negb _); [done|].
  assert (0 < j) as Hpos.
  { destruct (decide (j = 0)) as [->|]; [|lia]. by vm_compute in E. }
  pose proof (Z.quot_pos (j - 1) 2 ltac:(lia) ltac:(lia)).
  pose proof (Z.quot_lt (j - 1) 2).
  assert (Z.quot (j - 1) 2 < j).
  { destruct (decide (j = 1)) as [->|]; [by vm_compute|]. lia. }
  apply IH; lia.
Qed.

(** [down] moves from [i] to a child, which is nearer to [n]. *)
Lemma down_fuel_enough fuel fuel' q i n :
  0 ≤ i → (Z.to_nat (n - i) ≤ fuel)%nat → (Z.to_nat (n - i) ≤ fuel')%nat →
  down fuel q i n = down fuel' q i n.
Proof.
  revert fuel' q i. induction fuel as [|fuel IH]; intros fuel' q i Hi Hf Hf'.
  - destruct fuel' as [|fuel']; [done|]. simpl.
    assert ((n <=? 2 * i + 1) = true) as -> by lia. done.
  - destruct fuel' as [|fuel'].
    + simpl. assert ((n <=? 2 * i + 1) = true) as -> by lia. done.
    + simpl. destruct (Z.leb_spec n (2 * i + 1)); [done|]. simpl.
      destruct (Z.ltb_spec (2 * i + 1) 0); [done|]. simpl.
      destruct (negb _); [done|].
      destruct ((2 * i + 1 + 1 <? n) && _); apply IH; lia.
Qed.

(** ** The main loop of Dijkstra and A*: termination *)

Definition set_pq (st : search) (q : list item) : search :=
  {| dist := dist st; prev := prev st; visited := visited st; pq := q |}.

Definition visit (st : search) (u : Z) (q : list item) : search :=
  {| dist := dist st; prev := prev st; visited := <[u := true]> (visited st); pq := q |}.

Section termination.
Context (ord : RangeOrder) (g : Graph) (h : Z → float → float) (target : Z).

(** The edges out of the nodes not yet visited: each can push one entry. *)
Definition pending (vis : gmap Z bool) : nat :=
  sum_list_with (λ r : Z * gmap Z float, if vis.[r.1] then 0%nat else size r.2)
                (map_to_list (adjacency g)).

Definition measure (st : search) : nat := (length (pq st) + pending (visited st))%nat.

Lemma sum_list_with_ext {A} (f1 f2 : A → nat) l :
  (∀ x, x ∈ l → f1 x = f2 x) → sum_list_with f1 l = sum_list_with f2 l.
Proof.
  induction l as [|x l IH]; intros H; simpl; [done|].
  rewrite H by left. rewrite IH; [done|]. intros. apply H. by right.
Qed.

Lemma pending_visit vis u :
  vis.[u] = false →
  (pending (<[u := true]> vis) + size (adjacency g).[u] = pending vis)%nat.
Proof.
  intros Hu. unfold pending, index_map at 2.
  destruct (adjacency g !! u) as [row|] eqn:E; simpl.
  - rewrite <- (insert_delete_id (adjacency g) u row E).
    rewrite !map_to_list_insert by apply lookup_delete_eq. simpl.
    rewrite index_map_insert_eq, Hu.
    rewrite (sum_list_with_ext _ (λ r : Z * gmap Z float, if vis.[r.1] then 0%nat else size r.2));
      [lia|].
    intros [k r] Hk. apply elem_of_map_to_list in Hk. simpl.
    rewrite index_map_insert_ne; [done|]. intros ->. by rewrite lookup_delete_eq in Hk.
  - unfold zero_value, map_zero. rewrite map_size_empty, Nat.add_0_r.
    apply sum_list_with_ext. intros [k r] Hk. apply elem_of_map_to_list in Hk. simpl.
    rewrite index_map_insert_ne; [done|]. congruence.
Qed.

Lemma relax_length u st e :
  (length (pq (relax h u st e)) ≤ S (length (pq st)))%nat ∧
  visited (relax h u st e) = visited st.
Proof.
  destruct e as [nb w]. unfold relax. destruct (_.[nb]); [split; [lia|done]|].
  destruct (PrimFloat.ltb _ _); simpl; [|split; [lia|done]].
  rewrite heap_Push_length. done.
Qed.

Lemma relax_all_length u st l :
  (length (pq (foldl (relax h u) st l)) ≤ length l + length (pq st))%nat ∧
  visited (foldl (relax h u) st l) = visited st.
Proof.
  revert st. induction l as [|e l IH]; intros st; simpl; [done|].
  destruct (IH (relax h u st e)) as [H1 H2].
  destruct (relax_length u st e) as [H3 H4]. split; [lia|congruence].
Qed.

Lemma heap_Pop_length q it rest : heap_Pop q = Some (it, rest) → length q = S (length rest).
Proof.
  intros E%heap_Pop_Some%Permutation_length. simpl in E. by rewrite !length_fmap in E.
Qed.

(** The loop rule: an invariant [P] of the loop head and an invariant
    [P' u done] of the inner loop, after the edges [done] of [u]. *)
Lemma search_loop_rule (P : search → Prop) (P' : Z → list (Z * float) → search → Prop) :
  (∀ st cur rest, P st → heap_Pop (pq st) = Some (cur, rest) →
     (visited st).[node cur] = true → P (set_pq st rest)) →
  (∀ st cur rest, P st → heap_Pop (pq st) = Some (cur, rest) →
     (visited st).[node cur] = false → P' (node cur) [] (visit st (node cur) rest)) →
  (∀ u done e rest st, P' u done st → range ord (adjacency g).[u] = done ++ e :: rest →
     P' u (done ++ [e]) (relax h u st e)) →
  (∀ u st, u ≠ target → P' u (range ord (adjacency g).[u]) st → P st) →
  ∀ fuel st, P st → (measure st < fuel)%nat →
  ∃ st', search_loop fuel ord g h target st = Some st' ∧
         ((P st' ∧ pq st' = []) ∨ P' target [] st').
Proof.
  intros Hskip Hvisit Hrelax Hclose.
  assert (∀ u l done s, range ord (adjacency g).[u] = done ++ l →
            P' u done s → P' u (done ++ l) (foldl (relax h u) s l)) as Hall.
  { intros u l. induction l as [|e l IHl]; intros done s Hd Hs; simpl.
    - by rewrite app_nil_r.
    - rewrite (cons_middle e done l), (assoc_L (++)). apply IHl.
      + by rewrite <- (assoc_L (++)).
      + by eapply Hrelax. }
  induction fuel as [|fuel IH]; intros st HP Hm; [lia|]. simpl.
  destruct (pq st) as [|x q] eqn:Eq.
  { exists st. split; [done|]. left. done. }
  assert ((0 <? pq_Len (x :: q)) = true) as ->
    by (apply Z.ltb_lt; unfold pq_Len; simpl; lia).
  destruct (heap_Pop_perm (x :: q)) as (cur & rest & E & _); [done|]. rewrite E.
  rewrite <- Eq in E. pose proof (heap_Pop_length _ _ _ E) as Hlen.
  destruct ((visited st).[node cur]) eqn:Ev.
  { apply IH; [by eapply Hskip|]. unfold measure in *. simpl. lia. }
  pose proof (Hvisit _ _ _ HP E Ev) as HP'.
  destruct (Z.eqb_spec (node cur) target) as [Et|Et].
  { eexists. split; [done|]. right. by rewrite <- Et. }
  apply IH.
  - apply (Hclose (node cur)); [done|].
    by apply (Hall (node cur) (range ord (adjacency g).[node cur]) []).
  - unfold measure in *.
    destruct (relax_all_length (node cur) (visit st (node cur) rest)
                (range ord (adjacency g).[node cur])) as [H1 H2].
    unfold visit in *. rewrite H2. simpl. pose proof (pending_visit _ _ Ev) as Hp.
    rewrite length_range in H1. simpl in H1. lia.
Qed.
End termination.

(** ** The main loop of Dijkstra and A*: the predecessor structure *)

Lemma nodes_of_entries (q : list item) : node <$> q = (entry <$> q).*1.
Proof. by rewrite <- list_fmap_compose. Qed.

Lemma nodes_Pop q cur rest :
  heap_Pop q = Some (cur, rest) → node cur :: (node <$> rest) ≡ₚ node <$> q.
Proof.
  intros E%heap_Pop_Some. rewrite !nodes_of_entries, <- E. done.
Qed.

Lemma nodes_Push q x : node <$> heap_Push q x ≡ₚ node x :: (node <$> q).
Proof. by rewrite !nodes_of_entries, heap_Push_perm. Qed.

Section invariant.
Context (ord : RangeOrder) (g : Graph) (Hg : wf g) (h : Z → float → float)
        (source : Z).

(** [chain prev v l]: [l] is the list of nodes from [source] to [v] that
    the predecessor map links. *)
Inductive chain (prev : gmap Z Z) : Z → list Z → Prop :=
| chain_source : chain prev source [source]
| chain_step n p l :
    n ≠ source → prev !! n = Some p → chain prev p l → chain prev n (l ++ [n]).

Lemma chain_head prev v l : chain prev v l → ∃ l', l = source :: l'.
Proof.
  induction 1 as [|n p l _ _ _ [l' ->]]; [by exists []|]. by exists (l' ++ [n]).
Qed.

Lemma chain_last prev v l : chain prev v l → last l = Some v.
Proof. destruct 1; [done|]. by rewrite last_snoc. Qed.

Lemma chain_ext prev prev' v l :
  chain prev v l → (∀ x, x ∈ l → prev' !! x = prev !! x) → chain prev' v l.
Proof.
  induction 1 as [|n p l Hn Hp _ IH]; intros Hx; [constructor|].
  apply chain_step with p; [done| |].
  - rewrite Hx; [done|]. apply elem_of_app. right. left.
  - apply IH. intros x Hin. apply Hx, elem_of_app. by left.
Qed.

Lemma walk_back_chain prev v l :
  chain prev v l →
  ∀ fuel acc, (length l ≤ fuel)%nat →
    walk_back fuel prev source v acc = Some (drop 1 l ++ acc).
Proof.
  induction 1 as [|n p l Hn Hp Hc IH]; intros fuel acc Hf.
  - destruct fuel; [simpl in Hf; lia|]. simpl. by rewrite Z.eqb_refl.
  - rewrite length_app in Hf. simpl in Hf. destruct fuel; [lia|]. simpl.
    destruct (Z.eqb_spec n source); [done|].
    rewrite (index_map_Some _ _ _ Hp), IH by lia.
    destruct (chain_head _ _ _ Hc) as [l' ->]. simpl. by rewrite !drop_0, <- (assoc_L (++)).
Qed.

Definition queued (st : search) (k : Z) : Prop := k ∈ node <$> pq st.

Record inv (st : search) : Prop := {
  inv_source : dist st !! source = Some 0%float;
  inv_dom : ∀ k, is_Some (dist st !! k) ↔ k = source ∨ is_Some (nodes g !! k);
  inv_prev : ∀ n p, prev st !! n = Some p →
    (visited st).[p] = true ∧ n ≠ source ∧
    ∃ w, has_edge g p n w ∧ dist st !! n = Some (PrimFloat.add (dist st).[p] w);
  inv_settled : ∀ v, (visited st).[v] = true → v = source ∨ is_Some (prev st !! v);
  inv_queue : ∀ k, queued st k → k = source ∨ is_Some (prev st !! k);
  inv_seen : (visited st).[source] = true ∨ queued st source;
  inv_untouched : ∀ k, k ≠ source → prev st !! k = None →
    dist st !! k = init_dist ord g source !! k;
  inv_frontier : ∀ k, is_Some (prev st !! k) → (visited st).[k] = true ∨ queued st k;
  inv_chain : ∀ v, (visited st).[v] = true →
    ∃ l, chain (prev st) v l ∧ NoDup l ∧ ∀ x, x ∈ l → (visited st).[x] = true
}.

Lemma start_pq p0 : heap_Push (heap_Init []) (Item source p0 0) = [Item source p0 0].
Proof. done. Qed.

Lemma inv_start p0 : inv (start ord g source p0).
Proof.
  unfold start. rewrite start_pq. split; simpl.
  - rewrite init_dist_lookup. by case_decide.
  - intros k. rewrite init_dist_lookup.
    destruct (decide (source = k)) as [->|Hne]; [split; eauto|].
    destruct (decide (is_Some (nodes g !! k))) as [Hk|Hk].
    + split; eauto.
    + split; [by intros [? ?]|]. intros [?|?]; congruence.
  - intros n p. by rewrite lookup_empty.
  - intros v. unfold index_map. by rewrite lookup_empty.
  - intros k Hk. apply list_elem_of_singleton in Hk. by left.
  - right. apply list_elem_of_singleton. done.
  - done.
  - intros k. rewrite lookup_empty. by intros [? ?].
  - intros v. unfold index_map. by rewrite lookup_empty.
Qed.

Lemma inv_skip st cur rest :
  inv st → heap_Pop (pq st) = Some (cur, rest) → (visited st).[node cur] = true →
  inv (set_pq st rest).
Proof.
  intros [Hs Hd Hp Hv Hq Hn Hu Hf Hc] E Ev. pose proof (nodes_Pop _ _ _ E) as Hperm.
  assert (∀ k, queued st k ↔ k = node cur ∨ queued (set_pq st rest) k) as Hqd.
  { intros k. unfold queued. simpl. rewrite <- Hperm. apply elem_of_cons. }
  split; simpl; try done.
  - intros k Hk. apply Hq, Hqd. by right.
  - destruct Hn as [?|[->|?]%Hqd]; auto.
  - intros k Hk. destruct (Hf k Hk) as [?|[->|?]%Hqd]; auto.
Qed.

Lemma inv_visit st cur rest :
  inv st → heap_Pop (pq st) = Some (cur, rest) → (visited st).[node cur] = false →
  inv (visit st (node cur) rest).
Proof.
  intros [Hs Hd Hp Hv Hq Hn Hu Hf Hc] E Ev. pose proof (nodes_Pop _ _ _ E) as Hperm.
  assert (∀ k, queued st k ↔ k = node cur ∨ queued (set_pq st rest) k) as Hqd.
  { intros k. unfold queued. simpl. rewrite <- Hperm. apply elem_of_cons. }
  assert (∀ k, (visited st).[k] = true → (<[node cur := true]> (visited st)).[k] = true)
    as Hmono.
  { intros k Hk. rewrite index_map_insert. by case_decide. }
  split; simpl; try done.
  - intros n p Hn'. destruct (Hp n p Hn') as (? & ? & ?). auto.
  - intros v. rewrite index_map_insert. case_decide; [subst|by auto].
    intros _. apply Hq, Hqd. by left.
  - intros k Hk. apply Hq, Hqd. by right.
  - destruct Hn as [?|[->|?]%Hqd]; auto. left. apply index_map_insert_eq.
  - intros k Hk. destruct (Hf k Hk) as [?|[->|?]%Hqd]; auto.
    left. apply index_map_insert_eq.
  - intros v. rewrite index_map_insert. case_decide as Ec; [subst v|].
    + intros _. destruct (Hq (node cur)) as [Es|[p Hprev]]; [apply Hqd; by left| |].
      * exists [source]. rewrite Es. split; [constructor|]. split; [apply NoDup_singleton|].
        intros x ->%list_elem_of_singleton. rewrite <- Es. apply index_map_insert_eq.
      * destruct (Hp _ _ Hprev) as (Hpv & Hne & _).
        destruct (Hc p Hpv) as (l & Hl & HN & Hall).
        exists (l ++ [node cur]). split; [by apply chain_step with p|]. split.
        -- apply NoDup_app. split; [done|]. split; [|apply NoDup_singleton].
           intros x Hx ->%list_elem_of_singleton. apply Hall in Hx. congruence.
        -- intros x [Hx| ->%list_elem_of_singleton]%elem_of_app; [auto|].
           apply index_map_insert_eq.
    + intros Hv'. destruct (Hc v Hv') as (l & Hl & HN & Hall).
      exists l. split; [done|]. split; [done|]. auto.
Qed.

Lemma inv_relax u st e :
  inv st → (visited st).[u] = true → e ∈ range ord (adjacency g).[u] →
  inv (relax h u st e) ∧ (visited (relax h u st e)).[u] = true.
Proof.
  intros Hinv Hu He. destruct e as [nb w]. apply elem_of_range, has_edge_row in He.
  unfold relax. destruct ((visited st).[nb]) eqn:Evn; [done|].
  destruct (PrimFloat.ltb _ _) eqn:El; [|done]. simpl. split; [|done].
  destruct Hinv as [Hs Hd Hp Hv Hq Hn Hun Hf Hc].
  assert ((visited st).[source] = true) as Hsv.
  { destruct (Hc u Hu) as (l & Hl & _ & Hall). apply Hall.
    destruct (chain_head _ _ _ Hl) as [l' ->]. left. }
  assert (nb ≠ source) as Hnbs by congruence.
  assert (nb ≠ u) as Hnbu by congruence.
  assert (∀ k, queued st k → k ∈ node <$> heap_Push (pq st) (Item nb (h nb
            (PrimFloat.add (dist st).[u] w)) 0)) as Hqm.
  { intros k Hk. rewrite nodes_Push. by right. }
  split; simpl.
  - by rewrite lookup_insert_ne.
  - intros k. rewrite lookup_insert. case_decide; [subst|apply Hd].
    split; [|eauto]. intros _. right. by apply (wf_edge _ _ _ _ Hg) in He as [_ ?].
  - intros n p. rewrite lookup_insert. case_decide as Ec; [subst n|].
    + intros [= <-]. split; [done|]. split; [done|]. exists w. split; [done|].
      by rewrite lookup_insert_eq, index_map_insert_ne.
    + intros Hn'. destruct (Hp n p Hn') as (Hpv & Hne & w' & He' & Hd').
      split; [done|]. split; [done|]. exists w'. split; [done|].
      rewrite lookup_insert_ne by done.
      rewrite index_map_insert_ne; [done|]. congruence.
  - intros v Hv'. destruct (Hv v Hv') as [?|[p ?]]; [by left|]. right.
    rewrite lookup_insert. case_decide; eauto.
  - intros k. unfold queued. simpl. rewrite nodes_Push, elem_of_cons. simpl.
    intros [->|Hk]; [right; rewrite lookup_insert_eq; eauto|].
    destruct (Hq k Hk) as [?|[p ?]]; [by left|]. right.
    rewrite lookup_insert. case_decide; eauto.
  - by left.
  - intros k Hk. rewrite lookup_insert. case_decide; [done|]. intros Hprev.
    rewrite lookup_insert_ne by done. by apply Hun.
  - intros k. unfold queued. simpl. rewrite nodes_Push, elem_of_cons. simpl.
    rewrite lookup_insert. case_decide; [auto|]. intros Hk.
    destruct (Hf k Hk); auto.
  - intros v Hv'. destruct (Hc v Hv') as (l & Hl & HN & Hall).
    exists l. split; [|done]. apply (chain_ext (prev st)); [done|].
    intros x Hx. apply lookup_insert_ne. apply Hall in Hx. congruence.
Qed.

(** Every run from the start state ends, with the invariant, at an empty
    queue or at the target just visited. *)
Lemma search_loop_inv target p0 fuel :
  (measure g (start ord g source p0) < fuel)%nat →
  ∃ st, search_loop fuel ord g h target (start ord g source p0) = Some st ∧
        inv st ∧ (pq st = [] ∨ (visited st).[target] = true).
Proof.
  intros Hm.
  destruct (search_loop_rule ord g h target inv
              (λ u _ st, inv st ∧ (visited st).[u] = true)) with (fuel := fuel)
              (st := start ord g source p0)
    as (st & E & Hr); try done.
  - apply inv_skip.
  - intros st cur rest Hi E Ev. split; [by apply inv_visit|]. apply index_map_insert_eq.
  - intros u done e rest st [Hi Hu] Hr. apply inv_relax; [done|done|].
    rewrite Hr. apply elem_of_app. right. left.
  - by intros u st _ [? _].
  - apply inv_start.
  - exists st. split; [done|]. destruct Hr as [[? ?]|[? ?]]; auto.
Qed.
End invariant.

(** ** Dijkstra: what the returned path is *)

Inductive reachable (g : Graph) (s : Z) : Z → Prop :=
| reach_here : reachable g s s
| reach_edge u v w : reachable g s u → has_edge g u v w → reachable g s v.

(** Every consecutive pair of [l] is a directed edge of [g]. *)
Fixpoint is_walk (g : Graph) (l : list Z) : Prop :=
  match l with
  | u :: (v :: _) as tl => is_Some ((adjacency g).[u] !! v) ∧ is_walk g tl
  | _ => True
  end.

(** The weights of the edges along [l], added from left to right. *)
Fixpoint cost_along (g : Graph) (acc : float) (l : list Z) : float :=
  match l with
  | u :: (v :: _) as tl => cost_along g (PrimFloat.add acc (adjacency g).[u].[v]) tl
  | _ => acc
  end.

Definition walk_cost (g : Graph) (l : list Z) : float := cost_along g 0%float l.

Definition edge_count (g : Graph) : nat :=
  sum_list_with (λ r : Z * gmap Z float, size r.2) (map_to_list (adjacency g)).

Lemma is_walk_snoc g l p n :
  last l = Some p → is_walk g (l ++ [n]) ↔ is_walk g l ∧ is_Some ((adjacency g).[p] !! n).
Proof.
  induction l as [|u [|v l] IH]; intros Hl; [done| |].
  - injection Hl as ->. simpl. tauto.
  - change (is_walk g ((u :: v :: l) ++ [n])) with
      (is_Some ((adjacency g).[u] !! v) ∧ is_walk g ((v :: l) ++ [n])).
    rewrite IH by done. simpl. tauto.
Qed.

Lemma cost_along_snoc g acc l p n :
  last l = Some p →
  cost_along g acc (l ++ [n]) = PrimFloat.add (cost_along g acc l) (adjacency g).[p].[n].
Proof.
  revert acc. induction l as [|u [|v l] IH]; intros acc Hl; [done| |].
  - by injection Hl as ->.
  - change (cost_along g acc ((u :: v :: l) ++ [n])) with
      (cost_along g (PrimFloat.add acc (adjacency g).[u].[v]) ((v :: l) ++ [n])).
    by rewrite IH.
Qed.

Lemma measure_start ord g s p0 : measure g (start ord g s p0) = S (edge_count g).
Proof.
  unfold measure, start. rewrite start_pq. simpl. f_equal.
Qed.

Lemma NoDup_length_bound (l : list Z) (X : gset Z) :
  NoDup l → (∀ x, x ∈ l → x ∈ X) → (length l ≤ size X)%nat.
Proof.
  intros HN Hsub. apply submseteq_length, NoDup_submseteq; [done|].
  intros x Hx. apply elem_of_elements. auto.
Qed.

Section paths.
Context (ord : RangeOrder) (g : Graph) (Hg : wf g) (source : Z).

Lemma chain_walk st v l :
  inv ord g source st → chain source (prev st) v l →
  is_walk g l ∧ walk_cost g l = (dist st).[v] ∧ reachable g source v.
Proof.
  intros Hinv. induction 1 as [|n p l Hn Hp Hc (IHw & IHc & IHr)].
  - split; [done|]. split; [|constructor].
    by rewrite (index_map_Some _ _ _ (inv_source _ _ _ _ Hinv)).
  - destruct (inv_prev _ _ _ _ Hinv _ _ Hp) as (_ & _ & w & He & Hd).
    pose proof (chain_last _ _ _ _ Hc) as Hl.
    pose proof (proj1 (has_edge_row _ _ _ _) He) as Hrow.
    split; [apply (is_walk_snoc _ _ p); eauto|].
    split; [|by eapply reach_edge].
    unfold walk_cost in *. rewrite (cost_along_snoc _ _ _ p) by done.
    by rewrite IHc, (index_map_Some _ _ _ Hd), (index_map_Some _ _ _ Hrow).
Qed.

Lemma visited_registered st v :
  inv ord g source st → (visited st).[v] = true → v = source ∨ is_Some (nodes g !! v).
Proof.
  intros Hinv Hv. destruct (inv_settled _ _ _ _ Hinv v Hv) as [?|[p Hp]]; [by left|].
  right. destruct (inv_prev _ _ _ _ Hinv _ _ Hp) as (_ & _ & w & He & _).
  by apply (wf_edge _ _ _ _ Hg) in He as [_ ?].
Qed.

Lemma chain_length st (l : list Z) :
  inv ord g source st → NoDup l → (∀ x, x ∈ l → (visited st).[x] = true) →
  (length l ≤ S (size (nodes g)))%nat.
Proof.
  intros Hinv HN Hall.
  etrans; [apply (NoDup_length_bound l ({[source]} ∪ dom (nodes g))); [done|]|].
  - intros x Hx. apply elem_of_union.
    destruct (visited_registered st x Hinv (Hall x Hx)) as [->|?].
    + left. by apply elem_of_singleton.
    + right. by apply elem_of_dom.
  - rewrite size_union_alt, size_singleton.
    assert (size (dom (nodes g) ∖ {[source]}) ≤ size (nodes g))%nat; [|lia].
    rewrite <- size_dom. apply subseteq_size. by intros x [? _]%elem_of_difference.
Qed.

(** The shape of every result of [Dijkstra], with the fuel that
    suffices: the final state satisfies the invariant, and either the
    queue is empty or the target has just been visited. *)
Lemma Dijkstra_final target fuel :
  (edge_count g + size (nodes g) + 1 < fuel)%nat →
  ∃ st, search_loop fuel ord g (λ _ d, d) target (start ord g source 0%float) = Some st ∧
        Dijkstra fuel ord g source target = reconstruct fuel st source target ∧
        inv ord g source st ∧ (pq st = [] ∨ (visited st).[target] = true).
Proof.
  intros Hf.
  destruct (search_loop_inv ord g Hg (λ _ d, d) source target 0%float fuel)
    as (st & E & Hinv & Hex); [rewrite measure_start; lia|].
  exists st. unfold Dijkstra. by rewrite E.
Qed.

Lemma reconstruct_visited st target fuel :
  inv ord g source st → (visited st).[target] = true →
  (size (nodes g) < fuel)%nat →
  PrimFloat.eqb (dist st).[target] infinity = false →
  ∃ path, reconstruct fuel st source target = Some ((dist st).[target], path) ∧
          head path = Some source ∧ last path = Some target ∧
          is_walk g path ∧ walk_cost g path = (dist st).[target].
Proof.
  intros Hinv Hv Hf Ht.
  destruct (inv_chain _ _ _ _ Hinv _ Hv) as (l & Hl & HN & Hall).
  pose proof (chain_length st l Hinv HN Hall) as Hlen.
  destruct (chain_walk st target l Hinv Hl) as (Hw & Hc & _).
  exists l. unfold reconstruct. rewrite Ht. simpl.
  rewrite (walk_back_chain _ _ _ _ Hl) by lia.
  destruct (chain_head _ _ _ _ Hl) as [l' El].
  pose proof (chain_last _ _ _ _ Hl) as Hlast. subst l. simpl.
  by rewrite drop_0, app_nil_r.
Qed.

Lemma unvisited_dist st target :
  inv ord g source st → pq st = [] → (visited st).[target] = false →
  is_Some (nodes g !! target) → (dist st).[target] = infinity.
Proof.
  intros Hinv Hq Hv Ht.
  assert (target ≠ source) as Hne.
  { intros ->. destruct (inv_seen _ _ _ _ Hinv) as [?|Hs]; [congruence|].
    unfold queued in Hs. rewrite Hq in Hs. by apply elem_of_nil in Hs. }
  assert (prev st !! target = None) as Hp.
  { destruct (prev st !! target) eqn:E; [|done].
    destruct (inv_frontier _ _ _ _ Hinv target) as [?|Hs]; [eauto|congruence|].
    unfold queued in Hs. rewrite Hq in Hs. by apply elem_of_nil in Hs. }
  apply index_map_Some.
  rewrite (inv_untouched _ _ _ _ Hinv) by done.
  rewrite init_dist_lookup, decide_False, decide_True; done.
Qed.
End paths.

Lemma chain_of_source source prev l : chain source prev source l → l = [source].
Proof. by inversion 1. Qed.

(** C5: for every graph built by the API and every range order, with
    fuel above the number of edges plus the number of nodes plus one:
    Dijkstra(s, s) returns the distance 0 and the path [s], and for a
    registered target that cannot be reached from s it returns +Inf and
    the empty path. *)
Theorem Dijkstra_self_and_unreachable (ord : RangeOrder) (es : list (Z * Z * float))
    (s : Z) (fuel : nat) :
  (edge_count (build es) + size (nodes (build es)) + 1 < fuel)%nat →
  Dijkstra fuel ord (build es) s s = Some (0%float, [s]) ∧
  ∀ t, is_Some (nodes (build es) !! t) → ¬ reachable (build es) s t →
       Dijkstra fuel ord (build es) s t = Some (infinity, []).
Proof.
  intros Hf. pose proof (wf_build es) as Hg. split.
  - destruct (Dijkstra_final ord _ Hg s s fuel Hf) as (st & _ & -> & Hinv & Hex).
    assert ((visited st).[s] = true) as Hv.
    { destruct Hex as [Hq|?]; [|done].
      destruct (inv_seen _ _ _ _ Hinv) as [?|Hs]; [done|].
      unfold queued in Hs. rewrite Hq in Hs. by apply elem_of_nil in Hs. }
    pose proof (index_map_Some _ _ _ (inv_source _ _ _ _ Hinv)) as Hd.
    destruct (inv_chain _ _ _ _ Hinv _ Hv) as (l & Hl & _).
    pose proof (chain_of_source _ _ _ Hl) as ->.
    unfold reconstruct. rewrite Hd.
    by rewrite (walk_back_chain _ _ _ _ Hl) by (simpl; lia).
  - intros t Ht Hunreach.
    destruct (Dijkstra_final ord _ Hg s t fuel Hf) as (st & _ & -> & Hinv & Hex).
    assert ((visited st).[t] = false) as Hv.
    { destruct ((visited st).[t]) eqn:E; [|done].
      destruct (inv_chain _ _ _ _ Hinv _ E) as (l & Hl & _).
      by destruct (chain_walk ord _ s st t l Hinv Hl) as (_ & _ & ?). }
    destruct Hex as [Hq|?]; [|congruence].
    unfold reconstruct. by rewrite (unvisited_dist ord _ s st t Hinv Hq Hv Ht).
Qed.

Lemma Dijkstra_self_and_unreachable_witness :
  Dijkstra 7 descending (build [(0, 1, 2%float); (2, 0, 1%float)]) 0 0 = Some (0%float, [0]) ∧
  ∀ t, is_Some (nodes (build [(0, 1, 2%float); (2, 0, 1%float)]) !! t) →
       ¬ reachable (build [(0, 1, 2%float); (2, 0, 1%float)]) 0 t →
       Dijkstra 7 descending (build [(0, 1, 2%float); (2, 0, 1%float)]) 0 t
       = Some (infinity, []).
Proof.
  apply (Dijkstra_self_and_unreachable descending [(0, 1, 2%float); (2, 0, 1%float)] 0 7).
  vm_compute. lia.
Defined.

(** C10, as the code has it: for every graph built by the API, every
    range order and every registered target, with fuel above the number of
    edges plus the number of nodes plus one, Dijkstra returns; and when
    the distance it returns is not +Inf, the path starts at the source,
    ends at the target, follows directed edges of the graph, and the
    weights of these edges, added from left to right, give the distance. *)
Theorem Dijkstra_path_is_walk (ord : RangeOrder) (es : list (Z * Z * float))
    (source target : Z) (fuel : nat) :
  is_Some (nodes (build es) !! target) →
  (edge_count (build es) + size (nodes (build es)) + 1 < fuel)%nat →
  ∃ d path,
    Dijkstra fuel ord (build es) source target = Some (d, path) ∧
    (PrimFloat.eqb d infinity = false →
     head path = Some source ∧ last path = Some target ∧
     is_walk (build es) path ∧ walk_cost (build es) path = d).
Proof.
  intros Ht Hf. pose proof (wf_build es) as Hg.
  destruct (Dijkstra_final ord _ Hg source target fuel Hf) as (st & _ & -> & Hinv & Hex).
  destruct (PrimFloat.eqb (dist st).[target] infinity) eqn:Einf.
  { exists (dist st).[target], []. unfold reconstruct. rewrite Einf. simpl.
    split; [done|]. congruence. }
  assert ((visited st).[target] = true) as Hv.
  { destruct Hex as [Hq|?]; [|done]. destruct ((visited st).[target]) eqn:E; [done|].
    rewrite (unvisited_dist ord _ source st target Hinv Hq E Ht) in Einf. done. }
  destruct (reconstruct_visited ord _ Hg source st target fuel Hinv Hv) as (path & -> & H);
    [lia|done|].
  exists (dist st).[target], path. split; [done|]. by intros _.
Qed.

Lemma Dijkstra_path_is_walk_witness :
  ∃ d path,
    Dijkstra 8 ascending (build [(0, 1, 1%float); (1, 2, 2%float); (0, 2, 5%float)]) 0 2
    = Some (d, path) ∧
    (PrimFloat.eqb d infinity = false →
     head path = Some 0 ∧ last path = Some 2 ∧
     is_walk (build [(0, 1, 1%float); (1, 2, 2%float); (0, 2, 5%float)]) path ∧
     walk_cost (build [(0, 1, 1%float); (1, 2, 2%float); (0, 2, 5%float)]) path = d).
Proof.
  apply (Dijkstra_path_is_walk ascending
           [(0, 1, 1%float); (1, 2, 2%float); (0, 2, 5%float)] 0 2 8).
  - vm_compute. eauto.
  - vm_compute. lia.
Defined.

Definition g_overflow : Graph := build [(0, 1, 0x1p1023%float); (1, 2, 0x1p1023%float)].

Lemma overflow_rows o1 o2 : same_rows o1 o2 g_overflow.
Proof. apply small_rows_same. by_computation. Qed.

(** C10, at the graph 0→1→2 with both weights 2^1023: the weights are
    finite and non-negative, 2 is registered and reachable from 0, and
    the code returns +Inf and the empty path, which does not start at the
    source. *)
Lemma Dijkstra_overflow_unreached :
  PrimFloat.leb 0%float 0x1p1023%float = true ∧
  PrimFloat.ltb 0x1p1023%float infinity = true ∧
  is_Some (nodes g_overflow !! 0) ∧ is_Some (nodes g_overflow !! 2) ∧
  reachable g_overflow 0 2 ∧
  ∀ ord, Dijkstra 5 ord g_overflow 0 2 = Some (infinity, []).
Proof.
  split; [done|]. split; [done|]. split; [by vm_compute; eauto|].
  split; [by vm_compute; eauto|]. split.
  - apply reach_edge with 1 0x1p1023%float.
    + apply reach_edge with 0 0x1p1023%float; [constructor|].
      apply has_edge_row. by vm_compute.
    + apply has_edge_row. by vm_compute.
  - intros ord. rewrite (Dijkstra_order ord ascending) by apply overflow_rows.
    by vm_compute.
Qed.

(** C9, as the code has it: two calls of a query on the same graph with
    the same arguments return the same result when both range over every
    map in the same order; the order is the only thing besides the graph
    and the arguments that a result depends on. *)
Theorem queries_repeat_under_same_order (o1 o2 : RangeOrder) (g : Graph) (fuel : nat)
    (source target : Z) (heuristic : Z → Z → float) :
  same_order o1 o2 →
  Dijkstra fuel o1 g source target = Dijkstra fuel o2 g source target ∧
  BellmanFord o1 g source = BellmanFord o2 g source ∧
  FloydWarshall o1 g = FloydWarshall o2 g ∧
  GraphDiameter o1 g = GraphDiameter o2 g ∧
  GraphRadius o1 g = GraphRadius o2 g ∧
  AStar fuel o1 g source target heuristic = AStar fuel o2 g source target heuristic ∧
  BFS fuel o1 g source target = BFS fuel o2 g source target ∧
  ConnectedComponents fuel o1 g = ConnectedComponents fuel o2 g ∧
  IsConnected fuel o1 g = IsConnected fuel o2 g.
Proof.
  intros H. destruct (same_order_agree o1 o2 g H) as (Hn & Ha & Hr).
  split; [by apply Dijkstra_order|]. split; [by apply BellmanFord_order|].
  split; [by apply FloydWarshall_order|]. split; [by apply GraphDiameter_order|].
  split; [by apply GraphRadius_order|]. split; [by apply AStar_order|].
  split; [by apply BFS_order|]. split; [by apply ConnectedComponents_order|].
  by apply IsConnected_order.
Qed.

Lemma queries_repeat_under_same_order_witness :
  Dijkstra 8 descending g_negcycle 0 1 = Dijkstra 8 descending g_negcycle 0 1 ∧
  BellmanFord descending g_negcycle 0 = BellmanFord descending g_negcycle 0 ∧
  FloydWarshall descending g_negcycle = FloydWarshall descending g_negcycle ∧
  GraphDiameter descending g_negcycle = GraphDiameter descending g_negcycle ∧
  GraphRadius descending g_negcycle = GraphRadius descending g_negcycle ∧
  AStar 8 descending g_negcycle 0 1 (λ _ _, 1%float)
  = AStar 8 descending g_negcycle 0 1 (λ _ _, 1%float) ∧
  BFS 8 descending g_negcycle 0 1 = BFS 8 descending g_negcycle 0 1 ∧
  ConnectedComponents 8 descending g_negcycle = ConnectedComponents 8 descending g_negcycle ∧
  IsConnected 8 descending g_negcycle = IsConnected 8 descending g_negcycle.
Proof.
  apply (queries_repeat_under_same_order descending descending g_negcycle 8 0 1
           (λ _ _, 1%float)).
  intros V m. reflexivity.
Defined.

(** ** The heap order *)

(** The priority in slot [k]. *)
Definition prio (q : list item) (k : nat) : option float := priority <$> q !! k.

(** [fle a b]: [b] is not below [a], as [Less] sees it. *)
Definition fle (a b : float) : Prop := PrimFloat.ltb b a = false.

Definition parent (k : nat) : nat := ((k - 1) / 2)%nat.

Lemma parent_quot (k : nat) : Z.quot (Z.of_nat k - 1) 2 = Z.of_nat (parent k).
Proof.
  unfold parent. destruct k as [|k]; [done|].
  rewrite Z.quot_div_nonneg by lia. rewrite Nat2Z.inj_div. f_equal. lia.
Qed.

Lemma parent_lt k : (0 < k)%nat → (parent k < k)%nat.
Proof.
  intros. unfold parent.
  pose proof (Nat.Div0.div_le_upper_bound (k - 1) 2 (k - 1)). lia.
Qed.

Lemma parent_child k i : (0 < k)%nat → parent k = i ↔ (k = 2 * i + 1 ∨ k = 2 * i + 2)%nat.
Proof.
  intros Hk. unfold parent. split.
  - intros <-. pose proof (Nat.div_mod_eq (k - 1) 2).
    pose proof (Nat.mod_upper_bound (k - 1) 2). lia.
  - intros [->| ->].
    + replace (2 * i + 1 - 1)%nat with (i * 2)%nat by lia. by rewrite Nat.div_mul.
    + replace (2 * i + 2 - 1)%nat with (1 + i * 2)%nat by lia.
      by rewrite Nat.div_add.
Qed.

Lemma prio_Swap q (i j k : nat) :
  (i < length q)%nat → (j < length q)%nat →
  prio (pq_Swap q (Z.of_nat i) (Z.of_nat j)) k =
  if decide (k = j) then prio q i else if decide (k = i) then prio q j else prio q k.
Proof.
  intros Hi Hj. unfold pq_Swap, prio. rewrite !Nat2Z.id.
  destruct (lookup_lt_is_Some_2 q i Hi) as [a Ha].
  destruct (lookup_lt_is_Some_2 q j Hj) as [b Hb]. rewrite Ha, Hb.
  destruct (decide (k = j)) as [->|].
  { by rewrite list_lookup_insert_eq by (rewrite length_insert; lia). }
  rewrite list_lookup_insert_ne by done.
  destruct (decide (k = i)) as [->|].
  { by rewrite list_lookup_insert_eq by lia. }
  by rewrite list_lookup_insert_ne.
Qed.

Lemma length_Swap q i j : length (pq_Swap q i j) = length q.
Proof.
  unfold pq_Swap. destruct (q !! Z.to_nat i); [|done].
  destruct (q !! Z.to_nat j); [|done]. by rewrite !length_insert.
Qed.

Lemma pq_Less_prio q (i j : nat) a b :
  prio q i = Some a → prio q j = Some b →
  pq_Less q (Z.of_nat i) (Z.of_nat j) = PrimFloat.ltb a b.
Proof.
  unfold prio, pq_Less. rewrite !Nat2Z.id.
  destruct (q !! i); [|done]. destruct (q !! j); [|done]. by intros [= ->] [= ->].
Qed.

Lemma prio_is_Some q k : (k < length q)%nat → is_Some (prio q k).
Proof.
  intros H. unfold prio. destruct (lookup_lt_is_Some_2 q k H) as [a ->]. by eexists.
Qed.

Lemma prio_lt q k a : prio q k = Some a → (k < length q)%nat.
Proof.
  unfold prio. destruct (q !! k) eqn:E; [|done]. intros _. by eapply lookup_lt_Some.
Qed.

Section heap_order.
(** The priorities in the heap come from a set on which [<] is a strict
    order whose complement is transitive. *)
Context (P : float → Prop).
Context (asym : ∀ a b, P a → P b → PrimFloat.ltb a b = true → fle a b).
Context (trans : ∀ a b c, P a → P b → P c → fle a b → fle b c → fle a c).

Definition admissible (q : list item) : Prop := ∀ k a, prio q k = Some a → P a.

(** Among the first [n] slots, every slot but those in [skip] is not
    below its parent. *)
Definition ordered_but (skip : nat → Prop) (n : nat) (q : list item) : Prop :=
  ∀ k a b, (0 < k < n)%nat → ¬ skip k →
    prio q k = Some a → prio q (parent k) = Some b → fle b a.

(** The children of [j] are not below the parent of [j]. *)
Definition bridged (j n : nat) (q : list item) : Prop :=
  ∀ c a b, (0 < j)%nat → (c < n)%nat → (0 < c)%nat → parent c = j →
    prio q c = Some a → prio q (parent j) = Some b → fle b a.

Definition heap_ordered (q : list item) : Prop :=
  ordered_but (λ _, False) (length q) q.

Lemma admissible_Swap q (i j : nat) :
  (i < length q)%nat → (j < length q)%nat →
  admissible q → admissible (pq_Swap q (Z.of_nat i) (Z.of_nat j)).
Proof.
  intros Hi Hj Hq k a. rewrite prio_Swap by done.
  repeat case_decide; apply Hq.
Qed.

Lemma up_ordered fuel q (j : nat) :
  admissible q → (j < length q)%nat → (j < fuel)%nat →
  ordered_but (λ k, k = j) (length q) q → bridged j (length q) q →
  heap_ordered (up fuel q (Z.of_nat j)) ∧ admissible (up fuel q (Z.of_nat j)) ∧
  length (up fuel q (Z.of_nat j)) = length q.
Proof.
  revert q j. induction fuel as [|fuel IH]; intros q j Hq Hj Hf HE1 HE2; [lia|].
  simpl. rewrite parent_quot.
  destruct (decide (j = 0)%nat) as [->|Hj0].
  { simpl. split; [|done]. intros k a b Hk _. apply HE1; [done|lia]. }
  pose proof (parent_lt j ltac:(lia)) as Hpj.
  assert ((Z.of_nat (parent j) =? Z.of_nat j) = false) as -> by lia. simpl.
  destruct (prio_is_Some q j Hj) as [aj Haj].
  destruct (prio_is_Some q (parent j) ltac:(lia)) as [ai Hai].
  rewrite (pq_Less_prio q j (parent j) aj ai) by done.
  destruct (PrimFloat.ltb aj ai) eqn:El; simpl.
  - (* swap and continue from the parent *)
    pose proof (asym aj ai (Hq _ _ Haj) (Hq _ _ Hai) El) as Hle.
    destruct (IH (pq_Swap q (Z.of_nat (parent j)) (Z.of_nat j)) (parent j))
      as (H1 & H2 & H3).
    + apply admissible_Swap; [lia|done|done].
    + rewrite length_Swap. lia.
    + lia.
    + rewrite length_Swap. intros k a b Hk Hne.
      rewrite !prio_Swap by lia.
      destruct (decide (k = j)) as [->|Hkj].
      * rewrite (decide_False (P := parent j = j)) by lia.
        rewrite (decide_True (P := parent j = parent j)) by done.
        rewrite Hai, Haj. intros [= <-] [= <-]. done.
      * rewrite (decide_False (P := k = parent j)) by done.
        destruct (decide (parent k = j)) as [Epk|Hpk].
        -- rewrite Hai. intros Ha [= <-].
           apply (HE2 k a ai); [lia|lia|lia|done|done|done].
        -- destruct (decide (parent k = parent j)) as [Epp|Hpp].
           ++ rewrite Haj. intros Ha [= <-].
              apply (trans aj ai a); [by apply (Hq j)|by apply (Hq (parent j))|
                                      by apply (Hq k)|done|].
              apply (HE1 k); [done|done|done|]. by rewrite Epp.
           ++ intros Ha Hb. by apply (HE1 k).
    + rewrite length_Swap. intros c a b Hpos Hc Hc0 Hpc.
      rewrite !prio_Swap by lia.
      assert (parent (parent j) < parent j)%nat as Hpp by (apply parent_lt; lia).
      pose proof (parent_lt c Hc0) as Hpc'.
      rewrite (decide_False (P := parent (parent j) = j)) by lia.
      rewrite (decide_False (P := parent (parent j) = parent j)) by lia.
      destruct (decide (c = j)) as [->|Hcj].
      * rewrite Hai. intros [= <-] Hb. apply (HE1 (parent j)); [lia|lia|done|done].
      * rewrite (decide_False (P := c = parent j)) by lia. intros Ha Hb.
        apply (trans b ai a); [by apply (Hq (parent (parent j)))|by apply (Hq (parent j))|
                                by apply (Hq c)| |].
        -- apply (HE1 (parent j)); [lia|lia|done|done].
        -- apply (HE1 c); [lia|done|done|]. by rewrite Hpc.
    + rewrite length_Swap in H3. done.
  - split; [|done]. intros k a b Hk _ Ha Hb.
    destruct (decide (k = j)) as [->|Hkj]; [|by apply (HE1 k)].
    rewrite Haj in Ha. rewrite Hai in Hb. injection Ha as <-. injection Hb as <-. done.
Qed.

Lemma lookup_Swap_other q (i j k : nat) :
  k ≠ i → k ≠ j → pq_Swap q (Z.of_nat i) (Z.of_nat j) !! k = q !! k.
Proof.
  intros Hi Hj. unfold pq_Swap. rewrite !Nat2Z.id.
  destruct (q !! i); [|done]. destruct (q !! j); [|done].
  by rewrite !list_lookup_insert_ne.
Qed.

Lemma down_ordered fuel q (i n : nat) :
  admissible q → (n ≤ length q)%nat → (n - i ≤ fuel)%nat →
  ordered_but (λ k, parent k = i) n q → bridged i n q →
  ordered_but (λ _, False) n (down fuel q (Z.of_nat i) (Z.of_nat n)) ∧
  admissible (down fuel q (Z.of_nat i) (Z.of_nat n)) ∧
  length (down fuel q (Z.of_nat i) (Z.of_nat n)) = length q ∧
  ∀ k, (n ≤ k)%nat → down fuel q (Z.of_nat i) (Z.of_nat n) !! k = q !! k.
Proof.
  revert q i. induction fuel as [|fuel IH]; intros q i Hq Hn Hf HD1 HD2.
  { simpl. split; [|done]. intros k a b Hk _. apply HD1; [done|].
    intros Hp. apply parent_child in Hp; lia. }
  simpl.
  destruct (decide (n ≤ 2 * i + 1)%nat) as [Hle|Hgt].
  { assert ((Z.of_nat n <=? 2 * Z.of_nat i + 1) = true) as -> by lia. simpl.
    split; [|done]. intros k a b Hk _. apply HD1; [done|].
    intros Hp. apply parent_child in Hp; lia. }
  assert ((Z.of_nat n <=? 2 * Z.of_nat i + 1) = false) as -> by lia.
  assert ((2 * Z.of_nat i + 1 <? 0) = false) as -> by lia. simpl.
  replace (2 * Z.of_nat i + 1) with (Z.of_nat (2 * i + 1)) by lia.
  replace (Z.of_nat (2 * i + 1) + 1) with (Z.of_nat (2 * i + 2)) by lia.
  destruct (prio_is_Some q i ltac:(lia)) as [ai Hai].
  destruct (prio_is_Some q (2 * i + 1) ltac:(lia)) as [a1 Ha1].
  (* the smaller child *)
  assert (∃ j aj, (if (Z.of_nat (2 * i + 2) <? Z.of_nat n)
                      && pq_Less q (Z.of_nat (2 * i + 2)) (Z.of_nat (2 * i + 1))
                   then Z.of_nat (2 * i + 2) else Z.of_nat (2 * i + 1)) = Z.of_nat j ∧
            (j < n)%nat ∧ parent j = i ∧ (0 < j)%nat ∧ prio q j = Some aj ∧
            ∀ c ac, (c < n)%nat → (0 < c)%nat → parent c = i → prio q c = Some ac →
                    fle aj ac) as (j & aj & -> & Hjn & Hpj & Hj0 & Haj & Hmin).
  { destruct (decide (2 * i + 2 < n)%nat) as [H2|H2].
    - assert ((Z.of_nat (2 * i + 2) <? Z.of_nat n) = true) as -> by (apply Z.ltb_lt; lia). simpl.
      destruct (prio_is_Some q (2 * i + 2) ltac:(lia)) as [a2 Ha2].
      rewrite (pq_Less_prio q _ _ a2 a1) by done.
      destruct (PrimFloat.ltb a2 a1) eqn:El.
      + exists (2 * i + 2)%nat, a2. split; [done|]. split; [done|].
        split; [apply parent_child; lia|]. split; [lia|]. split; [done|].
        intros c ac Hc Hc0 Hpc Hac. apply (parent_child c i Hc0) in Hpc as [->| ->].
        * rewrite Ha1 in Hac. injection Hac as <-.
          apply asym; [by apply (Hq (2 * i + 2)%nat)|by apply (Hq (2 * i + 1)%nat)|done].
        * rewrite Ha2 in Hac. injection Hac as <-.
          destruct (PrimFloat.ltb a2 a2) eqn:E; [|done].
          apply asym; [by apply (Hq (2 * i + 2)%nat)..|done].
      + exists (2 * i + 1)%nat, a1. split; [done|]. split; [lia|].
        split; [apply parent_child; lia|]. split; [lia|]. split; [done|].
        intros c ac Hc Hc0 Hpc Hac. apply (parent_child c i Hc0) in Hpc as [->| ->].
        * rewrite Ha1 in Hac. injection Hac as <-.
          destruct (PrimFloat.ltb a1 a1) eqn:E; [|done].
          apply asym; [by apply (Hq (2 * i + 1)%nat)..|done].
        * rewrite Ha2 in Hac. by injection Hac as <-.
    - assert ((Z.of_nat (2 * i + 2) <? Z.of_nat n) = false) as -> by (apply Z.ltb_ge; lia). simpl.
      exists (2 * i + 1)%nat, a1. split; [done|]. split; [lia|].
      split; [apply parent_child; lia|]. split; [lia|]. split; [done|].
      intros c ac Hc Hc0 Hpc Hac. apply (parent_child c i Hc0) in Hpc as [->| ->]; [|lia].
      rewrite Ha1 in Hac. injection Hac as <-.
      destruct (PrimFloat.ltb a1 a1) eqn:E; [|done].
      apply asym; [by apply (Hq (2 * i + 1)%nat)..|done]. }
  assert (i < j)%nat as Hij by (rewrite <- Hpj; by apply parent_lt).
  rewrite (pq_Less_prio q j i aj ai) by done.
  destruct (PrimFloat.ltb aj ai) eqn:El; simpl.
  - pose proof (asym aj ai (Hq _ _ Haj) (Hq _ _ Hai) El) as Hle.
    destruct (IH (pq_Swap q (Z.of_nat i) (Z.of_nat j)) j) as (H1 & H2 & H3 & H4).
    + apply admissible_Swap; [lia|lia|done].
    + rewrite length_Swap. lia.
    + lia.
    + intros k a b Hk Hne. rewrite !prio_Swap by lia.
      pose proof (parent_lt k ltac:(lia)) as Hpk.
      destruct (decide (k = j)) as [->|Hkj].
      * rewrite Hpj. rewrite (decide_False (P := i = j)) by lia.
        rewrite (decide_True (P := i = i)) by done.
        rewrite Hai, Haj. by intros [= <-] [= <-].
      * rewrite (decide_False (P := parent k = j)) by done.
        destruct (decide (k = i)) as [->|Hki].
        -- rewrite (decide_False (P := parent i = i)) by lia.
           rewrite Haj. intros [= <-] Hb.
           apply (HD2 j aj b); [lia|done|done|done|done|done].
        -- destruct (decide (parent k = i)) as [Epk|Hpki].
           ++ rewrite Haj. intros Ha [= <-]. by apply (Hmin k a); [lia..|done|done].
           ++ intros Ha Hb. by apply (HD1 k).
    + intros c a b _ Hc Hc0 Hpc. rewrite !prio_Swap by lia.
      pose proof (parent_lt c Hc0) as Hpc'.
      rewrite (decide_False (P := c = j)) by lia.
      rewrite (decide_False (P := c = i)) by lia.
      rewrite Hpj. rewrite (decide_False (P := i = j)) by lia.
      rewrite (decide_True (P := i = i)) by done.
      rewrite Haj. intros Ha [= <-].
      apply (HD1 c); [lia| |done|]; rewrite Hpc; [lia|done].
    + rewrite length_Swap in H3. split; [done|]. split; [done|]. split; [done|].
      intros k Hk. rewrite H4 by done. apply lookup_Swap_other; lia.
  - split; [|done]. intros k a b Hk _ Ha Hb.
    destruct (decide (parent k = i)) as [Epk|Hpk]; [|by apply (HD1 k)].
    rewrite Epk, Hai in Hb. injection Hb as <-.
    apply (trans ai aj a); [by apply (Hq i)|by apply (Hq j)|by apply (Hq k)|done|].
    apply (Hmin k); [lia|lia|done|done].
Qed.

Lemma fle_refl a : P a → fle a a.
Proof.
  intros Ha. destruct (PrimFloat.ltb a a) eqn:E; [|done].
  by apply (asym a a).
Qed.

(** The root of an ordered heap is not above any entry. *)
Lemma heap_root_min q k a r :
  heap_ordered q → admissible q → prio q k = Some a → prio q 0 = Some r → fle r a.
Proof.
  intros Ho Hq. revert a. induction (lt_wf k) as [k _ IH]. intros a Ha Hr.
  destruct (decide (k = 0)%nat) as [->|Hk].
  { rewrite Hr in Ha. injection Ha as <-. apply fle_refl. by apply (Hq 0%nat). }
  pose proof (parent_lt k ltac:(lia)) as Hp. pose proof (prio_lt _ _ _ Ha) as Hlen.
  destruct (prio_is_Some q (parent k) ltac:(lia)) as [b Hb].
  apply (trans r b a); [by apply (Hq 0%nat)|by apply (Hq (parent k))|by apply (Hq k)| |].
  - by apply (IH (parent k)).
  - apply (Ho k); [lia|tauto|done|done].
Qed.

Lemma heap_Push_ordered q x :
  heap_ordered q → admissible q → P (priority x) →
  heap_ordered (heap_Push q x) ∧ admissible (heap_Push q x).
Proof.
  intros Ho Hq Hx. unfold heap_Push.
  set (q' := pq_Push q x).
  assert (length q' = S (length q)) as Hlen
    by (unfold q', pq_Push; rewrite length_app; simpl; lia).
  assert (∀ k, (k < length q)%nat → prio q' k = prio q k) as Hold.
  { intros k Hk. unfold prio, q', pq_Push. by rewrite lookup_app_l. }
  assert (prio q' (length q) = Some (priority x)) as Hnew.
  { unfold prio, q', pq_Push. rewrite lookup_app_r by lia.
    by rewrite Nat.sub_diag. }
  replace (pq_Len q' - 1) with (Z.of_nat (length q)) by (unfold pq_Len; lia).
  destruct (up_ordered (length q') q' (length q)) as (H1 & H2 & _); [|lia|lia| | |done].
  - intros k a Hk. destruct (decide (k < length q)%nat) as [Hlt|Hge].
    + rewrite Hold in Hk by done. by apply (Hq k).
    + pose proof (prio_lt _ _ _ Hk). assert (k = length q) as -> by lia.
      rewrite Hnew in Hk. by injection Hk as <-.
  - intros k a b Hk Hne. pose proof (parent_lt k ltac:(lia)).
    rewrite !Hold by lia. apply (Ho k); [lia|tauto].
  - intros c a b _ Hc Hc0 Hpc. pose proof (parent_lt c Hc0). lia.
Qed.

Lemma heap_Pop_ordered q it rest :
  heap_ordered q → admissible q → heap_Pop q = Some (it, rest) →
  heap_ordered rest ∧ admissible rest ∧
  (∃ root, q !! 0%nat = Some root ∧ entry it = entry root) ∧
  ∀ k a, prio q k = Some a → fle (priority it) a.
Proof.
  intros Ho Hq E.
  destruct q as [|x0 q0]; [done|]. set (q := x0 :: q0) in *.
  set (n := length q0). assert (length q = S n) as Hlen by done.
  unfold heap_Pop in E.
  replace (pq_Len q - 1) with (Z.of_nat n) in E by (unfold pq_Len; lia).
  change 0 with (Z.of_nat 0) in E.
  set (q1 := pq_Swap q (Z.of_nat 0) (Z.of_nat n)) in *.
  assert (∀ k, prio q1 k = if decide (k = n) then prio q 0
                           else if decide (k = 0)%nat then prio q n else prio q k) as Hq1
    by (intros k; apply prio_Swap; lia).
  destruct (down_ordered (length q) q1 0 n) as (H1 & H2 & H3 & H4).
  - apply admissible_Swap; [lia|lia|done].
  - unfold q1. rewrite length_Swap. lia.
  - lia.
  - intros k a b Hk Hne. pose proof (parent_lt k ltac:(lia)).
    rewrite !Hq1. rewrite !decide_False by lia. apply (Ho k); [lia|tauto].
  - intros c a b Hpos. lia.
  - set (q2 := down (length q) q1 (Z.of_nat 0) (Z.of_nat n)) in *.
    unfold q1 in H3. rewrite length_Swap in H3.
    unfold pq_Pop in E.
    replace (Z.to_nat (pq_Len q2 - 1)) with n in E by (unfold pq_Len; lia).
    assert (q2 !! n = Some (set_index x0 (Z.of_nat n))) as Hlast.
    { rewrite H4 by done. unfold q1, pq_Swap. rewrite !Nat2Z.id.
      destruct (lookup_lt_is_Some_2 q n ltac:(lia)) as [b Hb]. simpl. rewrite Hb.
      apply list_lookup_insert_eq. rewrite ?length_insert. simpl. unfold n. lia. }
    rewrite Hlast in E. simpl in E.
    assert ((pq_Len q2 =? 0) = false) as Hz by (unfold pq_Len; lia).
    rewrite Hz in E. injection E as <- <-.
    assert (∀ k, (k < n)%nat → prio (take n q2) k = prio q2 k) as Htake.
    { intros k Hk. unfold prio. by rewrite lookup_take_lt. }
    assert (length (take n q2) = n) as Hlt by (rewrite length_take; lia).
    split; [|split; [|split]].
    + intros k a b Hk _. rewrite Hlt in Hk. pose proof (parent_lt k ltac:(lia)).
      rewrite !Htake by lia. apply (H1 k); [lia|tauto].
    + intros k a Hk. pose proof (prio_lt _ _ _ Hk). rewrite Htake in Hk by lia.
      by apply (H2 k).
    + by exists x0.
    + intros k a Hk. by apply (heap_root_min q k a (priority x0)).
Qed.
End heap_order.

(** ** Counting hops in float64 *)

(** [n] as Dijkstra computes it on unit weights: 1.0 added [n] times to 0. *)
Definition fnat (n : nat) : float := Nat.iter n (λ x, PrimFloat.add x 1%float) 0%float.

(** The conversion [float64(z)] of an [int]. *)
Definition float64_of_int (z : Z) : float :=
  if z <? 0 then PrimFloat.opp (PrimFloat.of_uint63 (Uint63.of_Z (- z)))
  else PrimFloat.of_uint63 (Uint63.of_Z z).

(** float64 counts exactly up to [N]: on the floats [fnat 0 .. fnat N] the
    comparison [<] is the one of the integers, all are below +Inf and
    different from it, and each is the conversion of its integer. This
    holds as long as [N] is below 2^53. *)
Definition counts_exactly (N : nat) : bool :=
  forallb (λ a,
    PrimFloat.ltb (fnat a) infinity && negb (PrimFloat.eqb (fnat a) infinity)
    && PrimFloat.Leibniz.eqb (fnat a) (float64_of_int (Z.of_nat a))
    && forallb (λ b, Bool.eqb (PrimFloat.ltb (fnat a) (fnat b)) (a <? b)%nat) (seq 0 (S N)))
    (seq 0 (S N)).

Section counting.
Context (N : nat) (HN : counts_exactly N = true).

Lemma counts_at a :
  (a ≤ N)%nat →
  PrimFloat.ltb (fnat a) infinity = true ∧
  PrimFloat.eqb (fnat a) infinity = false ∧
  fnat a = float64_of_int (Z.of_nat a) ∧
  ∀ b, (b ≤ N)%nat → PrimFloat.ltb (fnat a) (fnat b) = (a <? b)%nat.
Proof.
  intros Ha. unfold counts_exactly in HN. rewrite forallb_forall in HN.
  specialize (HN a). rewrite !andb_true_iff, negb_true_iff in HN.
  destruct HN as [[[H1 H2] H3] H4]; [apply in_seq; lia|].
  split; [done|]. split; [done|]. split; [by apply FloatAxioms.Leibniz.eqb_spec|].
  intros b Hb. rewrite forallb_forall in H4.
  apply Bool.eqb_prop, H4, in_seq. lia.
Qed.

Lemma fnat_ltb a b :
  (a ≤ N)%nat → (b ≤ N)%nat → PrimFloat.ltb (fnat a) (fnat b) = (a <? b)%nat.
Proof. intros Ha Hb. by apply counts_at. Qed.

Lemma fnat_lt_inf a : (a ≤ N)%nat → PrimFloat.ltb (fnat a) infinity = true.
Proof. intros Ha. by apply counts_at. Qed.

Lemma fnat_finite a : (a ≤ N)%nat → fnat a ≠ infinity.
Proof. intros Ha E. pose proof (fnat_lt_inf a Ha) as H. rewrite E in H. done. Qed.

Lemma fnat_inj a b : (a ≤ N)%nat → (b ≤ N)%nat → fnat a = fnat b → a = b.
Proof.
  intros Ha Hb E.
  pose proof (fnat_ltb a b Ha Hb) as H1. pose proof (fnat_ltb b a Hb Ha) as H2.
  pose proof (fnat_ltb a a Ha Ha) as H3. rewrite E in H1, H3. rewrite E in H2.
  rewrite H3 in H1. rewrite H3 in H2.
  destruct (Nat.ltb_spec a b), (Nat.ltb_spec b a), (Nat.ltb_spec a a); try done; lia.
Qed.

(** The priorities that occur: the counts up to [N]. *)
Definition count (p : float) : Prop := ∃ j, (j ≤ N)%nat ∧ p = fnat j.

Lemma count_asym a b : count a → count b → PrimFloat.ltb a b = true → fle a b.
Proof.
  intros (ja & Ha & ->) (jb & Hb & ->). unfold fle. rewrite !fnat_ltb by done.
  intros H%Nat.ltb_lt. apply Nat.ltb_ge. lia.
Qed.

Lemma count_trans a b c : count a → count b → count c → fle a b → fle b c → fle a c.
Proof.
  intros (ja & Ha & ->) (jb & Hb & ->) (jc & Hc & ->). unfold fle.
  rewrite !fnat_ltb by done. intros H1%Nat.ltb_ge H2%Nat.ltb_ge. apply Nat.ltb_ge. lia.
Qed.

Lemma fle_fnat a b : (a ≤ N)%nat → (b ≤ N)%nat → fle (fnat a) (fnat b) ↔ (a ≤ b)%nat.
Proof. intros Ha Hb. unfold fle. rewrite fnat_ltb by done. apply Nat.ltb_ge. Qed.
End counting.

Example counts_exactly_8 : counts_exactly 8 = true.
Proof. by vm_compute. Qed.

(** float64 adds exactly up to [N]: the sum of two counts is the count of
    the sum as long as that stays within [N], and +Inf absorbs every count
    and is below none. Like [counts_exactly], this holds below 2^53. *)
Definition adds_exactly (N : nat) : bool :=
  forallb (λ a,
    PrimFloat.Leibniz.eqb (PrimFloat.add infinity (fnat a)) infinity
    && PrimFloat.Leibniz.eqb (PrimFloat.add (fnat a) infinity) infinity
    && negb (PrimFloat.ltb infinity (fnat a))
    && forallb (λ b, (N <? a + b)%nat
                     || PrimFloat.Leibniz.eqb (PrimFloat.add (fnat a) (fnat b)) (fnat (a + b)))
               (seq 0 (S N)))
    (seq 0 (S N)).

Definition exact_upto (N : nat) : bool := counts_exactly N && adds_exactly N.

Section adding.
Context (N : nat) (HN : exact_upto N = true).

Lemma exact_counts : counts_exactly N = true.
Proof. unfold exact_upto in HN. by apply andb_true_iff in HN as [? _]. Qed.

Lemma adds_at a :
  (a ≤ N)%nat →
  PrimFloat.add infinity (fnat a) = infinity ∧
  PrimFloat.add (fnat a) infinity = infinity ∧
  PrimFloat.ltb infinity (fnat a) = false ∧
  ∀ b, (a + b ≤ N)%nat → PrimFloat.add (fnat a) (fnat b) = fnat (a + b).
Proof.
  intros Ha. unfold exact_upto in HN. apply andb_true_iff in HN as [_ H].
  unfold adds_exactly in H. rewrite forallb_forall in H.
  specialize (H a). rewrite !andb_true_iff, negb_true_iff in H.
  destruct H as [[[H1 H2] H3] H4]; [apply in_seq; lia|].
  split; [by apply FloatAxioms.Leibniz.eqb_spec|].
  split; [by apply FloatAxioms.Leibniz.eqb_spec|]. split; [done|].
  intros b Hb. rewrite forallb_forall in H4. specialize (H4 b).
  rewrite orb_true_iff in H4. destruct H4 as [H4|H4]; [apply in_seq; lia| |].
  - apply Nat.ltb_lt in H4. lia.
  - by apply FloatAxioms.Leibniz.eqb_spec.
Qed.

Lemma fnat_add a b : (a + b ≤ N)%nat → PrimFloat.add (fnat a) (fnat b) = fnat (a + b).
Proof. intros H. apply adds_at; [lia|done]. Qed.

Lemma inf_add_fnat a : (a ≤ N)%nat → PrimFloat.add infinity (fnat a) = infinity.
Proof. intros H. by apply adds_at. Qed.

Lemma fnat_add_inf a : (a ≤ N)%nat → PrimFloat.add (fnat a) infinity = infinity.
Proof. intros H. by apply adds_at. Qed.

Lemma inf_ltb_fnat a : (a ≤ N)%nat → PrimFloat.ltb infinity (fnat a) = false.
Proof. intros H. by apply adds_at. Qed.
End adding.

Example exact_upto_8 : exact_upto 8 = true.
Proof. by vm_compute. Qed.

(** ** float64 counts and adds exactly below 2^53 *)

(** [p] shifted left by [k] bits. *)
Definition shl (p : positive) (k : nat) : positive := Nat.iter k xO p.

Lemma iter_pos_nat {A} (f : A → A) p x : SpecFloat.iter_pos f p x = Nat.iter (Pos.to_nat p) f x.
Proof.
  revert x. induction p as [p IH|p IH|]; intros x; [| |done].
  - change (SpecFloat.iter_pos f p~1 x)
      with (SpecFloat.iter_pos f p (SpecFloat.iter_pos f p (f x))).
    rewrite !IH, Pos2Nat.inj_xI.
    replace (S (2 * Pos.to_nat p)) with (S (Pos.to_nat p + Pos.to_nat p)) by lia.
    by rewrite Nat.iter_succ_r, Nat.iter_add.
  - change (SpecFloat.iter_pos f p~0 x)
      with (SpecFloat.iter_pos f p (SpecFloat.iter_pos f p x)).
    rewrite !IH, Pos2Nat.inj_xO.
    replace (2 * Pos.to_nat p)%nat with (Pos.to_nat p + Pos.to_nat p)%nat by lia.
    by rewrite Nat.iter_add.
Qed.

Lemma Pos_iter_nat {A} (f : A → A) p x : Pos.iter f x p = Nat.iter (Pos.to_nat p) f x.
Proof. apply Pos2Nat.inj_iter. Qed.

Lemma shl_add p j k : shl (shl p j) k = shl p (k + j).
Proof. unfold shl. by rewrite Nat.iter_add. Qed.

Lemma shl_value p k : Z.pos (shl p k) = Z.pos p * 2 ^ Z.of_nat k.
Proof.
  induction k as [|k IH]; [simpl; lia|].
  change (Z.pos (shl p (S k))) with (2 * Z.pos (shl p k)).
  rewrite IH, Nat2Z.inj_succ, Z.pow_succ_r by lia. lia.
Qed.

Lemma shl_plus p q k : (shl p k + shl q k)%positive = shl (p + q) k.
Proof. induction k as [|k IH]; [done|]. simpl. by rewrite <- IH. Qed.

Lemma digits_shl p k : Z.pos (digits2_pos (shl p k)) = Z.pos (digits2_pos p) + Z.of_nat k.
Proof.
  induction k as [|k IH]; [simpl; lia|].
  change (shl p (S k)) with (xO (shl p k)). simpl digits2_pos.
  rewrite Pos2Z.inj_succ, IH. lia.
Qed.

Lemma digits_size p : digits2_pos p = Pos.size p.
Proof. induction p; simpl; congruence. Qed.

Lemma digits_lower p : 2 ^ (Z.pos (digits2_pos p) - 1) ≤ Z.pos p.
Proof.
  rewrite digits_size. pose proof (Pos.size_le p) as H.
  apply Pos2Z.pos_le_pos in H. rewrite Pos2Z.inj_pow in H.
  change (Z.pos p~0) with (2 * Z.pos p) in H.
  replace (Z.pos (Pos.size p)) with (Z.succ (Z.pos (Pos.size p) - 1)) in H by lia.
  rewrite Z.pow_succ_r in H by lia. lia.
Qed.

Lemma digits_upper p : Z.pos p < 2 ^ Z.pos (digits2_pos p).
Proof.
  rewrite digits_size. pose proof (Pos.size_gt p) as H.
  apply Pos2Z.pos_lt_pos in H. by rewrite Pos2Z.inj_pow in H.
Qed.

Lemma digits_le p d : 0 ≤ d → Z.pos p < 2 ^ d → Z.pos (digits2_pos p) ≤ d.
Proof.
  intros Hd Hp. pose proof (digits_lower p) as Hl.
  destruct (Z_le_gt_dec (Z.pos (digits2_pos p)) d) as [?|Hgt]; [done|].
  assert (2 ^ d ≤ 2 ^ (Z.pos (digits2_pos p) - 1)); [|lia].
  apply Z.pow_le_mono_r; lia.
Qed.

Lemma digits_mono p q : (p ≤ q)%positive → Z.pos (digits2_pos p) ≤ Z.pos (digits2_pos q).
Proof.
  intros Hpq. apply digits_le; [lia|]. pose proof (digits_upper q). lia.
Qed.

(** The float64 that holds the integer [p] of at most 53 bits: its bits
    shifted to the top of the mantissa. *)
Definition canon (p : positive) : spec_float :=
  S754_finite false (shl p (Z.to_nat (53 - Z.pos (digits2_pos p))))
              (Z.pos (digits2_pos p) - 53).

Definition SF_of_nat (n : nat) : spec_float :=
  match n with
  | O => S754_zero false
  | S n' => canon (Pos.of_succ_nat n')
  end.

Lemma shr_1_exact q k :
  Nat.iter k shr_1 (Build_shr_record (Z.pos (shl q k)) false false)
  = Build_shr_record (Z.pos q) false false.
Proof.
  induction k as [|k IH]; [done|]. rewrite Nat.iter_succ_r.
  change (shl q (S k)) with (xO (shl q k)). simpl shr_1. apply IH.
Qed.

(** Shifting out [k] zero bits is exact. *)
Lemma shr_exact q k e :
  shr (shr_record_of_loc (Z.pos (shl q k)) loc_Exact) e (Z.of_nat k)
  = (Build_shr_record (Z.pos q) false false, e + Z.of_nat k).
Proof.
  destruct k as [|k]; [simpl; by rewrite Z.add_0_r|].
  change (Z.of_nat (S k)) with (Z.pos (Pos.of_succ_nat k)). unfold shr.
  rewrite iter_pos_nat, SuccNat2Pos.id_succ. f_equal. apply (shr_1_exact q (S k)).
Qed.

Lemma fexp_normal d : 1 ≤ d → fexp prec emax d = d - 53.
Proof. unfold fexp, emin, prec, emax. lia. Qed.

(** A full mantissa is left as it is. *)
Lemma shr_fexp_canon m e :
  Z.pos (digits2_pos m) = 53 → -52 ≤ e →
  shr_fexp prec emax (Z.pos m) e loc_Exact = (Build_shr_record (Z.pos m) false false, e).
Proof.
  intros Hd He. unfold shr_fexp. simpl Zdigits2. rewrite Hd, fexp_normal by lia.
  replace (53 + e - 53 - e) with 0 by lia. done.
Qed.

Lemma aux_canon m e :
  Z.pos (digits2_pos m) = 53 → -52 ≤ e ≤ 0 →
  binary_round_aux prec emax false (Z.pos m) e loc_Exact = S754_finite false m e.
Proof.
  intros Hd He. unfold binary_round_aux. rewrite shr_fexp_canon by (done || lia).
  simpl. rewrite shr_fexp_canon by (done || lia). simpl.
  assert ((e <=? emax - prec) = true) as -> by (apply Z.leb_le; unfold emax, prec; lia). done.
Qed.

(** Rounding an integer of at most 53 bits, given with [t] more zero bits,
    gives the float64 that holds it. *)
Lemma normalize_scaled s t :
  Z.pos (digits2_pos s) ≤ 53 →
  binary_normalize prec emax (Z.pos (shl s t)) (- Z.of_nat t) false = canon s.
Proof.
  intros Hd. unfold binary_normalize, binary_round, canon. rewrite digits_shl.
  set (D := Z.pos (digits2_pos s)) in *. assert (1 ≤ D) by (unfold D; lia).
  replace (D + Z.of_nat t + - Z.of_nat t) with D by lia. rewrite fexp_normal by done.
  unfold shl_align. destruct (D - 53 - - Z.of_nat t) as [|p|p] eqn:E.
  - replace (Z.to_nat (53 - D)) with t by lia. replace (D - 53) with (- Z.of_nat t) by lia.
    apply aux_canon; [rewrite digits_shl; fold D; lia|lia].
  - unfold binary_round_aux. unfold shr_fexp at 1. simpl Zdigits2. rewrite digits_shl. fold D.
    replace (D + Z.of_nat t + - Z.of_nat t) with D by lia. rewrite fexp_normal by done.
    replace (D - 53 - - Z.of_nat t) with (Z.of_nat (Pos.to_nat p)) by lia.
    replace (shl s t) with (shl (shl s (Z.to_nat (53 - D))) (Pos.to_nat p))
      by (rewrite shl_add; f_equal; lia).
    rewrite shr_exact. simpl round_nearest_even.
    replace (- Z.of_nat t + Z.of_nat (Pos.to_nat p)) with (D - 53) by lia.
    rewrite shr_fexp_canon by (rewrite ?digits_shl; fold D; lia). simpl.
    assert ((D - 53 <=? emax - prec) = true) as ->
      by (apply Z.leb_le; unfold emax, prec; lia).
    done.
  - rewrite Pos_iter_nat. change (Nat.iter (Pos.to_nat p) xO (shl s t))
      with (shl (shl s t) (Pos.to_nat p)).
    rewrite shl_add. replace (Pos.to_nat p + t)%nat with (Z.to_nat (53 - D)) by lia.
    apply aux_canon; [rewrite digits_shl; fold D; lia|lia].
Qed.

Lemma align_canon p ez :
  ez ≤ Z.pos (digits2_pos p) - 53 → Z.pos (digits2_pos p) ≤ 53 →
  fst (shl_align (shl p (Z.to_nat (53 - Z.pos (digits2_pos p))))
                 (Z.pos (digits2_pos p) - 53) ez)
  = shl p (Z.to_nat (- ez)).
Proof.
  intros He Hd. unfold shl_align. set (D := Z.pos (digits2_pos p)) in *.
  destruct (ez - (D - 53)) as [|d|d] eqn:E; simpl fst.
  - f_equal. lia.
  - lia.
  - rewrite Pos_iter_nat. change (Nat.iter (Pos.to_nat d) xO ?x) with (shl x (Pos.to_nat d)).
    rewrite shl_add. f_equal. lia.
Qed.

Lemma canon_add a b :
  Z.pos (digits2_pos (a + b)) ≤ 53 →
  SFadd prec emax (canon a) (canon b) = canon (a + b).
Proof.
  intros Hd.
  assert (Z.pos (digits2_pos a) ≤ 53 ∧ Z.pos (digits2_pos b) ≤ 53) as [Ha Hb].
  { split; (etrans; [apply digits_mono|done]); lia. }
  unfold canon at 1 2. unfold SFadd.
  set (ez := Z.min (Z.pos (digits2_pos a) - 53) (Z.pos (digits2_pos b) - 53)).
  rewrite !align_canon by (done || unfold ez; lia). simpl cond_Zopp.
  rewrite <- Pos2Z.inj_add, shl_plus.
  replace ez with (- Z.of_nat (Z.to_nat (- ez))) at 2 by (unfold ez; lia).
  by apply normalize_scaled.
Qed.

Lemma digits_of_nat n : Z.of_nat (S n) < 2 ^ 53 → Z.pos (digits2_pos (Pos.of_succ_nat n)) ≤ 53.
Proof. intros H. apply digits_le; [lia|]. by rewrite Zpos_P_of_succ_nat, <- Nat2Z.inj_succ. Qed.

Lemma SF_of_nat_add a b :
  Z.of_nat (a + b) < 2 ^ 53 →
  SFadd prec emax (SF_of_nat a) (SF_of_nat b) = SF_of_nat (a + b).
Proof.
  intros H. destruct a as [|a], b as [|b]; try done.
  - by rewrite Nat.add_0_r.
  - replace (S a + S b)%nat with (S (a + S b)) by lia. simpl SF_of_nat.
    replace (Pos.of_succ_nat (a + S b)) with (Pos.of_succ_nat a + Pos.of_succ_nat b)%positive
      by lia.
    apply canon_add.
    replace (Pos.of_succ_nat a + Pos.of_succ_nat b)%positive with (Pos.of_succ_nat (a + S b))
      by lia.
    apply digits_of_nat. by replace (S (a + S b)) with (S a + S b)%nat by lia.
Qed.

Lemma Prim2SF_inj x y : Prim2SF x = Prim2SF y → x = y.
Proof. intros H. by rewrite <- (SF2Prim_Prim2SF x), H, SF2Prim_Prim2SF. Qed.

(** [fnat n] is the float64 that holds [n]. *)
Lemma Prim2SF_fnat n : Z.of_nat n < 2 ^ 53 → Prim2SF (fnat n) = SF_of_nat n.
Proof.
  induction n as [|n IH]; intros Hn; [done|].
  change (fnat (S n)) with (PrimFloat.add (fnat n) 1).
  rewrite FloatAxioms.add_spec, IH by lia.
  change (Prim2SF 1) with (SF_of_nat 1). unfold SF64add.
  rewrite SF_of_nat_add by lia. by rewrite Nat.add_1_r.
Qed.

Lemma shl_compare p q k r : Pos.compare_cont r (shl p k) (shl q k) = Pos.compare_cont r p q.
Proof. induction k as [|k IH]; [done|]. apply IH. Qed.

Lemma canon_compare p q :
  Z.pos (digits2_pos p) ≤ 53 → Z.pos (digits2_pos q) ≤ 53 →
  SFcompare (canon p) (canon q) = Some (Pos.compare p q).
Proof.
  intros Hp Hq. unfold canon, SFcompare. f_equal.
  pose proof (digits_lower p). pose proof (digits_upper p).
  pose proof (digits_lower q). pose proof (digits_upper q).
  destruct (Z.compare_spec (Z.pos (digits2_pos p) - 53) (Z.pos (digits2_pos q) - 53)) as [E|E|E].
  - replace (Z.pos (digits2_pos q)) with (Z.pos (digits2_pos p)) by lia.
    by rewrite shl_compare.
  - symmetry. apply Pos.compare_lt_iff, Pos2Z.pos_lt_pos.
    assert (2 ^ Z.pos (digits2_pos p) ≤ 2 ^ (Z.pos (digits2_pos q) - 1)); [|lia].
    apply Z.pow_le_mono_r; lia.
  - symmetry. apply Pos.compare_gt_iff, Pos2Z.pos_lt_pos.
    assert (2 ^ Z.pos (digits2_pos q) ≤ 2 ^ (Z.pos (digits2_pos p) - 1)); [|lia].
    apply Z.pow_le_mono_r; lia.
Qed.

Lemma SF_of_nat_ltb a b :
  Z.of_nat a < 2 ^ 53 → Z.of_nat b < 2 ^ 53 →
  SFltb (SF_of_nat a) (SF_of_nat b) = (a <? b)%nat.
Proof.
  intros Ha Hb. destruct a as [|a], b as [|b]; try done.
  unfold SFltb. simpl SF_of_nat. rewrite canon_compare by (by apply digits_of_nat).
  rewrite <- SuccNat2Pos.inj_compare.
  destruct (Nat.compare_spec a b) as [E|E|E]; symmetry;
    [apply Nat.ltb_ge|apply Nat.ltb_lt|apply Nat.ltb_ge]; lia.
Qed.

Lemma SF_of_nat_finite a :
  SFltb (SF_of_nat a) (S754_infinity false) = true ∧
  SFeqb (SF_of_nat a) (S754_infinity false) = false ∧
  SFltb (S754_infinity false) (SF_of_nat a) = false ∧
  SFadd prec emax (S754_infinity false) (SF_of_nat a) = S754_infinity false ∧
  SFadd prec emax (SF_of_nat a) (S754_infinity false) = S754_infinity false.
Proof. by destruct a. Qed.

Lemma float64_of_nat a :
  Z.of_nat a < 2 ^ 53 → Prim2SF (float64_of_int (Z.of_nat a)) = SF_of_nat a.
Proof.
  intros Ha. unfold float64_of_int.
  assert ((Z.of_nat a <? 0) = false) as -> by (apply Z.ltb_ge; lia).
  rewrite of_uint63_spec, Uint63.of_Z_spec, Z.mod_small.
  2:{ split; [lia|]. etrans; [done|]. by vm_compute. }
  destruct a as [|a]; [done|].
  change (Z.of_nat (S a)) with (Z.pos (shl (Pos.of_succ_nat a) 0)).
  change 0 with (- Z.of_nat 0) at 1. by apply normalize_scaled, digits_of_nat.
Qed.

Lemma Prim2SF_infinity : Prim2SF infinity = S754_infinity false.
Proof. done. Qed.

(** Below 2^53, float64 counts and adds the integers exactly. *)
Theorem exact_below (N : nat) : Z.of_nat N < 2 ^ 53 → exact_upto N = true.
Proof.
  intros HN. unfold exact_upto, counts_exactly, adds_exactly.
  apply andb_true_iff. split; apply forallb_forall; intros a [_ Ha]%in_seq;
    pose proof (SF_of_nat_finite a) as (F1 & F2 & F3 & F4 & F5);
    rewrite !andb_true_iff.
  - split; [split; [split|]|].
    + by rewrite FloatAxioms.ltb_spec, Prim2SF_fnat, Prim2SF_infinity by lia.
    + by rewrite FloatAxioms.eqb_spec, Prim2SF_fnat, Prim2SF_infinity, F2 by lia.
    + apply FloatAxioms.Leibniz.eqb_spec, Prim2SF_inj.
      by rewrite Prim2SF_fnat, float64_of_nat by lia.
    + apply forallb_forall. intros b [_ Hb]%in_seq.
      rewrite FloatAxioms.ltb_spec, !Prim2SF_fnat, SF_of_nat_ltb by lia.
      apply Bool.eqb_reflx.
  - split; [split; [split|]|].
    + apply FloatAxioms.Leibniz.eqb_spec, Prim2SF_inj.
      by rewrite FloatAxioms.add_spec, Prim2SF_fnat, Prim2SF_infinity by lia.
    + apply FloatAxioms.Leibniz.eqb_spec, Prim2SF_inj.
      by rewrite FloatAxioms.add_spec, Prim2SF_fnat, Prim2SF_infinity by lia.
    + by rewrite FloatAxioms.ltb_spec, Prim2SF_fnat, Prim2SF_infinity, F3 by lia.
    + apply forallb_forall. intros b [_ Hb]%in_seq. apply orb_true_iff.
      destruct (Nat.ltb_spec N (a + b)) as [?|Hab]; [by left|right].
      apply FloatAxioms.Leibniz.eqb_spec, Prim2SF_inj.
      rewrite FloatAxioms.add_spec, !Prim2SF_fnat by lia. apply SF_of_nat_add. lia.
Qed.

Corollary counts_below (N : nat) : Z.of_nat N < 2 ^ 53 → counts_exactly N = true.
Proof. intros H. by apply exact_counts, exact_below. Qed.

(** ** Dijkstra on exactly added weights: the distance is the least cost *)

(** [hop g s v k]: some walk from [s] to [v] has [k] edges. *)
Inductive hop (g : Graph) (s : Z) : Z → nat → Prop :=
| hop_0 : hop g s s 0
| hop_S u v w k : hop g s u k → has_edge g u v w → hop g s v (S k).

Lemma reachable_hop g s v : reachable g s v ↔ ∃ k, hop g s v k.
Proof.
  split.
  - induction 1 as [|u v w _ [k IH] He]; [exists 0%nat; constructor|].
    exists (S k). by apply hop_S with u w.
  - intros [k H]. induction H as [|u v w k _ IH He]; [constructor|].
    by apply reach_edge with u w.
Qed.

(** [walk W g s v c]: some walk from [s] to [v], over edges whose weights
    are counts up to [W], costs [c]. *)
Inductive walk (W : nat) (g : Graph) (s : Z) : Z → nat → Prop :=
| walk_0 : walk W g s s 0
| walk_S u v k c :
    walk W g s u c → has_edge g u v (fnat k) → (k ≤ W)%nat → walk W g s v (c + k).

Lemma has_edge_functional g u v w w' : has_edge g u v w → has_edge g u v w' → w = w'.
Proof. intros (r & Hr & Hw) (r' & Hr' & Hw'). congruence. Qed.

Lemma walk_reachable W g s v c : walk W g s v c → reachable g s v.
Proof. induction 1; [constructor|]. by eapply reach_edge. Qed.

Lemma elem_of_entries_prio q v p :
  (v, p) ∈ entry <$> q → ∃ k, prio q k = Some p.
Proof.
  intros (it & E & Hin)%list_elem_of_fmap. apply list_elem_of_lookup in Hin as [k Hk].
  exists k. unfold prio. rewrite Hk. simpl. by injection E as _ ->.
Qed.

Lemma prio_elem_of_entries q k p :
  prio q k = Some p → ∃ v, (v, p) ∈ entry <$> q.
Proof.
  unfold prio. destruct (q !! k) as [it|] eqn:E; [|done]. intros [= <-].
  exists (node it). apply list_elem_of_fmap. exists it. split; [done|].
  by apply list_elem_of_lookup_2 with k.
Qed.

Section exact_weights.
Context (ord : RangeOrder) (g : Graph) (Hg : wf g) (source : Z) (W N : nat).
Context (HN : counts_exactly N = true) (HWN : (W * S (size (nodes g)) ≤ N)%nat).
(** Every weight is a count up to [W] that float64 adds exactly. *)
Context (Hwt : ∀ u v w, has_edge g u v w →
           ∃ k, (k ≤ W)%nat ∧ w = fnat k ∧
                ∀ a, (a + k ≤ N)%nat → PrimFloat.add (fnat a) w = fnat (a + k)).

Abbreviation B := (W * size (nodes g))%nat.

Lemma within a k : (a ≤ B)%nat → (k ≤ W)%nat → (a + k ≤ N)%nat.
Proof. rewrite Nat.mul_succ_r in HWN. lia. Qed.

Lemma reachable_walk v : reachable g source v → ∃ c, walk W g source v c.
Proof.
  induction 1 as [|u v w _ [c IH] He]; [exists 0%nat; constructor|].
  destruct (Hwt _ _ _ He) as (k & Hk & -> & _). exists (c + k)%nat. by apply walk_S with u.
Qed.

(** [skip u v]: the edge from [u] to [v] has not been relaxed yet. *)
Record opt (skip : Z → Z → Prop) (st : search) : Prop := {
  opt_settled : ∀ v, (visited st).[v] = true →
    ∃ a, (dist st).[v] = fnat a ∧ walk W g source v a ∧
         (∀ a', walk W g source v a' → (a ≤ a')%nat) ∧ (a ≤ B)%nat;
  opt_closed : ∀ u v k, (visited st).[u] = true → ¬ skip u v →
    has_edge g u v (fnat k) → (k ≤ W)%nat →
    ∃ a j, (dist st).[u] = fnat a ∧ (a ≤ B)%nat ∧
           (dist st).[v] = fnat j ∧ (j ≤ a + k)%nat;
  opt_queue : ∀ v p, (v, p) ∈ entry <$> pq st →
    ∃ j j', p = fnat j ∧ (j ≤ N)%nat ∧ (dist st).[v] = fnat j' ∧ (j' ≤ j)%nat;
  opt_current : ∀ v, is_Some (prev st !! v) ∨ v = source → (visited st).[v] = false →
    (v, (dist st).[v]) ∈ entry <$> pq st;
  opt_heap : heap_ordered (pq st)
}.

Definition all_done : Z → Z → Prop := λ _ _, False.

Definition pending_of (u : Z) (done : list (Z * float)) : Z → Z → Prop :=
  λ u' v, u' = u ∧ v ∉ done.*1.

Lemma opt_admissible skip st : opt skip st → admissible (count N) (pq st).
Proof.
  intros Ho k a [v Hv]%prio_elem_of_entries.
  destruct (opt_queue _ _ Ho v a Hv) as (j & _ & -> & Hj & _). by exists j.
Qed.

Lemma settled_unique st skip v a :
  opt skip st → (visited st).[v] = true → (dist st).[v] = fnat a → (a ≤ N)%nat →
  walk W g source v a ∧ (∀ a', walk W g source v a' → (a ≤ a')%nat) ∧ (a ≤ B)%nat.
Proof.
  intros Ho Hv Hd Ha. destruct (opt_settled _ _ Ho v Hv) as (a0 & Hd0 & H).
  rewrite Hd in Hd0. apply (fnat_inj N HN) in Hd0; [by subst|done|].
  destruct H as (_ & _ & ?). pose proof (within a0 0). lia.
Qed.

(** The distance of a node reached over the edge from a settled node. *)
Lemma dist_over_edge st skip p v w :
  opt skip st → (visited st).[p] = true → has_edge g p v w →
  ∃ a k, (dist st).[p] = fnat a ∧ (a ≤ B)%nat ∧ (k ≤ W)%nat ∧ w = fnat k ∧
         walk W g source v (a + k) ∧ PrimFloat.add (dist st).[p] w = fnat (a + k).
Proof.
  intros Ho Hp He. destruct (opt_settled _ _ Ho p Hp) as (a & Ha & Hwa & _ & Hab).
  destruct (Hwt _ _ _ He) as (k & Hk & -> & Hadd).
  exists a, k. rewrite Ha, Hadd by (by apply within).
  repeat (split; [done|]). split; [|done]. by apply walk_S with p.
Qed.

(** A node with a tentative distance was reached from a settled one. *)
Lemma tentative st skip v :
  inv ord g source st → opt skip st → is_Some (nodes g !! v) ∨ v = source →
  (dist st).[v] = infinity ∧ prev st !! v = None ∧ v ≠ source ∨
  ∃ j, (j ≤ N)%nat ∧ (dist st).[v] = fnat j ∧ (is_Some (prev st !! v) ∨ v = source).
Proof.
  intros Hinv Ho Hv.
  destruct (decide (v = source)) as [->|Hne].
  { right. exists 0%nat. split; [lia|]. split; [|by right].
    by rewrite (index_map_Some _ _ _ (inv_source _ _ _ _ Hinv)). }
  destruct Hv as [Hv|?]; [|done].
  destruct (prev st !! v) as [p|] eqn:Ep.
  - right. destruct (inv_prev _ _ _ _ Hinv _ _ Ep) as (Hpv & _ & w & He & Hd).
    destruct (dist_over_edge st _ p v w Ho Hpv He) as (a & k & _ & Ha & Hk & _ & _ & Hsum).
    exists (a + k)%nat. split; [by apply within|]. split; [|eauto].
    by rewrite (index_map_Some _ _ _ Hd).
  - left. split; [|done]. apply index_map_Some.
    rewrite (inv_untouched _ _ _ _ Hinv) by done.
    rewrite init_dist_lookup, decide_False, decide_True; done.
Qed.

(** Every walk from the source ends at a visited node, or passes by an
    unvisited node whose entry in the queue costs no more. *)
Lemma frontier st v c :
  inv ord g source st → opt all_done st → walk W g source v c →
  (visited st).[v] = true ∨
  ∃ y jy, (visited st).[y] = false ∧ (y, fnat jy) ∈ entry <$> pq st ∧
          (jy ≤ c)%nat ∧ (jy ≤ N)%nat.
Proof.
  intros Hinv Ho. induction 1 as [|u v k c Hh IH He Hk].
  - destruct ((visited st).[source]) eqn:Ev; [by left|]. right.
    exists source, 0%nat. split; [done|]. split; [|lia].
    pose proof (opt_current _ _ Ho source (or_intror eq_refl) Ev) as Hc.
    by rewrite (index_map_Some _ _ _ (inv_source _ _ _ _ Hinv)) in Hc.
  - destruct IH as [Hu|(y & jy & Hy & Hin & Hle & HleN)].
    2:{ right. exists y, jy. split; [done|]. split; [done|]. lia. }
    destruct (opt_closed _ _ Ho u v k Hu) as (au & j & Hdu & Hau & Hdv & Hj);
      [by intros []|done|done|].
    destruct (settled_unique st _ u au Ho Hu Hdu) as (_ & Hmin & _);
      [pose proof (within au 0); lia|].
    pose proof (Hmin c Hh) as Hcc. pose proof (within au k Hau Hk) as Hw.
    destruct ((visited st).[v]) eqn:Ev; [by left|]. right.
    exists v, j. split; [done|]. split; [|lia].
    rewrite <- Hdv. apply (opt_current _ _ Ho); [|done].
    destruct (tentative st _ v Hinv Ho) as [(Hinf & _)|(_ & _ & _ & ?)]; [| |done].
    + left. by apply (wf_edge _ _ _ _ Hg) in He as [_ ?].
    + rewrite Hdv in Hinf. by apply (fnat_finite N HN) in Hinf; [|lia].
Qed.

Lemma chain_cost st v l :
  inv ord g source st → chain source (prev st) v l →
  ∃ m c, length l = S m ∧ walk W g source v c ∧ (c ≤ W * m)%nat.
Proof.
  intros Hinv. induction 1 as [|n p l Hn Hp Hc (m & c & Hm & IH & Hle)].
  { exists 0%nat, 0%nat. split; [done|]. split; [constructor|lia]. }
  destruct (inv_prev _ _ _ _ Hinv _ _ Hp) as (_ & _ & w & He & _).
  destruct (Hwt _ _ _ He) as (k & Hk & -> & _).
  exists (S m), (c + k)%nat. split; [rewrite length_app; simpl; lia|].
  split; [by apply walk_S with p|]. rewrite Nat.mul_succ_r. lia.
Qed.

Lemma entries_Pop st cur rest :
  heap_Pop (pq st) = Some (cur, rest) →
  ∀ e, e ∈ entry <$> pq st ↔ e = entry cur ∨ e ∈ entry <$> rest.
Proof. intros E%heap_Pop_Some e. rewrite <- E. apply elem_of_cons. Qed.

Lemma opt_skip st cur rest :
  opt all_done st → heap_Pop (pq st) = Some (cur, rest) →
  (visited st).[node cur] = true → opt all_done (set_pq st rest).
Proof.
  intros Ho E Ev. pose proof (entries_Pop _ _ _ E) as Hent.
  destruct (heap_Pop_ordered (count N) (count_asym N HN) (count_trans N HN)
              _ _ _ (opt_heap _ _ Ho) (opt_admissible _ _ Ho) E) as (Hh & _).
  destruct Ho as [Hs Hc Hq Hcur _]. split; simpl; try done.
  - intros v p Hin. apply Hq, Hent. by right.
  - intros v Hv Hvis. destruct (proj1 (Hent _) (Hcur v Hv Hvis)) as [[= -> _]|?]; [|done].
    congruence.
Qed.

Lemma opt_visit st cur rest :
  inv ord g source st → opt all_done st → heap_Pop (pq st) = Some (cur, rest) →
  (visited st).[node cur] = false →
  opt (pending_of (node cur) []) (visit st (node cur) rest).
Proof.
  intros Hinv Ho E Ev. pose proof (entries_Pop _ _ _ E) as Hent.
  destruct (heap_Pop_ordered (count N) (count_asym N HN) (count_trans N HN)
              _ _ _ (opt_heap _ _ Ho) (opt_admissible _ _ Ho) E) as (Hh & _ & _ & Hmin).
  pose proof (inv_visit ord g source st cur rest Hinv E Ev) as Hinv1.
  set (u := node cur) in *.
  assert ((u, priority cur) ∈ entry <$> pq st) as Hcur_in by (apply Hent; by left).
  destruct (opt_queue _ _ Ho _ _ Hcur_in) as (j & j' & Hp & HjN & Hd & Hjj).
  (* the popped node is settled *)
  assert (walk W g source u j' ∧ (∀ a', walk W g source u a' → (j' ≤ a')%nat) ∧
          (j' ≤ B)%nat) as (Hup & Hlow & Hbound).
  { assert (walk W g source u j') as Hup.
    { destruct (inv_queue _ _ _ _ Hinv u) as [Es|[p Hprev]].
      - unfold queued. rewrite nodes_of_entries. apply list_elem_of_fmap.
        by exists (u, priority cur).
      - rewrite Es, (index_map_Some _ _ _ (inv_source _ _ _ _ Hinv)) in Hd.
        apply (fnat_inj N HN 0 j') in Hd; [|lia|lia]. subst j'. rewrite Es. constructor.
      - destruct (inv_prev _ _ _ _ Hinv _ _ Hprev) as (Hpv & _ & w & He & Hdu).
        destruct (dist_over_edge st _ p u w Ho Hpv He)
          as (a & k & _ & Ha & Hk & _ & Hwalk & Hsum).
        rewrite (index_map_Some _ _ _ Hdu), Hsum in Hd.
        apply (fnat_inj N HN (a + k) j') in Hd; [|by apply within|lia]. by subst j'. }
    assert (∀ a', walk W g source u a' → (j' ≤ a')%nat) as Hlow.
    { intros a' Ha'.
      destruct (frontier st u a' Hinv Ho Ha') as [?|(y & jy & Hy & Hin & Hle & HleN)];
        [congruence|].
      destruct (elem_of_entries_prio _ _ _ Hin) as [i Hi].
      pose proof (Hmin i _ Hi) as Hf. rewrite Hp in Hf.
      apply (fle_fnat N HN) in Hf; lia. }
    split; [done|]. split; [done|].
    destruct (inv_chain _ _ _ _ Hinv1 u) as (l & Hl & HN' & Hall);
      [apply index_map_insert_eq|].
    pose proof (chain_length ord g Hg source _ l Hinv1 HN' Hall) as Hlen.
    destruct (chain_cost _ _ _ Hinv1 Hl) as (m & c & Hm & Hc & Hcm).
    pose proof (Hlow _ Hc). assert (W * m ≤ B)%nat; [|lia].
    apply Nat.mul_le_mono_l. lia. }
  destruct Ho as [Hs Hc Hq Hcur _]. split; simpl.
  - intros v. rewrite index_map_insert. case_decide as Ec; [subst v|by apply Hs].
    intros _. by exists j'.
  - intros u' v k. rewrite index_map_insert. unfold pending_of.
    case_decide as Ec; [subst u'|].
    + intros _ Hsk. exfalso. apply Hsk. split; [done|]. simpl. apply not_elem_of_nil.
    + intros Hv _ He Hk. apply (Hc u' v k); [done|by intros []|done|done].
  - intros v p Hin. apply Hq, Hent. by right.
  - intros v Hv. rewrite index_map_insert. case_decide as Ec; [done|]. intros Hvis.
    destruct (proj1 (Hent _) (Hcur v Hv Hvis)) as [Heq|?]; [|done].
    unfold entry in Heq. injection Heq as H1 H2. by subst u.
  - done.
Qed.

Lemma pending_snoc u done nb (w : float) u' v :
  ¬ pending_of u (done ++ [(nb, w)]) u' v → ¬ (u' = u ∧ v = nb) → ¬ pending_of u done u' v.
Proof.
  unfold pending_of. rewrite fmap_app, elem_of_app. simpl.
  rewrite list_elem_of_singleton. intros H1 H2 [-> H3]. apply H1. split; [done|].
  intros [? | ->]; [done|]. by apply H2.
Qed.

(** An edge that leaves the state as it is counts as relaxed once its
    target costs no more than its origin and the edge. *)
Lemma opt_edge_done u done nb k st au j :
  opt (pending_of u done) st → (dist st).[u] = fnat au → (au ≤ B)%nat →
  has_edge g u nb (fnat k) → (k ≤ W)%nat →
  (dist st).[nb] = fnat j → (j ≤ au + k)%nat →
  opt (pending_of u (done ++ [(nb, fnat k)])) st.
Proof.
  intros [Hs Hc Hq Hcur Hh] Hdu Hau He Hk Hdn Hj. split; try done.
  intros u' v k' Hu' Hsk He' Hk'. destruct (decide (u' = u ∧ v = nb)) as [[-> ->]|Hne].
  - pose proof (has_edge_functional _ _ _ _ _ He He') as Ek.
    apply (fnat_inj N HN) in Ek; [|pose proof (within 0 k); lia|pose proof (within 0 k'); lia].
    subst k'. by exists au, j.
  - apply (Hc u' v k'); [done| |done|done]. by eapply pending_snoc.
Qed.

Lemma opt_relax u done e rest st :
  inv ord g source st → (visited st).[u] = true → opt (pending_of u done) st →
  range ord (adjacency g).[u] = done ++ e :: rest →
  opt (pending_of u (done ++ [e])) (relax (λ _ d, d) u st e).
Proof.
  intros Hinv Hu Ho Hr. destruct e as [nb w].
  assert (has_edge g u nb w) as He.
  { apply has_edge_row, (elem_of_range ord). rewrite Hr. apply elem_of_app. right. left. }
  destruct (dist_over_edge st _ u nb w Ho Hu He)
    as (au & k & Hdu & Hau & Hk & -> & Hwnb & Hsum).
  pose proof (within au k Hau Hk) as Hin.
  unfold relax. destruct ((visited st).[nb]) eqn:Evn.
  { destruct (opt_settled _ _ Ho nb Evn) as (an & Hdn & _ & Hminn & _).
    apply (opt_edge_done u done nb k st au an); auto. }
  assert (nb ≠ u) as Hnbu by congruence.
  rewrite Hsum.
  assert (is_Some (nodes g !! nb)) as Hreg
    by (by apply (wf_edge _ _ _ _ Hg) in He as [_ ?]).
  destruct (PrimFloat.ltb (fnat (au + k)) (dist st).[nb]) eqn:Ecmp.
  2:{ (* no improvement: the neighbour costs no more already *)
    destruct (tentative st _ nb Hinv Ho) as [(Hinf & _)|(jn & Hjn & Hdn & _)]; [by left|..].
    - rewrite Hinf, (fnat_lt_inf N HN) in Ecmp by lia. done.
    - rewrite Hdn, (fnat_ltb N HN) in Ecmp by lia. apply Nat.ltb_ge in Ecmp.
      by apply (opt_edge_done u done nb k st au jn). }
  (* improvement: every count that the old distance stood for is larger *)
  assert (∀ j, (j ≤ N)%nat → (dist st).[nb] = fnat j → (au + k < j)%nat) as Himp.
  { intros j Hj Hd. rewrite Hd, (fnat_ltb N HN) in Ecmp by lia. by apply Nat.ltb_lt. }
  assert (∀ e, e ∈ entry <$> heap_Push (pq st) (Item nb (fnat (au + k)) 0) ↔
               e = (nb, fnat (au + k)) ∨ e ∈ entry <$> pq st) as Hent.
  { intros e. rewrite heap_Push_perm. apply elem_of_cons. }
  pose proof (opt_admissible _ _ Ho) as Hadm.
  destruct Ho as [Hs Hc Hq Hcur Hh]. split; simpl.
  - intros v Hv. rewrite index_map_insert_ne by congruence. by apply Hs.
  - intros u' v k' Hu' Hsk He' Hk'.
    rewrite (index_map_insert_ne _ nb u') by congruence.
    destruct (decide (v = nb)) as [->|Hvn].
    + rewrite index_map_insert_eq.
      destruct (decide (u' = u)) as [->|Hne].
      * pose proof (has_edge_functional _ _ _ _ _ He He') as Ek.
        apply (fnat_inj N HN) in Ek; [|lia|pose proof (within 0 k'); lia].
        subst k'. by exists au, (au + k)%nat.
      * destruct (Hc u' nb k') as (a & j & Ha1 & Ha & Hj & Hjk); [done| |done|done|].
        { by intros [? _]. }
        exists a, (au + k)%nat. split; [done|]. split; [done|]. split; [done|].
        pose proof (within a k' Ha Hk').
        pose proof (Himp j ltac:(lia) Hj). lia.
    + rewrite index_map_insert_ne by done. apply (Hc u' v k'); [done| |done|done].
      eapply pending_snoc; [done|]. by intros [_ ?].
  - intros v p [[= -> ->]|Hin']%Hent.
    + exists (au + k)%nat, (au + k)%nat. rewrite index_map_insert_eq.
      split; [done|]. split; [lia|]. done.
    + destruct (Hq v p Hin') as (j & j' & -> & Hj & Hd & Hjj).
      destruct (decide (v = nb)) as [->|Hvn].
      * exists j, (au + k)%nat. rewrite index_map_insert_eq. split; [done|]. split; [done|].
        split; [done|]. pose proof (Himp j' ltac:(lia) Hd). lia.
      * exists j, j'. by rewrite index_map_insert_ne.
  - intros v. rewrite lookup_insert, index_map_insert.
    case_decide as Ec; [subst v|].
    + intros _ _. apply Hent. by left.
    + intros Hv Hvis. apply Hent. right. by apply Hcur.
  - apply (heap_Push_ordered (count N) (count_asym N HN) (count_trans N HN)); try done.
    exists (au + k)%nat. split; [lia|done].
Qed.

Lemma opt_close u st :
  opt (pending_of u (range ord (adjacency g).[u])) st → opt all_done st.
Proof.
  intros [Hs Hc Hq Hcur Hh]. split; try done.
  intros u' v k Hu' _ He Hk. apply (Hc u' v k); [done| |done|done].
  intros [-> Hv]. apply Hv. apply list_elem_of_fmap. exists (v, fnat k). split; [done|].
  by apply elem_of_range, has_edge_row.
Qed.

Lemma opt_start : opt all_done (start ord g source 0%float).
Proof.
  unfold start. rewrite start_pq. split; simpl.
  - intros v. unfold index_map. by rewrite lookup_empty.
  - intros u v k. unfold index_map. by rewrite lookup_empty.
  - intros v p [= -> ->]%list_elem_of_singleton. exists 0%nat, 0%nat.
    split; [done|]. split; [lia|]. split; [|done].
    apply index_map_Some. by rewrite init_dist_lookup, decide_True.
  - intros v [[? Hv] | ->] _; [by rewrite lookup_empty in Hv|].
    apply list_elem_of_singleton. unfold entry. simpl. f_equal.
    apply index_map_Some. by rewrite init_dist_lookup, decide_True.
  - intros k a b Hk. simpl in Hk. lia.
Qed.

(** On such weights Dijkstra returns the least cost of a walk to a
    reachable target, as the float that counts it. *)
Lemma Dijkstra_least_cost target fuel c :
  walk W g source target c →
  (edge_count g + size (nodes g) + 1 < fuel)%nat →
  ∃ cmin path, Dijkstra fuel ord g source target = Some (fnat cmin, path) ∧
               walk W g source target cmin ∧
               (∀ c', walk W g source target c' → (cmin ≤ c')%nat) ∧ (cmin ≤ B)%nat.
Proof.
  intros Hc Hf.
  destruct (search_loop_rule ord g (λ _ d, d) target
              (λ st, inv ord g source st ∧ opt all_done st)
              (λ u done st, inv ord g source st ∧ (visited st).[u] = true ∧
                            opt (pending_of u done) st))
    with (fuel := fuel) (st := start ord g source 0%float) as (st & E & Hr).
  - intros st cur rest [Hi Ho] E Ev.
    split; [by apply (inv_skip ord g source st cur rest)|by apply (opt_skip st cur rest)].
  - intros st cur rest [Hi Ho] E Ev. split; [by apply inv_visit|].
    split; [apply index_map_insert_eq|by apply opt_visit].
  - intros u done e rest st (Hi & Hu & Ho) Hr.
    destruct (inv_relax ord g Hg (λ _ d, d) source u st e Hi Hu) as [Hi' Hu'].
    { rewrite Hr. apply elem_of_app. right. left. }
    split; [done|]. split; [done|]. by eapply opt_relax.
  - intros u st _ (Hi & _ & Ho). split; [done|]. by apply (opt_close u).
  - split; [apply inv_start|apply opt_start].
  - rewrite measure_start. lia.
  - assert (inv ord g source st ∧ (visited st).[target] = true ∧
            ∃ skip, opt skip st) as (Hinv & Hv & skip & Ho).
    { destruct Hr as [[[Hi Ho] Hq]|(Hi & Hv & Ho)]; [|eauto].
      split; [done|]. split; [|eauto].
      destruct (frontier st target c Hi Ho Hc) as [?|(y & jy & _ & Hin & _)]; [done|].
      rewrite Hq in Hin. by apply elem_of_nil in Hin. }
    destruct (opt_settled _ _ Ho target Hv) as (cmin & Hd & Hh & Hmin & Hb).
    destruct (reconstruct_visited ord g Hg source st target fuel Hinv Hv)
      as (path & Hrec & _); [lia| |].
    { rewrite Hd. apply (counts_at N HN). pose proof (within cmin 0). lia. }
    exists cmin, path. unfold Dijkstra. rewrite E, Hrec, Hd. done.
Qed.
End exact_weights.

(** float64 tells 1 from 0. *)
Lemma fnat_unit k : (k ≤ 1)%nat → fnat k = 1%float → k = 1%nat.
Proof.
  intros Hk E. destruct k as [|[|k]]; [|done|lia].
  assert (PrimFloat.eqb (fnat 0) 1 = true) as H by (by rewrite E). done.
Qed.

Section unit_weights.
Context (g : Graph) (Hunit : ∀ u v w, has_edge g u v w → w = 1%float).

Lemma unit_weights_exact (N : nat) u v w :
  has_edge g u v w →
  ∃ k, (k ≤ 1)%nat ∧ w = fnat k ∧
       ∀ a, (a + k ≤ N)%nat → PrimFloat.add (fnat a) w = fnat (a + k).
Proof.
  intros ->%Hunit. exists 1%nat. split; [done|]. split; [done|].
  intros a _. by rewrite Nat.add_1_r.
Qed.

Lemma unit_walk_hop s v c : walk 1 g s v c ↔ hop g s v c.
Proof.
  split.
  - induction 1 as [|u v k c _ IH He Hk]; [constructor|].
    pose proof (Hunit _ _ _ He) as ->%fnat_unit; [|done].
    rewrite Nat.add_1_r. by apply hop_S with u (fnat 1).
  - induction 1 as [|u v w c _ IH He]; [constructor|].
    replace (S c) with (c + 1)%nat by lia. apply walk_S with u; [done| |done].
    by rewrite (Hunit _ _ _ He) in He.
Qed.
End unit_weights.

(** ** BFS: the hop count is the least one *)

Definition set_queue (st : bfs_state) (q : list Z) : bfs_state :=
  {| b_visited := b_visited st; b_parent := b_parent st;
     b_distance := b_distance st; queue := q |}.

Section bfs.
Context (ord : RangeOrder) (g : Graph) (Hg : wf g) (source target : Z).

Definition bfs_measure (st : bfs_state) : nat :=
  (length (queue st) + size (unvisited g (b_visited st)))%nat.

Lemma unvisited_mark vis n :
  is_Some (nodes g !! n) → vis.[n] = false →
  (size (unvisited g (<[n := true]> vis)) < size (unvisited g vis))%nat.
Proof.
  intros Hn Hv. apply subset_size. split.
  - intros k. unfold unvisited. rewrite !elem_of_filter, index_map_insert.
    case_decide; [by intros []|done].
  - intros Hsub. assert (n ∈ unvisited g vis) as Hin
      by (apply elem_of_filter; split; [done|by apply elem_of_dom]).
    apply Hsub in Hin. apply elem_of_filter in Hin as [Hin _].
    by rewrite index_map_insert_eq in Hin.
Qed.

Lemma bfs_visit_measure u st e :
  is_Some (nodes g !! e.1) → (bfs_measure (bfs_visit u st e) ≤ bfs_measure st)%nat.
Proof.
  intros He. unfold bfs_visit, bfs_measure.
  destruct ((b_visited st).[e.1]) eqn:Ev; simpl; [done|].
  rewrite length_app. simpl. pose proof (unvisited_mark _ _ He Ev). lia.
Qed.

Lemma bfs_visit_all_measure u st l :
  (∀ e, e ∈ l → is_Some (nodes g !! e.1)) →
  (bfs_measure (foldl (bfs_visit u) st l) ≤ bfs_measure st)%nat.
Proof.
  revert st. induction l as [|e l IH]; intros st Hl; simpl; [done|].
  etrans; [apply IH|apply bfs_visit_measure].
  - intros. apply Hl. by right.
  - apply Hl. left.
Qed.

(** The loop rule: an invariant [P] of the loop head and an invariant
    [P' u done] of the inner loop, after the edges [done] of [u]. *)
Lemma bfs_loop_rule (P : bfs_state → Prop)
    (P' : Z → list (Z * float) → bfs_state → Prop) :
  (∀ st u rest, P st → queue st = u :: rest → P' u [] (set_queue st rest)) →
  (∀ u done e rest st, P' u done st → range ord (adjacency g).[u] = done ++ e :: rest →
     P' u (done ++ [e]) (bfs_visit u st e)) →
  (∀ u st, u ≠ target → P' u (range ord (adjacency g).[u]) st → P st) →
  ∀ fuel st, P st → (bfs_measure st < fuel)%nat →
  ∃ st', bfs_loop fuel ord g target st = Some st' ∧
         ((P st' ∧ queue st' = []) ∨ P' target [] st').
Proof.
  intros Hdeq Hvisit Hclose.
  assert (∀ u l done s, range ord (adjacency g).[u] = done ++ l →
            P' u done s → P' u (done ++ l) (foldl (bfs_visit u) s l)) as Hall.
  { intros u l. induction l as [|e l IHl]; intros done s Hd Hs; simpl.
    - by rewrite app_nil_r.
    - rewrite (cons_middle e done l), (assoc_L (++)). apply IHl.
      + by rewrite <- (assoc_L (++)).
      + by eapply Hvisit. }
  induction fuel as [|fuel IH]; intros st HP Hm; [lia|]. simpl.
  destruct (queue st) as [|u rest] eqn:Eq.
  { exists st. split; [done|]. by left. }
  pose proof (Hdeq _ _ _ HP Eq) as HP'. unfold set_queue in HP'.
  destruct (Z.eqb_spec u target) as [->|Hne].
  { eexists. split; [done|]. by right. }
  apply IH.
  - apply (Hclose u); [done|].
    by apply (Hall u (range ord (adjacency g).[u]) []).
  - eapply Nat.le_lt_trans; [apply bfs_visit_all_measure|].
    + intros [to w] He. apply elem_of_range, has_edge_row in He.
      by apply (wf_edge _ _ _ _ Hg) in He as [_ ?].
    + unfold bfs_measure in *. rewrite Eq in Hm. simpl in *. lia.
Qed.

(** [levels dst d q]: the queue holds nodes at distance [d], then nodes
    at distance [d + 1]. *)
Definition levels (dst : gmap Z Z) (d : Z) (q : list Z) : Prop :=
  ∃ q1 q2, q = q1 ++ q2 ∧ (∀ y, y ∈ q1 → dst.[y] = d) ∧ (∀ y, y ∈ q2 → dst.[y] = d + 1).

(** [cur] is the node whose edges the inner loop is ranging over, if
    any; [skip u v]: the edge from [u] to [v] has not been looked at. *)
Record bfs_inv (cur : option Z) (skip : Z → Z → Prop) (st : bfs_state) : Prop := {
  bi_settled : ∀ v, (b_visited st).[v] = true →
    ∃ k, (b_distance st).[v] = Z.of_nat k ∧ hop g source v k ∧
         ∀ k', hop g source v k' → (k ≤ k')%nat;
  bi_source : (b_visited st).[source] = true;
  bi_closed : ∀ u v w, (b_visited st).[u] = true → u ∉ queue st → ¬ skip u v →
    has_edge g u v w → (b_visited st).[v] = true;
  bi_levels : ∃ d, (∀ u, cur = Some u → (b_distance st).[u] = d) ∧
                   levels (b_distance st) d (queue st);
  bi_queue : ∀ x, x ∈ queue st ∨ cur = Some x → (b_visited st).[x] = true;
  bi_parent : ∀ n p, b_parent st !! n = Some p → n ≠ source;
  bi_registered : ∀ v, (b_visited st).[v] = true → v = source ∨ is_Some (nodes g !! v);
  bi_chain : ∀ v, (b_visited st).[v] = true →
    ∃ l, chain source (b_parent st) v l ∧ NoDup l ∧ ∀ x, x ∈ l → (b_visited st).[x] = true
}.

(** Every walk from the source ends at a visited node, or passes by a
    node that is still to be expanded and is nearer than the walk is
    long. *)
Lemma bfs_frontier cur skip st v k :
  bfs_inv cur skip st → (∀ u v, skip u v → cur = Some u) → hop g source v k →
  (b_visited st).[v] = true ∨
  ∃ y ky, (y ∈ queue st ∨ cur = Some y) ∧ (b_distance st).[y] = Z.of_nat ky ∧ (ky < k)%nat.
Proof.
  intros Hinv Hskip. induction 1 as [|x v w k Hh IH He]; [left; apply Hinv|].
  destruct IH as [Hx|(y & ky & Hy & Hd & Hlt)].
  2:{ right. exists y, ky. split; [done|]. split; [done|]. lia. }
  destruct (bi_settled _ _ _ Hinv x Hx) as (kx & Hdx & _ & Hmin).
  pose proof (Hmin k Hh) as Hkx.
  destruct (decide (x ∈ queue st)) as [Hq|Hq].
  { right. exists x, kx. split; [by left|]. split; [done|]. lia. }
  destruct (decide (cur = Some x)) as [Hc|Hc].
  { right. exists x, kx. split; [by right|]. split; [done|]. lia. }
  left. apply (bi_closed _ _ _ Hinv x v w); [done|done| |done].
  intros Hs. by apply Hskip in Hs.
Qed.

Lemma bfs_inv_start :
  bfs_inv None all_done
    {| b_visited := {[source := true]}; b_parent := ∅;
       b_distance := {[source := 0]}; queue := [source] |}.
Proof.
  assert (∀ v, ({[source := true]} : gmap Z bool).[v] = true → v = source) as Hv.
  { intros v. unfold index_map. rewrite lookup_singleton.
    case_decide; [done|]. done. }
  split; simpl.
  - intros v ->%Hv. exists 0%nat. split; [|split; [constructor|lia]].
    unfold index_map. by rewrite lookup_singleton_eq.
  - unfold index_map. by rewrite lookup_singleton_eq.
  - intros u v w ->%Hv Hq. exfalso. apply Hq. left.
  - exists 0. split; [done|]. exists [source], []. split; [done|].
    split; [|intros y Hy; by apply elem_of_nil in Hy].
    intros y ->%list_elem_of_singleton. unfold index_map. by rewrite lookup_singleton_eq.
  - intros x [->%list_elem_of_singleton|?]; [|done].
    unfold index_map. by rewrite lookup_singleton_eq.
  - intros n p. by rewrite lookup_empty.
  - intros v ->%Hv. by left.
  - intros v ->%Hv. exists [source]. split; [constructor|]. split; [apply NoDup_singleton|].
    intros x ->%list_elem_of_singleton. unfold index_map. by rewrite lookup_singleton_eq.
Qed.

Lemma bfs_inv_dequeue st u rest :
  bfs_inv None all_done st → queue st = u :: rest →
  bfs_inv (Some u) (pending_of u []) (set_queue st rest).
Proof.
  intros [Hs Hsrc Hc Hl Hq Hp Hr Hch] Eq. split; simpl; try done.
  - intros u' v w Hu' Hnq Hsk He. apply (Hc u' v w); [done| |by intros []|done].
    rewrite Eq. intros [->|?]%elem_of_cons; [|done].
    apply Hsk. split; [done|]. simpl. apply not_elem_of_nil.
  - destruct Hl as (d & _ & q1 & q2 & E & H1 & H2). rewrite Eq in E.
    destruct q1 as [|x q1]; simpl in E.
    + subst q2. exists (d + 1). split.
      * intros ? [= <-]. apply H2. left.
      * exists rest, []. split; [by rewrite app_nil_r|]. split.
        -- intros y Hy. apply H2. by right.
        -- intros y Hy. by apply elem_of_nil in Hy.
    + injection E as <- ->. exists d. split.
      * intros ? [= <-]. apply H1. left.
      * exists q1, q2. split; [done|]. split; [|done]. intros y Hy. apply H1. by right.
  - intros x Hx. apply Hq. left. rewrite Eq.
    destruct Hx as [?|[= ->]]; [by right|left].
Qed.

Lemma bfs_inv_visit u done e rest st :
  bfs_inv (Some u) (pending_of u done) st →
  range ord (adjacency g).[u] = done ++ e :: rest →
  bfs_inv (Some u) (pending_of u (done ++ [e])) (bfs_visit u st e).
Proof.
  intros Hinv Hr. destruct e as [nb w].
  assert (has_edge g u nb w) as He.
  { apply has_edge_row, (elem_of_range ord). rewrite Hr. apply elem_of_app. right. left. }
  assert ((b_visited st).[u] = true) as Hu by (apply (bi_queue _ _ _ Hinv); by right).
  unfold bfs_visit. simpl. destruct ((b_visited st).[nb]) eqn:Evn; simpl.
  { destruct Hinv as [Hs Hsrc Hc Hl Hq Hp Hg' Hch]. split; try done.
    intros u' v w' Hu' Hnq Hsk He'. destruct (decide (u' = u ∧ v = nb)) as [[-> ->]|Hne].
    - done.
    - apply (Hc u' v w'); [done|done| |done]. by eapply pending_snoc. }
  assert (nb ≠ u) as Hnbu by congruence.
  destruct (bi_settled _ _ _ Hinv u Hu) as (ku & Hdu & Hhu & Hminu).
  assert (∀ k', hop g source nb k' → (S ku ≤ k')%nat) as Hlow.
  { intros k' Hk'.
    destruct (bfs_frontier (Some u) _ st nb k' Hinv) as [?|(y & ky & Hy & Hdy & Hlt)];
      [by intros ?? [-> _]|done|congruence|].
    destruct (bi_levels _ _ _ Hinv) as (d & Hd & q1 & q2 & Eq & H1 & H2).
    pose proof (Hd u eq_refl) as Hdu'.
    destruct Hy as [Hy|[= ->]]; [|lia].
    rewrite Eq in Hy. apply elem_of_app in Hy as [Hy|Hy].
    - apply H1 in Hy. lia.
    - apply H2 in Hy. lia. }
  destruct Hinv as [Hs Hsrc Hc Hl Hq Hp Hreg Hch].
  assert (∀ x, (b_visited st).[x] = true →
               (<[nb := true]> (b_visited st)).[x] = true) as Hmono.
  { intros x Hx. rewrite index_map_insert. by case_decide. }
  split; simpl.
  - intros v. rewrite !index_map_insert. case_decide as Ec; [subst v|by apply Hs].
    intros _. exists (S ku). split; [lia|]. split; [by apply hop_S with u w|done].
  - by apply Hmono.
  - intros u' v w'. rewrite !index_map_insert, elem_of_app, list_elem_of_singleton.
    case_decide as Ec; [subst u'; tauto|]. intros Hu' Hnq Hsk He'.
    case_decide as Ec'; [done|].
    apply (Hc u' v w'); [done|tauto| |done].
    eapply pending_snoc; [done|]. intros [_ ?]. congruence.
  - destruct Hl as (d & Hd & q1 & q2 & Eq & H1 & H2). exists d. split.
    + intros ? [= <-]. rewrite index_map_insert_ne by done. by apply Hd.
    + exists q1, (q2 ++ [nb]). split; [by rewrite Eq, (assoc_L (++))|]. split.
      * intros y Hy. rewrite index_map_insert_ne; [by apply H1|].
        intros ->. assert ((b_visited st).[y] = true); [|congruence].
        apply Hq. left. rewrite Eq. apply elem_of_app. by left.
      * intros y [Hy| ->%list_elem_of_singleton]%elem_of_app.
        -- rewrite index_map_insert_ne; [by apply H2|].
           intros ->. assert ((b_visited st).[y] = true); [|congruence].
           apply Hq. left. rewrite Eq. apply elem_of_app. by right.
        -- rewrite index_map_insert_eq. rewrite (Hd u eq_refl). done.
  - intros x. rewrite elem_of_app, list_elem_of_singleton, index_map_insert.
    case_decide; [done|]. intros [[?|?]|?]; [apply Hq; by left|congruence|apply Hq; by right].
  - intros n p. rewrite lookup_insert. case_decide; [subst n|by apply Hp].
    intros _ ->. congruence.
  - intros v. rewrite index_map_insert. case_decide; [subst v|by apply Hreg].
    intros _. right. by apply (wf_edge _ _ _ _ Hg) in He as [_ ?].
  - intros v. rewrite index_map_insert. case_decide as Ec; [subst v|].
    + intros _. destruct (Hch u Hu) as (l & Hl' & HN & Hall).
      exists (l ++ [nb]). split; [|split].
      * apply chain_step with u; [congruence|apply lookup_insert_eq|].
        apply (chain_ext source (b_parent st)); [done|].
        intros x Hx. apply lookup_insert_ne. apply Hall in Hx. congruence.
      * apply NoDup_app. split; [done|]. split; [|apply NoDup_singleton].
        intros x Hx ->%list_elem_of_singleton. apply Hall in Hx. congruence.
      * intros x [Hx| ->%list_elem_of_singleton]%elem_of_app; [by apply Hmono, Hall|].
        apply index_map_insert_eq.
    + intros Hv. destruct (Hch v Hv) as (l & Hl' & HN & Hall).
      exists l. split; [|split; [done|by auto]].
      apply (chain_ext source (b_parent st)); [done|].
      intros x Hx. apply lookup_insert_ne. apply Hall in Hx. congruence.
Qed.

Lemma bfs_inv_close u st :
  bfs_inv (Some u) (pending_of u (range ord (adjacency g).[u])) st →
  bfs_inv None all_done st.
Proof.
  intros [Hs Hsrc Hc Hl Hq Hp Hreg Hch]. split; try done.
  - intros u' v w Hu' Hnq _ He. apply (Hc u' v w); [done|done| |done].
    intros [-> Hv]. apply Hv. apply list_elem_of_fmap. exists (v, w). split; [done|].
    by apply elem_of_range, has_edge_row.
  - destruct Hl as (d & _ & Hl). by exists d.
  - intros x [Hx|?]; [|done]. apply Hq. by left.
Qed.

(** BFS returns the least hop count of a reachable target. *)
Lemma BFS_least_hops fuel k :
  hop g source target k → (size (nodes g) + 1 < fuel)%nat →
  ∃ kmin path, BFS fuel ord g source target = Some (Z.of_nat kmin, path) ∧
               hop g source target kmin ∧ ∀ k', hop g source target k' → (kmin ≤ k')%nat.
Proof.
  intros Hk Hf. unfold BFS.
  destruct (Z.eqb_spec source target) as [->|Hne].
  { exists 0%nat, [target]. split; [done|]. split; [constructor|lia]. }
  destruct (bfs_loop_rule (bfs_inv None all_done)
              (λ u done st, bfs_inv (Some u) (pending_of u done) st))
    with (fuel := fuel)
         (st := {| b_visited := {[source := true]}; b_parent := ∅;
                   b_distance := {[source := 0]}; queue := [source] |})
    as (st & -> & Hr).
  - apply bfs_inv_dequeue.
  - intros u done e rest st. apply bfs_inv_visit.
  - intros u st _. apply bfs_inv_close.
  - apply bfs_inv_start.
  - unfold bfs_measure. simpl.
    assert (size (unvisited g {[source := true]}) ≤ size (nodes g))%nat; [|lia].
    rewrite <- size_dom. apply subseteq_size. intros x.
    unfold unvisited. rewrite elem_of_filter. tauto.
  - simpl.
    assert (∃ cur skip, bfs_inv cur skip st ∧ (b_visited st).[target] = true)
      as (cur & skip & Hinv & Hv).
    { destruct Hr as [[Hi Hq]|Hi].
      - exists None, all_done. split; [done|].
        destruct (bfs_frontier None _ st target k Hi) as [?|(y & ky & Hy & _)];
          [by intros ?? []|done|done|].
        rewrite Hq in Hy. destruct Hy as [Hy|?]; [by apply elem_of_nil in Hy|done].
      - exists (Some target), (pending_of target []). split; [done|].
        apply (bi_queue _ _ _ Hi). by right. }
    rewrite Hv.
    destruct (bi_settled _ _ _ Hinv target Hv) as (kmin & Hd & Hh & Hmin).
    destruct (bi_chain _ _ _ Hinv target Hv) as (l & Hl & HN & Hall).
    assert (length l ≤ S (size (nodes g)))%nat as Hlen.
    { etrans; [apply (NoDup_length_bound l ({[source]} ∪ dom (nodes g))); [done|]|].
      - intros x Hx. apply elem_of_union.
        destruct (bi_registered _ _ _ Hinv x (Hall x Hx)) as [->|?].
        + left. by apply elem_of_singleton.
        + right. by apply elem_of_dom.
      - rewrite size_union_alt, size_singleton.
        assert (size (dom (nodes g) ∖ {[source]}) ≤ size (nodes g))%nat; [|lia].
        rewrite <- size_dom. apply subseteq_size. by intros x [? _]%elem_of_difference. }
    rewrite (walk_back_chain _ _ _ _ Hl) by lia. simpl.
    exists kmin, (source :: drop 1 l ++ []). by rewrite Hd.
Qed.
End bfs.

#[global] Instance float_eq_dec : EqDecision float.
Proof.
  intros x y. destruct (PrimFloat.Leibniz.eqb x y) eqn:E.
  - left. by apply FloatAxioms.Leibniz.eqb_spec.
  - right. intros H. apply FloatAxioms.Leibniz.eqb_spec in H. congruence.
Defined.

(** C8, at the graph with the single edge 0→1 of weight 1, from 1 to 0:
    BFS returns -1 and Dijkstra +Inf, and float64(-1) is not +Inf. *)
Lemma BFS_Dijkstra_sentinels_differ :
  (∀ u v w, has_edge g_edge u v w → w = 1%float) ∧
  BFS 4 ascending g_edge 1 0 = Some (-1, []) ∧
  Dijkstra 4 ascending g_edge 1 0 = Some (infinity, []) ∧
  PrimFloat.eqb (float64_of_int (-1)) infinity = false.
Proof.
  split; [|by vm_compute].
  intros u v w (row & Hr & Hw).
  assert (map_Forall (λ _ r, map_Forall (λ _ x, x = 1%float) r) (adjacency g_edge)) as Hall
    by by_computation.
  by apply (Hall u row Hr v w).
Qed.

(** C8, as the code has it: for every graph built by the API with all
    weights equal to 1 and fewer than 2^53 - 1 nodes, so that float64
    counts the hops exactly, and for every target reachable from the
    source, BFS and Dijkstra return, with enough fuel and whatever the
    range orders, a hop count and a distance that are the same number: the
    distance is the hop count converted to float64. *)
Theorem BFS_hops_is_Dijkstra_distance (ord ord' : RangeOrder) (es : list (Z * Z * float))
    (source target : Z) (fuel : nat) :
  (∀ u v w, has_edge (build es) u v w → w = 1%float) →
  Z.of_nat (S (size (nodes (build es)))) < 2 ^ 53 →
  reachable (build es) source target →
  (edge_count (build es) + size (nodes (build es)) + 1 < fuel)%nat →
  ∃ hops path path',
    BFS fuel ord (build es) source target = Some (hops, path) ∧
    Dijkstra fuel ord' (build es) source target = Some (float64_of_int hops, path').
Proof.
  intros Hunit HN%counts_below [k Hk]%reachable_hop Hf. pose proof (wf_build es) as Hg.
  destruct (BFS_least_hops ord _ Hg source target fuel k Hk) as (kb & path & Hb & Hhb & Hminb);
    [lia|].
  destruct (Dijkstra_least_cost ord' _ Hg source 1 _ HN ltac:(lia)
              (unit_weights_exact _ Hunit _) target fuel k)
    as (kd & path' & Hd & Hhd & Hmind & Hbound); [by apply unit_walk_hop|done|].
  apply (unit_walk_hop _ Hunit) in Hhd.
  assert (kb = kd) as ->.
  { apply Nat.le_antisymm; [auto|]. by apply Hmind, unit_walk_hop. }
  exists (Z.of_nat kd), path, path'. split; [done|].
  rewrite Hd. do 2 f_equal. by apply (counts_at _ HN); lia.
Qed.

Lemma BFS_hops_is_Dijkstra_distance_witness :
  ∃ hops path path',
    BFS 10 ascending
      (build [(0, 1, 1%float); (0, 2, 1%float); (1, 3, 1%float); (2, 3, 1%float)]) 0 3
    = Some (hops, path) ∧
    Dijkstra 10 descending
      (build [(0, 1, 1%float); (0, 2, 1%float); (1, 3, 1%float); (2, 3, 1%float)]) 0 3
    = Some (float64_of_int hops, path').
Proof.
  apply (BFS_hops_is_Dijkstra_distance ascending descending
           [(0, 1, 1%float); (0, 2, 1%float); (1, 3, 1%float); (2, 3, 1%float)] 0 3 10).
  - intros u v w (row & Hr & Hw).
    assert (map_Forall (λ _ r, map_Forall (λ _ x, x = 1%float) r)
              (adjacency (build [(0, 1, 1%float); (0, 2, 1%float); (1, 3, 1%float);
                                 (2, 3, 1%float)]))) as Hall
      by (apply (bool_decide_unpack _); vm_compute; exact I).
    by apply (Hall u row Hr v w).
  - vm_compute. reflexivity.
  - apply reach_edge with 1 1%float.
    + apply reach_edge with 0 1%float; [constructor|].
      apply has_edge_row. vm_compute. reflexivity.
    + apply has_edge_row. vm_compute. reflexivity.
  - vm_compute. lia.
Defined.

(** ** Routes: walks as lists of nodes, with their cost *)

(** [route W g l c]: consecutive nodes of [l] are joined by edges whose
    weights are counts up to [W], and these add up to [c]. *)
Inductive route (W : nat) (g : Graph) : list Z → nat → Prop :=
| route_one x : route W g [x] 0
| route_cons x y l k c :
    has_edge g x y (fnat k) → (k ≤ W)%nat → route W g (y :: l) c →
    route W g (x :: y :: l) (k + c).

Section routes.
Context (W : nat) (g : Graph).

Lemma route_edge x y k : has_edge g x y (fnat k) → (k ≤ W)%nat → route W g [x; y] k.
Proof.
  intros He Hk. assert (route W g [x; y] (k + 0)) as H; [|by rewrite Nat.add_0_r in H].
  apply route_cons; [done|done|constructor].
Qed.

Lemma route_edge_inv x y c :
  route W g [x; y] c → has_edge g x y (fnat c) ∧ (c ≤ W)%nat.
Proof.
  inversion 1 as [|? ? ? k c' He Hk Hr]; subst. inversion Hr; subst.
  by rewrite Nat.add_0_r.
Qed.

Lemma route_app l1 x l2 a b :
  route W g (l1 ++ [x]) a → route W g (x :: l2) b → route W g (l1 ++ x :: l2) (a + b).
Proof.
  revert a. induction l1 as [|y l1 IH]; intros a Ha Hb; simpl in *.
  { by inversion Ha; subst. }
  destruct l1 as [|z l1]; simpl in *.
  - inversion Ha as [|? ? ? k c He Hk Hr]; subst. inversion Hr; subst.
    rewrite Nat.add_0_r. by apply route_cons.
  - inversion Ha as [|? ? ? k c He Hk Hr]; subst.
    rewrite <- Nat.add_assoc. apply route_cons; [done|done|]. by apply IH.
Qed.

Lemma route_split l1 x l2 c :
  route W g (l1 ++ x :: l2) c →
  ∃ a b, c = (a + b)%nat ∧ route W g (l1 ++ [x]) a ∧ route W g (x :: l2) b.
Proof.
  revert c. induction l1 as [|y l1 IH]; intros c H; simpl in *.
  { exists 0%nat, c. split; [done|]. split; [constructor|done]. }
  destruct l1 as [|z l1]; simpl in *.
  - inversion H as [|? ? ? k c' He Hk Hr]; subst.
    exists k, c'. split; [done|]. split; [by apply route_edge|done].
  - inversion H as [|? ? ? k c' He Hk Hr]; subst.
    destruct (IH _ Hr) as (a & b & -> & Ha & Hb).
    exists (k + a)%nat, b. split; [lia|]. split; [by apply route_cons|done].
Qed.

Lemma route_snoc l u v c k :
  route W g (l ++ [u]) c → has_edge g u v (fnat k) → (k ≤ W)%nat →
  route W g (l ++ [u; v]) (c + k).
Proof. intros Hr He Hk. apply route_app; [done|]. by apply route_edge. Qed.

Lemma route_snoc_inv l u v c :
  route W g (l ++ [u; v]) c →
  ∃ a k, c = (a + k)%nat ∧ route W g (l ++ [u]) a ∧ has_edge g u v (fnat k) ∧ (k ≤ W)%nat.
Proof.
  intros (a & k & -> & Ha & [He Hk]%route_edge_inv)%route_split.
  by exists a, k.
Qed.

Lemma route_cost_bound l c : route W g l c → (c ≤ W * (length l - 1))%nat.
Proof.
  induction 1 as [x|x y l k c He Hk Hr IH]; simpl in *; [lia|].
  rewrite Nat.sub_0_r in IH. rewrite Nat.mul_succ_r. lia.
Qed.

Lemma route_registered l c x :
  wf g → route W g l c → x ∈ l → is_Some (nodes g !! x) ∨ l = [x].
Proof.
  intros Hg. induction 1 as [y|y z l k c He Hk Hr IH].
  { intros ->%list_elem_of_singleton. by right. }
  destruct (wf_edge _ _ _ _ Hg He) as [Hy Hz].
  intros [->|Hin]%elem_of_cons; [by left|].
  destruct (IH Hin) as [?|[= -> ->]]; by left.
Qed.

(** A route can be cut down to one without repeated nodes that has the
    same ends and costs no more. *)
Lemma route_simplify l c :
  route W g l c →
  ∃ l' c', route W g l' c' ∧ (c' ≤ c)%nat ∧ head l' = head l ∧ last l' = last l ∧
           NoDup l' ∧ l' ⊆ l.
Proof.
  induction 1 as [x|x y l k c He Hk Hr (l' & c' & Hr' & Hc & Hh & Hl & Hnd & Hsub)].
  { exists [x], 0%nat. split; [constructor|]. split; [done|]. split; [done|].
    split; [done|]. split; [apply NoDup_singleton|done]. }
  destruct (decide (x ∈ l')) as [Hin|Hin].
  - apply list_elem_of_split in Hin as (l1 & l2 & ->).
    destruct (route_split _ _ _ _ Hr') as (a & b & -> & _ & Hb).
    exists (x :: l2), b. split; [done|]. split; [lia|]. split; [done|].
    split; [by rewrite last_cons_cons, <- Hl, last_app_cons|].
    split; [by apply NoDup_app in Hnd as (_ & _ & ?)|].
    intros z [->|Hz]%elem_of_cons; [left|]. right. apply Hsub, elem_of_app.
    right. by right.
  - destruct l' as [|y' l']; [done|]. simpl in Hh. injection Hh as ->.
    exists (x :: y :: l'), (k + c')%nat. split; [by apply route_cons|].
    split; [lia|]. split; [done|].
    split; [by rewrite !last_cons_cons in *|].
    split; [by apply NoDup_cons|].
    intros z [->|Hz]%elem_of_cons; [left|]. right. by apply Hsub.
Qed.

Lemma walk_route s v c :
  walk W g s v c ↔ ∃ l, route W g (s :: l) c ∧ last (s :: l) = Some v.
Proof.
  split.
  - induction 1 as [|u v k c _ (l & Hr & Hl) He Hk]; [exists []; split; [constructor|done]|].
    apply last_Some in Hl as [l0 E]. exists (l ++ [v]). rewrite app_comm_cons, E in *.
    rewrite <- (assoc_L (++)). simpl. split; [by apply route_snoc|].
    by rewrite last_app_cons.
  - intros [l H]. revert v c H. induction l as [|x l IH] using rev_ind; intros v c [Hr Hl].
    { inversion Hr; subst. injection Hl as <-. constructor. }
    rewrite app_comm_cons, last_snoc in Hl. injection Hl as ->.
    destruct (last_Some (s :: l) (default s (last (s :: l)))) as [[l0 E] _].
    { destruct (last (s :: l)) eqn:E; [done|]. by apply last_None in E. }
    rewrite app_comm_cons, E, <- (assoc_L (++)) in Hr. simpl in Hr.
    apply route_snoc_inv in Hr as (a & k & -> & Ha & He & Hk).
    apply walk_S with (default s (last (s :: l))); [|done|done].
    apply IH. rewrite E. split; [done|]. by rewrite last_snoc.
Qed.

(** A least cost is attained without repeated nodes, so over fewer edges
    than there are nodes. *)
Lemma route_short l c :
  wf g → route W g l c →
  ∃ l' c', route W g l' c' ∧ (c' ≤ c)%nat ∧ head l' = head l ∧ last l' = last l ∧
           NoDup l' ∧ l' ⊆ l ∧ (length l' - 1 ≤ size (nodes g) - 1)%nat.
Proof.
  intros Hg Hr. destruct (route_simplify l c Hr) as (l' & c' & Hr' & Hc & Hh & Hl & Hnd & Hsub).
  exists l', c'. repeat (split; [done|]).
  destruct l' as [|x [|y l']]; simpl; [lia|lia|].
  assert (length (x :: y :: l') ≤ size (nodes g))%nat; [|simpl in *; lia].
  rewrite <- size_dom. apply NoDup_length_bound; [done|].
  intros z Hz. apply elem_of_dom.
  by destruct (route_registered _ _ z Hg Hr' Hz) as [?|?].
Qed.
End routes.

(** ** Bellman-Ford on exactly added weights: the least cost *)

(** A loop over a list, with what has been done so far. *)
Lemma foldl_prefix {A S} (f : S → A → S) (P : list A → S → Prop) (l : list A) (s : S) :
  P [] s →
  (∀ done x rest s, l = done ++ x :: rest → P done s → P (done ++ [x]) (f s x)) →
  P l (foldl f s l).
Proof.
  intros H0 Hstep.
  assert (∀ rest done s, l = done ++ rest → P done s → P l (foldl f s rest)) as H.
  { induction rest as [|x rest IH]; intros done s' E Hd; simpl.
    - by rewrite E, app_nil_r.
    - apply (IH (done ++ [x])); [by rewrite <- (assoc_L (++))|]. by apply Hstep with rest. }
  by apply (H l [] s).
Qed.

Lemma zero_finite : 0%float ≠ infinity.
Proof. intros E. assert (PrimFloat.eqb 0 infinity = true) as H by (by rewrite E). done. Qed.

Section bellman_ford.
Context (ord : RangeOrder) (g : Graph) (Hg : wf g) (source : Z) (W N : nat).
Context (HN : exact_upto N = true) (HWN : (W * S (size (nodes g)) ≤ N)%nat).
Context (Hwt : ∀ u v w, has_edge g u v w → ∃ k, (k ≤ W)%nat ∧ w = fnat k).

Abbreviation B := (W * size (nodes g))%nat.
Abbreviation HC := (exact_counts N HN).

(** [reached] is the set of the nodes with a finite distance. *)
Record bf_inv (d : gmap Z float) : Prop := {
  bf_dom : ∀ v, is_Some (d !! v) ↔ v = source ∨ is_Some (nodes g !! v);
  bf_source : d.[source] = fnat 0;
  bf_sound : ∃ reached : gset Z,
    (∀ v, v ∈ reached ↔ is_Some (d !! v) ∧ d.[v] ≠ infinity) ∧
    ∀ v, is_Some (d !! v) →
      d.[v] = infinity ∨
      ∃ a, d.[v] = fnat a ∧ walk W g source v a ∧ (a + W ≤ W * size reached)%nat
}.

Lemma reached_size (F : gset Z) :
  (∀ v, v ∈ F → v = source ∨ is_Some (nodes g !! v)) → (W * size F ≤ B + W)%nat.
Proof.
  intros HF. rewrite <- Nat.mul_succ_r. apply Nat.mul_le_mono_l.
  etrans; [apply (subseteq_size F ({[source]} ∪ dom (nodes g)))|].
  - intros x [->|Hx]%HF; apply elem_of_union; [left; by apply elem_of_singleton|].
    right. by apply elem_of_dom.
  - rewrite size_union_alt, size_singleton, <- size_dom.
    assert (size (dom (nodes g) ∖ {[source]}) ≤ size (dom (nodes g)))%nat; [|lia].
    apply subseteq_size. by intros x [? _]%elem_of_difference.
Qed.

Lemma in_range a k : (a ≤ B)%nat → (k ≤ W)%nat → (a + k ≤ N)%nat.
Proof. rewrite Nat.mul_succ_r in HWN. lia. Qed.

(** What a distance is: +Inf at a node not reached, or the cost of a
    walk from the source. *)
Lemma bf_cases d (F : gset Z) v :
  (∀ v, is_Some (d !! v) ↔ v = source ∨ is_Some (nodes g !! v)) →
  (∀ v, v ∈ F ↔ is_Some (d !! v) ∧ d.[v] ≠ infinity) →
  (∀ v, is_Some (d !! v) →
     d.[v] = infinity ∨
     ∃ a, d.[v] = fnat a ∧ walk W g source v a ∧ (a + W ≤ W * size F)%nat) →
  is_Some (d !! v) →
  d.[v] = infinity ∧ v ∉ F ∨
  ∃ a, d.[v] = fnat a ∧ walk W g source v a ∧ (a + W ≤ W * size F)%nat ∧
       (a ≤ B)%nat ∧ (a ≤ N)%nat ∧ v ∈ F.
Proof.
  intros Hdom HF Hval Hv. destruct (Hval v Hv) as [E|(a & Ea & Hw & Hb)].
  { left. split; [done|]. by intros [_ ?]%HF. }
  right. exists a. split; [done|]. split; [done|]. split; [done|].
  assert (W * size F ≤ B + W)%nat as HFs.
  { apply reached_size. by intros x [?%Hdom _]%HF. }
  assert (a ≤ B)%nat by lia. split; [done|]. split; [pose proof (in_range a 0); lia|].
  apply HF. split; [done|]. rewrite Ea. apply (fnat_finite N HC).
  pose proof (in_range a 0). lia.
Qed.

Lemma bf_value d v :
  bf_inv d → is_Some (d !! v) →
  d.[v] = infinity ∨ ∃ a, d.[v] = fnat a ∧ walk W g source v a ∧ (a ≤ B)%nat.
Proof.
  intros [Hdom _ (F & HF & Hval)] Hv.
  destruct (bf_cases d F v Hdom HF Hval Hv) as [[? _]|(a & ? & ? & _ & ? & _)]; [by left|].
  right. by exists a.
Qed.

(** [d[v]] is a count, at most [c]. *)
Definition cost_le (d : gmap Z float) (v : Z) (c : nat) : Prop :=
  ∃ a, d.[v] = fnat a ∧ (a ≤ B)%nat ∧ (a ≤ c)%nat.

Lemma relax_edge_inv d from to w :
  bf_inv d → has_edge g from to w →
  bf_inv (relax_edge from d (to, w)) ∧
  (∀ v c, cost_le d v c → cost_le (relax_edge from d (to, w)) v c) ∧
  (∀ c k, w = fnat k → (k ≤ W)%nat → cost_le d from c →
          cost_le (relax_edge from d (to, w)) to (c + k)).
Proof.
  intros Hinv He. destruct (Hwt _ _ _ He) as (k & Hk & ->).
  destruct (wf_edge _ _ _ _ Hg He) as [Hfrom Hto].
  destruct Hinv as [Hdom Hsrc (F & HF & Hval)].
  assert (bf_inv d) as Hinv by (split; eauto).
  assert (is_Some (d !! from) ∧ is_Some (d !! to)) as [Hdf Hdt].
  { split; apply Hdom; by right. }
  pose proof (in_range 0 k ltac:(lia) Hk) as HkN. simpl in HkN.
  assert (∀ c k', fnat k = fnat k' → (k' ≤ W)%nat → (c + k' = c + k)%nat) as Hsame.
  { intros c k' E Hk'. apply (fnat_inj N HC) in E; [lia|lia|].
    pose proof (in_range 0 k'). lia. }
  assert (∀ v a a', d.[v] = fnat a → d.[v] = fnat a' → (a ≤ N)%nat → (a' ≤ B)%nat → a' = a)
    as Huniq.
  { intros v a a' E E' Ha Ha'. rewrite E in E'. apply (fnat_inj N HC) in E'; [done|done|].
    pose proof (in_range a' 0). lia. }
  unfold relax_edge, improves. simpl.
  destruct (bf_cases d F from Hdom HF Hval Hdf)
    as [[Ef _]|(af & Ef & Hwf & Hrf & Hbf & HfN & _)].
  { (* the origin has not been reached *)
    rewrite Ef, (inf_add_fnat N HN) by done.
    assert (PrimFloat.ltb infinity d.[to] = false) as ->.
    { destruct (bf_cases d F to Hdom HF Hval Hdt) as [[-> _]|(a & -> & _ & _ & _ & Ha & _)];
        [done|]. by apply (inf_ltb_fnat N HN). }
    split; [done|]. split; [done|]. intros c k' _ _ (a & Ea & Ha & _).
    rewrite Ef in Ea. symmetry in Ea. apply (fnat_finite N HC) in Ea; [done|].
    pose proof (in_range a 0). lia. }
  pose proof (in_range af k Hbf Hk) as Hsum.
  rewrite Ef, (fnat_add N HN) by done.
  assert (∀ c, cost_le d from c → (af ≤ c)%nat) as Hfrom_le.
  { intros c (a & Ea & Ha & Hc). pose proof (Huniq from af a Ef Ea HfN Ha). lia. }
  destruct (PrimFloat.ltb (fnat (af + k)) d.[to]) eqn:Ecmp.
  2:{ (* no improvement *)
    split; [done|]. split; [done|]. intros c k' E Hk' Hc. rewrite (Hsame c k' E Hk').
    apply Hfrom_le in Hc.
    destruct (bf_cases d F to Hdom HF Hval Hdt) as [[Et _]|(a & Et & _ & _ & Ha & HaN & _)].
    - by rewrite Et, (fnat_lt_inf N HC) in Ecmp.
    - rewrite Et, (fnat_ltb N HC) in Ecmp by done.
      apply Nat.ltb_ge in Ecmp. exists a. split; [done|]. split; [done|]. lia. }
  (* improvement *)
  assert (∀ a, d.[to] = fnat a → (a ≤ N)%nat → (af + k < a)%nat) as Himp.
  { intros a Ea Ha. rewrite Ea, (fnat_ltb N HC) in Ecmp by done. by apply Nat.ltb_lt. }
  assert (to ≠ source) as Hts.
  { intros ->. pose proof (Himp 0%nat Hsrc). lia. }
  assert ((af + k ≤ B)%nat ∧ (af + k + W ≤ W * size (F ∪ {[to]}))%nat ∧
          ∀ a, (a + W ≤ W * size F)%nat → (a + W ≤ W * size (F ∪ {[to]}))%nat)
    as (Hnew & Hnew' & Hgrow).
  { assert (W * size (F ∪ {[to]}) ≤ B + W)%nat as Hall.
    { apply reached_size. intros x [[?%Hdom _]%HF| ->%elem_of_singleton]%elem_of_union;
        [done|by right]. }
    assert (af + k + W ≤ W * size (F ∪ {[to]}))%nat as Hto'.
    { destruct (bf_cases d F to Hdom HF Hval Hdt) as [[_ Hin]|(a & Ea & _ & Hr & _ & HaN & Hin)].
      - rewrite size_union, size_singleton by (by apply disjoint_singleton_r).
        rewrite Nat.mul_add_distr_l. lia.
      - pose proof (Himp a Ea HaN). rewrite (union_comm_L F), (subseteq_union_1_L {[to]} F)
          by (by apply singleton_subseteq_l). lia. }
    split; [lia|]. split; [done|]. intros a Ha.
    assert (W * size F ≤ W * size (F ∪ {[to]}))%nat; [|lia].
    apply Nat.mul_le_mono_l, subseteq_size, union_subseteq_l. }
  assert (bf_inv (<[to := fnat (af + k)]> d)) as Hinv'.
  { split.
    - intros v. rewrite lookup_insert. case_decide as E; [subst v|by apply Hdom].
      split; [by right|done].
    - by rewrite index_map_insert_ne.
    - exists (F ∪ {[to]}). split.
      + intros v. rewrite elem_of_union, elem_of_singleton, HF, lookup_insert, index_map_insert.
        case_decide as E; [subst v|].
        * split; [|by right]. intros _. split; [done|]. by apply (fnat_finite N HC).
        * split; [intros [?|?]; [done|congruence]|by left].
      + intros v. rewrite lookup_insert, index_map_insert.
        case_decide as E; [subst v|].
        * intros _. right. exists (af + k)%nat. split; [done|].
          split; [by apply walk_S with from|done].
        * intros Hv. destruct (Hval v Hv) as [?|(a & Ea & Hwa & Ha)]; [by left|]. right.
          exists a. split; [done|]. split; [done|]. by apply Hgrow. }
  split; [done|]. split.
  - intros v c (a & Ea & Ha & Hc). destruct (decide (v = to)) as [->|Hne].
    + exists (af + k)%nat. rewrite index_map_insert_eq. split; [done|]. split; [done|].
      pose proof (Himp a Ea ltac:(pose proof (in_range a 0); lia)). lia.
    + exists a. by rewrite index_map_insert_ne.
  - intros c k' E Hk' Hc. rewrite (Hsame c k' E Hk'). apply Hfrom_le in Hc.
    exists (af + k)%nat. rewrite index_map_insert_eq. split; [done|]. split; [done|]. lia.
Qed.

(** [d] is within the cost of every route from the source over at most
    [i] edges. *)
Definition covers (i : nat) (d : gmap Z float) : Prop :=
  ∀ l c v, route W g (source :: l) c → last (source :: l) = Some v → (length l ≤ i)%nat →
           cost_le d v c.

Lemma relax_pass_inv d i :
  bf_inv d → covers i d →
  bf_inv (relax_pass ord g d) ∧ covers (S i) (relax_pass ord g d).
Proof.
  intros Hinv Hcov. rewrite relax_pass_edges.
  assert (bf_inv (foldl (λ d e, relax_edge e.1 d e.2) d (edges ord g)) ∧
          (∀ v c, cost_le d v c →
                  cost_le (foldl (λ d e, relax_edge e.1 d e.2) d (edges ord g)) v c) ∧
          ∀ from to w, (from, (to, w)) ∈ edges ord g →
            ∀ c k, w = fnat k → (k ≤ W)%nat → cost_le d from c →
                   cost_le (foldl (λ d e, relax_edge e.1 d e.2) d (edges ord g)) to (c + k))
    as (Hinv' & Hmono & Hrel).
  { apply (foldl_prefix (λ d e, relax_edge e.1 d e.2)
             (λ done d', bf_inv d' ∧ (∀ v c, cost_le d v c → cost_le d' v c) ∧
                ∀ from to w, (from, (to, w)) ∈ done →
                  ∀ c k, w = fnat k → (k ≤ W)%nat → cost_le d from c →
                         cost_le d' to (c + k))).
    - split; [done|]. split; [done|]. by intros ??? ?%elem_of_nil.
    - intros done [from [to w]] rest d' E (Hi & Hm & Hr). simpl.
      assert (has_edge g from to w) as He.
      { apply (elem_of_edges ord). rewrite E. apply elem_of_app. right. left. }
      destruct (relax_edge_inv d' from to w Hi He) as (Hi' & Hm' & Hr').
      split; [done|]. split; [auto|].
      intros from' to' w' [Hin|[= -> -> ->]%list_elem_of_singleton]%elem_of_app c k Ew Hk Hc.
      + apply Hm'. by apply (Hr from' to' w' Hin).
      + apply Hr'; auto. }
  split; [done|]. intros l c v Hr Hl Hlen.
  destruct l as [|x l _] using rev_ind.
  - inversion Hr; subst. injection Hl as <-. exists 0%nat.
    rewrite (bf_source _ Hinv'). split; [done|]. lia.
  - rewrite app_comm_cons, last_snoc in Hl. injection Hl as ->.
    destruct (last_Some (source :: l) (default source (last (source :: l)))) as [[l0 E] _].
    { destruct (last (source :: l)) eqn:E; [done|]. by apply last_None in E. }
    set (u := default source (last (source :: l))) in *.
    rewrite app_comm_cons, E, <- (assoc_L (++)) in Hr. simpl in Hr.
    apply route_snoc_inv in Hr as (a & k & -> & Ha & He & Hk).
    apply (Hrel u v (fnat k)); [by apply elem_of_edges|done|done|].
    apply (Hcov l a u).
    + by rewrite E.
    + by rewrite E, last_snoc.
    + rewrite length_app in Hlen. simpl in Hlen. lia.
Qed.

Lemma bf_inv_init : bf_inv (init_dist ord g source).
Proof.
  assert ((init_dist ord g source).[source] = 0%float) as Hs.
  { apply index_map_Some. by rewrite init_dist_lookup, decide_True. }
  assert (∀ v, v ≠ source → is_Some (init_dist ord g source !! v) →
               (init_dist ord g source).[v] = infinity) as Hv.
  { intros v Hne. unfold index_map. rewrite init_dist_lookup, decide_False by done.
    case_decide; [done|]. by intros [? ?]. }
  split.
  - intros v. rewrite init_dist_lookup. case_decide as E; [subst; split; [by left|done]|].
    case_decide as E'; [split; [by right|done]|]. split; [by intros [? ?]|].
    by intros [?|?].
  - done.
  - exists {[source]}. split.
    + intros v. rewrite elem_of_singleton. split.
      * intros ->. rewrite Hs. split; [|apply zero_finite].
        by rewrite init_dist_lookup, decide_True.
      * intros [H1 H2]. destruct (decide (v = source)); [done|]. by rewrite Hv in H2.
    + intros v H. destruct (decide (v = source)) as [->|Hne]; [|left; by apply Hv].
      right. exists 0%nat. rewrite size_singleton. split; [done|]. split; [constructor|lia].
Qed.

Lemma covers_init : covers 0 (init_dist ord g source).
Proof.
  intros l c v Hr Hl Hlen. destruct l; [|simpl in Hlen; lia].
  inversion Hr; subst. injection Hl as <-. exists 0%nat.
  rewrite (bf_source _ bf_inv_init). split; [done|]. lia.
Qed.

Lemma passes_inv n :
  bf_inv (Nat.iter n (relax_pass ord g) (init_dist ord g source)) ∧
  covers n (Nat.iter n (relax_pass ord g) (init_dist ord g source)).
Proof.
  induction n as [|n [IH1 IH2]]; simpl; [split; [apply bf_inv_init|apply covers_init]|].
  by apply relax_pass_inv.
Qed.

Lemma walk_known v c : walk W g source v c → v = source ∨ is_Some (nodes g !! v).
Proof.
  destruct 1 as [|u v k c _ He _]; [by left|]. right.
  by apply (wf_edge _ _ _ _ Hg) in He as [_ ?].
Qed.

(** After its passes Bellman-Ford holds, for every node that a walk
    reaches, the least cost of such a walk. *)
Lemma BellmanFord_least_cost target c :
  walk W g source target c →
  ∃ cmin, (BellmanFord ord g source).1.[target] = fnat cmin ∧
          walk W g source target cmin ∧
          (∀ c', walk W g source target c' → (cmin ≤ c')%nat) ∧ (cmin ≤ B)%nat.
Proof.
  intros Hc. unfold BellmanFord. simpl.
  destruct (passes_inv (pass_count g)) as [Hinv Hcov].
  set (d := Nat.iter (pass_count g) (relax_pass ord g) (init_dist ord g source)) in *.
  assert (∀ c', walk W g source target c' → cost_le d target c') as Hle.
  { intros c' (l & Hr & Hl)%walk_route.
    destruct (route_short W g _ _ Hg Hr)
      as (l' & c'' & Hr' & Hcc & Hh & Hl' & _ & _ & Hlen).
    destruct l' as [|s' l']; [done|]. simpl in Hh. injection Hh as ->.
    destruct (Hcov l' c'' target Hr') as (a & Ea & Ha & Hac).
    - by rewrite Hl'.
    - rewrite pass_count_size. simpl in Hlen. lia.
    - exists a. split; [done|]. split; [done|]. lia. }
  destruct (Hle c Hc) as (a & Ea & Ha & _).
  assert (∀ a', d.[target] = fnat a' → (a' ≤ B)%nat → a' = a) as Huniq.
  { intros a' E' Ha'. rewrite Ea in E'.
    apply (fnat_inj N HC) in E'; [done| |]; [pose proof (in_range a 0)|pose proof (in_range a' 0)];
      lia. }
  destruct (bf_value d target Hinv) as [E|(a' & Ea' & Hw & Hb)].
  - apply (bf_dom _ Hinv). by eapply walk_known.
  - rewrite Ea in E. apply (fnat_finite N HC) in E; [done|]. pose proof (in_range a 0). lia.
  - rewrite (Huniq a' Ea' Hb) in Hw. exists a. split; [done|]. split; [done|].
    split; [|done]. intros c' Hc'. destruct (Hle c' Hc') as (a2 & E2 & H2 & H2c).
    rewrite (Huniq a2 E2 H2) in H2c. done.
Qed.
End bellman_ford.

(** ** Floyd-Warshall on exactly added weights: the least costs *)

Section through.
Context (g : Graph) (Hg : wf g) (W : nat).

(** [through K i j c]: some route from [i] to [j] over at least one edge,
    all of whose inner nodes are in [K], costs [c]. *)
Definition through (K : list Z) (i j : Z) (c : nat) : Prop :=
  ∃ l, route W g (i :: l ++ [j]) c ∧ ∀ x, x ∈ l → x ∈ K.

Lemma through_mono K K' i j c :
  (∀ x, x ∈ K → x ∈ K') → through K i j c → through K' i j c.
Proof. intros HK (l & Hr & Hl). exists l. split; [done|]. auto. Qed.

Lemma through_edge K i j k :
  has_edge g i j (fnat k) → (k ≤ W)%nat → through K i j k.
Proof.
  intros He Hk. exists []. split; [by apply route_edge|]. by intros x ?%elem_of_nil.
Qed.

Lemma through_nil i j c : through [] i j c → has_edge g i j (fnat c) ∧ (c ≤ W)%nat.
Proof.
  intros (l & Hr & Hl). destruct l as [|x l]; [by apply route_edge_inv in Hr|].
  assert (x ∈ []) as H%elem_of_nil by (apply Hl; left). done.
Qed.

Lemma through_concat K k i j a b :
  through K i k a → through K k j b → through (k :: K) i j (a + b).
Proof.
  intros (l1 & Hr1 & Hl1) (l2 & Hr2 & Hl2). exists (l1 ++ k :: l2). split.
  - rewrite <- (assoc_L (++)). simpl. rewrite app_comm_cons. apply route_app; [|done].
    by rewrite <- app_comm_cons.
  - intros x [?|[->|?]%elem_of_cons]%elem_of_app; [right; auto|left|right; auto].
Qed.

(** A route through [k :: K] either avoids [k], or can be cut down to a
    route to [k] followed by a route from [k], both through [K]. *)
Lemma through_split K k i j c :
  through (k :: K) i j c →
  (∃ c', (c' ≤ c)%nat ∧ through K i j c') ∨
  (∃ a b, (a + b ≤ c)%nat ∧ through K i k a ∧ through K k j b).
Proof.
  intros (l & Hr & Hl). destruct (decide (k ∈ l)) as [Hin|Hin].
  2:{ left. exists c. split; [done|]. exists l. split; [done|].
      intros x Hx. pose proof (Hl x Hx) as [->|?]%elem_of_cons; done. }
  right. apply list_elem_of_split_l in Hin as (l1 & l2 & -> & Hl1).
  rewrite <- (assoc_L (++)) in Hr. simpl in Hr. rewrite app_comm_cons in Hr.
  apply route_split in Hr as (a & b0 & -> & Ha & Hb0). rewrite <- app_comm_cons in Ha.
  assert (through K i k a) as Hik.
  { exists l1. split; [done|]. intros x Hx.
    assert (x ∈ k :: K) as [->|?]%elem_of_cons; [|done|done].
    apply Hl, elem_of_app. by left. }
  assert (∀ x, x ∈ l2 → x ∈ k :: K) as Hl2.
  { intros x Hx. apply Hl, elem_of_app. right. by right. }
  destruct (decide (k ∈ l2)) as [Hin|Hin].
  - apply list_elem_of_split_r in Hin as (l3 & l4 & -> & Hl4).
    rewrite <- (assoc_L (++)) in Hb0. simpl in Hb0. rewrite app_comm_cons in Hb0.
    apply route_split in Hb0 as (b1 & b & -> & _ & Hb).
    exists a, b. split; [lia|]. split; [done|]. exists l4. split; [done|].
    intros x Hx. assert (x ∈ k :: K) as [->|?]%elem_of_cons; [|done|done].
    apply Hl2, elem_of_app. right. by right.
  - exists a, b0. split; [done|]. split; [done|]. exists l2. split; [done|].
    intros x Hx. pose proof (Hl2 x Hx) as [->|?]%elem_of_cons; done.
Qed.

Lemma through_end K k i j c :
  i = k ∨ j = k → through (k :: K) i j c → ∃ c', (c' ≤ c)%nat ∧ through K i j c'.
Proof.
  intros Hk [?|(a & b & Hab & Ha & Hb)]%through_split; [done|].
  destruct Hk as [->| ->]; [exists b|exists a]; (split; [lia|done]).
Qed.

(** A route between two different nodes can be cut down to one over
    fewer edges than there are nodes. *)
Lemma through_short K i j c :
  i ≠ j → through K i j c →
  ∃ c', (c' ≤ c)%nat ∧ through K i j c' ∧ (c' ≤ W * (size (nodes g) - 1))%nat.
Proof.
  intros Hij (l & Hr & Hl).
  destruct (route_short W g _ _ Hg Hr) as (l' & c' & Hr' & Hc & Hh & Hl' & Hnd & Hsub & Hlen).
  exists c'. split; [done|]. split.
  - destruct l' as [|i' l']; [done|]. simpl in Hh. injection Hh as ->.
    rewrite app_comm_cons, last_snoc in Hl'.
    destruct l' as [|y l' _] using rev_ind; [simpl in Hl'; congruence|].
    rewrite app_comm_cons, last_snoc in Hl'. injection Hl' as ->.
    exists l'. split; [done|]. intros x Hx.
    apply NoDup_cons in Hnd as [Hi Hnd]. apply NoDup_app in Hnd as (_ & Hj & _).
    assert (x ∈ i :: l ++ [j]) as [->|[?| ->%list_elem_of_singleton]%elem_of_app]%elem_of_cons.
    + apply Hsub. right. apply elem_of_app. by left.
    + exfalso. apply Hi, elem_of_app. by left.
    + auto.
    + exfalso. apply (Hj _ Hx). left.
  - etrans; [by apply (route_cost_bound W g l')|]. by apply Nat.mul_le_mono_l.
Qed.

(** [v] is what the matrix holds for the least cost through [K]. *)
Definition best (K : list Z) (i j : Z) (v : float) : Prop :=
  (v = infinity ∧ ∀ c, ¬ through K i j c) ∨
  ∃ a, v = fnat a ∧ through K i j a ∧ ∀ c, through K i j c → (a ≤ c)%nat.

Lemma best_cases K i j v :
  i ≠ j → best K i j v →
  (v = infinity ∧ ∀ c, ¬ through K i j c) ∨
  ∃ a, v = fnat a ∧ through K i j a ∧ (∀ c, through K i j c → (a ≤ c)%nat) ∧
       (a ≤ W * (size (nodes g) - 1))%nat.
Proof.
  intros Hij [?|(a & -> & Ha & Hmin)]; [by left|]. right. exists a.
  repeat (split; [done|]).
  destruct (through_short K i j a Hij Ha) as (c' & _ & Hc' & Hb). pose proof (Hmin _ Hc'). lia.
Qed.

Lemma best_ext K K' i j v :
  (∀ x, x ∈ K ↔ x ∈ K') → best K i j v → best K' i j v.
Proof.
  intros HK [[-> Hno]|(a & -> & Ha & Hmin)].
  - left. split; [done|]. intros c Hc. apply (Hno c). revert Hc. apply through_mono.
    intros x. apply HK.
  - right. exists a. split; [done|]. split.
    + revert Ha. apply through_mono. intros x. apply HK.
    + intros c Hc. apply Hmin. revert Hc. apply through_mono. intros x. apply HK.
Qed.

Lemma best_end K k i j v :
  i = k ∨ j = k → best K i j v ↔ best (k :: K) i j v.
Proof.
  intros Hk.
  assert (∀ c, through K i j c → through (k :: K) i j c) as Hup.
  { intros c. apply through_mono. intros x ?. by right. }
  split.
  - intros [[-> Hno]|(a & -> & Ha & Hmin)].
    + left. split; [done|]. intros c (c' & _ & Hc')%(through_end K k); [|done].
      by apply (Hno c').
    + right. exists a. split; [done|]. split; [auto|].
      intros c (c' & Hle & Hc')%(through_end K k); [|done]. pose proof (Hmin _ Hc'). lia.
  - intros [[-> Hno]|(a & -> & Ha & Hmin)].
    + left. split; [done|]. intros c Hc. apply (Hno c). auto.
    + right. exists a. split; [done|].
      destruct (through_end K k i j a Hk Ha) as (a' & Hle & Ha').
      pose proof (Hmin a' (Hup _ Ha')). replace a with a' by lia. split; [done|].
      intros c Hc. pose proof (Hmin c (Hup _ Hc)). lia.
Qed.

End through.

(** *** The matrix before the main loops *)

Lemma foldl_insert_key {V A} (f : Z → A) (l : list (Z * V)) (d : gmap Z A) k :
  foldl (λ d e, <[e.1 := f e.1]> d) d l !! k =
  if decide (k ∈ l.*1) then Some (f k) else d !! k.
Proof.
  revert d. induction l as [|[k' x] l IH]; intros d; simpl; [done|].
  rewrite IH. destruct (decide (k ∈ l.*1)).
  - rewrite decide_True; [done|]. by right.
  - rewrite lookup_insert. simpl. destruct (decide (k' = k)) as [->|].
    + rewrite decide_True; [done|]. left.
    + rewrite decide_False; [done|]. rewrite elem_of_cons. simpl in *. intros [?|?]; [congruence|done].
Qed.

(** The row that the initialisation builds for the node [n]. *)
Definition fw_row (ord : RangeOrder) (g : Graph) (n : Z) : gmap Z float :=
  foldl (λ row e', <[e'.1 := if n =? e'.1 then 0%float else infinity]> row)
        ∅ (range ord (nodes g)).

Lemma fw_init_unfold ord g :
  fw_init ord g =
  ((range ord (nodes g)).*1,
   foldl (λ d e, <[e.1 := fw_row ord g e.1]> d) ∅ (range ord (nodes g))).
Proof.
  unfold fw_init.
  assert (∀ (l : list (Z * bool)) acc,
    foldl (λ (acc : list Z * gmap Z (gmap Z float)) e,
             let n := e.1 in (acc.1 ++ [n], <[n := fw_row ord g n]> acc.2)) acc l =
    (acc.1 ++ l.*1, foldl (λ d e, <[e.1 := fw_row ord g e.1]> d) acc.2 l)) as H.
  { induction l as [|e l IH]; intros [ns d]; simpl; [by rewrite app_nil_r|].
    rewrite IH. simpl. by rewrite <- (assoc_L (++)). }
  apply (H (range ord (nodes g)) ([], ∅)).
Qed.

Lemma elem_of_range_keys ord {V} (m : gmap Z V) k :
  k ∈ (range ord m).*1 ↔ is_Some (m !! k).
Proof.
  rewrite list_elem_of_fmap. split.
  - intros ([k' v] & -> & Hin). apply elem_of_range in Hin. eauto.
  - intros [v Hv]. exists (k, v). split; [done|]. by apply elem_of_range.
Qed.

Lemma fw_init_row ord g i :
  (fw_init ord g).2 !! i = if decide (is_Some (nodes g !! i)) then Some (fw_row ord g i) else None.
Proof.
  rewrite fw_init_unfold. simpl. rewrite (foldl_insert_key (fw_row ord g)), lookup_empty.
  destruct (decide (i ∈ (range ord (nodes g)).*1)) as [Hin|Hin];
    rewrite elem_of_range_keys in Hin; [by rewrite decide_True|by rewrite decide_False].
Qed.

Lemma fw_init_entry ord g i j :
  is_Some (nodes g !! i) → is_Some (nodes g !! j) →
  (fw_init ord g).2.[i].[j] = if decide (i = j) then 0%float else infinity.
Proof.
  intros Hi Hj. rewrite (index_map_Some _ i (fw_row ord g i))
    by (by rewrite fw_init_row, decide_True).
  apply index_map_Some. unfold fw_row.
  rewrite (foldl_insert_key (λ k, if i =? k then 0%float else infinity)), decide_True
    by (by apply elem_of_range_keys).
  destruct (Z.eqb_spec i j); [by rewrite decide_True|by rewrite decide_False].
Qed.

Lemma fw_edges_flat ord g d :
  fw_edges ord g d =
  foldl (λ od e, d ← od; set_entry d e.1 e.2.1 e.2.2) (Some d) (edges ord g).
Proof.
  unfold fw_edges, edges. generalize (Some d).
  induction (range ord (adjacency g)) as [|r rows IH]; intros od; [done|].
  rewrite bind_cons, foldl_app. simpl. rewrite IH. f_equal.
  by rewrite foldl_fmap.
Qed.

Lemma set_entry_Some d i j v :
  is_Some (d !! i) →
  ∃ d', set_entry d i j v = Some d' ∧
        (∀ i', is_Some (d' !! i') ↔ is_Some (d !! i')) ∧
        ∀ i' j', d'.[i'].[j'] = if decide (i' = i ∧ j' = j) then v else d.[i'].[j'].
Proof.
  intros [row Hrow]. unfold set_entry. rewrite Hrow. eexists. split; [done|]. split.
  - intros i'. rewrite lookup_insert. case_decide; [subst|done]. split; eauto.
  - intros i' j'. case_decide as E.
    + destruct E as [-> ->]. by rewrite !index_map_insert_eq.
    + destruct (decide (i' = i)) as [->|Hne].
      * rewrite index_map_insert_eq, index_map_insert_ne by (intros ->; by apply E).
        by rewrite (index_map_Some _ _ _ Hrow).
      * by rewrite index_map_insert_ne.
Qed.

Section floyd_warshall.
Context (ord : RangeOrder) (g : Graph) (Hg : wf g) (W N : nat).
Context (HN : exact_upto N = true) (HWN : (2 * (W * size (nodes g)) ≤ N)%nat).
Context (Hwt : ∀ u v w, has_edge g u v w → ∃ k, (k ≤ W)%nat ∧ w = fnat k).

Abbreviation B := (W * size (nodes g))%nat.
Abbreviation HC := (exact_counts N HN).
Abbreviation reg := (λ v : Z, is_Some (nodes g !! v)).

Definition rows (d : gmap Z (gmap Z float)) : Prop :=
  ∀ i, is_Some (d !! i) ↔ reg i.

(** [i] has no loop, or one of weight 0. *)
Definition no_loop (i : Z) : Prop := ∀ w, has_edge g i i w → w = 0%float.

(** What the entry [i][j] holds once the nodes of [K] have been
    processed: off the diagonal, the least cost through [K]; on it, the
    weight of a loop or less, and 0 without a loop of another weight. *)
Definition cell (K : list Z) (i j : Z) (v : float) : Prop :=
  if decide (i = j) then ∃ a, v = fnat a ∧ (a ≤ W)%nat ∧ (no_loop i → a = 0%nat)
  else best g W K i j v.

Definition shape (v : float) : Prop := v = infinity ∨ ∃ a, v = fnat a ∧ (a ≤ B)%nat.

Lemma reg_size i : reg i → (W ≤ B)%nat.
Proof.
  intros [b Hb]. assert (size (nodes g) ≠ 0)%nat as Hs; [|nia].
  intros E%map_size_empty_inv. by rewrite E, lookup_empty in Hb.
Qed.

Lemma cell_shape K i j v : reg i → cell K i j v → shape v.
Proof.
  intros Hi. unfold cell. case_decide as E.
  - intros (a & -> & Ha & _). right. exists a. split; [done|]. pose proof (reg_size i Hi). lia.
  - intros Hb. destruct (best_cases g Hg W K i j v E Hb) as [[? _]|(a & ? & _ & _ & Ha)];
      [by left|]. right.
    exists a. split; [done|]. etrans; [done|]. apply Nat.mul_le_mono_l. lia.
Qed.

Lemma cell_end K k i j v :
  i = k ∨ j = k → cell K i j v ∨ cell (k :: K) i j v → cell K i j v ∧ cell (k :: K) i j v.
Proof.
  intros Hk. unfold cell. case_decide; [by intros [?|?]|].
  rewrite <- (best_end g W K k i j v Hk). by intros [?|?].
Qed.

Lemma add_shape x y :
  shape x → shape y →
  (PrimFloat.add x y = infinity ∧ (x = infinity ∨ y = infinity)) ∨
  ∃ a b, x = fnat a ∧ y = fnat b ∧ (a ≤ B)%nat ∧ (b ≤ B)%nat ∧
         PrimFloat.add x y = fnat (a + b).
Proof.
  intros [->|(a & -> & Ha)] [->|(b & -> & Hb)].
  - left. split; [done|by left].
  - left. split; [|by left]. apply (inf_add_fnat N HN). lia.
  - left. split; [|by right]. apply (fnat_add_inf N HN). lia.
  - right. exists a, b. repeat (split; [done|]). apply (fnat_add N HN). lia.
Qed.

Lemma inf_not_below v : shape v → PrimFloat.ltb infinity v = false.
Proof. intros [->|(a & -> & Ha)]; [done|]. apply (inf_ltb_fnat N HN). lia. Qed.

Lemma shape_ltb a v :
  (a ≤ 2 * B)%nat → shape v →
  v = infinity ∧ PrimFloat.ltb (fnat a) v = true ∨
  ∃ c, v = fnat c ∧ (c ≤ B)%nat ∧ PrimFloat.ltb (fnat a) v = (a <? c)%nat.
Proof.
  intros Ha [->|(c & -> & Hc)].
  - left. split; [done|]. apply (fnat_lt_inf N HC). lia.
  - right. exists c. split; [done|]. split; [done|]. apply (fnat_ltb N HC); lia.
Qed.

Lemma fnat_same a b : (a ≤ 2 * B)%nat → (b ≤ 2 * B)%nat → fnat a = fnat b → a = b.
Proof. intros Ha Hb. apply (fnat_inj N HC); lia. Qed.

Lemma fnat_not_inf a : (a ≤ 2 * B)%nat → fnat a ≠ infinity.
Proof. intros Ha. apply (fnat_finite N HC). lia. Qed.

Lemma short_le_B c : (c ≤ W * (size (nodes g) - 1))%nat → (c ≤ B)%nat.
Proof. intros H. etrans; [done|]. apply Nat.mul_le_mono_l. lia. Qed.

(** The entry stays when going through [k] brings nothing cheaper. *)
Lemma best_lift K k i j C :
  i ≠ j → best g W K i j C →
  (∀ a b, through g W K i k a → through g W K k j b →
          ∃ c, C = fnat c ∧ (c ≤ B)%nat ∧ (c ≤ a + b)%nat) →
  best g W (k :: K) i j C.
Proof.
  intros Hij Hb Hthr.
  assert (∀ c, through g W K i j c → through g W (k :: K) i j c) as Hup.
  { intros c. apply through_mono. intros x ?. by right. }
  destruct (best_cases g Hg W K i j C Hij Hb) as [[-> Hno]|(c0 & -> & Hc0 & Hmin & Hb0)].
  - left. split; [done|].
    intros c [(c' & _ & Hc')|(a & b & _ & Ha & Hb')]%through_split; [by apply (Hno c')|].
    destruct (Hthr a b Ha Hb') as (c1 & E & Hc1 & _). symmetry in E.
    apply fnat_not_inf in E; [done|lia].
  - right. exists c0. split; [done|]. split; [auto|].
    intros c [(c' & Hle & Hc')|(a & b & Hle & Ha & Hb')]%through_split.
    + pose proof (Hmin _ Hc'). lia.
    + destruct (Hthr a b Ha Hb') as (c1 & E & Hc1 & Hle1).
      apply fnat_same in E; [lia| |lia]. apply short_le_B in Hb0. lia.
Qed.

(** The entry written is the least cost through [k :: K]. *)
Lemma best_new K k i j C a b :
  i ≠ j → best g W K i j C ∨ best g W (k :: K) i j C →
  through g W K i k a → (∀ c, through g W K i k c → (a ≤ c)%nat) →
  through g W K k j b → (∀ c, through g W K k j c → (b ≤ c)%nat) →
  (∀ c, C = fnat c → (c ≤ B)%nat → (a + b < c)%nat) →
  best g W (k :: K) i j (fnat (a + b)).
Proof.
  intros Hij HC' Ha Hmina Hb Hminb Hless. right. exists (a + b)%nat. split; [done|].
  split; [by apply through_concat|].
  assert (∀ c, through g W K i j c → through g W (k :: K) i j c) as Hup.
  { intros c. apply through_mono. intros x ?. by right. }
  intros c [(c' & Hle & Hc')|(a' & b' & Hle & Ha' & Hb')]%through_split.
  2:{ pose proof (Hmina _ Ha'). pose proof (Hminb _ Hb'). lia. }
  assert (∃ c0, C = fnat c0 ∧ (c0 ≤ B)%nat ∧ (c0 ≤ c')%nat) as (c0 & E & Hc0 & Hc0').
  { destruct HC' as [H|H].
    - destruct (best_cases g Hg W _ i j C Hij H) as [[_ Hno]|(c0 & -> & _ & Hmin & Hb0)];
        [by destruct (Hno c')|].
      exists c0. split; [done|]. split; [by apply short_le_B|auto].
    - destruct (best_cases g Hg W _ i j C Hij H) as [[_ Hno]|(c0 & -> & _ & Hmin & Hb0)];
        [by destruct (Hno c'); auto|].
      exists c0. split; [done|]. split; [by apply short_le_B|auto]. }
  pose proof (Hless c0 E Hc0). lia.
Qed.

(** One turn of the innermost loop, on the entry it may write. *)
Lemma relax_cell K k i j A Bv C :
  reg i → reg j → reg k →
  cell K i k A ∨ cell (k :: K) i k A →
  cell K k j Bv ∨ cell (k :: K) k j Bv →
  cell K i j C ∨ cell (k :: K) i j C →
  (i = k → C = Bv) → (j = k → C = A) →
  cell (k :: K) i j (if PrimFloat.ltb (PrimFloat.add A Bv) C then PrimFloat.add A Bv else C).
Proof.
  intros Hi Hj Hk HA HB HC' HiC HjC.
  destruct (cell_end K k i k A (or_intror eq_refl) HA) as [HA1 _].
  destruct (cell_end K k k j Bv (or_introl eq_refl) HB) as [HB1 _].
  pose proof (cell_shape _ _ _ _ Hi HA1) as sA.
  pose proof (cell_shape _ _ _ _ Hk HB1) as sB.
  assert (shape C) as sC by (destruct HC' as [H|H]; apply (cell_shape _ _ _ _ Hi H)).
  destruct (decide (i = j)) as [->|Hij].
  { (* on the diagonal *)
    assert (cell (k :: K) j j C) as Hd.
    { unfold cell in HC' |- *. rewrite !decide_True in HC' by done.
      rewrite decide_True by done. by destruct HC'. }
    destruct (add_shape A Bv sA sB) as [[-> _]|(a & b & _ & _ & Ha & Hb & ->)];
      [by rewrite inf_not_below|].
    pose proof Hd as Hd'. unfold cell in Hd'. rewrite decide_True in Hd' by done.
    destruct Hd' as (c & -> & Hc & Hno). pose proof (reg_size j Hj).
    rewrite (fnat_ltb N HC) by lia. destruct (Nat.ltb_spec (a + b) c); [|done].
    unfold cell. rewrite decide_True by done. exists (a + b)%nat. split; [done|].
    split; [lia|]. intros Hl. apply Hno in Hl. lia. }
  destruct (decide (i = k)) as [->|Hik].
  { (* the origin is [k]: the entry is its own second summand *)
    rewrite (HiC eq_refl) in *.
    assert (PrimFloat.ltb (PrimFloat.add A Bv) Bv = false) as ->;
      [|by apply (cell_end K k k j Bv (or_introl eq_refl))].
    destruct (add_shape A Bv sA sB) as [[-> _]|(a & b & _ & -> & Ha & Hb & ->)];
      [by rewrite inf_not_below|].
    rewrite (fnat_ltb N HC) by lia. apply Nat.ltb_ge. lia. }
  destruct (decide (j = k)) as [->|Hjk].
  { rewrite (HjC eq_refl) in *.
    assert (PrimFloat.ltb (PrimFloat.add A Bv) A = false) as ->;
      [|by apply (cell_end K k i k A (or_intror eq_refl))].
    destruct (add_shape A Bv sA sB) as [[-> _]|(a & b & -> & _ & Ha & Hb & ->)];
      [by rewrite inf_not_below|].
    rewrite (fnat_ltb N HC) by lia. apply Nat.ltb_ge. lia. }
  (* off the diagonal, away from [k] *)
  unfold cell in HA1, HB1, HC' |- *.
  rewrite decide_False in HA1 by done. rewrite decide_False in HB1 by done.
  rewrite !decide_False in HC' by done. rewrite decide_False by done.
  assert (best g W K i j C ∨ best g W (k :: K) i j C →
          (∀ a b, through g W K i k a → through g W K k j b →
                  ∃ c, C = fnat c ∧ (c ≤ B)%nat ∧ (c ≤ a + b)%nat) →
          best g W (k :: K) i j C) as Hkeep.
  { intros [H|H] Hthr; [by apply best_lift|done]. }
  assert (PrimFloat.add A Bv = infinity ∧
          (∀ a b, through g W K i k a → through g W K k j b → False) ∨
          ∃ a b, PrimFloat.add A Bv = fnat (a + b) ∧ (a ≤ B)%nat ∧ (b ≤ B)%nat ∧
                 through g W K i k a ∧ (∀ c, through g W K i k c → (a ≤ c)%nat) ∧
                 through g W K k j b ∧ (∀ c, through g W K k j c → (b ≤ c)%nat))
    as [[-> Hnone]|(a & b & -> & Ha & Hb & Hta & Hma & Htb & Hmb)].
  { destruct (best_cases g Hg W K i k A Hik HA1) as [[-> noA]|(a & -> & thA & minA & Ha)];
    destruct (best_cases g Hg W K k j Bv ltac:(done) HB1)
      as [[-> noB]|(b & -> & thB & minB & Hb)].
    - left. split; [done|]. intros a b Hta _. by apply (noA a).
    - left. apply short_le_B in Hb. split; [apply (inf_add_fnat N HN); lia|].
      intros a b' Hta _. by apply (noA a).
    - left. apply short_le_B in Ha. split; [apply (fnat_add_inf N HN); lia|].
      intros a' b _ Htb. by apply (noB b).
    - right. apply short_le_B in Ha, Hb. exists a, b.
      split; [apply (fnat_add N HN); lia|]. done. }
  { rewrite inf_not_below by done. apply Hkeep; [done|].
    intros a b Hta Htb. by destruct (Hnone a b). }
  destruct (shape_ltb (a + b) C ltac:(lia) sC) as [[EC ->]|(c & EC & Hc & ->)].
  { apply (best_new K k i j C a b); try done.
    intros c E. rewrite EC in E. symmetry in E. intros Hc. apply fnat_not_inf in E; [done|lia]. }
  destruct (Nat.ltb_spec (a + b) c) as [Hlt|Hge].
  - apply (best_new K k i j C a b); try done.
    intros c' E Hc'. rewrite EC in E. apply fnat_same in E; [lia|lia|lia].
  - apply Hkeep; [done|]. intros a' b' Hta' Htb'. exists c. split; [done|]. split; [done|].
    pose proof (Hma _ Hta'). pose proof (Hmb _ Htb'). lia.
Qed.

(** The state inside the loops for [k]: every entry is the one for [K]
    or already the one for [k :: K], and the entries [done] are the
    latter. *)
Record fw_mid (K : list Z) (k : Z) (done : Z → Z → Prop)
    (d : gmap Z (gmap Z float)) : Prop := {
  mid_rows : rows d;
  mid_cell : ∀ i j, reg i → reg j → cell K i j d.[i].[j] ∨ cell (k :: K) i j d.[i].[j];
  mid_done : ∀ i j, reg i → reg j → done i j → cell (k :: K) i j d.[i].[j]
}.

Lemma fw_mid_weaken K k (done done' : Z → Z → Prop) d :
  (∀ i j, done' i j → done i j) → fw_mid K k done d → fw_mid K k done' d.
Proof. intros H [? ? Hd]. split; [done|done|]. intros i j Hi Hj ?%H. by apply Hd. Qed.

Lemma fw_relax_mid K k done d i j :
  reg k → reg i → reg j → fw_mid K k done d →
  ∃ d', fw_relax k i (Some d) j = Some d' ∧
        fw_mid K k (λ i' j', done i' j' ∨ (i' = i ∧ j' = j)) d'.
Proof.
  intros Hk Hi Hj [Hrows Hcell Hdone]. unfold fw_relax. simpl.
  pose proof (relax_cell K k i j d.[i].[k] d.[k].[j] d.[i].[j] Hi Hj Hk
                (Hcell i k Hi Hk) (Hcell k j Hk Hj) (Hcell i j Hi Hj)) as Hnew.
  assert (i = k → d.[i].[j] = d.[k].[j]) as H1 by (by intros ->).
  assert (j = k → d.[i].[j] = d.[i].[k]) as H2 by (by intros ->).
  specialize (Hnew H1 H2).
  destruct (PrimFloat.ltb (PrimFloat.add d.[i].[k] d.[k].[j]) d.[i].[j]).
  - destruct (set_entry_Some d i j (PrimFloat.add d.[i].[k] d.[k].[j]))
      as (d' & -> & Hr' & Hlook); [by apply Hrows|].
    exists d'. split; [done|]. split.
    + intros i'. rewrite Hr'. apply Hrows.
    + intros i' j' Hi' Hj'. rewrite Hlook.
      case_decide as Ec; [destruct Ec as [-> ->]; by right|by apply Hcell].
    + intros i' j' Hi' Hj' Hd. rewrite Hlook.
      case_decide as Ec; [by destruct Ec as [-> ->]|].
      destruct Hd as [Hd|Hd]; [by apply Hdone|done].
  - exists d. split; [done|]. split; [done|done|].
    intros i' j' Hi' Hj' [Hd|[-> ->]]; [by apply Hdone|done].
Qed.

Lemma fw_row_loop K k i js :
  reg k → reg i → (∀ j, j ∈ js → reg j) →
  ∀ done d, fw_mid K k done d →
    ∃ d', foldl (fw_relax k i) (Some d) js = Some d' ∧
          fw_mid K k (λ i' j', done i' j' ∨ (i' = i ∧ j' ∈ js)) d'.
Proof.
  intros Hk Hi. induction js as [|j js IH]; intros Hjs done d Hm; cbn [foldl].
  - exists d. split; [done|]. eapply fw_mid_weaken; [|done].
    intros i' j' [?|[_ ?%elem_of_nil]]; done.
  - destruct (fw_relax_mid K k done d i j) as (d1 & -> & Hm1); [done|done| |done|].
    { apply Hjs. left. }
    destruct (IH (λ j' Hj', Hjs j' (list_elem_of_further _ _ _ Hj')) _ d1 Hm1)
      as (d' & -> & Hm').
    exists d'. split; [done|]. eapply fw_mid_weaken; [|done].
    intros i' j' [?|[-> [->|?]%elem_of_cons]]; auto.
Qed.

Lemma fw_k_loop K k ns rs :
  reg k → (∀ j, j ∈ ns → reg j) → (∀ i, i ∈ rs → reg i) →
  ∀ done d, fw_mid K k done d →
    ∃ d', foldl (λ od i, foldl (fw_relax k i) od ns) (Some d) rs = Some d' ∧
          fw_mid K k (λ i' j', done i' j' ∨ (i' ∈ rs ∧ j' ∈ ns)) d'.
Proof.
  intros Hk Hns. induction rs as [|i rs IH]; intros His done d Hm; cbn [foldl].
  - exists d. split; [done|]. eapply fw_mid_weaken; [|done].
    intros i' j' [?|[?%elem_of_nil _]]; done.
  - destruct (fw_row_loop K k i ns Hk) with (done := done) (d := d)
      as (d1 & -> & Hm1); [apply His; left|done|done|].
    destruct (IH (λ i' Hi', His i' (list_elem_of_further _ _ _ Hi')) _ d1 Hm1)
      as (d' & -> & Hm').
    exists d'. split; [done|]. eapply fw_mid_weaken; [|done].
    intros i' j' [?|[[->|?]%elem_of_cons ?]]; auto.
Qed.

Definition fw_inv (K : list Z) (d : gmap Z (gmap Z float)) : Prop :=
  rows d ∧ ∀ i j, reg i → reg j → cell K i j d.[i].[j].

Lemma fw_loop ns ks :
  (∀ j, reg j ↔ j ∈ ns) → (∀ k, k ∈ ks → reg k) →
  ∀ K d, fw_inv K d →
    ∃ d', foldl (λ od k, foldl (λ od i, foldl (fw_relax k i) od ns) od ns) (Some d) ks
          = Some d' ∧ fw_inv (reverse ks ++ K) d'.
Proof.
  intros Hns. induction ks as [|k ks IH]; intros Hks K d [Hrows Hcell]; cbn [foldl].
  { exists d. by split. }
  assert (reg k) as Hk by (apply Hks; left).
  destruct (fw_k_loop K k ns ns Hk) with (done := λ _ _ : Z, False) (d := d)
    as (d1 & -> & [Hr1 Hc1 Hd1]).
  - intros j. apply Hns.
  - intros j. apply Hns.
  - split; [done| |done]. intros i j Hi Hj. left. by apply Hcell.
  - destruct (IH (λ k' Hk', Hks k' (list_elem_of_further _ _ _ Hk')) (k :: K) d1)
      as (d' & -> & Hinv').
    { split; [done|]. intros i j Hi Hj. apply Hd1; [done|done|].
      right. split; by apply Hns. }
    exists d'. split; [done|]. by rewrite reverse_cons, <- (assoc_L (++)).
Qed.

Lemma fw_edges_spec d0 :
  rows d0 →
  ∃ d1, fw_edges ord g d0 = Some d1 ∧ rows d1 ∧
        ∀ i j, (∀ w, has_edge g i j w → d1.[i].[j] = w) ∧
               ((∀ w, ¬ has_edge g i j w) → d1.[i].[j] = d0.[i].[j]).
Proof.
  intros Hrows. rewrite fw_edges_flat.
  assert (∃ d1, foldl (λ od e, d ← od; set_entry d e.1 e.2.1 e.2.2) (Some d0) (edges ord g)
                = Some d1 ∧ rows d1 ∧
            ∀ i j, (∀ w, (i, (j, w)) ∈ edges ord g → d1.[i].[j] = w) ∧
                   ((∀ w, (i, (j, w)) ∉ edges ord g) → d1.[i].[j] = d0.[i].[j]))
    as (d1 & E & Hr1 & H1).
  { apply (foldl_prefix (λ od e, d ← od; set_entry d e.1 e.2.1 e.2.2)
             (λ done od, ∃ d1, od = Some d1 ∧ rows d1 ∧
                ∀ i j, (∀ w, (i, (j, w)) ∈ done → d1.[i].[j] = w) ∧
                       ((∀ w, (i, (j, w)) ∉ done) → d1.[i].[j] = d0.[i].[j]))).
    - exists d0. split; [done|]. split; [done|]. intros i j. split; [|done].
      by intros w ?%elem_of_nil.
    - intros done [from [to w]] rest od El (d1 & -> & Hr1 & H1). simpl.
      assert (∀ w', (from, (to, w')) ∈ done ++ [(from, (to, w))] → w' = w) as Hfun.
      { intros w' Hin. apply (has_edge_functional g from to); apply (elem_of_edges ord);
          rewrite El.
        - apply elem_of_app in Hin as [?|[= ->]%list_elem_of_singleton];
            apply elem_of_app; [by left|right; left].
        - apply elem_of_app. right. left. }
      destruct (set_entry_Some d1 from to w) as (d2 & -> & Hr2 & Hlook).
      { apply Hr1. assert (has_edge g from to w) as He;
          [|by apply (wf_edge _ _ _ _ Hg) in He as [? _]].
        apply (elem_of_edges ord). rewrite El. apply elem_of_app. right. left. }
      exists d2. split; [done|]. split; [intros i; rewrite Hr2; apply Hr1|].
      intros i j. rewrite Hlook. case_decide as Ec.
      + destruct Ec as [-> ->]. split; [intros w' Hin; symmetry; by apply Hfun|].
        intros Hno. destruct (Hno w). apply elem_of_app. right. left.
      + split.
        * intros w' [Hin|[= -> -> ->]%list_elem_of_singleton]%elem_of_app;
            [by apply H1|by destruct Ec].
        * intros Hno. apply H1. intros w' Hin. apply (Hno w'), elem_of_app. by left. }
  exists d1. split; [done|]. split; [done|]. intros i j. split.
  - intros w He. by apply H1, elem_of_edges.
  - intros Hno. apply H1. intros w Hin%elem_of_edges. by apply (Hno w).
Qed.

Lemma fw_start : ∃ d1, fw_edges ord g (fw_init ord g).2 = Some d1 ∧ fw_inv [] d1.
Proof.
  destruct (fw_edges_spec (fw_init ord g).2) as (d1 & E & Hr1 & H1).
  { intros i. rewrite fw_init_row. case_decide; [done|]. split; [by intros [? ?]|done]. }
  exists d1. split; [done|]. split; [done|]. intros i j Hi Hj.
  pose proof (reg_size i Hi) as HWB.
  destruct ((adjacency g).[i] !! j) as [w|] eqn:Ew.
  - apply has_edge_row in Ew. destruct (Hwt _ _ _ Ew) as (k & Hk & ->).
    rewrite (proj1 (H1 i j) _ Ew). unfold cell. case_decide as Eij.
    + subst j. exists k. split; [done|]. split; [done|]. intros Hno.
      apply (fnat_same k 0); [lia|lia|]. by apply Hno.
    + right. exists k. split; [done|]. split; [by apply through_edge|].
      intros c [He Hc]%through_nil.
      pose proof (has_edge_functional _ _ _ _ _ Ew He) as E'.
      apply fnat_same in E'; lia.
  - assert (∀ w, ¬ has_edge g i j w) as Hno.
    { intros w He%has_edge_row. congruence. }
    rewrite (proj2 (H1 i j) Hno), fw_init_entry by done. unfold cell. case_decide as Eij.
    + exists 0%nat. split; [done|]. split; [lia|done].
    + left. split; [done|]. intros c [He _]%through_nil. by apply (Hno (fnat c)).
Qed.

(** The matrix that Floyd-Warshall returns: a row for every registered
    node, and in it the entries for all nodes processed. *)
Lemma FloydWarshall_cells :
  ∃ m, FloydWarshall ord g = Some m ∧ rows m ∧
       ∀ i j, reg i → reg j → cell (reverse (range ord (nodes g)).*1) i j m.[i].[j].
Proof.
  unfold FloydWarshall. destruct fw_start as (d1 & E & Hinv).
  pose proof (fw_init_unfold ord g) as Hu. destruct (fw_init ord g) as [ns d0].
  injection Hu as -> _. simpl in E. rewrite E.
  destruct (fw_loop (range ord (nodes g)).*1 (range ord (nodes g)).*1) with (K := @nil Z) (d := d1)
    as (m & -> & [Hr Hc]).
  - intros j. by rewrite elem_of_range_keys.
  - intros j. by rewrite elem_of_range_keys.
  - done.
  - exists m. rewrite app_nil_r in Hc. done.
Qed.

Lemma walk_through s t c :
  s ≠ t → walk W g s t c ↔ through g W (reverse (range ord (nodes g)).*1) s t c.
Proof.
  intros Hst. rewrite walk_route. split.
  - intros (l & Hr & Hl). destruct l as [|x l _] using rev_ind; [simpl in Hl; congruence|].
    rewrite app_comm_cons, last_snoc in Hl. injection Hl as ->.
    exists l. split; [done|]. intros x Hx. apply elem_of_reverse, elem_of_range_keys.
    destruct (route_registered W g _ _ x Hg Hr) as [?|E]; [|done|].
    + right. apply elem_of_app. by left.
    + destruct l; simplify_eq.
  - intros (l & Hr & _). exists (l ++ [t]). split; [done|].
    by rewrite app_comm_cons, last_snoc.
Qed.

(** Floyd-Warshall holds the least cost of a walk for every pair joined
    by one, as long as a node paired with itself has no loop of a weight
    other than 0. *)
Lemma FloydWarshall_least_cost s t c :
  walk W g s t c → (s = t → no_loop s) →
  ∃ m cmin, FloydWarshall ord g = Some m ∧ m.[s].[t] = fnat cmin ∧
            walk W g s t cmin ∧ ∀ c', walk W g s t c' → (cmin ≤ c')%nat.
Proof.
  intros Hc Hloop. destruct FloydWarshall_cells as (m & E & Hrows & Hcell). exists m.
  destruct (decide (s = t)) as [<-|Hst].
  - exists 0%nat. split; [done|]. split; [|split; [constructor|lia]].
    destruct (nodes g !! s) as [b|] eqn:Es.
    + pose proof (Hcell s s ltac:(by eexists) ltac:(by eexists)) as Hd. unfold cell in Hd.
      rewrite decide_True in Hd by done. destruct Hd as (a & -> & _ & Ha).
      by rewrite Ha by auto.
    + assert (m !! s = None) as Em.
      { destruct (m !! s) eqn:Em; [|done]. assert (reg s) as [? ?]; [|congruence].
        apply Hrows. by eexists. }
      unfold index_map at 2. rewrite Em. simpl. unfold index_map, zero_value, map_zero.
      by rewrite lookup_empty.
  - pose proof (proj1 (walk_through s t c Hst) Hc) as Ht.
    assert (reg s ∧ reg t) as [Hs Htr].
    { destruct Ht as (l & Hr & _). split.
      - destruct (route_registered W g _ _ s Hg Hr) as [?|E'];
          [left|done|destruct l; simplify_eq].
      - destruct (route_registered W g _ _ t Hg Hr) as [?|E'];
          [right; apply elem_of_app; right; left|done|destruct l; simplify_eq]. }
    pose proof (Hcell s t Hs Htr) as Hb. unfold cell in Hb. rewrite decide_False in Hb by done.
    destruct Hb as [[_ Hno]|(a & Ea & Ha & Hmin)]; [by destruct (Hno c)|].
    exists a. split; [done|]. split; [done|]. split; [by apply walk_through|].
    intros c' Hc'. by apply Hmin, walk_through.
Qed.
End floyd_warshall.

(** ** Dijkstra, Bellman-Ford and Floyd-Warshall against each other *)

(** The weights 0.1, 0.2 and 0.3 (the float64 nearest to each) along
    0→1→2→3. *)
Definition g_tenths : Graph :=
  build [(0, 1, 0x1.999999999999ap-4%float); (1, 2, 0x1.999999999999ap-3%float);
         (2, 3, 0x1.3333333333333p-2%float)].

(** C1, as stated, fails in two ways. Floyd-Warshall adds the weights of a
    path in the order in which it takes the intermediate nodes: ranging
    over the nodes 3, 2, 1, 0 it computes 0.1 + (0.2 + 0.3) for the pair
    (0, 3), where Dijkstra and Bellman-Ford compute (0.1 + 0.2) + 0.3, and
    float64 rounds the two differently. And Floyd-Warshall writes the
    weight of a loop over the 0 of the diagonal, where the other two keep
    the distance 0 from a node to itself. *)
Lemma shortest_distances_disagree :
  (reachable g_tenths 0 3 ∧
   (∀ u v w, has_edge g_tenths u v w → PrimFloat.ltb 0 w = true) ∧
   ∃ d path m,
     Dijkstra 8 descending g_tenths 0 3 = Some (d, path) ∧
     (BellmanFord descending g_tenths 0).1.[3] = d ∧
     FloydWarshall descending g_tenths = Some m ∧
     PrimFloat.ltb m.[0].[3] d = true) ∧
  (reachable g_selfloop 0 0 ∧
   (∀ u v w, has_edge g_selfloop u v w → PrimFloat.ltb 0 w = true) ∧
   ∃ m,
     Dijkstra 1 ascending g_selfloop 0 0 = Some (0%float, [0]) ∧
     (BellmanFord ascending g_selfloop 0).1.[0] = 0%float ∧
     FloydWarshall ascending g_selfloop = Some m ∧ m.[0].[0] = 5%float).
Proof.
  split; split.
  - apply reach_edge with 2 0x1.3333333333333p-2%float; [|by apply has_edge_row].
    apply reach_edge with 1 0x1.999999999999ap-3%float; [|by apply has_edge_row].
    apply reach_edge with 0 0x1.999999999999ap-4%float; [constructor|by apply has_edge_row].
  - split.
    + intros u v w (row & Hr & Hw).
      assert (map_Forall (λ _ r, map_Forall (λ _ x, PrimFloat.ltb 0 x = true) r)
                (adjacency g_tenths)) as Hall by by_computation.
      by apply (Hall u row Hr v w).
    + eexists _, _, _. split; [by vm_compute|]. split; [by vm_compute|].
      split; [by vm_compute|]. by vm_compute.
  - constructor.
  - split.
    + intros u v w (row & Hr & Hw).
      assert (map_Forall (λ _ r, map_Forall (λ _ x, PrimFloat.ltb 0 x = true) r)
                (adjacency g_selfloop)) as Hall by by_computation.
      by apply (Hall u row Hr v w).
    + eexists. split; [by vm_compute|]. split; [by vm_compute|].
      split; [by vm_compute|]. by vm_compute.
Qed.

(** The weights of a graph are integers from 0 to [W], as float64. *)
Definition counted_weights (g : Graph) (W : nat) : Prop :=
  ∀ u v w, has_edge g u v w → ∃ k, (k ≤ W)%nat ∧ w = float64_of_int (Z.of_nat k).

Lemma counted_weights_check g W :
  map_Forall (λ _ r, map_Forall (λ (_ : Z) (x : float),
                x ∈ (λ k, float64_of_int (Z.of_nat k)) <$> seq 0 (S W)) r)
             (adjacency g) →
  counted_weights g W.
Proof.
  intros Hall u v w (row & Hr & Hw).
  apply (Hall u row Hr v w) in Hw. apply list_elem_of_fmap in Hw as (k & -> & Hk).
  apply elem_of_seq in Hk. exists k. split; [lia|done].
Qed.

(** C1, as the code has it: for every graph built by the API whose weights
    are integers from 0 to [W], with [2 * W * (|V| + 1)] below 2^53, so
    that float64 adds them exactly, and for every target reachable from the
    source, the source itself only if it has no loop of a weight other than
    0: Dijkstra (with enough fuel), Bellman-Ford and Floyd-Warshall return
    the same distance, whatever the range order of each. *)
Theorem shortest_distances_agree (o1 o2 o3 : RangeOrder) (es : list (Z * Z * float))
    (source target : Z) (W fuel : nat) :
  counted_weights (build es) W →
  Z.of_nat (2 * (W * S (size (nodes (build es))))) < 2 ^ 53 →
  reachable (build es) source target →
  (source = target → ∀ w, has_edge (build es) source source w → w = 0%float) →
  (edge_count (build es) + size (nodes (build es)) + 1 < fuel)%nat →
  ∃ d path m,
    Dijkstra fuel o1 (build es) source target = Some (d, path) ∧
    (BellmanFord o2 (build es) source).1.[target] = d ∧
    FloydWarshall o3 (build es) = Some m ∧ m.[source].[target] = d.
Proof.
  intros Hwt0 HN%exact_below Hreach Hloop Hf. pose proof (wf_build es) as Hg.
  set (g := build es) in *. set (N := (2 * (W * S (size (nodes g))))%nat) in *.
  assert (∀ u v w, has_edge g u v w → ∃ k, (k ≤ W)%nat ∧ w = fnat k) as Hwt.
  { intros u v w (k & Hk & ->)%Hwt0. exists k. split; [done|]. symmetry.
    apply (counts_at N (exact_counts N HN)). unfold N. rewrite Nat.mul_succ_r. lia. }
  assert (∀ u v w, has_edge g u v w →
            ∃ k, (k ≤ W)%nat ∧ w = fnat k ∧
                 ∀ a, (a + k ≤ N)%nat → PrimFloat.add (fnat a) w = fnat (a + k)) as Hwt'.
  { intros u v w (k & Hk & ->)%Hwt. exists k. split; [done|]. split; [done|].
    intros a Ha. by apply (fnat_add N HN). }
  assert (W * S (size (nodes g)) ≤ N)%nat as HWN by (unfold N; lia).
  assert (2 * (W * size (nodes g)) ≤ N)%nat as HWN'.
  { unfold N. rewrite Nat.mul_succ_r. lia. }
  destruct (reachable_walk g source W N Hwt' target Hreach) as [c Hc].
  destruct (Dijkstra_least_cost o1 g Hg source W N (exact_counts N HN) HWN Hwt' target fuel c Hc Hf)
    as (cd & path & Ed & Hwd & Hmind & _).
  destruct (BellmanFord_least_cost o2 g Hg source W N HN HWN Hwt target c Hc)
    as (cb & Eb & Hwb & Hminb & _).
  destruct (FloydWarshall_least_cost o3 g Hg W N HN HWN' Hwt source target c Hc Hloop)
    as (m & cf & Ef & Em & Hwf & Hminf).
  assert (cb = cd) as -> by (apply Nat.le_antisymm; auto).
  assert (cf = cd) as -> by (apply Nat.le_antisymm; auto).
  by exists (fnat cd), path, m.
Qed.

Lemma shortest_distances_agree_witness :
  ∃ d path m,
    Dijkstra 8 ascending (build [(0, 1, 2%float); (1, 2, 3%float); (0, 2, 7%float)]) 0 2
    = Some (d, path) ∧
    (BellmanFord descending (build [(0, 1, 2%float); (1, 2, 3%float); (0, 2, 7%float)]) 0).1.[2]
    = d ∧
    FloydWarshall descending (build [(0, 1, 2%float); (1, 2, 3%float); (0, 2, 7%float)])
    = Some m ∧ m.[0].[2] = d.
Proof.
  apply (shortest_distances_agree ascending descending descending
           [(0, 1, 2%float); (1, 2, 3%float); (0, 2, 7%float)] 0 2 7 8).
  - apply counted_weights_check. apply (bool_decide_unpack _). vm_compute. exact I.
  - vm_compute. reflexivity.
  - apply reach_edge with 1 3%float.
    + apply reach_edge with 0 2%float; [constructor|].
      apply has_edge_row. vm_compute. reflexivity.
    + apply has_edge_row. vm_compute. reflexivity.
  - intros E. discriminate E.
  - vm_compute. lia.
Defined.

(** ** The graph store: what [AddEdge] and [AddUndirectedEdge] build *)

(** A graph built by [AddUndirectedEdge] alone. *)
Definition build_undirected (es : list (Z * Z * float)) : Graph :=
  foldl (λ g e, AddUndirectedEdge g e.1.1 e.1.2 e.2) NewGraph es.

Lemma build_snoc es a b w : build (es ++ [(a, b, w)]) = AddEdge (build es) a b w.
Proof. unfold build. by rewrite foldl_app. Qed.

Lemma build_undirected_snoc es a b w :
  build_undirected (es ++ [(a, b, w)]) = AddUndirectedEdge (build_undirected es) a b w.
Proof. unfold build_undirected. by rewrite foldl_app. Qed.

Lemma AddEdge_row g a b w u :
  (adjacency (AddEdge g a b w)).[u] =
  if decide (u = a) then <[b := w]> (adjacency g).[a] else (adjacency g).[u].
Proof.
  unfold AddEdge. simpl. case_decide as E; [subst u|].
  - rewrite index_map_insert_eq. f_equal.
    destruct (adjacency g !! a) eqn:Ea; [done|].
    rewrite index_map_insert_eq. unfold index_map. by rewrite Ea.
  - rewrite index_map_insert_ne by done.
    destruct (adjacency g !! a) eqn:Ea; [done|]. by rewrite index_map_insert_ne.
Qed.

Lemma AddEdge_has_edge g a b w u v x :
  has_edge (AddEdge g a b w) u v x ↔
  (u = a ∧ v = b ∧ x = w) ∨ (¬ (u = a ∧ v = b) ∧ has_edge g u v x).
Proof.
  rewrite !has_edge_row, AddEdge_row. case_decide as E; [subst u|].
  - rewrite lookup_insert. case_decide as E'; [subst v|].
    + split; [intros [= <-]; by left|]. intros [(_ & _ & ->)|[H _]]; [done|]. by destruct H.
    + split; [intros H; right; split; [by intros [_ ?]|done]|].
      intros [(_ & ? & _)|[_ H]]; [congruence|done].
  - split; [intros H; right; split; [by intros [? _]|done]|].
    intros [(? & _)|[_ H]]; [congruence|done].
Qed.

Lemma AddEdge_nodes g a b w k :
  nodes (AddEdge g a b w) !! k =
  if decide (k = a ∨ k = b) then Some true else nodes g !! k.
Proof.
  unfold AddEdge. simpl. rewrite !lookup_insert.
  destruct (decide (b = k)) as [->|Hb].
  { rewrite decide_True; [done|by right]. }
  destruct (decide (a = k)) as [->|Ha].
  { rewrite decide_True; [done|by left]. }
  rewrite decide_False; [done|]. intros [?|?]; congruence.
Qed.

Lemma AddUndirectedEdge_has_edge g a b w u v x :
  has_edge (AddUndirectedEdge g a b w) u v x ↔
  ((u = a ∧ v = b ∨ u = b ∧ v = a) ∧ x = w) ∨
  (¬ (u = a ∧ v = b) ∧ ¬ (u = b ∧ v = a) ∧ has_edge g u v x).
Proof.
  unfold AddUndirectedEdge. rewrite !AddEdge_has_edge.
  destruct (decide (u = a)), (decide (v = b)), (decide (u = b)), (decide (v = a)); tauto.
Qed.

(** X1: a graph built by [AddEdge] calls holds, for every ordered pair of
    nodes, the weight of the last call for that pair: an edge (u, v) has
    weight x exactly when some call added (u, v, x) and no later call named
    the same pair. *)
Theorem build_last_write (es : list (Z * Z * float)) (u v : Z) (x : float) :
  has_edge (build es) u v x ↔
  ∃ es1 es2, es = es1 ++ (u, v, x) :: es2 ∧ ∀ e, e ∈ es2 → ¬ (e.1.1 = u ∧ e.1.2 = v).
Proof.
  revert x. induction es as [|[[a b] w] es IH] using rev_ind; intros x.
  - split.
    + intros (row & Hr & _). simpl in Hr. by rewrite lookup_empty in Hr.
    + intros (es1 & es2 & E & _). by destruct es1.
  - rewrite build_snoc, AddEdge_has_edge, IH. split.
    + intros [(-> & -> & ->)|[Hne (es1 & es2 & -> & Hno)]].
      * exists es, []. split; [done|]. intros e He. by apply elem_of_nil in He.
      * exists es1, (es2 ++ [(a, b, w)]). split; [by rewrite <- (assoc_L (++))|].
        intros e [He|He]%elem_of_app; [by apply Hno|].
        apply list_elem_of_singleton in He as ->. simpl. intros [-> ->]. by apply Hne.
    + intros (es1 & es2 & E & Hno).
      destruct es2 as [|e2 es2 _] using rev_ind.
      * apply app_inj_tail in E as [_ [= -> -> ->]]. by left.
      * rewrite app_comm_cons, (assoc_L (++)) in E. apply app_inj_tail in E as [-> <-].
        right. split.
        -- intros [Hu Hv]. apply (Hno (a, b, w)); [|done]. apply elem_of_app. right. left.
        -- exists es1, es2. split; [done|]. intros e He. apply Hno, elem_of_app. by left.
Qed.

(** X2: in a graph built by [AddEdge] calls the registry holds [true] for
    exactly the endpoints of the edges: a node is registered if and only if
    an edge leaves it or enters it, and no entry of the registry is
    [false]. *)
Theorem build_registry_endpoints (es : list (Z * Z * float)) (k : Z) :
  (nodes (build es) !! k = Some true ↔
   ∃ v w, has_edge (build es) k v w ∨ has_edge (build es) v k w) ∧
  nodes (build es) !! k ≠ Some false.
Proof.
  split; [|intros H; by apply (wf_true _ (wf_build es)) in H].
  split.
  - induction es as [|[[a b] w] es IH] using rev_ind; [simpl; by rewrite lookup_empty|].
    rewrite build_snoc, AddEdge_nodes. case_decide as E.
    + intros _. destruct E as [->| ->].
      * exists b, w. left. apply AddEdge_has_edge. by left.
      * exists a, w. right. apply AddEdge_has_edge. by left.
    + intros (v & w' & H)%IH. destruct H as [H|H].
      * exists v, w'. left. apply AddEdge_has_edge. right. split; [|done].
        intros [-> _]. apply E. by left.
      * exists v, w'. right. apply AddEdge_has_edge. right. split; [|done].
        intros [_ ->]. apply E. by right.
  - intros (v & w & [H|H]); apply (wf_edge _ _ _ _ (wf_build es)) in H as [[b1 H1] [b2 H2]].
    + by rewrite H1, (wf_true _ (wf_build es) _ _ H1).
    + by rewrite H2, (wf_true _ (wf_build es) _ _ H2).
Qed.

Lemma undirected_symmetric es u v w :
  has_edge (build_undirected es) u v w → has_edge (build_undirected es) v u w.
Proof.
  revert w. induction es as [|[[a b] x] es IH] using rev_ind; intros w.
  - intros (row & Hr & _). simpl in Hr. by rewrite lookup_empty in Hr.
  - rewrite build_undirected_snoc, !AddUndirectedEdge_has_edge.
    intros [[H ->]|(H1 & H2 & H)]; [left; tauto|]. right.
    split; [tauto|]. split; [tauto|]. by apply IH.
Qed.

Lemma build_undirected_build es :
  build_undirected es = build (es ≫= λ e, [e; (e.1.2, e.1.1, e.2)]).
Proof.
  induction es as [|[[a b] x] es IH] using rev_ind; [done|].
  rewrite build_undirected_snoc, bind_app, IH. simpl.
  unfold build. by rewrite foldl_app.
Qed.

Lemma wf_build_undirected es : wf (build_undirected es).
Proof. rewrite build_undirected_build. apply wf_build. Qed.

Lemma undirected_reach_back es a b :
  reachable (build_undirected es) a b → reachable (build_undirected es) b a.
Proof.
  induction 1 as [|x y w _ IH He]; [constructor|].
  apply undirected_symmetric in He.
  assert (∀ c, reachable (build_undirected es) x c → reachable (build_undirected es) y c)
    as Hpre; [|by apply Hpre].
  intros c. induction 1 as [|p q w' _ IH' He']; [|by eapply reach_edge].
  by apply reach_edge with y w; [constructor|].
Qed.

(** X3: a graph built by [AddUndirectedEdge] calls alone is symmetric:
    every edge has a reverse edge of the same weight, and every node that
    can be reached from a node can reach it back. *)
Theorem AddUndirectedEdge_symmetric (es : list (Z * Z * float)) (u v : Z) :
  (∀ w, has_edge (build_undirected es) u v w ↔ has_edge (build_undirected es) v u w) ∧
  (reachable (build_undirected es) u v ↔ reachable (build_undirected es) v u).
Proof.
  split; [intros w; split; apply undirected_symmetric|].
  split; apply undirected_reach_back.
Qed.

(** ** The priority queue: positions, contents and the least priority *)

(** Every item of the queue holds its own position in [index]. *)
Definition indexed (q : list item) : Prop :=
  index <$> q = Z.of_nat <$> seq 0 (length q).

Lemma indexed_lookup q :
  indexed q ↔ ∀ k it, q !! k = Some it → index it = Z.of_nat k.
Proof.
  unfold indexed. split.
  - intros E k it Hk. pose proof (lookup_lt_Some _ _ _ Hk) as Hlt.
    assert ((index <$> q) !! k = Some (index it)) as H by (by rewrite list_lookup_fmap, Hk).
    rewrite E, list_lookup_fmap, lookup_seq_lt in H by done. by injection H as <-.
  - intros H. apply list_eq. intros k. rewrite !list_lookup_fmap.
    destruct (q !! k) as [it|] eqn:Hk; simpl.
    + rewrite lookup_seq_lt by (by eapply lookup_lt_Some). simpl. f_equal. by apply H.
    + apply lookup_ge_None in Hk. by rewrite lookup_seq_ge.
Qed.

Lemma indexed_Swap q i j : 0 ≤ i → 0 ≤ j → indexed q → indexed (pq_Swap q i j).
Proof.
  rewrite !indexed_lookup. intros Hi Hj Hq k it. unfold pq_Swap.
  destruct (q !! Z.to_nat i) as [a|] eqn:Ea; [|apply Hq].
  destruct (q !! Z.to_nat j) as [b|] eqn:Eb; [|apply Hq].
  pose proof (lookup_lt_Some _ _ _ Ea). pose proof (lookup_lt_Some _ _ _ Eb).
  destruct (decide (k = Z.to_nat j)) as [->|Hkj].
  { rewrite list_lookup_insert_eq by (rewrite length_insert; lia).
    intros [= <-]. simpl. lia. }
  rewrite list_lookup_insert_ne by done.
  destruct (decide (k = Z.to_nat i)) as [->|Hki].
  { rewrite list_lookup_insert_eq by lia. intros [= <-]. simpl. lia. }
  rewrite list_lookup_insert_ne by done. apply Hq.
Qed.

Lemma indexed_up fuel q j : 0 ≤ j → indexed q → indexed (up fuel q j).
Proof.
  revert q j. induction fuel as [|fuel IH]; intros q j Hj Hq; simpl; [done|].
  destruct (_ || _); [done|].
  assert (0 ≤ Z.quot (j - 1) 2).
  { destruct (decide (j = 0)) as [->|]; [by vm_compute|]. apply Z.quot_pos; lia. }
  apply IH; [done|]. by apply indexed_Swap.
Qed.

Lemma indexed_down fuel q i n : 0 ≤ i → indexed q → indexed (down fuel q i n).
Proof.
  revert q i. induction fuel as [|fuel IH]; intros q i Hi Hq; simpl; [done|].
  destruct (_ || _); [done|]. destruct (negb _); [done|].
  destruct (_ && _); (apply IH; [lia|]; apply indexed_Swap; [lia|lia|done]).
Qed.

Lemma indexed_Push q x : indexed q → indexed (heap_Push q x).
Proof.
  intros Hq. unfold heap_Push. apply indexed_up.
  - unfold pq_Len, pq_Push. rewrite length_app. simpl. lia.
  - apply indexed_lookup. intros k it. unfold pq_Push.
    destruct (decide (k < length q)%nat) as [Hk|Hk].
    + rewrite lookup_app_l by done. by apply indexed_lookup.
    + rewrite lookup_app_r by lia. intros Hl.
      pose proof (lookup_lt_Some _ _ _ Hl) as Hlt. simpl in Hlt.
      replace (k - length q)%nat with 0%nat in Hl by lia. injection Hl as <-.
      simpl. unfold pq_Len. lia.
Qed.

Lemma indexed_Pop q it rest :
  indexed q → heap_Pop q = Some (it, rest) → index it = -1 ∧ indexed rest.
Proof.
  intros Hq. unfold heap_Pop, pq_Pop.
  set (q' := down _ _ _ _).
  assert (indexed q') as Hq'.
  { apply indexed_down; [done|]. destruct q as [|x q0]; [done|].
    apply indexed_Swap; [done|unfold pq_Len; simpl; lia|done]. }
  destruct (q' !! _) as [a|]; [|done]. simpl.
  destruct (pq_Len q' =? 0); [done|]. intros [= <- <-]. split; [done|].
  apply indexed_lookup. intros k b Hb.
  apply lookup_take_Some in Hb as [Hb _]. revert Hb. by apply indexed_lookup.
Qed.

(** X4: [heap.Push] and [heap.Pop] move items but neither lose nor invent
    one, and keep the [index] field of every queued item equal to its
    position: after a push the queue holds the old entries and the new
    one; a pop of a non-empty queue returns one entry, with [index] -1,
    and leaves the others; a pop of the empty queue fails. *)
Theorem heap_keeps_entries_and_positions (q : list item) (x : item) :
  indexed q →
  (indexed (heap_Push q x) ∧ entry <$> heap_Push q x ≡ₚ entry x :: (entry <$> q)) ∧
  (q ≠ [] →
   ∃ it rest, heap_Pop q = Some (it, rest) ∧ index it = -1 ∧ indexed rest ∧
              entry it :: (entry <$> rest) ≡ₚ entry <$> q) ∧
  heap_Pop [] = None.
Proof.
  intros Hq. split; [split; [by apply indexed_Push|apply heap_Push_perm]|].
  split; [|done]. intros Hne.
  destruct (heap_Pop_perm q Hne) as (it & rest & E & Hp).
  exists it, rest. split; [done|].
  destruct (indexed_Pop q it rest Hq E) as [Hi Hr]. done.
Qed.

Lemma heap_keeps_entries_and_positions_witness :
  (indexed (heap_Push [Item 7 2 0; Item 8 3 1] (Item 9 1 0)) ∧
   entry <$> heap_Push [Item 7 2 0; Item 8 3 1] (Item 9 1 0)
   ≡ₚ entry (Item 9 1 0) :: (entry <$> [Item 7 2 0; Item 8 3 1])) ∧
  ([Item 7 2 0; Item 8 3 1] ≠ [] →
   ∃ it rest, heap_Pop [Item 7 2 0; Item 8 3 1] = Some (it, rest) ∧ index it = -1 ∧
              indexed rest ∧
              entry it :: (entry <$> rest) ≡ₚ entry <$> [Item 7 2 0; Item 8 3 1]) ∧
  heap_Pop [] = None.
Proof.
  apply (heap_keeps_entries_and_positions [Item 7 2 0; Item 8 3 1] (Item 9 1 0)).
  reflexivity.
Defined.

(** ** The order of float64 away from NaN *)

(** A float64 other than NaN as a triple of integers, ordered as the
    floats are: the class (infinities, signs, zero), then the exponent,
    then the mantissa. *)
Definition float_key (f : spec_float) : Z * Z * Z :=
  match f with
  | S754_zero _ | S754_nan => (0, 0, 0)
  | S754_infinity s => (if s then -2 else 2, 0, 0)
  | S754_finite s m e => if s then (-1, - e, - Z.pos m) else (1, e, Z.pos m)
  end.

Definition key_lt (a b : Z * Z * Z) : Prop :=
  a.1.1 < b.1.1 ∨ (a.1.1 = b.1.1 ∧ (a.1.2 < b.1.2 ∨ (a.1.2 = b.1.2 ∧ a.2 < b.2))).

Lemma SFltb_key f1 f2 :
  f1 ≠ S754_nan → f2 ≠ S754_nan → SFltb f1 f2 = true ↔ key_lt (float_key f1) (float_key f2).
Proof.
  intros H1 H2. unfold SFltb, key_lt.
  destruct f1 as [s1|s1| |s1 m1 e1], f2 as [s2|s2| |s2 m2 e2]; try done;
    try destruct s1; try destruct s2; simpl;
    try (split; [intros; first [discriminate|lia]|intros; first [reflexivity|lia]]).
  - change (PosDef.Pos.compare_cont Eq m1 m2) with (Pos.compare m1 m2).
    destruct (Z.compare_spec e1 e2); [destruct (Pos.compare_spec m1 m2)| |]; simpl;
      (split; [intros; first [discriminate|lia]|intros; first [reflexivity|lia]]).
  - change (PosDef.Pos.compare_cont Eq m1 m2) with (Pos.compare m1 m2).
    destruct (Z.compare_spec e1 e2); [destruct (Pos.compare_spec m1 m2)| |]; simpl;
      (split; [intros; first [discriminate|lia]|intros; first [reflexivity|lia]]).
Qed.

(** [x] is not NaN: it equals itself. *)
Definition ordinary (x : float) : Prop := PrimFloat.is_nan x = false.

Lemma ordinary_spec x : ordinary x → Prim2SF x ≠ S754_nan.
Proof.
  unfold ordinary, is_nan. intros H E.
  pose proof (FloatAxioms.eqb_spec x x) as Hs. rewrite E in Hs. simpl in Hs.
  rewrite Hs in H. done.
Qed.

Lemma ordinary_asym a b : ordinary a → ordinary b → PrimFloat.ltb a b = true → fle a b.
Proof.
  intros Ha%ordinary_spec Hb%ordinary_spec. unfold fle.
  rewrite ltb_spec. intros H%SFltb_key; [|done|done].
  destruct (PrimFloat.ltb b a) eqn:E; [|done].
  rewrite ltb_spec in E. apply SFltb_key in E; [|done|done].
  unfold key_lt in *. lia.
Qed.

Lemma ordinary_trans a b c :
  ordinary a → ordinary b → ordinary c → fle a b → fle b c → fle a c.
Proof.
  intros Ha%ordinary_spec Hb%ordinary_spec Hc%ordinary_spec. unfold fle.
  intros H1 H2. destruct (PrimFloat.ltb c a) eqn:E; [|done].
  rewrite ltb_spec in E. apply SFltb_key in E; [|done|done].
  assert (¬ key_lt (float_key (Prim2SF b)) (float_key (Prim2SF a))) as N1.
  { intros H%SFltb_key; [|done|done]. rewrite <- ltb_spec in H. congruence. }
  assert (¬ key_lt (float_key (Prim2SF c)) (float_key (Prim2SF b))) as N2.
  { intros H%SFltb_key; [|done|done]. rewrite <- ltb_spec in H. congruence. }
  unfold key_lt in *. lia.
Qed.

(** The queues that [heap.Push] and [heap.Pop] make of the empty queue,
    as long as no priority pushed is NaN. *)
Inductive heap_built : list item → Prop :=
| built_empty : heap_built []
| built_Push q x : heap_built q → ordinary (priority x) → heap_built (heap_Push q x)
| built_Pop q it rest : heap_built q → heap_Pop q = Some (it, rest) → heap_built rest.

Lemma heap_built_ordered q : heap_built q → heap_ordered q ∧ admissible ordinary q.
Proof.
  induction 1 as [|q x _ [IH1 IH2] Hx|q it rest _ [IH1 IH2] E].
  - split; [intros k a b Hk; simpl in Hk; lia|]. by intros k a Hk.
  - by apply (heap_Push_ordered ordinary ordinary_asym ordinary_trans).
  - destruct (heap_Pop_ordered ordinary ordinary_asym ordinary_trans q it rest IH1 IH2 E)
      as (? & ? & _). done.
Qed.

(** X5: in a queue made by [heap.Push] and [heap.Pop] from the empty one,
    with no NaN among the priorities pushed, [heap.Pop] returns an item of
    least priority: no item of the queue has a priority below that of the
    item popped. *)
Theorem heap_Pop_least (q : list item) (it : item) (rest : list item) :
  heap_built q → heap_Pop q = Some (it, rest) →
  Forall (λ x, PrimFloat.ltb (priority x) (priority it) = false) q.
Proof.
  intros [Ho Ha]%heap_built_ordered E. apply Forall_forall. intros x Hx.
  destruct (heap_Pop_ordered ordinary ordinary_asym ordinary_trans q it rest Ho Ha E)
    as (_ & _ & _ & Hmin).
  apply list_elem_of_lookup in Hx as [k Hk].
  apply (Hmin k). unfold prio. by rewrite Hk.
Qed.

Lemma heap_Pop_least_witness :
  Forall (λ x, PrimFloat.ltb (priority x) (priority (Item 8 1 (-1))) = false)
         (heap_Push (heap_Push (heap_Push [] (Item 7 3 0)) (Item 8 1 0)) (Item 9 2 0)).
Proof.
  apply (heap_Pop_least
           (heap_Push (heap_Push (heap_Push [] (Item 7 3 0)) (Item 8 1 0)) (Item 9 2 0))
           (Item 8 1 (-1)) [Item 9 2 0; Item 7 3 1]).
  - apply built_Push; [apply built_Push; [apply built_Push; [apply built_empty|]|]|];
      reflexivity.
  - vm_compute. reflexivity.
Defined.

(** ** Dijkstra and A*: what every run returns *)

Section search_result.
Context (ord : RangeOrder) (g : Graph) (Hg : wf g) (h : Z → float → float).
Context (source : Z) (p0 : float) (fuel : nat).
Context (Hf : (edge_count g + size (nodes g) + 1 < fuel)%nat).

Lemma search_final target :
  ∃ st, search_loop fuel ord g h target (start ord g source p0) = Some st ∧
        inv ord g source st ∧ (pq st = [] ∨ (visited st).[target] = true).
Proof. apply search_loop_inv; [done|]. rewrite measure_start. lia. Qed.

(** The source as target: distance 0 and the path of the source alone. *)
Lemma search_self :
  ∃ st, search_loop fuel ord g h source (start ord g source p0) = Some st ∧
        reconstruct fuel st source source = Some (0%float, [source]).
Proof.
  destruct (search_final source) as (st & E & Hinv & Hex). exists st. split; [done|].
  assert ((visited st).[source] = true) as Hv.
  { destruct Hex as [Hq|?]; [|done].
    destruct (inv_seen _ _ _ _ Hinv) as [?|Hs]; [done|].
    unfold queued in Hs. rewrite Hq in Hs. by apply elem_of_nil in Hs. }
  pose proof (index_map_Some _ _ _ (inv_source _ _ _ _ Hinv)) as Hd.
  destruct (inv_chain _ _ _ _ Hinv _ Hv) as (l & Hl & _).
  assert (l = [source]) as -> by (by inversion Hl).
  unfold reconstruct. rewrite Hd.
  by rewrite (walk_back_chain _ _ _ _ Hl) by (simpl; lia).
Qed.

(** A registered target: +Inf and no path when it cannot be reached, and
    otherwise, unless the distance is +Inf, a path along edges of the
    graph whose weights add up to the distance. *)
Lemma search_target target :
  is_Some (nodes g !! target) →
  ∃ st d path,
    search_loop fuel ord g h target (start ord g source p0) = Some st ∧
    reconstruct fuel st source target = Some (d, path) ∧
    (¬ reachable g source target → d = infinity ∧ path = []) ∧
    (PrimFloat.eqb d infinity = false →
     head path = Some source ∧ last path = Some target ∧
     is_walk g path ∧ walk_cost g path = d) ∧
    (PrimFloat.eqb d infinity = false → reachable g source target).
Proof.
  intros Ht. destruct (search_final target) as (st & E & Hinv & Hex). exists st.
  destruct ((visited st).[target]) eqn:Hv.
  - destruct (inv_chain _ _ _ _ Hinv _ Hv) as (l & Hl & _).
    destruct (chain_walk ord _ source st target l Hinv Hl) as (_ & _ & Hreach).
    destruct (PrimFloat.eqb (dist st).[target] infinity) eqn:Einf.
    + exists (dist st).[target], []. unfold reconstruct. rewrite Einf. simpl.
      split; [done|]. split; [done|]. split; [done|]. split; congruence.
    + destruct (reconstruct_visited ord _ Hg source st target fuel Hinv Hv)
        as (path & Hrec & H); [lia|done|].
      exists (dist st).[target], path. split; [done|]. split; [done|]. split; [done|].
      split; by intros _.
  - destruct Hex as [Hq|?]; [|congruence].
    pose proof (unvisited_dist ord _ source st target Hinv Hq Hv Ht) as Hd.
    exists infinity, []. unfold reconstruct. rewrite Hd. simpl.
    split; [done|]. split; [done|]. split; [done|]. split; done.
Qed.
End search_result.

(** X6: A* is sound for every heuristic, whatever floats it returns. On a
    graph built by the API, with fuel above the number of edges plus the
    number of nodes plus one: the source as target gives distance 0 and
    the path of the source alone; a registered target that cannot be
    reached gives +Inf and the empty path; and whenever the distance
    returned for a registered target is not +Inf, the path runs from the
    source to the target along edges of the graph, and their weights,
    added from left to right, give that distance. *)
Theorem AStar_any_heuristic (ord : RangeOrder) (es : list (Z * Z * float))
    (heuristic : Z → Z → float) (source : Z) (fuel : nat) :
  (edge_count (build es) + size (nodes (build es)) + 1 < fuel)%nat →
  AStar fuel ord (build es) source source heuristic = Some (0%float, [source]) ∧
  ∀ target, is_Some (nodes (build es) !! target) →
    ∃ d path,
      AStar fuel ord (build es) source target heuristic = Some (d, path) ∧
      (¬ reachable (build es) source target → d = infinity ∧ path = []) ∧
      (PrimFloat.eqb d infinity = false →
       head path = Some source ∧ last path = Some target ∧
       is_walk (build es) path ∧ walk_cost (build es) path = d).
Proof.
  intros Hf. pose proof (wf_build es) as Hg. unfold AStar. split.
  - destruct (search_self ord _ Hg (λ n d, PrimFloat.add d (heuristic n source)) source
                (heuristic source source) fuel Hf) as (st & -> & Hrec). done.
  - intros target Ht.
    destruct (search_target ord _ Hg (λ n d, PrimFloat.add d (heuristic n target)) source
                (heuristic source target) fuel Hf target Ht)
      as (st & d & path & -> & Hrec & H1 & H2 & _).
    by exists d, path.
Qed.

Lemma AStar_any_heuristic_witness :
  AStar 8 ascending (build [(0, 1, 1%float); (1, 2, 2%float); (0, 2, 5%float)]) 0 0
        (λ a b, if a =? 1 then 9%float else 0%float)
  = Some (0%float, [0]) ∧
  ∀ target,
    is_Some (nodes (build [(0, 1, 1%float); (1, 2, 2%float); (0, 2, 5%float)]) !! target) →
    ∃ d path,
      AStar 8 ascending (build [(0, 1, 1%float); (1, 2, 2%float); (0, 2, 5%float)]) 0 target
            (λ a b, if a =? 1 then 9%float else 0%float)
      = Some (d, path) ∧
      (¬ reachable (build [(0, 1, 1%float); (1, 2, 2%float); (0, 2, 5%float)]) 0 target →
       d = infinity ∧ path = []) ∧
      (PrimFloat.eqb d infinity = false →
       head path = Some 0 ∧ last path = Some target ∧
       is_walk (build [(0, 1, 1%float); (1, 2, 2%float); (0, 2, 5%float)]) path ∧
       walk_cost (build [(0, 1, 1%float); (1, 2, 2%float); (0, 2, 5%float)]) path = d).
Proof.
  apply (AStar_any_heuristic ascending [(0, 1, 1%float); (1, 2, 2%float); (0, 2, 5%float)]
           (λ a b, if a =? 1 then 9%float else 0%float) 0 8).
  vm_compute. lia.
Defined.

(** ** Integer weights *)

(** [int_walk W g s v c]: some walk from [s] to [v], over edges whose
    weights are the integers up to [W] as float64, has the integer cost
    [c]. *)
Inductive int_walk (W : nat) (g : Graph) (s : Z) : Z → nat → Prop :=
| int_walk_0 : int_walk W g s s 0
| int_walk_S u v k c :
    int_walk W g s u c → has_edge g u v (float64_of_int (Z.of_nat k)) → (k ≤ W)%nat →
    int_walk W g s v (c + k).

(** [c] is the least cost of a walk from [s] to [v]. *)
Definition least_cost (W : nat) (g : Graph) (s v : Z) (c : nat) : Prop :=
  int_walk W g s v c ∧ ∀ c', int_walk W g s v c' → (c ≤ c')%nat.

Section integer_weights.
Context (g : Graph) (W N : nat).
Context (HN : exact_upto N = true) (HW : (W ≤ N)%nat) (Hwt : counted_weights g W).

Lemma fnat_int k : (k ≤ N)%nat → fnat k = float64_of_int (Z.of_nat k).
Proof. intros Hk. by apply (counts_at N (exact_counts N HN)). Qed.

Lemma counted_fnat u v w : has_edge g u v w → ∃ k, (k ≤ W)%nat ∧ w = fnat k.
Proof.
  intros (k & Hk & ->)%Hwt. exists k. split; [done|]. symmetry. apply fnat_int. lia.
Qed.

Lemma counted_adds u v w :
  has_edge g u v w →
  ∃ k, (k ≤ W)%nat ∧ w = fnat k ∧
       ∀ a, (a + k ≤ N)%nat → PrimFloat.add (fnat a) w = fnat (a + k).
Proof.
  intros (k & Hk & ->)%counted_fnat. exists k. split; [done|]. split; [done|].
  intros a Ha. by apply (fnat_add N HN).
Qed.

Lemma int_walk_walk s v c : int_walk W g s v c ↔ walk W g s v c.
Proof.
  split.
  - induction 1 as [|u v k c _ IH He Hk]; [constructor|].
    apply walk_S with u; [done| |done]. rewrite fnat_int by lia. done.
  - induction 1 as [|u v k c _ IH He Hk]; [constructor|].
    apply int_walk_S with u; [done| |done]. rewrite <- fnat_int by lia. done.
Qed.

Lemma least_cost_walk s v c :
  least_cost W g s v c ↔
  walk W g s v c ∧ ∀ c', walk W g s v c' → (c ≤ c')%nat.
Proof.
  unfold least_cost. rewrite int_walk_walk. split; intros [H1 H2]; (split; [done|]);
    intros c' Hc'; apply H2; by apply int_walk_walk.
Qed.
End integer_weights.

(** X7: Dijkstra on integer weights returns the least cost and a path
    that has it. On a graph built by the API whose weights are integers
    from 0 to [W], with [W * (|V| + 1)] below 2^53, for a target reachable
    from the source and with enough fuel: the distance is the least cost
    of a walk from the source to the target, and the path runs from the
    source to the target along edges whose weights add up to it. *)
Theorem Dijkstra_least_cost_path (ord : RangeOrder) (es : list (Z * Z * float))
    (source target : Z) (W fuel : nat) :
  counted_weights (build es) W →
  Z.of_nat (W * S (size (nodes (build es)))) < 2 ^ 53 →
  reachable (build es) source target →
  (edge_count (build es) + size (nodes (build es)) + 1 < fuel)%nat →
  ∃ cmin path,
    Dijkstra fuel ord (build es) source target
    = Some (float64_of_int (Z.of_nat cmin), path) ∧
    least_cost W (build es) source target cmin ∧
    head path = Some source ∧ last path = Some target ∧
    is_walk (build es) path ∧
    walk_cost (build es) path = float64_of_int (Z.of_nat cmin).
Proof.
  intros Hwt HN%exact_below Hreach Hf. pose proof (wf_build es) as Hg.
  set (g := build es) in *. set (N := (W * S (size (nodes g)))%nat) in *.
  assert (W ≤ N)%nat as HW by (unfold N; lia).
  destruct (reachable_walk g source W N (counted_adds g W N HN HW Hwt) target Hreach) as [c Hc].
  destruct (Dijkstra_least_cost ord g Hg source W N (exact_counts N HN) ltac:(done)
              (counted_adds g W N HN HW Hwt) target fuel c Hc Hf)
    as (cmin & path & Ed & Hw & Hmin & Hb).
  assert (cmin ≤ N)%nat as HcN by (unfold N; lia).
  assert (is_Some (nodes g !! target) ∨ source = target) as [Ht| <-].
  { destruct Hc as [|u v k c' _ He _]; [by right|]. left.
    by apply (wf_edge _ _ _ _ Hg) in He as [_ ?]. }
  - destruct (search_target ord g Hg (λ _ d, d) source 0%float fuel Hf target Ht)
      as (st & d & path' & Es & Hrec & _ & Hpath & _).
    unfold Dijkstra in Ed. rewrite Es, Hrec in Ed. injection Ed as -> ->.
    exists cmin, path. unfold Dijkstra. rewrite Es, Hrec, (fnat_int N HN) by done.
    split; [done|]. split; [by apply (least_cost_walk g W N HN HW)|].
    rewrite <- (fnat_int N HN) by done. apply Hpath.
    by apply (counts_at N (exact_counts N HN)).
  - destruct (search_self ord g Hg (λ _ d, d) source 0%float fuel Hf) as (st & Es & Hrec).
    unfold Dijkstra in Ed. rewrite Es, Hrec in Ed. injection Ed as E0 <-.
    exists cmin, [source]. unfold Dijkstra. rewrite Es, Hrec, <- (fnat_int N HN), <- E0 by done.
    split; [done|]. split; [by apply (least_cost_walk g W N HN HW)|]. done.
Qed.

Lemma Dijkstra_least_cost_path_witness :
  ∃ cmin path,
    Dijkstra 8 descending (build [(0, 1, 2%float); (1, 2, 3%float); (0, 2, 7%float)]) 0 2
    = Some (float64_of_int (Z.of_nat cmin), path) ∧
    least_cost 7 (build [(0, 1, 2%float); (1, 2, 3%float); (0, 2, 7%float)]) 0 2 cmin ∧
    head path = Some 0 ∧ last path = Some 2 ∧
    is_walk (build [(0, 1, 2%float); (1, 2, 3%float); (0, 2, 7%float)]) path ∧
    walk_cost (build [(0, 1, 2%float); (1, 2, 3%float); (0, 2, 7%float)]) path
    = float64_of_int (Z.of_nat cmin).
Proof.
  apply (Dijkstra_least_cost_path descending
           [(0, 1, 2%float); (1, 2, 3%float); (0, 2, 7%float)] 0 2 7 8).
  - apply counted_weights_check. apply (bool_decide_unpack _). vm_compute. exact I.
  - vm_compute. reflexivity.
  - apply reach_edge with 1 3%float.
    + apply reach_edge with 0 2%float; [constructor|].
      apply has_edge_row. vm_compute. reflexivity.
    + apply has_edge_row. vm_compute. reflexivity.
  - vm_compute. lia.
Defined.

(** ** The approximations built on Dijkstra *)

(** [dist, _ := g.Dijkstra(source, target); return dist] *)
Definition ResistanceDistance (fuel : nat) (ord : RangeOrder) (g : Graph)
    (source target : Z) : option float :=
  r ← Dijkstra fuel ord g source target; Some r.1.

(** [dist, _ := g.Dijkstra(source, target); return dist * 2] *)
Definition CommuteTime (fuel : nat) (ord : RangeOrder) (g : Graph)
    (source target : Z) : option float :=
  r ← Dijkstra fuel ord g source target; Some (PrimFloat.mul r.1 2%float).

(** X8: [ResistanceDistance] and [CommuteTime] at their edges, for every
    graph built by the API, whatever its weights, with enough fuel: both
    are 0 from a node to itself, and both are +Inf for a registered target
    that cannot be reached. *)
Theorem approximations_self_and_unreachable (ord : RangeOrder)
    (es : list (Z * Z * float)) (s : Z) (fuel : nat) :
  (edge_count (build es) + size (nodes (build es)) + 1 < fuel)%nat →
  ResistanceDistance fuel ord (build es) s s = Some 0%float ∧
  CommuteTime fuel ord (build es) s s = Some 0%float ∧
  ∀ t, is_Some (nodes (build es) !! t) → ¬ reachable (build es) s t →
       ResistanceDistance fuel ord (build es) s t = Some infinity ∧
       CommuteTime fuel ord (build es) s t = Some infinity.
Proof.
  intros Hf. pose proof (wf_build es) as Hg. unfold ResistanceDistance, CommuteTime, Dijkstra.
  destruct (search_self ord _ Hg (λ _ d, d) s 0%float fuel Hf) as (st & -> & ->).
  split; [done|]. split; [done|]. intros t Ht Hno.
  destruct (search_target ord _ Hg (λ _ d, d) s 0%float fuel Hf t Ht)
    as (st' & d & path & -> & -> & Hinf & _).
  destruct (Hinf Hno) as [-> ->]. done.
Qed.

Lemma approximations_self_and_unreachable_witness :
  ResistanceDistance 7 descending (build [(0, 1, 2%float); (2, 0, 1%float)]) 0 0
  = Some 0%float ∧
  CommuteTime 7 descending (build [(0, 1, 2%float); (2, 0, 1%float)]) 0 0 = Some 0%float ∧
  ∀ t, is_Some (nodes (build [(0, 1, 2%float); (2, 0, 1%float)]) !! t) →
       ¬ reachable (build [(0, 1, 2%float); (2, 0, 1%float)]) 0 t →
       ResistanceDistance 7 descending (build [(0, 1, 2%float); (2, 0, 1%float)]) 0 t
       = Some infinity ∧
       CommuteTime 7 descending (build [(0, 1, 2%float); (2, 0, 1%float)]) 0 t
       = Some infinity.
Proof.
  apply (approximations_self_and_unreachable descending
           [(0, 1, 2%float); (2, 0, 1%float)] 0 7).
  vm_compute. lia.
Defined.

(** ** Doubling a count *)

Lemma shl_xO p k : shl (p~0) k = shl p (S k).
Proof. unfold shl. by rewrite Nat.iter_succ_r. Qed.

Lemma mul_shl m q t : (m * shl q t)%positive = shl (m * q) t.
Proof.
  induction t as [|t IH]; [done|].
  change (shl q (S t)) with ((shl q t)~0)%positive.
  change (shl (m * q) (S t)) with ((shl (m * q) t)~0)%positive.
  by rewrite Pos.mul_xO_r, IH.
Qed.

(** A full mantissa given with [t] more zero bits is rounded to itself. *)
Lemma aux_scaled m t e :
  Z.pos (digits2_pos m) = 53 → -52 ≤ e + Z.of_nat t ≤ 0 →
  binary_round_aux prec emax false (Z.pos (shl m t)) e loc_Exact
  = S754_finite false m (e + Z.of_nat t).
Proof.
  intros Hd He. unfold binary_round_aux. unfold shr_fexp at 1. simpl Zdigits2.
  rewrite digits_shl, Hd, fexp_normal by lia.
  replace (53 + Z.of_nat t + e - 53 - e) with (Z.of_nat t) by lia.
  rewrite shr_exact. simpl round_nearest_even.
  rewrite shr_fexp_canon by (done || lia). simpl.
  assert ((e + Z.of_nat t <=? emax - prec) = true) as ->
    by (apply Z.leb_le; unfold emax, prec; lia).
  done.
Qed.

Lemma canon_double p :
  Z.pos (digits2_pos p) < 53 →
  SFmul prec emax (canon p) (canon 2) = canon (p~0).
Proof.
  intros Hd. unfold canon. set (D := Z.pos (digits2_pos p)) in *.
  assert (1 ≤ D) by (unfold D; lia).
  assert (Z.pos (digits2_pos p~0) = D + 1) as -> by (unfold D; simpl; lia).
  change (Z.pos (digits2_pos 2)) with 2.
  unfold SFmul. simpl xorb.
  rewrite mul_shl, (Pos.mul_comm _ 2).
  change (2 * ?x)%positive with (x~0)%positive. rewrite shl_xO.
  replace (Z.to_nat (53 - 2)) with 51%nat by lia.
  rewrite shl_xO.
  replace (Z.to_nat (53 - (D + 1))) with (Z.to_nat (53 - D) - 1)%nat by lia.
  replace (S (Z.to_nat (53 - D) - 1)) with (Z.to_nat (53 - D)) by lia.
  rewrite aux_scaled.
  - f_equal. lia.
  - rewrite digits_shl. fold D. lia.
  - lia.
Qed.

Lemma fnat_double c :
  Z.of_nat (c + c) < 2 ^ 53 → PrimFloat.mul (fnat c) 2%float = fnat (c + c).
Proof.
  intros Hc. apply Prim2SF_inj.
  rewrite mul_spec, !Prim2SF_fnat by lia. unfold SF64mul.
  change (Prim2SF 2) with (canon 2).
  destruct c as [|c]; [done|].
  replace (S c + S c)%nat with (S (c + S c)) by lia. simpl SF_of_nat.
  replace (Pos.of_succ_nat (c + S c)) with ((Pos.of_succ_nat c)~0)%positive by lia.
  apply canon_double.
  assert (Z.pos (digits2_pos (Pos.of_succ_nat c)) ≤ 52); [|lia].
  apply digits_le; [lia|]. rewrite Zpos_P_of_succ_nat.
  change (2 ^ 53) with (2 * 2 ^ 52) in Hc. lia.
Qed.

(** X9: on integer weights [ResistanceDistance] is the least cost of a
    walk and [CommuteTime] is twice that. On a graph built by the API
    whose weights are integers from 0 to [W], with [2 * W * (|V| + 1)]
    below 2^53, for a target reachable from the source and with enough
    fuel, there is a least cost [c] of a walk from the source to the
    target, and the two functions return [c] and [2 * c] as float64. *)
Theorem approximations_least_cost (ord : RangeOrder) (es : list (Z * Z * float))
    (source target : Z) (W fuel : nat) :
  counted_weights (build es) W →
  Z.of_nat (2 * (W * S (size (nodes (build es))))) < 2 ^ 53 →
  reachable (build es) source target →
  (edge_count (build es) + size (nodes (build es)) + 1 < fuel)%nat →
  ∃ c, least_cost W (build es) source target c ∧
       ResistanceDistance fuel ord (build es) source target
       = Some (float64_of_int (Z.of_nat c)) ∧
       CommuteTime fuel ord (build es) source target
       = Some (float64_of_int (Z.of_nat (2 * c))).
Proof.
  intros Hwt Hlt Hreach Hf. pose proof (exact_below _ Hlt) as HN.
  pose proof (wf_build es) as Hg.
  set (g := build es) in *. set (N := (2 * (W * S (size (nodes g))))%nat) in *.
  assert (W ≤ N)%nat as HW by (unfold N; lia).
  assert (W * S (size (nodes g)) ≤ N)%nat as HWN by (unfold N; lia).
  destruct (reachable_walk g source W N (counted_adds g W N HN HW Hwt) target Hreach) as [c0 Hc].
  destruct (Dijkstra_least_cost ord g Hg source W N (exact_counts N HN) HWN
              (counted_adds g W N HN HW Hwt) target fuel c0 Hc Hf)
    as (c & path & Ed & Hw & Hmin & Hb).
  assert (c + c ≤ N)%nat as Hcc by (unfold N; lia).
  exists c. split; [by apply (least_cost_walk g W N HN HW)|].
  unfold ResistanceDistance, CommuteTime. rewrite Ed. simpl.
  rewrite fnat_double by lia.
  rewrite !(fnat_int N HN) by lia.
  split; [done|]. do 3 f_equal. lia.
Qed.

Lemma approximations_least_cost_witness :
  ∃ c, least_cost 7 (build [(0, 1, 2%float); (1, 2, 3%float); (0, 2, 7%float)]) 0 2 c ∧
       ResistanceDistance 8 ascending
         (build [(0, 1, 2%float); (1, 2, 3%float); (0, 2, 7%float)]) 0 2
       = Some (float64_of_int (Z.of_nat c)) ∧
       CommuteTime 8 ascending
         (build [(0, 1, 2%float); (1, 2, 3%float); (0, 2, 7%float)]) 0 2
       = Some (float64_of_int (Z.of_nat (2 * c))).
Proof.
  apply (approximations_least_cost ascending
           [(0, 1, 2%float); (1, 2, 3%float); (0, 2, 7%float)] 0 2 7 8).
  - apply counted_weights_check. apply (bool_decide_unpack _). vm_compute. exact I.
  - vm_compute. reflexivity.
  - apply reach_edge with 1 3%float.
    + apply reach_edge with 0 2%float; [constructor|].
      apply has_edge_row. vm_compute. reflexivity.
    + apply has_edge_row. vm_compute. reflexivity.
  - vm_compute. lia.
Defined.

(** ** Undirected graphs: the same distance both ways *)

Lemma walk_prepend W g y x v k c :
  has_edge g y x (fnat k) → (k ≤ W)%nat → walk W g x v c → walk W g y v (k + c).
Proof.
  intros He Hk. induction 1 as [|u v k' c' _ IH He' Hk'].
  - rewrite Nat.add_0_r. replace k with (0 + k)%nat by lia.
    by apply walk_S with y; [constructor| |].
  - rewrite Nat.add_assoc. by apply walk_S with u.
Qed.

Lemma walk_reverse W g s t c :
  (∀ u v w, has_edge g u v w → has_edge g v u w) → walk W g s t c → walk W g t s c.
Proof.
  intros Hsym. induction 1 as [|u v k c _ IH He Hk]; [constructor|].
  rewrite Nat.add_comm. apply walk_prepend with u; [by apply Hsym|done|done].
Qed.

(** X10: on an undirected graph with integer weights the distance is the
    same in both directions. On a graph built by [AddUndirectedEdge] calls
    whose weights are integers from 0 to [W], with [W * (|V| + 1)] below
    2^53, for two registered nodes and with enough fuel, Dijkstra returns
    the same distance from [s] to [t] as from [t] to [s], whatever the
    range order of each run, and so do [ResistanceDistance] and
    [CommuteTime]. *)
Theorem undirected_distance_symmetric (o1 o2 : RangeOrder) (es : list (Z * Z * float))
    (s t : Z) (W fuel : nat) :
  counted_weights (build_undirected es) W →
  Z.of_nat (W * S (size (nodes (build_undirected es)))) < 2 ^ 53 →
  is_Some (nodes (build_undirected es) !! s) →
  is_Some (nodes (build_undirected es) !! t) →
  (edge_count (build_undirected es) + size (nodes (build_undirected es)) + 1 < fuel)%nat →
  (∃ d p1 p2,
     Dijkstra fuel o1 (build_undirected es) s t = Some (d, p1) ∧
     Dijkstra fuel o2 (build_undirected es) t s = Some (d, p2)) ∧
  ResistanceDistance fuel o1 (build_undirected es) s t
  = ResistanceDistance fuel o2 (build_undirected es) t s ∧
  CommuteTime fuel o1 (build_undirected es) s t
  = CommuteTime fuel o2 (build_undirected es) t s.
Proof.
  intros Hwt HN%exact_below Hs Ht Hf. pose proof (wf_build_undirected es) as Hg.
  set (g := build_undirected es) in *. set (N := (W * S (size (nodes g)))%nat) in *.
  assert (W ≤ N)%nat as HW by (unfold N; lia).
  assert (∃ d p1 p2, Dijkstra fuel o1 g s t = Some (d, p1) ∧
                     Dijkstra fuel o2 g t s = Some (d, p2)) as (d & p1 & p2 & E1 & E2).
  { assert (∀ ord a b, reachable g a b →
              ∃ c path, Dijkstra fuel ord g a b = Some (fnat c, path) ∧
                        walk W g a b c ∧ (∀ c', walk W g a b c' → (c ≤ c')%nat) ∧
                        (c ≤ N)%nat) as Hleast.
    { intros ord a b Hr.
      destruct (reachable_walk g a W N (counted_adds g W N HN HW Hwt) b Hr) as [c0 Hc0].
      destruct (Dijkstra_least_cost ord g Hg a W N (exact_counts N HN) ltac:(done)
                  (counted_adds g W N HN HW Hwt) b fuel c0 Hc0 Hf)
        as (c & path & E & Hw & Hmin & Hb).
      exists c, path. repeat (split; [done|]). unfold N. lia. }
    destruct (search_target o1 g Hg (λ _ d, d) s 0%float fuel Hf t Ht)
      as (st & d & p1 & Es & Hrec & Hno & _ & Hyes).
    assert (Dijkstra fuel o1 g s t = Some (d, p1)) as E1 by (unfold Dijkstra; by rewrite Es).
    destruct (PrimFloat.eqb d infinity) eqn:Einf.
    - assert (¬ reachable g s t) as Hun.
      { intros Hr. destruct (Hleast o1 s t Hr) as (c & path & E & _ & _ & Hc).
        rewrite E1 in E. injection E as -> _.
        pose proof (counts_at N (exact_counts N HN) c Hc) as (_ & H & _). congruence. }
      destruct (Hno Hun) as [-> ->].
      destruct (search_target o2 g Hg (λ _ d, d) t 0%float fuel Hf s Hs)
        as (st' & d' & p2 & Es' & Hrec' & Hno' & _).
      destruct Hno' as [-> ->].
      { intros Hr. apply Hun. by apply undirected_reach_back. }
      exists infinity, [], []. split; [done|]. unfold Dijkstra. by rewrite Es'.
    - pose proof (Hyes eq_refl) as Hr.
      destruct (Hleast o1 s t Hr) as (c1 & q1 & E & Hw1 & Hmin1 & _).
      destruct (Hleast o2 t s) as (c2 & q2 & E' & Hw2 & Hmin2 & _).
      { by apply undirected_reach_back. }
      assert (c1 = c2) as ->.
      { apply Nat.le_antisymm.
        - apply Hmin1, walk_reverse; [apply undirected_symmetric|done].
        - apply Hmin2, walk_reverse; [apply undirected_symmetric|done]. }
      rewrite E1 in E. injection E as -> ->. by exists (fnat c2), q1, q2. }
  split; [by exists d, p1, p2|].
  unfold ResistanceDistance, CommuteTime. by rewrite E1, E2.
Qed.

Lemma undirected_distance_symmetric_witness :
  (∃ d p1 p2,
     Dijkstra 12 ascending (build_undirected [(0, 1, 2%float); (1, 2, 3%float)]) 0 2
     = Some (d, p1) ∧
     Dijkstra 12 descending (build_undirected [(0, 1, 2%float); (1, 2, 3%float)]) 2 0
     = Some (d, p2)) ∧
  ResistanceDistance 12 ascending (build_undirected [(0, 1, 2%float); (1, 2, 3%float)]) 0 2
  = ResistanceDistance 12 descending (build_undirected [(0, 1, 2%float); (1, 2, 3%float)]) 2 0 ∧
  CommuteTime 12 ascending (build_undirected [(0, 1, 2%float); (1, 2, 3%float)]) 0 2
  = CommuteTime 12 descending (build_undirected [(0, 1, 2%float); (1, 2, 3%float)]) 2 0.
Proof.
  apply (undirected_distance_symmetric ascending descending
           [(0, 1, 2%float); (1, 2, 3%float)] 0 2 3 12).
  - apply counted_weights_check. apply (bool_decide_unpack _). vm_compute. exact I.
  - vm_compute. reflexivity.
  - vm_compute. eauto.
  - vm_compute. eauto.
  - vm_compute. lia.
Defined.

(** ** Bellman-Ford: every distance is the cost of a walk *)

(** Nothing is below +Inf plus a weight: the sum is +Inf or NaN. *)
Lemma inf_add_not_below w y : PrimFloat.ltb (PrimFloat.add infinity w) y = false.
Proof.
  rewrite ltb_spec, add_spec, Prim2SF_infinity. unfold SF64add, SFltb.
  by destruct (Prim2SF w) as [[]|[]| |[] ??], (Prim2SF y) as [[]|[]| |[] ??].
Qed.

(** [path] is a walk from [s] to [v] whose weights add up to [x]. *)
Definition walk_to (g : Graph) (s v : Z) (path : list Z) (x : float) : Prop :=
  head path = Some s ∧ last path = Some v ∧ is_walk g path ∧ walk_cost g path = x.

(** The distances hold an entry for the source and for every registered
    node, and every entry is +Inf or the cost of a walk. *)
Definition bf_walks (g : Graph) (source : Z) (d : gmap Z float) : Prop :=
  (∀ v, is_Some (d !! v) ↔ v = source ∨ is_Some (nodes g !! v)) ∧
  ∀ v x, d !! v = Some x → x = infinity ∨ ∃ path, walk_to g source v path x.

Lemma walk_to_snoc g s u v w path x :
  has_edge g u v w → walk_to g s u path x →
  walk_to g s v (path ++ [v]) (PrimFloat.add x w).
Proof.
  intros He%has_edge_row (Hh & Hl & Hw & Hc). split; [|split; [|split]].
  - destruct path; [done|]. done.
  - by rewrite last_snoc.
  - apply (is_walk_snoc _ _ u); [done|]. split; [done|]. by rewrite He.
  - unfold walk_cost in *. rewrite (cost_along_snoc _ _ _ u) by done.
    by rewrite Hc, (index_map_Some _ _ _ He).
Qed.

Lemma bf_walks_relax g source d from to w :
  wf g → has_edge g from to w → bf_walks g source d →
  bf_walks g source (relax_edge from d (to, w)).
Proof.
  intros Hg He [Hdom Hval]. unfold relax_edge.
  destruct (improves d from (to, w)) eqn:Ei; [|done]. simpl.
  destruct (wf_edge _ _ _ _ Hg He) as [Hfrom Hto].
  destruct (proj2 (Hdom from) (or_intror Hfrom)) as [x Hx].
  unfold improves in Ei. simpl in Ei. rewrite (index_map_Some _ _ _ Hx) in *.
  split.
  - intros v. rewrite lookup_insert. case_decide as E; [subst v|apply Hdom].
    split; [by right|by eexists].
  - intros v y. rewrite lookup_insert. case_decide as E; [subst v|apply Hval].
    intros [= <-]. right.
    destruct (Hval from x Hx) as [->|[path Hp]].
    + by rewrite inf_add_not_below in Ei.
    + exists (path ++ [to]). by apply walk_to_snoc with from.
Qed.

Lemma bf_walks_pass ord g source d :
  wf g → bf_walks g source d → bf_walks g source (relax_pass ord g d).
Proof.
  intros Hg. rewrite relax_pass_edges.
  assert (∀ e, e ∈ edges ord g → has_edge g e.1 e.2.1 e.2.2) as Hin.
  { intros [from [to w]] He. by apply elem_of_edges in He. }
  revert d Hin. induction (edges ord g) as [|[from [to w]] l IH]; intros d Hin Hd; [done|].
  simpl. apply IH; [intros; apply Hin; by right|].
  apply bf_walks_relax; [done| |done]. apply (Hin (from, (to, w))). left.
Qed.

Lemma bf_walks_init ord g source : bf_walks g source (init_dist ord g source).
Proof.
  split.
  - intros v. rewrite init_dist_lookup.
    destruct (decide (source = v)) as [->|Hne]; [split; eauto|].
    destruct (decide (is_Some (nodes g !! v))) as [Hk|Hk].
    + split; eauto.
    + split; [by intros [? ?]|]. intros [?|?]; congruence.
  - intros v x. rewrite init_dist_lookup.
    destruct (decide (source = v)) as [->|Hne].
    + intros [= <-]. right. by exists [v].
    + case_decide; [|done]. intros [= <-]. by left.
Qed.

(** X11: Bellman-Ford is sound for all weights, negative ones and cycles
    included. On a graph built by the API the distances it returns hold
    an entry for the source and for every registered node and for nothing
    else, and every entry is either +Inf or the cost of a walk: some path
    runs from the source to that node along edges of the graph, and their
    weights, added from left to right, give the entry. *)
Theorem BellmanFord_distances_are_walk_costs (ord : RangeOrder)
    (es : list (Z * Z * float)) (source : Z) :
  (∀ v, is_Some ((BellmanFord ord (build es) source).1 !! v)
        ↔ v = source ∨ is_Some (nodes (build es) !! v)) ∧
  ∀ v x, (BellmanFord ord (build es) source).1 !! v = Some x →
    x = infinity ∨
    ∃ path, head path = Some source ∧ last path = Some v ∧
            is_walk (build es) path ∧ walk_cost (build es) path = x.
Proof.
  pose proof (wf_build es) as Hg. unfold BellmanFord. simpl.
  assert (bf_walks (build es) source
            (Nat.iter (pass_count (build es)) (relax_pass ord (build es))
                      (init_dist ord (build es) source))) as H; [|exact H].
  induction (pass_count (build es)) as [|n IH]; simpl; [apply bf_walks_init|].
  by apply bf_walks_pass.
Qed.

(** ** Bellman-Ford on integer weights *)


(** X12: Bellman-Ford on integer weights returns the least costs and
    reports no negative cycle. On a graph built by the API whose weights
    are integers from 0 to [W], with [W * (|V| + 1)] below 2^53: the flag
    is false, the entry of every node reachable from the source is the
    least cost of a walk to it, and the entry of every registered node
    that cannot be reached is +Inf. *)
Theorem BellmanFord_least_costs (ord : RangeOrder) (es : list (Z * Z * float))
    (source : Z) (W : nat) :
  counted_weights (build es) W →
  Z.of_nat (W * S (size (nodes (build es)))) < 2 ^ 53 →
  (BellmanFord ord (build es) source).2 = false ∧
  (∀ t, reachable (build es) source t →
     ∃ c, least_cost W (build es) source t c ∧
          (BellmanFord ord (build es) source).1 !! t = Some (float64_of_int (Z.of_nat c))) ∧
  (∀ t, is_Some (nodes (build es) !! t) → ¬ reachable (build es) source t →
     (BellmanFord ord (build es) source).1 !! t = Some infinity).
Proof.
  intros Hwt HN%exact_below. pose proof (wf_build es) as Hg.
  set (g := build es) in *. set (N := (W * S (size (nodes g)))%nat) in *.
  assert (W ≤ N)%nat as HW by (unfold N; lia).
  assert (W * S (size (nodes g)) ≤ N)%nat as HWN by done.
  pose proof (counted_fnat g W N HN HW Hwt) as Hfn.
  destruct (passes_inv ord g Hg source W N HN HWN Hfn (pass_count g)) as [Hinv _].
  assert ((BellmanFord ord g source).1
          = Nat.iter (pass_count g) (relax_pass ord g) (init_dist ord g source)) as Ed by done.
  rewrite <- Ed in Hinv. set (d := (BellmanFord ord g source).1) in *.
  assert (∀ t c0, walk W g source t c0 →
            ∃ c, d.[t] = fnat c ∧ walk W g source t c ∧
                 (∀ c', walk W g source t c' → (c ≤ c')%nat) ∧ (c ≤ N)%nat ∧
                 is_Some (d !! t)) as Hleast.
  { intros t c0 Hc0.
    destruct (BellmanFord_least_cost ord g Hg source W N HN HWN Hfn t c0 Hc0)
      as (c & E & Hw & Hmin & Hb).
    exists c. repeat (split; [done|]). split; [unfold N; lia|].
    apply (bf_dom _ _ _ _ Hinv). by apply (walk_known g Hg source W) in Hc0. }
  split; [|split].
  - destruct ((BellmanFord ord g source).2) eqn:Eflag; [|done]. exfalso.
    assert (check_rows ord g d (range ord (adjacency g)) = true) as Hc by done.
    apply check_rows_edges in Hc as (from & to & w & He & Hi).
    unfold improves in Hi. simpl in Hi.
    destruct (wf_edge _ _ _ _ Hg He) as [Hfrom Hto].
    destruct (Hfn _ _ _ He) as (k & Hk & ->).
    destruct (bf_value g source W N HN HWN d from Hinv) as [E|(a & Ea & Hwa & Hab)].
    { apply (bf_dom _ _ _ _ Hinv). by right. }
    + rewrite E, inf_add_not_below in Hi. done.
    + assert (walk W g source to (a + k)) as Hwk by (by apply walk_S with from).
      destruct (Hleast to _ Hwk) as (c & Ec & _ & Hmin & HcN & _).
      pose proof (Hmin _ Hwk) as Hle.
      assert (a + k ≤ N)%nat as HakN by (unfold N; rewrite Nat.mul_succ_r; lia).
      rewrite Ea, Ec, (fnat_add N HN), (fnat_ltb N (exact_counts N HN)) in Hi by done.
      apply Nat.ltb_lt in Hi. lia.
  - intros t Hr.
    destruct (reachable_walk g source W N (counted_adds g W N HN HW Hwt) t Hr) as [c0 Hc0].
    destruct (Hleast t c0 Hc0) as (c & Ec & Hw & Hmin & HcN & [x Hx]).
    exists c. split; [by apply (least_cost_walk g W N HN HW)|].
    rewrite (index_map_Some _ _ _ Hx) in Ec. by rewrite Hx, Ec, (fnat_int N HN).
  - intros t Ht Hno.
    destruct (proj2 (bf_dom _ _ _ _ Hinv t) (or_intror Ht)) as [x Hx].
    destruct (bf_value g source W N HN HWN d t Hinv) as [E|(a & _ & Hwa & _)];
      [by eexists| |].
    + by rewrite (index_map_Some _ _ _ Hx) in E; subst x.
    + destruct Hno. by apply walk_reachable in Hwa.
Qed.

Lemma BellmanFord_least_costs_witness :
  (BellmanFord descending (build [(0, 1, 2%float); (1, 2, 3%float); (0, 2, 7%float)]) 0).2
  = false ∧
  (∀ t, reachable (build [(0, 1, 2%float); (1, 2, 3%float); (0, 2, 7%float)]) 0 t →
     ∃ c, least_cost 7 (build [(0, 1, 2%float); (1, 2, 3%float); (0, 2, 7%float)]) 0 t c ∧
          (BellmanFord descending
             (build [(0, 1, 2%float); (1, 2, 3%float); (0, 2, 7%float)]) 0).1 !! t
          = Some (float64_of_int (Z.of_nat c))) ∧
  (∀ t, is_Some (nodes (build [(0, 1, 2%float); (1, 2, 3%float); (0, 2, 7%float)]) !! t) →
     ¬ reachable (build [(0, 1, 2%float); (1, 2, 3%float); (0, 2, 7%float)]) 0 t →
     (BellmanFord descending
        (build [(0, 1, 2%float); (1, 2, 3%float); (0, 2, 7%float)]) 0).1 !! t
     = Some infinity).
Proof.
  apply (BellmanFord_least_costs descending
           [(0, 1, 2%float); (1, 2, 3%float); (0, 2, 7%float)] 0 7).
  - apply counted_weights_check. apply (bool_decide_unpack _). vm_compute. exact I.
  - vm_compute. reflexivity.
Defined.

(** ** Floyd-Warshall: the matrix is square over the registry *)

(** [d] holds a row exactly for every registered node, and every row an
    entry exactly for every registered node. *)
Definition square (g : Graph) (d : gmap Z (gmap Z float)) : Prop :=
  (∀ i, is_Some (d !! i) ↔ is_Some (nodes g !! i)) ∧
  ∀ i row, d !! i = Some row → ∀ j, is_Some (row !! j) ↔ is_Some (nodes g !! j).

Lemma square_entry g d i j :
  square g d →
  is_Some (d !! i ≫= (.!! j)) ↔ is_Some (nodes g !! i) ∧ is_Some (nodes g !! j).
Proof.
  intros [Hrows Hcols]. destruct (d !! i) as [row|] eqn:Ei; simpl.
  - rewrite (Hcols i row Ei j). split; [|tauto]. intros Hj. split; [|done].
    apply Hrows. by eexists.
  - split; [by intros [? ?]|]. intros [Hi _]. apply Hrows in Hi as [? ?]. congruence.
Qed.

Lemma square_set_entry g d i j v :
  square g d → is_Some (nodes g !! i) → is_Some (nodes g !! j) →
  ∃ d', set_entry d i j v = Some d' ∧ square g d'.
Proof.
  intros [Hrows Hcols] Hi Hj. destruct (proj2 (Hrows i) Hi) as [row Hrow].
  unfold set_entry. rewrite Hrow. eexists. split; [done|]. split.
  - intros i'. rewrite lookup_insert. case_decide as E; [subst i'|apply Hrows].
    split; [done|by eexists].
  - intros i' row'. rewrite lookup_insert. case_decide as E; [subst i'|apply Hcols].
    intros [= <-] j'. rewrite lookup_insert. case_decide as E'; [subst j'|by apply (Hcols i)].
    split; [done|by eexists].
Qed.

Lemma fw_row_lookup ord g i j :
  fw_row ord g i !! j =
  if decide (is_Some (nodes g !! j)) then Some (if i =? j then 0%float else infinity)
  else None.
Proof.
  unfold fw_row.
  rewrite (foldl_insert_key (λ k, if i =? k then 0%float else infinity)), lookup_empty.
  destruct (decide (j ∈ (range ord (nodes g)).*1)) as [Hin|Hin];
    rewrite elem_of_range_keys in Hin; [by rewrite decide_True|by rewrite decide_False].
Qed.

Lemma square_init ord g : square g (fw_init ord g).2.
Proof.
  split.
  - intros i. rewrite fw_init_row. case_decide as Hi; [by split|].
    split; [by intros [? ?]|done].
  - intros i row. rewrite fw_init_row. case_decide as Hi; [|done]. intros [= <-] j.
    rewrite fw_row_lookup. case_decide as Hj; [by split|]. split; [by intros [? ?]|done].
Qed.

Lemma square_foldl {A} g (f : option (gmap Z (gmap Z float)) → A → option (gmap Z (gmap Z float)))
    (Q : A → Prop) (l : list A) d :
  (∀ d x, Q x → square g d → ∃ d', f (Some d) x = Some d' ∧ square g d') →
  (∀ x, x ∈ l → Q x) → square g d →
  ∃ d', foldl f (Some d) l = Some d' ∧ square g d'.
Proof.
  intros Hf. revert d. induction l as [|x l IH]; intros d Hl Hd; simpl; [by exists d|].
  destruct (Hf d x) as (d1 & -> & Hd1); [apply Hl; left|done|].
  apply IH; [|done]. intros. apply Hl. by right.
Qed.

Lemma square_edges ord g d :
  wf g → square g d → ∃ d', fw_edges ord g d = Some d' ∧ square g d'.
Proof.
  intros Hg Hd. rewrite fw_edges_flat.
  apply (square_foldl g _ (λ e, has_edge g e.1 e.2.1 e.2.2)); [| |done].
  - intros d0 [from [to w]] He Hd0. simpl in *.
    destruct (wf_edge _ _ _ _ Hg He) as [Hfrom Hto]. by apply square_set_entry.
  - intros [from [to w]] He. by apply elem_of_edges in He.
Qed.

Lemma square_relax g k i j d :
  square g d → is_Some (nodes g !! i) → is_Some (nodes g !! j) →
  ∃ d', fw_relax k i (Some d) j = Some d' ∧ square g d'.
Proof.
  intros Hd Hi Hj. unfold fw_relax. simpl.
  destruct (PrimFloat.ltb _ _); [by apply square_set_entry|by exists d].
Qed.

Lemma square_loops g (ns : list Z) d :
  (∀ n, n ∈ ns → is_Some (nodes g !! n)) → square g d →
  ∃ d', foldl (λ od k, foldl (λ od i, foldl (fw_relax k i) od ns) od ns) (Some d) ns
        = Some d' ∧ square g d'.
Proof.
  intros Hns. generalize ns at 3 as ks. intros ks. revert d.
  induction ks as [|k ks IH]; intros d Hd; simpl; [by exists d|].
  assert (∃ d1, foldl (λ od i, foldl (fw_relax k i) od ns) (Some d) ns = Some d1 ∧
                square g d1) as (d1 & -> & Hd1); [|by apply IH].
  apply (square_foldl g _ (λ i, is_Some (nodes g !! i))); [|done|done].
  intros d0 i Hi Hd0.
  apply (square_foldl g _ (λ j, is_Some (nodes g !! j))); [|done|done].
  intros d2 j Hj Hd2. by apply square_relax.
Qed.

Lemma FloydWarshall_square ord g :
  wf g → ∃ m, FloydWarshall ord g = Some m ∧ square g m.
Proof.
  intros Hg. unfold FloydWarshall.
  pose proof (square_init ord g) as H0. pose proof (fw_init_unfold ord g) as Hu.
  destruct (fw_init ord g) as [ns d0]. injection Hu as -> _. simpl in H0.
  destruct (square_edges ord g d0 Hg H0) as (d1 & -> & H1).
  apply square_loops; [|done]. intros n. by rewrite elem_of_range_keys.
Qed.

(** X13: Floyd-Warshall, and with it GraphDiameter and GraphRadius,
    complete on every graph built by the API, whatever its weights: no
    write goes to a missing row, and the matrix returned is square over
    the registry: it holds a row exactly for every registered node, and
    every row holds an entry exactly for every registered node. *)
Theorem FloydWarshall_square_matrix (ord : RangeOrder) (es : list (Z * Z * float)) :
  (∃ m, FloydWarshall ord (build es) = Some m ∧
        (∀ i, is_Some (m !! i) ↔ is_Some (nodes (build es) !! i)) ∧
        ∀ i row, m !! i = Some row →
                 ∀ j, is_Some (row !! j) ↔ is_Some (nodes (build es) !! j)) ∧
  is_Some (GraphDiameter ord (build es)) ∧ is_Some (GraphRadius ord (build es)).
Proof.
  destruct (FloydWarshall_square ord _ (wf_build es)) as (m & E & Hm).
  split; [by exists m|]. unfold GraphDiameter, GraphRadius. rewrite E. simpl. split; eauto.
Qed.

(** ** Floyd-Warshall on integer weights: all pairs *)

Lemma matrix_read (m : gmap Z (gmap Z float)) i j x :
  m !! i ≫= (.!! j) = Some x → m.[i].[j] = x.
Proof.
  destruct (m !! i) as [row|] eqn:Ei; [|done]. simpl. intros Hj.
  by rewrite (index_map_Some _ _ _ Ei), (index_map_Some _ _ _ Hj).
Qed.

Section fw_exact.
Context (ord : RangeOrder) (g : Graph) (Hg : wf g) (W N : nat).
Context (HN : exact_upto N = true) (HWN : (2 * (W * size (nodes g)) ≤ N)%nat).
Context (Hwt : ∀ u v w, has_edge g u v w → ∃ k, (k ≤ W)%nat ∧ w = fnat k).

(** [c] is the least cost of a walk from [i] to [j]. *)
Definition wleast (i j : Z) (c : nat) : Prop :=
  walk W g i j c ∧ ∀ c', walk W g i j c' → (c ≤ c')%nat.

(** What the matrix holds for a pair: the least cost of a walk, or +Inf
    when there is no walk. *)
Definition pair_cost (i j : Z) (v : float) : Prop :=
  (∃ c, v = fnat c ∧ (c ≤ W * size (nodes g))%nat ∧ wleast i j c) ∨
  (v = infinity ∧ ∀ c, ¬ walk W g i j c).

Lemma wleast_self i : wleast i i 0.
Proof. split; [constructor|]. intros c' _. apply Nat.le_0_l. Qed.

Lemma wleast_unique i j c c' : wleast i j c → wleast i j c' → c = c'.
Proof. intros [H1 M1] [H2 M2]. apply Nat.le_antisymm; auto. Qed.

Lemma walk_ends i j c :
  walk W g i j c → i ≠ j → is_Some (nodes g !! i) ∧ is_Some (nodes g !! j).
Proof.
  induction 1 as [|u v k c Hw IH He Hk]; [done|]. intros _.
  destruct (wf_edge _ _ _ _ Hg He) as [Hu Hv]. split; [|done].
  destruct (decide (i = u)) as [->|Hne]; [done|]. by apply IH.
Qed.

Lemma reachable_some_walk i j : reachable g i j → ∃ c, walk W g i j c.
Proof.
  induction 1 as [|u v w _ [c IH] He]; [exists 0%nat; constructor|].
  destruct (Hwt _ _ _ He) as (k & Hk & ->). exists (c + k)%nat. by apply walk_S with u.
Qed.

Lemma FloydWarshall_pairs :
  ∃ m, FloydWarshall ord g = Some m ∧ square g m ∧
       ∀ i j, is_Some (nodes g !! i) → is_Some (nodes g !! j) →
              (i = j → no_loop g i) → pair_cost i j m.[i].[j].
Proof.
  destruct (FloydWarshall_cells ord g Hg W N HN HWN Hwt) as (m & E & _ & Hcell).
  destruct (FloydWarshall_square ord g Hg) as (m' & E' & Hsq).
  assert (m' = m) as -> by congruence.
  exists m. split; [done|]. split; [done|]. intros i j Hi Hj Hloop.
  pose proof (Hcell i j Hi Hj) as Hc. unfold cell in Hc. case_decide as Eij.
  - subst j. destruct Hc as (a & -> & _ & Ha). rewrite Ha by auto.
    left. exists 0%nat. split; [done|]. split; [lia|]. apply wleast_self.
  - destruct (best_cases g Hg W _ i j _ Eij Hc) as [[-> Hno]|(a & -> & Ha & Hmin & Hb)].
    + right. split; [done|]. intros c Hc'. apply (Hno c). by apply (walk_through ord g Hg).
    + left. exists a. split; [done|]. split.
      { etrans; [done|]. apply Nat.mul_le_mono_l. lia. }
      split; [by apply (walk_through ord g Hg)|].
      intros c' Hc'. by apply Hmin, (walk_through ord g Hg).
Qed.
End fw_exact.

(** X14: Floyd-Warshall on integer weights returns the least cost for
    every pair. On a graph built by the API whose weights are integers
    from 0 to [W], with [2 * W * (|V| + 1)] below 2^53, the entry of two
    registered nodes [i] and [j] is the least cost of a walk from [i] to
    [j] when [j] can be reached from [i], and +Inf when it cannot; for
    [i = j] this holds when [i] has no loop of a weight other than 0. *)
Theorem FloydWarshall_least_costs (ord : RangeOrder) (es : list (Z * Z * float)) (W : nat) :
  counted_weights (build es) W →
  Z.of_nat (2 * (W * S (size (nodes (build es))))) < 2 ^ 53 →
  ∃ m, FloydWarshall ord (build es) = Some m ∧
    ∀ i j, is_Some (nodes (build es) !! i) → is_Some (nodes (build es) !! j) →
      (i = j → ∀ w, has_edge (build es) i i w → w = 0%float) →
      (∃ c, least_cost W (build es) i j c ∧
            m !! i ≫= (.!! j) = Some (float64_of_int (Z.of_nat c))) ∨
      (¬ reachable (build es) i j ∧ m !! i ≫= (.!! j) = Some infinity).
Proof.
  intros Hwt HN%exact_below. pose proof (wf_build es) as Hg.
  set (g := build es) in *. set (N := (2 * (W * S (size (nodes g))))%nat) in *.
  assert (W ≤ N)%nat as HW by (unfold N; lia).
  assert (2 * (W * size (nodes g)) ≤ N)%nat as HWN by (unfold N; lia).
  pose proof (counted_fnat g W N HN HW Hwt) as Hfn.
  destruct (FloydWarshall_pairs ord g Hg W N HN HWN Hfn) as (m & E & Hsq & Hp).
  exists m. split; [done|]. intros i j Hi Hj Hloop.
  destruct (proj2 (square_entry _ _ i j Hsq) (conj Hi Hj)) as [x Hx].
  pose proof (matrix_read _ _ _ _ Hx) as Hr.
  destruct (Hp i j Hi Hj Hloop) as [(c & Ec & Hc & Hl)|[Einf Hno]].
  - left. exists c. split; [by apply (least_cost_walk g W N HN HW)|].
    rewrite Hx. f_equal. rewrite <- Hr, Ec. apply (fnat_int N HN). unfold N. lia.
  - right. split.
    + intros [c Hc]%(reachable_some_walk g W Hfn). by apply (Hno c).
    + by rewrite Hx, <- Hr, Einf.
Qed.

Lemma FloydWarshall_least_costs_witness :
  ∃ m, FloydWarshall descending (build [(0, 1, 2%float); (1, 2, 3%float); (0, 2, 7%float)])
       = Some m ∧
    ∀ i j,
      is_Some (nodes (build [(0, 1, 2%float); (1, 2, 3%float); (0, 2, 7%float)]) !! i) →
      is_Some (nodes (build [(0, 1, 2%float); (1, 2, 3%float); (0, 2, 7%float)]) !! j) →
      (i = j → ∀ w, has_edge (build [(0, 1, 2%float); (1, 2, 3%float); (0, 2, 7%float)]) i i w
                    → w = 0%float) →
      (∃ c, least_cost 7 (build [(0, 1, 2%float); (1, 2, 3%float); (0, 2, 7%float)]) i j c ∧
            m !! i ≫= (.!! j) = Some (float64_of_int (Z.of_nat c))) ∨
      (¬ reachable (build [(0, 1, 2%float); (1, 2, 3%float); (0, 2, 7%float)]) i j ∧
       m !! i ≫= (.!! j) = Some infinity).
Proof.
  apply (FloydWarshall_least_costs descending
           [(0, 1, 2%float); (1, 2, 3%float); (0, 2, 7%float)] 7).
  - apply counted_weights_check. apply (bool_decide_unpack _). vm_compute. exact I.
  - vm_compute. reflexivity.
Defined.

(** ** Diameter and radius *)

(** One turn of the loops of [GraphDiameter] and [GraphRadius] over the
    entries, and one of the loop of [GraphRadius] over the rows. *)
Definition max_step (best d : float) : float :=
  if negb (is_pos_inf d) && PrimFloat.ltb best d then d else best.

Definition min_step (radius e : float) : float :=
  if PrimFloat.ltb e radius then e else radius.

(** The entries of the row [i], in range order. *)
Definition row_values (ord : RangeOrder) (m : gmap Z (gmap Z float)) (i : Z) : list float :=
  (λ e, m.[i].[e.1]) <$> range ord m.[i].

Lemma row_max_fold ord m i start :
  row_max ord m i start = foldl max_step start (row_values ord m i).
Proof. unfold row_max, row_values. by rewrite foldl_fmap. Qed.

Lemma foldl_bind {A B C} (f : A → C → A) (h : B → list C) (l : list B) a :
  foldl f a (l ≫= h) = foldl (λ a x, foldl f a (h x)) a l.
Proof.
  revert a. induction l as [|x l IH]; intros a; [done|].
  rewrite bind_cons, foldl_app. simpl. by rewrite IH.
Qed.

Lemma GraphDiameter_fold ord g m :
  FloydWarshall ord g = Some m →
  GraphDiameter ord g
  = Some (foldl max_step 0%float (range ord m ≫= λ r, row_values ord m r.1)).
Proof.
  intros E. unfold GraphDiameter. rewrite E. simpl. f_equal.
  rewrite foldl_bind. apply foldl_ext_in. intros a r _. apply row_max_fold.
Qed.

Lemma GraphRadius_fold ord g m :
  FloydWarshall ord g = Some m →
  GraphRadius ord g
  = Some (foldl min_step infinity
            ((λ r, foldl max_step 0%float (row_values ord m r.1)) <$> range ord m)).
Proof.
  intros E. unfold GraphRadius. rewrite E. simpl. f_equal.
  rewrite foldl_fmap. apply foldl_ext_in. intros a r _.
  by rewrite row_max_fold.
Qed.

Lemma elem_of_row_values ord (m : gmap Z (gmap Z float)) i row v :
  m !! i = Some row →
  v ∈ row_values ord m i ↔ ∃ j, row !! j = Some v.
Proof.
  intros Hi. unfold row_values. rewrite (index_map_Some _ _ _ Hi), list_elem_of_fmap. split.
  - intros ([j x] & -> & Hin). apply elem_of_range in Hin. simpl.
    rewrite (index_map_Some _ _ _ Hin). eauto.
  - intros [j Hj]. exists (j, v). simpl. rewrite (index_map_Some _ _ _ Hj).
    split; [done|]. by apply elem_of_range.
Qed.

Section counted_folds.
Context (N : nat) (HN : exact_upto N = true).

(** An entry of the matrix: +Inf or a count. *)
Definition counted (v : float) : Prop := v = infinity ∨ ∃ a, (a ≤ N)%nat ∧ v = fnat a.

Lemma max_step_inf b : max_step b infinity = b.
Proof. done. Qed.

Lemma max_step_fnat b a :
  (b ≤ N)%nat → (a ≤ N)%nat → max_step (fnat b) (fnat a) = fnat (b `max` a).
Proof.
  intros Hb Ha. unfold max_step, is_pos_inf.
  destruct (counts_at N (exact_counts N HN) a Ha) as (_ & -> & _). simpl.
  rewrite (fnat_ltb N (exact_counts N HN)) by done.
  destruct (Nat.ltb_spec b a); f_equal; lia.
Qed.

(** The loop over the entries keeps the greatest count. *)
Lemma max_fold vals b0 :
  Forall counted vals → (b0 ≤ N)%nat →
  ∃ b, foldl max_step (fnat b0) vals = fnat b ∧ (b0 ≤ b)%nat ∧ (b ≤ N)%nat ∧
       (∀ a, (a ≤ N)%nat → fnat a ∈ vals → (a ≤ b)%nat) ∧
       (b = b0 ∨ fnat b ∈ vals).
Proof.
  intros Hall. revert b0. induction Hall as [|v vals Hv _ IH]; intros b0 Hb0; simpl.
  { exists b0. repeat (split; [done|]). split; [|by left].
    intros a _ Ha. by apply elem_of_nil in Ha. }
  destruct Hv as [->|(a0 & Ha0 & ->)].
  - rewrite max_step_inf. destruct (IH b0 Hb0) as (b & E & H1 & H2 & H3 & H4).
    exists b. repeat (split; [done|]). split.
    + intros a Ha [Hin|Hin]%elem_of_cons; [|auto].
      by apply (fnat_finite N (exact_counts N HN)) in Hin.
    + destruct H4 as [?|?]; [by left|right; by right].
  - rewrite max_step_fnat by done.
    destruct (IH (b0 `max` a0)%nat ltac:(lia)) as (b & E & H1 & H2 & H3 & H4).
    exists b. split; [done|]. split; [lia|]. split; [done|]. split.
    + intros a Ha [Hin|Hin]%elem_of_cons; [|auto].
      apply (fnat_inj N (exact_counts N HN)) in Hin; [lia|done|done].
    + destruct H4 as [E'|?]; [|right; by right].
      destruct (Nat.max_spec b0 a0) as [[_ Em]|[_ Em]]; rewrite Em in E'.
      * right. subst b. left.
      * by left.
Qed.

Lemma min_step_fnat r e :
  (r ≤ N)%nat → (e ≤ N)%nat → min_step (fnat r) (fnat e) = fnat (r `min` e).
Proof.
  intros Hr He. unfold min_step. rewrite (fnat_ltb N (exact_counts N HN)) by done.
  destruct (Nat.ltb_spec e r); f_equal; lia.
Qed.

Lemma min_step_inf e : (e ≤ N)%nat → min_step infinity (fnat e) = fnat e.
Proof.
  intros He. unfold min_step. by rewrite (fnat_lt_inf N (exact_counts N HN)).
Qed.

(** The loop over the rows keeps the least count. *)
Lemma min_fold (es : list nat) r0 :
  Forall (λ e, e ≤ N)%nat es → (r0 ≤ N)%nat →
  ∃ r, foldl min_step (fnat r0) (fnat <$> es) = fnat r ∧
       (r ≤ r0)%nat ∧ (∀ e, e ∈ es → (r ≤ e)%nat) ∧ (r = r0 ∨ r ∈ es).
Proof.
  intros Hall. revert r0. induction Hall as [|e es He _ IH]; intros r0 Hr0; simpl.
  { exists r0. split; [done|]. split; [done|]. split; [|by left].
    intros e He. by apply elem_of_nil in He. }
  rewrite min_step_fnat by done.
  destruct (IH (r0 `min` e)%nat ltac:(lia)) as (r & E & H1 & H2 & H3).
  exists r. split; [done|]. split; [lia|]. split.
  - intros e' [->|Hin]%elem_of_cons; [lia|auto].
  - destruct H3 as [E'|?]; [|right; by right].
    destruct (Nat.min_spec r0 e) as [[_ Em]|[_ Em]]; rewrite Em in E'.
    + by left.
    + right. subst r. left.
Qed.

Lemma min_fold_inf (es : list nat) :
  Forall (λ e, e ≤ N)%nat es → es ≠ [] →
  ∃ r, foldl min_step infinity (fnat <$> es) = fnat r ∧
       (∀ e, e ∈ es → (r ≤ e)%nat) ∧ r ∈ es.
Proof.
  intros Hall Hne. destruct es as [|e es]; [done|]. simpl.
  apply Forall_cons in Hall as [He Hall]. rewrite min_step_inf by done.
  destruct (min_fold es e Hall He) as (r & E & H1 & H2 & H3).
  exists r. split; [done|]. split.
  - intros e' [->|Hin]%elem_of_cons; auto.
  - destruct H3 as [->|?]; [left|by right].
Qed.
End counted_folds.

(** [e] is the eccentricity of [i], as the code has it: the greatest of
    the least costs from [i] to the nodes that can be reached from it. *)
Definition eccentricity (W : nat) (g : Graph) (i : Z) (e : nat) : Prop :=
  (∃ j, least_cost W g i j e) ∧ ∀ j c, least_cost W g i j c → (c ≤ e)%nat.

Section measures.
Context (ord : RangeOrder) (g : Graph) (Hg : wf g) (W N : nat).
Context (HN : exact_upto N = true) (HW : (W ≤ N)%nat).
Context (HWN : (2 * (W * size (nodes g)) ≤ N)%nat).
Context (Hwt : counted_weights g W).
Context (Hloop : ∀ i w, has_edge g i i w → w = 0%float).
Context (m : gmap Z (gmap Z float)) (Hm : FloydWarshall ord g = Some m).

Abbreviation Hfn := (counted_fnat g W N HN HW Hwt).
Abbreviation reg := (λ v : Z, is_Some (nodes g !! v)).

Lemma m_square : square g m.
Proof. destruct (FloydWarshall_square ord g Hg) as (m' & E & H). congruence. Qed.

Lemma m_pairs i j : reg i → reg j → pair_cost g W i j m.[i].[j].
Proof.
  intros Hi Hj.
  destruct (FloydWarshall_pairs ord g Hg W N HN HWN Hfn) as (m' & E & _ & H).
  assert (m' = m) as -> by congruence. apply H; [done|done|].
  intros _ w. apply Hloop.
Qed.

Lemma m_row i : reg i → ∃ row, m !! i = Some row ∧ ∀ j, is_Some (row !! j) ↔ reg j.
Proof.
  intros Hi. destruct m_square as [Hrows Hcols].
  destruct (proj2 (Hrows i) Hi) as [row Hrow]. exists row. split; [done|].
  by apply (Hcols i).
Qed.

Lemma m_rows r : r ∈ range ord m → reg r.1.
Proof.
  destruct r as [i row]. intros Hr%elem_of_range. apply (proj1 m_square). by eexists.
Qed.

Lemma least_cost_wleast i j c : least_cost W g i j c ↔ wleast g W i j c.
Proof. apply (least_cost_walk g W N HN HW). Qed.

Lemma least_cost_entry i j c :
  reg i → least_cost W g i j c → m.[i].[j] = fnat c ∧ (c ≤ N)%nat ∧ reg j.
Proof.
  intros Hi Hl%least_cost_wleast.
  assert (reg j) as Hj.
  { destruct (decide (i = j)) as [<-|Hne]; [done|].
    destruct Hl as [Hw _]. by apply (walk_ends g Hg W) in Hw as [_ ?]. }
  destruct (m_pairs i j Hi Hj) as [(c' & E & Hc & Hl')|[_ Hno]].
  - rewrite (wleast_unique g W i j c c' Hl Hl'). split; [done|]. split; [lia|done].
  - destruct Hl as [Hw _]. by destruct (Hno c).
Qed.

Lemma row_counted i : reg i → Forall (counted N) (row_values ord m i).
Proof.
  intros Hi. destruct (m_row i Hi) as (row & Hrow & Hcols).
  apply Forall_forall. intros v Hv.
  destruct (proj1 (elem_of_row_values ord m i row v Hrow) Hv) as [j Hj].
  assert (reg j) as Hreg by (apply Hcols; by eexists).
  assert (m.[i].[j] = v) as E.
  { by rewrite (index_map_Some _ _ _ Hrow), (index_map_Some _ _ _ Hj). }
  destruct (m_pairs i j Hi Hreg) as [(c & Ec & Hc & _)|[Einf _]].
  - right. exists c. split; [lia|congruence].
  - left. congruence.
Qed.

Lemma row_value_cost i a :
  reg i → (a ≤ N)%nat → fnat a ∈ row_values ord m i → ∃ j, least_cost W g i j a.
Proof.
  intros Hi Ha Hin. destruct (m_row i Hi) as (row & Hrow & Hcols).
  destruct (proj1 (elem_of_row_values ord m i row _ Hrow) Hin) as [j Hj].
  assert (reg j) as Hreg by (apply Hcols; by eexists).
  assert (m.[i].[j] = fnat a) as E.
  { by rewrite (index_map_Some _ _ _ Hrow), (index_map_Some _ _ _ Hj). }
  exists j. apply least_cost_wleast.
  destruct (m_pairs i j Hi Hreg) as [(c & Ec & Hc & Hl)|[Einf _]].
  - rewrite Ec in E. apply (fnat_inj N (exact_counts N HN)) in E; [by subst|lia|done].
  - rewrite Einf in E. symmetry in E.
    by apply (fnat_finite N (exact_counts N HN)) in E.
Qed.

Lemma cost_row_value i j c :
  reg i → least_cost W g i j c → fnat c ∈ row_values ord m i ∧ (c ≤ N)%nat.
Proof.
  intros Hi Hl. destruct (least_cost_entry i j c Hi Hl) as (E & Hc & Hj).
  split; [|done]. destruct (m_row i Hi) as (row & Hrow & Hcols).
  apply (elem_of_row_values ord m i row _ Hrow).
  destruct (proj2 (Hcols j) Hj) as [x Hx]. exists j.
  by rewrite <- E, (index_map_Some _ _ _ Hrow), (index_map_Some _ _ _ Hx).
Qed.

Lemma least_cost_self i c : least_cost W g i i c → c = 0%nat.
Proof.
  intros Hl%least_cost_wleast. by apply (wleast_unique g W i i c 0 Hl), wleast_self.
Qed.

Lemma least_cost_source i j c : least_cost W g i j c → ¬ reg i → c = 0%nat.
Proof.
  intros Hl Hi. destruct (decide (i = j)) as [<-|Hne]; [by apply (least_cost_self i)|].
  apply least_cost_wleast in Hl as [Hw _]. by apply (walk_ends g Hg W) in Hw as [? _].
Qed.

(** The eccentricity that the loop over a row computes. *)
Lemma row_eccentricity i :
  reg i →
  ∃ e, foldl max_step 0%float (row_values ord m i) = fnat e ∧ (e ≤ N)%nat ∧
       eccentricity W g i e.
Proof.
  intros Hi.
  destruct (max_fold N HN (row_values ord m i) 0 (row_counted i Hi) ltac:(lia))
    as (e & E & _ & He & Hmax & Hatt).
  exists e. split; [done|]. split; [done|]. split.
  - destruct Hatt as [->|Hin]; [|by apply row_value_cost].
    exists i. apply least_cost_wleast, wleast_self.
  - intros j c Hl. destruct (cost_row_value i j c Hi Hl) as [Hin Hc]. by apply Hmax.
Qed.

Lemma eccentricity_unique i e e' : eccentricity W g i e → eccentricity W g i e' → e = e'.
Proof.
  intros [[j Hj] H1] [[j' Hj'] H2]. apply Nat.le_antisymm; eauto.
Qed.

Lemma diameter_exact :
  ∃ D, GraphDiameter ord g = Some (fnat D) ∧ (D ≤ N)%nat ∧
       (∃ i j, least_cost W g i j D) ∧ ∀ i j c, least_cost W g i j c → (c ≤ D)%nat.
Proof.
  rewrite (GraphDiameter_fold ord g m Hm).
  set (vals := range ord m ≫= λ r, row_values ord m r.1).
  assert (∀ v, v ∈ vals ↔ ∃ i, reg i ∧ v ∈ row_values ord m i) as Hvals.
  { intros v. unfold vals. rewrite list_elem_of_bind. split.
    - intros (r & Hin & Hr). exists r.1. split; [by apply m_rows|done].
    - intros (i & Hi & Hin). destruct (m_row i Hi) as (row & Hrow & _).
      exists (i, row). split; [done|]. by apply elem_of_range. }
  destruct (max_fold N HN vals 0) as (D & E & _ & HD & Hmax & Hatt); [|lia|].
  { apply Forall_forall. intros v (i & Hi & Hin)%Hvals.
    pose proof (row_counted i Hi) as Hall. rewrite Forall_forall in Hall. auto. }
  exists D. split; [exact (f_equal Some E)|]. split; [done|]. split.
  - destruct Hatt as [->|(i & Hi & Hin)%Hvals].
    + exists 0, 0. apply least_cost_wleast, wleast_self.
    + destruct (row_value_cost i D Hi HD Hin) as [j Hj]. by exists i, j.
  - intros i j c Hl. destruct (decide (reg i)) as [Hi|Hi].
    + destruct (cost_row_value i j c Hi Hl) as [Hin Hc].
      apply Hmax; [done|]. apply Hvals. by exists i.
    + rewrite (least_cost_source i j c Hl Hi). lia.
Qed.

(** The eccentricities of the rows of a list, as the loop computes them. *)
Lemma ecc_list (l : list (Z * gmap Z float)) :
  (∀ r, r ∈ l → reg r.1) →
  ∃ es, (λ r, foldl max_step 0%float (row_values ord m r.1)) <$> l = fnat <$> es ∧
        Forall2 (λ r e, (e ≤ N)%nat ∧ eccentricity W g r.1 e) l es.
Proof.
  induction l as [|r l IH]; intros Hl.
  - exists []. split; [done|constructor].
  - destruct IH as (es & E & Hall); [intros; apply Hl; by right|].
    destruct (row_eccentricity r.1) as (e & Ee & He & Hecc); [apply Hl; left|].
    exists (e :: es). split; [|by constructor].
    rewrite !fmap_cons. f_equal; [exact Ee|exact E].
Qed.

Lemma radius_exact :
  nodes g ≠ ∅ →
  ∃ R, GraphRadius ord g = Some (fnat R) ∧ (R ≤ N)%nat ∧
       (∃ i, reg i ∧ eccentricity W g i R) ∧
       ∀ i e, reg i → eccentricity W g i e → (R ≤ e)%nat.
Proof.
  intros Hne. rewrite (GraphRadius_fold ord g m Hm).
  destruct (ecc_list (range ord m) m_rows) as (es & -> & Hall).
  assert (Forall (λ e, e ≤ N)%nat es) as Hbound.
  { apply Forall_forall. intros e [k Hk]%list_elem_of_lookup.
    by destruct (Forall2_lookup_r _ _ _ _ _ Hall Hk) as (r & _ & [? _]). }
  assert (∀ i, reg i → ∃ e, e ∈ es ∧ eccentricity W g i e) as Hrow.
  { intros i Hi. destruct (m_row i Hi) as (row & Hrow & _).
    apply (elem_of_range ord) in Hrow. apply list_elem_of_lookup in Hrow as [k Hk].
    destruct (Forall2_lookup_l _ _ _ _ _ Hall Hk) as (e & He & [_ Hecc]).
    exists e. split; [by apply list_elem_of_lookup_2 with k|done]. }
  assert (es ≠ []) as Hes.
  { apply map_choose in Hne as (i & b & Hi).
    destruct (Hrow i) as (e & He & _); [by eexists|]. intros ->.
    by apply elem_of_nil in He. }
  destruct (min_fold_inf N HN es Hbound Hes) as (R & E & Hmin & Hin).
  exists R. split; [exact (f_equal Some E)|]. split; [|split].
  - rewrite Forall_forall in Hbound. by apply Hbound.
  - apply list_elem_of_lookup in Hin as [k Hk].
    destruct (Forall2_lookup_r _ _ _ _ _ Hall Hk) as (r & Hr & [_ Hecc]).
    exists r.1. split; [|done]. apply m_rows. by apply list_elem_of_lookup_2 with k.
  - intros i e Hi Hecc. destruct (Hrow i Hi) as (e' & He' & Hecc').
    rewrite (eccentricity_unique i e e' Hecc Hecc'). by apply Hmin.
Qed.
End measures.

(** X15: GraphDiameter on integer weights is the greatest least cost. On
    a graph built by the API whose weights are integers from 0 to [W],
    with [2 * W * (|V| + 1)] below 2^53 and no loop of a weight other
    than 0: the diameter is the least cost of a walk between some pair of
    nodes, and no pair joined by a walk has a greater least cost; pairs
    not joined by a walk do not count. *)
Theorem GraphDiameter_greatest_least_cost (ord : RangeOrder) (es : list (Z * Z * float))
    (W : nat) :
  counted_weights (build es) W →
  Z.of_nat (2 * (W * S (size (nodes (build es))))) < 2 ^ 53 →
  (∀ i w, has_edge (build es) i i w → w = 0%float) →
  ∃ D, GraphDiameter ord (build es) = Some (float64_of_int (Z.of_nat D)) ∧
       (∃ i j, least_cost W (build es) i j D) ∧
       ∀ i j c, least_cost W (build es) i j c → (c ≤ D)%nat.
Proof.
  intros Hwt HN%exact_below Hloop. pose proof (wf_build es) as Hg.
  set (g := build es) in *. set (N := (2 * (W * S (size (nodes g))))%nat) in *.
  assert (W ≤ N)%nat as HW by (unfold N; lia).
  assert (2 * (W * size (nodes g)) ≤ N)%nat as HWN by (unfold N; lia).
  destruct (FloydWarshall_square ord g Hg) as (m & Hm & _).
  destruct (diameter_exact ord g Hg W N HN HW HWN Hwt Hloop m Hm) as (D & E & HD & H1 & H2).
  exists D. by rewrite E, (fnat_int N HN).
Qed.

Lemma GraphDiameter_greatest_least_cost_witness :
  ∃ D, GraphDiameter ascending (build [(0, 1, 2%float); (1, 2, 3%float); (0, 2, 7%float)])
       = Some (float64_of_int (Z.of_nat D)) ∧
       (∃ i j, least_cost 7 (build [(0, 1, 2%float); (1, 2, 3%float); (0, 2, 7%float)]) i j D) ∧
       ∀ i j c, least_cost 7 (build [(0, 1, 2%float); (1, 2, 3%float); (0, 2, 7%float)]) i j c
                → (c ≤ D)%nat.
Proof.
  apply (GraphDiameter_greatest_least_cost ascending
           [(0, 1, 2%float); (1, 2, 3%float); (0, 2, 7%float)] 7).
  - apply counted_weights_check. apply (bool_decide_unpack _). vm_compute. exact I.
  - vm_compute. reflexivity.
  - intros i w (row & Hr & Hw).
    assert (map_Forall (λ k r, map_Forall (λ j x, k = j → x = 0%float) r)
              (adjacency (build [(0, 1, 2%float); (1, 2, 3%float); (0, 2, 7%float)]))) as Hall
      by (apply (bool_decide_unpack _); vm_compute; exact I).
    exact (Hall i row Hr i w Hw eq_refl).
Defined.

(** X16: GraphRadius on integer weights is the least eccentricity, where
    the eccentricity of a node is the greatest least cost from it to a
    node it can reach. On a graph built by the API whose weights are
    integers from 0 to [W], with [2 * W * (|V| + 1)] below 2^53 and no
    loop of a weight other than 0: the radius of the empty graph is +Inf,
    and otherwise the radius is the eccentricity of some registered node,
    and no registered node has a smaller one. *)
Theorem GraphRadius_least_eccentricity (ord : RangeOrder) (es : list (Z * Z * float))
    (W : nat) :
  counted_weights (build es) W →
  Z.of_nat (2 * (W * S (size (nodes (build es))))) < 2 ^ 53 →
  (∀ i w, has_edge (build es) i i w → w = 0%float) →
  (nodes (build es) = ∅ → GraphRadius ord (build es) = Some infinity) ∧
  (nodes (build es) ≠ ∅ →
   ∃ R, GraphRadius ord (build es) = Some (float64_of_int (Z.of_nat R)) ∧
        (∃ i, is_Some (nodes (build es) !! i) ∧ eccentricity W (build es) i R) ∧
        ∀ i e, is_Some (nodes (build es) !! i) → eccentricity W (build es) i e →
               (R ≤ e)%nat).
Proof.
  intros Hwt HN%exact_below Hloop. pose proof (wf_build es) as Hg.
  set (g := build es) in *. set (N := (2 * (W * S (size (nodes g))))%nat) in *.
  assert (W ≤ N)%nat as HW by (unfold N; lia).
  assert (2 * (W * size (nodes g)) ≤ N)%nat as HWN by (unfold N; lia).
  destruct (FloydWarshall_square ord g Hg) as (m & Hm & Hrows & _).
  split.
  - intros Hempty. rewrite (GraphRadius_fold ord g m Hm).
    assert (m = ∅) as ->; [|by rewrite range_empty].
    apply map_empty. intros i. destruct (m !! i) as [row|] eqn:Ei; [|done].
    destruct (proj1 (Hrows i) ltac:(by eexists)) as [b Hb].
    by rewrite Hempty, lookup_empty in Hb.
  - intros Hne.
    destruct (radius_exact ord g Hg W N HN HW HWN Hwt Hloop m Hm Hne)
      as (R & E & HR & H1 & H2).
    exists R. by rewrite E, (fnat_int N HN).
Qed.

Lemma GraphRadius_least_eccentricity_witness :
  (nodes (build [(0, 1, 2%float); (1, 2, 3%float); (0, 2, 7%float)]) = ∅ →
   GraphRadius ascending (build [(0, 1, 2%float); (1, 2, 3%float); (0, 2, 7%float)])
   = Some infinity) ∧
  (nodes (build [(0, 1, 2%float); (1, 2, 3%float); (0, 2, 7%float)]) ≠ ∅ →
   ∃ R, GraphRadius ascending (build [(0, 1, 2%float); (1, 2, 3%float); (0, 2, 7%float)])
        = Some (float64_of_int (Z.of_nat R)) ∧
        (∃ i, is_Some (nodes (build [(0, 1, 2%float); (1, 2, 3%float); (0, 2, 7%float)]) !! i) ∧
              eccentricity 7 (build [(0, 1, 2%float); (1, 2, 3%float); (0, 2, 7%float)]) i R) ∧
        ∀ i e, is_Some (nodes (build [(0, 1, 2%float); (1, 2, 3%float); (0, 2, 7%float)]) !! i) →
               eccentricity 7 (build [(0, 1, 2%float); (1, 2, 3%float); (0, 2, 7%float)]) i e →
               (R ≤ e)%nat).
Proof.
  apply (GraphRadius_least_eccentricity ascending
           [(0, 1, 2%float); (1, 2, 3%float); (0, 2, 7%float)] 7).
  - apply counted_weights_check. apply (bool_decide_unpack _). vm_compute. exact I.
  - vm_compute. reflexivity.
  - intros i w (row & Hr & Hw).
    assert (map_Forall (λ k r, map_Forall (λ j x, k = j → x = 0%float) r)
              (adjacency (build [(0, 1, 2%float); (1, 2, 3%float); (0, 2, 7%float)]))) as Hall
      by (apply (bool_decide_unpack _); vm_compute; exact I).
    exact (Hall i row Hr i w Hw eq_refl).
Defined.

Lemma int_walk_sink W g i j c :
  (∀ v w, ¬ has_edge g i v w) → int_walk W g i j c → j = i ∧ c = 0%nat.
Proof.
  intros Hsink. induction 1 as [|u v k c _ [-> ->] He _]; [done|].
  by destruct (Hsink v (float64_of_int (Z.of_nat k))).
Qed.

(** X22: a node without outgoing edges makes the radius 0. On a graph
    built by the API whose weights are integers from 0 to [W], with
    [2 * W * (|V| + 1)] below 2^53 and no loop of a weight other than 0:
    if some registered node has no outgoing edge, [GraphRadius] returns
    0, whatever the rest of the graph is, since the nodes that a node
    cannot reach do not count for its eccentricity. *)
Theorem GraphRadius_sink (ord : RangeOrder) (es : list (Z * Z * float)) (W : nat) (i : Z) :
  counted_weights (build es) W →
  Z.of_nat (2 * (W * S (size (nodes (build es))))) < 2 ^ 53 →
  (∀ k w, has_edge (build es) k k w → w = 0%float) →
  is_Some (nodes (build es) !! i) →
  (∀ v w, ¬ has_edge (build es) i v w) →
  GraphRadius ord (build es) = Some 0%float.
Proof.
  intros Hwt HN%exact_below Hloop Hi Hsink. pose proof (wf_build es) as Hg.
  set (g := build es) in *. set (N := (2 * (W * S (size (nodes g))))%nat) in *.
  assert (W ≤ N)%nat as HW by (unfold N; lia).
  assert (2 * (W * size (nodes g)) ≤ N)%nat as HWN by (unfold N; lia).
  destruct (FloydWarshall_square ord g Hg) as (m & Hm & _).
  assert (nodes g ≠ ∅) as Hne.
  { intros E. destruct Hi as [b Hb]. by rewrite E, lookup_empty in Hb. }
  destruct (radius_exact ord g Hg W N HN HW HWN Hwt Hloop m Hm Hne)
    as (R & E & _ & _ & Hmin).
  assert (eccentricity W g i 0) as Hecc.
  { split.
    - exists i. split; [constructor|]. intros c' _. apply Nat.le_0_l.
    - intros j c [Hw _]. by destruct (int_walk_sink W g i j c Hsink Hw) as [_ ->]. }
  pose proof (Hmin i 0%nat Hi Hecc) as HR. assert (R = 0%nat) as -> by lia. exact E.
Qed.

Lemma GraphRadius_sink_witness :
  GraphRadius descending (build [(0, 1, 2%float); (1, 2, 3%float); (0, 2, 7%float)])
  = Some 0%float.
Proof.
  apply (GraphRadius_sink descending [(0, 1, 2%float); (1, 2, 3%float); (0, 2, 7%float)] 7 2).
  - apply counted_weights_check. apply (bool_decide_unpack _). vm_compute. exact I.
  - vm_compute. reflexivity.
  - intros k w (row & Hr & Hw).
    assert (map_Forall (λ k r, map_Forall (λ j x, k = j → x = 0%float) r)
              (adjacency (build [(0, 1, 2%float); (1, 2, 3%float); (0, 2, 7%float)]))) as Hall
      by (apply (bool_decide_unpack _); vm_compute; exact I).
    exact (Hall k row Hr k w Hw eq_refl).
  - vm_compute. eauto.
  - intros v w (row & Hr & Hw).
    assert (adjacency (build [(0, 1, 2%float); (1, 2, 3%float); (0, 2, 7%float)]) !! 2 = None)
      as E by (vm_compute; reflexivity).
    rewrite E in Hr. discriminate Hr.
Defined.

(** ** BFS: the path returned *)

Section bfs_path.
Context (ord : RangeOrder) (g : Graph) (Hg : wf g) (source target : Z).

(** Every parent link is an edge of the graph between visited nodes, and
    the child is one hop further than the parent. *)
Definition bfs_tree (st : bfs_state) : Prop :=
  ∀ n p, b_parent st !! n = Some p →
    (b_visited st).[n] = true ∧ (b_visited st).[p] = true ∧
    is_Some ((adjacency g).[p] !! n) ∧
    (b_distance st).[n] = (b_distance st).[p] + 1.

Lemma bfs_tree_visit u st e :
  (b_visited st).[u] = true → e ∈ range ord (adjacency g).[u] →
  bfs_tree st → bfs_tree (bfs_visit u st e).
Proof.
  intros Hu He Ht. destruct e as [nb w]. apply elem_of_range in He.
  unfold bfs_visit. simpl. destruct ((b_visited st).[nb]) eqn:Evn; simpl; [done|].
  assert (nb ≠ u) as Hne by congruence.
  intros n p. simpl. rewrite lookup_insert. case_decide as E.
  - subst n. intros [= <-].
    rewrite !index_map_insert_eq, !index_map_insert_ne by done.
    split; [done|]. split; [done|]. split; [by eexists|done].
  - intros Hp. destruct (Ht n p Hp) as (Hn & Hpv & Hedge & Hd).
    assert (nb ≠ p) as Hnp by congruence.
    rewrite !index_map_insert_ne by done. done.
Qed.

Lemma chain_tree st v l :
  bfs_tree st → chain source (b_parent st) v l →
  is_walk g l ∧
  Z.of_nat (length l) = (b_distance st).[v] - (b_distance st).[source] + 1.
Proof.
  intros Ht. induction 1 as [|n p l Hn Hp Hc [IHw IHl]].
  - split; [done|]. simpl. lia.
  - destruct (Ht n p Hp) as (_ & _ & Hedge & Hd).
    pose proof (chain_last _ _ _ _ Hc) as Hlast. split.
    + by apply (is_walk_snoc _ _ p).
    + rewrite length_app. simpl. lia.
Qed.

(** The state in which the loop of BFS ends. *)
Lemma bfs_final fuel :
  (size (nodes g) + 1 < fuel)%nat →
  ∃ st cur skip,
    bfs_loop fuel ord g target
      {| b_visited := {[source := true]}; b_parent := ∅;
         b_distance := {[source := 0]}; queue := [source] |} = Some st ∧
    bfs_inv g source cur skip st ∧ bfs_tree st ∧
    (∀ u v, skip u v → cur = Some u) ∧
    ((queue st = [] ∧ cur = None) ∨ (b_visited st).[target] = true).
Proof.
  intros Hf.
  destruct (bfs_loop_rule ord g Hg target
              (λ st, bfs_inv g source None all_done st ∧ bfs_tree st)
              (λ u done st, bfs_inv g source (Some u) (pending_of u done) st ∧ bfs_tree st))
    with (fuel := fuel)
         (st := {| b_visited := {[source := true]}; b_parent := ∅;
                   b_distance := {[source := 0]}; queue := [source] |})
    as (st & E & Hr).
  - intros st u rest [Hi Ht] Eq. split; [by apply bfs_inv_dequeue|done].
  - intros u done e rest st [Hi Ht] Hr. split; [by eapply bfs_inv_visit|].
    apply bfs_tree_visit; [|by rewrite Hr; apply elem_of_app; right; left|done].
    apply (bi_queue _ _ _ _ _ Hi). by right.
  - intros u st _ [Hi Ht]. split; [by apply (bfs_inv_close ord g source u)|done].
  - split; [apply bfs_inv_start|]. intros n p. simpl. by rewrite lookup_empty.
  - unfold bfs_measure. simpl.
    assert (size (unvisited g {[source := true]}) ≤ size (nodes g))%nat; [|lia].
    rewrite <- size_dom. apply subseteq_size. intros x.
    unfold unvisited. rewrite elem_of_filter. tauto.
  - exists st. destruct Hr as [[[Hi Ht] Hq]|[Hi Ht]].
    + exists None, all_done. split; [done|]. split; [done|]. split; [done|].
      split; [by intros ?? []|]. by left.
    + exists (Some target), (pending_of target []). split; [done|]. split; [done|].
      split; [done|]. split; [by intros ?? [-> _]|]. right.
      apply (bi_queue _ _ _ _ _ Hi). by right.
Qed.
End bfs_path.

(** X17: BFS returns the least number of hops and a path that has it, and
    its sentinel exactly for the targets that cannot be reached. On a
    graph built by the API, whatever its weights, with fuel above the
    number of nodes plus one: for a target that can be reached from the
    source, the count returned is the least number of edges of a walk
    from the source to the target, and the path runs from the source to
    the target along edges of the graph and has that many edges; for a
    target that cannot be reached, registered or not, BFS returns -1 and
    no path. *)
Theorem BFS_least_hops_path (ord : RangeOrder) (es : list (Z * Z * float))
    (source target : Z) (fuel : nat) :
  (size (nodes (build es)) + 1 < fuel)%nat →
  (reachable (build es) source target →
   ∃ k path,
     BFS fuel ord (build es) source target = Some (Z.of_nat k, path) ∧
     hop (build es) source target k ∧
     (∀ k', hop (build es) source target k' → (k ≤ k')%nat) ∧
     head path = Some source ∧ last path = Some target ∧
     is_walk (build es) path ∧ length path = S k) ∧
  (¬ reachable (build es) source target →
   BFS fuel ord (build es) source target = Some (-1, [])).
Proof.
  intros Hf. pose proof (wf_build es) as Hg. set (g := build es) in *.
  unfold BFS. destruct (Z.eqb_spec source target) as [->|Hne].
  { split; [|intros []; constructor]. intros _. exists 0%nat, [target].
    split; [done|]. split; [constructor|]. split; [lia|]. done. }
  destruct (bfs_final ord g Hg source target fuel Hf)
    as (st & cur & skip & -> & Hinv & Htree & Hskip & Hend).
  simpl. destruct ((b_visited st).[target]) eqn:Hv.
  - destruct (bi_settled _ _ _ _ _ Hinv target Hv) as (k & Hd & Hh & Hmin).
    split; [|intros []; apply reachable_hop; by exists k]. intros _.
    destruct (bi_chain _ _ _ _ _ Hinv target Hv) as (l & Hl & HN & Hall).
    assert (length l ≤ S (size (nodes g)))%nat as Hlen.
    { etrans; [apply (NoDup_length_bound l ({[source]} ∪ dom (nodes g))); [done|]|].
      - intros x Hx. apply elem_of_union.
        destruct (bi_registered _ _ _ _ _ Hinv x (Hall x Hx)) as [->|?].
        + left. by apply elem_of_singleton.
        + right. by apply elem_of_dom.
      - rewrite size_union_alt, size_singleton.
        assert (size (dom (nodes g) ∖ {[source]}) ≤ size (nodes g))%nat; [|lia].
        rewrite <- size_dom. apply subseteq_size. by intros x [? _]%elem_of_difference. }
    rewrite (walk_back_chain _ _ _ _ Hl) by lia. simpl.
    destruct (chain_head _ _ _ _ Hl) as [l' El].
    assert (source :: drop 1 l ++ [] = l) as ->.
    { subst l. simpl. by rewrite drop_0, app_nil_r. }
    destruct (chain_tree g source st target l Htree Hl) as [Hw Hlength].
    assert ((b_distance st).[source] = 0) as Hs0.
    { destruct (bi_settled _ _ _ _ _ Hinv source (bi_source _ _ _ _ _ Hinv))
        as (k0 & Hd0 & _ & Hmin0).
      pose proof (Hmin0 0%nat (hop_0 g source)). lia. }
    exists k, l. rewrite Hd. split; [done|]. split; [done|]. split; [done|].
    split; [by subst l|]. split; [by apply (chain_last _ _ _ _ Hl)|].
    split; [done|]. lia.
  - destruct Hend as [[Hq ->]|?]; [|congruence].
    split; [|done]. intros [k Hk]%reachable_hop. exfalso.
    destruct (bfs_frontier g source None skip st target k Hinv) as [?|(y & ky & Hy & _)];
      [intros u v Hs; by apply Hskip in Hs|done|congruence|].
    rewrite Hq in Hy. destruct Hy as [Hy|?]; [by apply elem_of_nil in Hy|done].
Qed.

Lemma BFS_least_hops_path_witness :
  (reachable (build [(0, 1, 5%float); (1, 2, 5%float); (0, 3, 5%float); (3, 2, 5%float)]) 0 2 →
   ∃ k path,
     BFS 6 descending
       (build [(0, 1, 5%float); (1, 2, 5%float); (0, 3, 5%float); (3, 2, 5%float)]) 0 2
     = Some (Z.of_nat k, path) ∧
     hop (build [(0, 1, 5%float); (1, 2, 5%float); (0, 3, 5%float); (3, 2, 5%float)]) 0 2 k ∧
     (∀ k', hop (build [(0, 1, 5%float); (1, 2, 5%float); (0, 3, 5%float); (3, 2, 5%float)])
                0 2 k' → (k ≤ k')%nat) ∧
     head path = Some 0 ∧ last path = Some 2 ∧
     is_walk (build [(0, 1, 5%float); (1, 2, 5%float); (0, 3, 5%float); (3, 2, 5%float)]) path ∧
     length path = S k) ∧
  (¬ reachable (build [(0, 1, 5%float); (1, 2, 5%float); (0, 3, 5%float); (3, 2, 5%float)]) 0 2 →
   BFS 6 descending
     (build [(0, 1, 5%float); (1, 2, 5%float); (0, 3, 5%float); (3, 2, 5%float)]) 0 2
   = Some (-1, [])).
Proof.
  apply (BFS_least_hops_path descending
           [(0, 1, 5%float); (1, 2, 5%float); (0, 3, 5%float); (3, 2, 5%float)] 0 2 6).
  vm_compute. lia.
Defined.

(** ** Connectivity: what a component is *)

Lemma reachable_trans g a b c : reachable g a b → reachable g b c → reachable g a c.
Proof.
  intros Hab. induction 1 as [|u v w _ IH He]; [done|]. by apply reach_edge with u w.
Qed.

(** One turn of the loop of [dfs] over the neighbours, and one of the loop
    of [ConnectedComponents] over the nodes. *)
Definition dfs_step (fuel : nat) (ord : RangeOrder) (g : Graph)
    (ost : option (gmap Z bool * list Z)) (e : Z * float) : option (gmap Z bool * list Z) :=
  st ← ost; if negb (st.1).[e.1] then dfs fuel ord g e.1 st else Some st.

Definition cc_step (fuel : nat) (ord : RangeOrder) (g : Graph)
    (oacc : option (gmap Z bool * list (list Z))) (e : Z * bool)
    : option (gmap Z bool * list (list Z)) :=
  acc ← oacc;
  if negb (acc.1).[e.1] then
    r ← dfs fuel ord g e.1 (acc.1, []);
    Some (r.1, acc.2 ++ [r.2])
  else Some acc.

Lemma dfs_unfold fuel ord g n st :
  dfs (S fuel) ord g n st
  = foldl (dfs_step fuel ord g) (Some (<[n := true]> st.1, st.2 ++ [n]))
          (range ord (adjacency g).[n]).
Proof. done. Qed.

Lemma ConnectedComponents_unfold fuel ord g :
  ConnectedComponents fuel ord g
  = snd <$> foldl (cc_step fuel ord g) (Some (∅, [])) (range ord (nodes g)).
Proof. done. Qed.

Lemma dfs_step_None fuel ord g l : foldl (dfs_step fuel ord g) None l = None.
Proof. by induction l. Qed.

Lemma cc_step_None fuel ord g l : foldl (cc_step fuel ord g) None l = None.
Proof. by induction l. Qed.

Section dfs_sound.
Context (ord : RangeOrder) (g : Graph).

(** What a traversal from [n] that appended [new] has done: the nodes
    of [new] were unvisited and can be reached from [n]; the visited
    nodes are the old ones, [n] and [new]; and every edge from a node of
    [inner] leads to a visited node. *)
Definition dfs_post (n : Z) (vis vis' : gmap Z bool) (new inner : list Z) : Prop :=
  (∀ k, k ∈ new → reachable g n k ∧ vis.[k] = false) ∧
  (∀ k, vis'.[k] = true ↔ vis.[k] = true ∨ k = n ∨ k ∈ new) ∧
  (∀ u v w, u ∈ inner → has_edge g u v w → vis'.[v] = true).

Definition dfs_spec (fuel : nat) : Prop :=
  ∀ n vis comp vis' comp',
    dfs fuel ord g n (vis, comp) = Some (vis', comp') →
    ∃ new, comp' = comp ++ n :: new ∧ dfs_post n vis vis' new (n :: new).

(** The loop over the neighbours of [n], from a state in which [new1]
    has been appended. *)
Lemma dfs_inner fuel n vis comp vis' comp' :
  dfs_spec fuel →
  ∀ l vis1 new1,
    (∀ e, e ∈ l → has_edge g n e.1 e.2) →
    dfs_post n vis vis1 new1 new1 →
    foldl (dfs_step fuel ord g) (Some (vis1, comp ++ n :: new1)) l = Some (vis', comp') →
    ∃ new, comp' = comp ++ n :: new ∧ dfs_post n vis vis' new new ∧
           (∀ e, e ∈ l → vis'.[e.1] = true) ∧
           (∀ k, vis1.[k] = true → vis'.[k] = true).
Proof.
  intros IH. induction l as [|e l IHl]; intros vis1 new1 Hl Hp Ef.
  { simpl in Ef. injection Ef as <- <-. exists new1. split; [done|]. split; [done|].
    split; [|done]. intros e He. by apply elem_of_nil in He. }
  assert (has_edge g n e.1 e.2) as He by (apply Hl; left).
  assert (∀ e', e' ∈ l → has_edge g n e'.1 e'.2) as Hl' by (intros; apply Hl; by right).
  change (foldl (dfs_step fuel ord g)
            (dfs_step fuel ord g (Some (vis1, comp ++ n :: new1)) e) l
          = Some (vis', comp')) in Ef.
  destruct (vis1.[e.1]) eqn:Ev.
  - assert (dfs_step fuel ord g (Some (vis1, comp ++ n :: new1)) e
            = Some (vis1, comp ++ n :: new1)) as Es.
    { unfold dfs_step. simpl. by rewrite Ev. }
    rewrite Es in Ef.
    destruct (IHl vis1 new1 Hl' Hp Ef) as (new & Ec & Hp' & Hdone & Hmono).
    exists new. split; [done|]. split; [done|]. split; [|done].
    intros e' [->|He']%elem_of_cons; [by apply Hmono|by apply Hdone].
  - assert (dfs_step fuel ord g (Some (vis1, comp ++ n :: new1)) e
            = dfs fuel ord g e.1 (vis1, comp ++ n :: new1)) as Es.
    { unfold dfs_step. simpl. by rewrite Ev. }
    rewrite Es in Ef.
    destruct (dfs fuel ord g e.1 (vis1, comp ++ n :: new1)) as [[vis2 comp2]|] eqn:Ed.
    2:{ by rewrite dfs_step_None in Ef. }
    destruct (IH _ _ _ _ _ Ed) as (new2 & Ec2 & Q1 & Q2 & Q3).
    destruct Hp as (P1 & P2 & P3).
    assert (comp2 = comp ++ n :: (new1 ++ e.1 :: new2)) as Ec2'.
    { rewrite Ec2. by rewrite <- (assoc_L (++)). }
    rewrite Ec2' in Ef.
    assert (vis.[e.1] = false) as Hfresh.
    { destruct (vis.[e.1]) eqn:E0; [|done].
      assert (vis1.[e.1] = true) by (apply P2; by left). congruence. }
    assert (dfs_post n vis vis2 (new1 ++ e.1 :: new2) (new1 ++ e.1 :: new2)) as Hp2.
    { split; [|split].
      - intros k [Hk|[->|Hk]%elem_of_cons]%elem_of_app.
        + by apply P1.
        + split; [|done]. apply reach_edge with n e.2; [constructor|done].
        + destruct (Q1 k Hk) as [Hr Hv]. split.
          * apply reachable_trans with e.1; [|done].
            apply reach_edge with n e.2; [constructor|done].
          * destruct (vis.[k]) eqn:E0; [|done].
            assert (vis1.[k] = true) by (apply P2; by left). congruence.
      - intros k. rewrite Q2, P2, elem_of_app, elem_of_cons. tauto.
      - intros u v w [Hu|Hu]%elem_of_app Hedge.
        + apply Q2. left. by apply (P3 u v w).
        + by apply (Q3 u v w). }
    destruct (IHl vis2 (new1 ++ e.1 :: new2) Hl' Hp2 Ef) as (new & Ec & Hp' & Hdone & Hmono).
    exists new. split; [done|]. split; [done|]. split.
    + intros e' [->|He']%elem_of_cons; [|by apply Hdone].
      apply Hmono, Q2. right. by left.
    + intros k Hk. apply Hmono, Q2. by left.
Qed.

Lemma dfs_sound fuel : dfs_spec fuel.
Proof.
  induction fuel as [|fuel IH]; intros n vis comp vis' comp' E; [done|].
  rewrite dfs_unfold in E. simpl in E.
  destruct (dfs_inner fuel n vis comp vis' comp' IH
              (range ord (adjacency g).[n]) (<[n := true]> vis) [])
    as (new & Ec & (P1 & P2 & P3) & Hdone & _).
  - intros [to w] He. apply elem_of_range in He. by apply has_edge_row.
  - split; [|split].
    + intros k Hk. by apply elem_of_nil in Hk.
    + intros k. rewrite index_map_insert. case_decide as Ek.
      * subst k. split; [by right; left|done].
      * split; [by left|]. intros [?|[?|Hk]]; [done|congruence|by apply elem_of_nil in Hk].
    + intros u v w Hu. by apply elem_of_nil in Hu.
  - exact E.
  - exists new. split; [done|]. split; [done|]. split; [done|].
    intros u v w [->|Hu]%elem_of_cons Hedge; [|by apply (P3 u v w)].
    apply (Hdone (v, w)). apply elem_of_range. by apply has_edge_row.
Qed.

(** The state of the loop of [ConnectedComponents]: the visited nodes
    are those of the components; the first node of a component reaches
    all the others; and every edge from a node of a component leads
    into that component or an earlier one. *)
Definition cc_sound (vis : gmap Z bool) (comps : list (list Z)) : Prop :=
  (∀ k, vis.[k] = true ↔ ∃ i c, comps !! i = Some c ∧ k ∈ c) ∧
  (∀ i c, comps !! i = Some c →
          ∃ r new, c = r :: new ∧ ∀ k, k ∈ new → reachable g r k) ∧
  (∀ i c u v w, comps !! i = Some c → u ∈ c → has_edge g u v w →
                ∃ j c', (j ≤ i)%nat ∧ comps !! j = Some c' ∧ v ∈ c').

Lemma cc_sound_start : cc_sound ∅ [].
Proof.
  split; [|split].
  - intros k. unfold index_map. rewrite lookup_empty. simpl.
    split; [done|]. by intros (i & c & Hi & _).
  - by intros i c Hi.
  - by intros i c u v w Hi.
Qed.

Lemma cc_sound_component vis comps vis' n new :
  cc_sound vis comps → dfs_post n vis vis' new (n :: new) →
  cc_sound vis' (comps ++ [n :: new]).
Proof.
  intros (H1 & H2 & H3) (P1 & P2 & P3).
  assert (∀ k, vis'.[k] = true ↔ ∃ i c, (comps ++ [n :: new]) !! i = Some c ∧ k ∈ c) as H1'.
  { intros k. rewrite P2. split.
    - intros [Hk|Hk].
      + apply H1 in Hk as (i & c & Hi & Hk). exists i, c. split; [|done].
        by apply lookup_app_l_Some.
      + exists (length comps), (n :: new). split; [by apply list_lookup_middle|].
        by apply elem_of_cons.
    - intros (i & c & Hi & Hk). apply lookup_app_Some in Hi as [Hi|[Hlen Hi]].
      + left. apply H1. by exists i, c.
      + right. destruct (i - length comps)%nat as [|j]; simpl in Hi; [|done].
        injection Hi as <-. by apply elem_of_cons. }
  split; [done|]. split.
  - intros i c Hi. apply lookup_app_Some in Hi as [Hi|[Hlen Hi]]; [by apply (H2 i)|].
    destruct (i - length comps)%nat as [|j]; simpl in Hi; [|done].
    injection Hi as <-. exists n, new. split; [done|]. intros k Hk. by apply P1.
  - intros i c u v w Hi Hu Hedge. apply lookup_app_Some in Hi as [Hi|[Hlen Hi]].
    + destruct (H3 i c u v w Hi Hu Hedge) as (j & c' & Hj & Hc' & Hv).
      exists j, c'. split; [done|]. split; [by apply lookup_app_l_Some|done].
    + destruct (i - length comps)%nat as [|j0]; simpl in Hi; [|done].
      injection Hi as <-.
      destruct (proj1 (H1' v) (P3 u v w Hu Hedge)) as (j & c' & Hc' & Hv).
      exists j, c'. split; [|done].
      apply lookup_lt_Some in Hc'. rewrite length_app in Hc'. simpl in Hc'. lia.
Qed.

Lemma cc_sound_loop fuel l :
  ∀ vis comps vis' comps',
    cc_sound vis comps →
    foldl (cc_step fuel ord g) (Some (vis, comps)) l = Some (vis', comps') →
    cc_sound vis' comps'.
Proof.
  induction l as [|e l IHl]; intros vis comps vis' comps' Hs Ef.
  { simpl in Ef. by injection Ef as <- <-. }
  change (foldl (cc_step fuel ord g) (cc_step fuel ord g (Some (vis, comps)) e) l
          = Some (vis', comps')) in Ef.
  destruct (vis.[e.1]) eqn:Ev.
  - assert (cc_step fuel ord g (Some (vis, comps)) e = Some (vis, comps)) as Es.
    { unfold cc_step. simpl. by rewrite Ev. }
    rewrite Es in Ef. by apply (IHl vis comps).
  - destruct (dfs fuel ord g e.1 (vis, [])) as [[vis1 comp1]|] eqn:Ed.
    + assert (cc_step fuel ord g (Some (vis, comps)) e
              = Some (vis1, comps ++ [comp1])) as Es.
      { unfold cc_step. simpl. by rewrite Ev, Ed. }
      rewrite Es in Ef. apply (IHl vis1 (comps ++ [comp1])); [|done].
      destruct (dfs_sound fuel _ _ _ _ _ Ed) as (new & -> & Hp).
      by apply cc_sound_component with vis.
    + assert (cc_step fuel ord g (Some (vis, comps)) e = None) as Es.
      { unfold cc_step. simpl. by rewrite Ev, Ed. }
      rewrite Es in Ef. by rewrite cc_step_None in Ef.
Qed.

Lemma components_sound fuel comps :
  ConnectedComponents fuel ord g = Some comps → ∃ vis, cc_sound vis comps.
Proof.
  rewrite ConnectedComponents_unfold.
  destruct (foldl (cc_step fuel ord g) (Some (∅, [])) (range ord (nodes g)))
    as [[vis comps']|] eqn:Ef; [|done].
  simpl. intros [= <-]. exists vis.
  by apply (cc_sound_loop fuel (range ord (nodes g)) ∅ []); [apply cc_sound_start|].
Qed.
End dfs_sound.

(** X18: what a component of [ConnectedComponents] is, on every graph
    built by the API and for every range order, with a recursion depth of
    at least the number of registered nodes: every component is a
    non-empty list whose first node reaches each of the others, and an
    edge never leads from a component to a later one: its target is in
    the same component or in an earlier one. *)
Theorem components_rooted_and_closed (ord : RangeOrder) (es : list (Z * Z * float))
    (fuel : nat) :
  (size (nodes (build es)) ≤ fuel)%nat →
  ∃ comps,
    ConnectedComponents fuel ord (build es) = Some comps ∧
    (∀ c, c ∈ comps →
          ∃ r new, c = r :: new ∧ ∀ k, k ∈ new → reachable (build es) r k) ∧
    (∀ i c u v w, comps !! i = Some c → u ∈ c → has_edge (build es) u v w →
                  ∃ j c', (j ≤ i)%nat ∧ comps !! j = Some c' ∧ v ∈ c').
Proof.
  intros Hf.
  destruct (ConnectedComponents_partition ord _ (wf_build es) fuel Hf) as (comps & E & _).
  destruct (components_sound ord _ fuel comps E) as (vis & _ & H2 & H3).
  exists comps. split; [done|]. split; [|done].
  intros c [i Hi]%list_elem_of_lookup. by apply (H2 i).
Qed.

Lemma components_rooted_and_closed_witness :
  ∃ comps,
    ConnectedComponents 4 ascending
      (build [(0, 1, 1%float); (2, 1, 1%float); (2, 3, 1%float)]) = Some comps ∧
    (∀ c, c ∈ comps →
          ∃ r new, c = r :: new ∧
                   ∀ k, k ∈ new →
                        reachable (build [(0, 1, 1%float); (2, 1, 1%float); (2, 3, 1%float)])
                                  r k) ∧
    (∀ i c u v w, comps !! i = Some c → u ∈ c →
                  has_edge (build [(0, 1, 1%float); (2, 1, 1%float); (2, 3, 1%float)]) u v w →
                  ∃ j c', (j ≤ i)%nat ∧ comps !! j = Some c' ∧ v ∈ c').
Proof.
  apply (components_rooted_and_closed ascending
           [(0, 1, 1%float); (2, 1, 1%float); (2, 3, 1%float)] 4).
  vm_compute. lia.
Defined.

(** ** Undirected graphs: the components are the connectivity classes *)

Lemma elem_of_concat_lookup {A} (ls : list (list A)) (x : A) :
  x ∈ concat ls ↔ ∃ i l, ls !! i = Some l ∧ x ∈ l.
Proof.
  induction ls as [|l0 ls IH]; simpl.
  - split; [by intros ?%elem_of_nil|]. by intros (i & l & Hi & _).
  - rewrite elem_of_app, IH. split.
    + intros [Hx|(i & l & Hi & Hx)]; [by exists 0%nat, l0|by exists (S i), l].
    + intros ([|i] & l & Hi & Hx); simpl in Hi; [injection Hi as <-; by left|].
      right. by exists i, l.
Qed.

Lemma NoDup_concat_unique {A} (ls : list (list A)) i j l l' (x : A) :
  NoDup (concat ls) → ls !! i = Some l → ls !! j = Some l' → x ∈ l → x ∈ l' → i = j.
Proof.
  revert i j. induction ls as [|l0 ls IH]; intros i j HN Hi Hj Hx Hx'; [done|].
  simpl in HN. apply NoDup_app in HN as (_ & Hdisj & HN).
  destruct i as [|i], j as [|j]; simpl in Hi, Hj.
  - done.
  - injection Hi as <-. destruct (Hdisj x Hx). apply elem_of_concat_lookup. by exists j, l'.
  - injection Hj as <-. destruct (Hdisj x Hx'). apply elem_of_concat_lookup. by exists i, l.
  - f_equal. by apply IH.
Qed.

Section undirected_components.
Context (g : Graph) (comps : list (list Z)) (vis : gmap Z bool).
Context (Hsym : ∀ u v w, has_edge g u v w → has_edge g v u w).
Context (HN : NoDup (concat comps)) (Hs : cc_sound g vis comps).

Lemma reach_back a b : reachable g a b → reachable g b a.
Proof.
  induction 1 as [|x y w _ IH He]; [constructor|].
  apply reachable_trans with x; [|done].
  apply reach_edge with y w; [constructor|by apply Hsym].
Qed.

(** A component is closed under the edges. *)
Lemma component_closed i c u v w :
  comps !! i = Some c → u ∈ c → has_edge g u v w → v ∈ c.
Proof.
  intros Hi Hu He. pose proof Hs as (_ & _ & H3).
  destruct (H3 i c u v w Hi Hu He) as (j & c' & Hj & Hc' & Hv).
  destruct (H3 j c' v u w Hc' Hv (Hsym _ _ _ He)) as (j' & c'' & Hj' & Hc'' & Hu').
  pose proof (NoDup_concat_unique comps i j' c c'' u HN Hi Hc'' Hu Hu') as ->.
  assert (j = j') as -> by lia. congruence.
Qed.

Lemma component_reach i c u v :
  comps !! i = Some c → u ∈ c → reachable g u v → v ∈ c.
Proof.
  intros Hi Hu. induction 1 as [|x y w _ IH He]; [done|].
  by apply (component_closed i c x y w).
Qed.

Lemma component_connected i c u v :
  comps !! i = Some c → u ∈ c → v ∈ c → reachable g u v.
Proof.
  intros Hi Hu Hv. pose proof Hs as (_ & H2 & _).
  destruct (H2 i c Hi) as (r & new & -> & Hnew).
  assert (∀ k, k ∈ r :: new → reachable g r k) as Hr.
  { intros k [->|Hk]%elem_of_cons; [constructor|by apply Hnew]. }
  apply reachable_trans with r; [apply reach_back|]; by apply Hr.
Qed.

Lemma same_component u v :
  u ∈ concat comps →
  (∃ c, c ∈ comps ∧ u ∈ c ∧ v ∈ c) ↔ reachable g u v.
Proof.
  intros Hu. split.
  - intros (c & [i Hi]%list_elem_of_lookup & Hc & Hv).
    by apply (component_connected i c).
  - intros Hr. apply elem_of_concat_lookup in Hu as (i & c & Hi & Hc).
    exists c. split; [by apply list_elem_of_lookup_2 with i|]. split; [done|].
    by apply (component_reach i c u).
Qed.

Lemma one_component :
  length comps = 1%nat ↔
  comps ≠ [] ∧ ∀ u v, u ∈ concat comps → v ∈ concat comps → reachable g u v.
Proof.
  pose proof Hs as (_ & H2 & _). split.
  - intros Hlen. split; [by intros E; rewrite E in Hlen|].
    intros u v (i & c & Hi & Hu)%elem_of_concat_lookup
               (j & c' & Hj & Hv)%elem_of_concat_lookup.
    pose proof (lookup_lt_Some _ _ _ Hi). pose proof (lookup_lt_Some _ _ _ Hj).
    assert (i = j) as -> by lia. assert (c' = c) as -> by congruence.
    by apply (component_connected j c).
  - intros [Hne Hall].
    destruct (decide (length comps = 1%nat)) as [?|Hlen]; [done|]. exfalso.
    assert (2 ≤ length comps)%nat as Hlen2.
    { assert (length comps ≠ 0%nat); [|lia]. intros E. by apply nil_length_inv in E. }
    destruct (lookup_lt_is_Some_2 comps 0) as [c0 H0]; [lia|].
    destruct (lookup_lt_is_Some_2 comps 1) as [c1 H1]; [lia|].
    destruct (H2 0%nat c0 H0) as (r0 & new0 & E0 & _).
    destruct (H2 1%nat c1 H1) as (r1 & new1 & E1 & _).
    assert (r0 ∈ c0) as Hr0 by (rewrite E0; left).
    assert (r1 ∈ c1) as Hr1 by (rewrite E1; left).
    assert (r1 ∈ c0) as Hin.
    { apply (component_reach 0 c0 r0 r1 H0 Hr0). apply Hall.
      - apply elem_of_concat_lookup. by exists 0%nat, c0.
      - apply elem_of_concat_lookup. by exists 1%nat, c1. }
    pose proof (NoDup_concat_unique comps 0 1 c0 c1 r1 HN H0 H1 Hin Hr1). done.
Qed.
End undirected_components.

(** X19: on an undirected graph the components are the connectivity
    classes and [IsConnected] says whether the graph is connected. On a
    graph built by [AddUndirectedEdge] calls, for every range order and
    with a recursion depth of at least the number of registered nodes:
    two registered nodes are in the same component exactly when one can
    be reached from the other, and [IsConnected] is true exactly when the
    graph has a node and every registered node can be reached from every
    other. *)
Theorem undirected_components_are_classes (ord : RangeOrder) (es : list (Z * Z * float))
    (fuel : nat) :
  (size (nodes (build_undirected es)) ≤ fuel)%nat →
  ∃ comps,
    ConnectedComponents fuel ord (build_undirected es) = Some comps ∧
    (∀ u v, is_Some (nodes (build_undirected es) !! u) →
            (∃ c, c ∈ comps ∧ u ∈ c ∧ v ∈ c) ↔ reachable (build_undirected es) u v) ∧
    (IsConnected fuel ord (build_undirected es) = Some true ↔
     nodes (build_undirected es) ≠ ∅ ∧
     ∀ u v, is_Some (nodes (build_undirected es) !! u) →
            is_Some (nodes (build_undirected es) !! v) →
            reachable (build_undirected es) u v).
Proof.
  intros Hf. pose proof (wf_build_undirected es) as Hg. set (g := build_undirected es) in *.
  destruct (ConnectedComponents_partition ord g Hg fuel Hf) as (comps & E & HN & Hreg).
  destruct (components_sound ord g fuel comps E) as (vis & Hs).
  assert (∀ u v w, has_edge g u v w → has_edge g v u w) as Hsym
    by (intros u v w; apply undirected_symmetric).
  exists comps. split; [done|]. split.
  - intros u v Hu. apply (same_component g comps vis Hsym HN Hs). by apply Hreg.
  - unfold IsConnected. rewrite E. simpl.
    assert (Some (bool_decide (length comps = 1%nat)) = Some true ↔ length comps = 1%nat)
      as ->.
    { split; [intros [= H]; by apply bool_decide_eq_true in H|].
      intros H. by rewrite bool_decide_eq_true_2. }
    rewrite (one_component g comps vis Hsym HN Hs). split.
    + intros [Hne Hall]. split.
      * destruct comps as [|c0 rest] eqn:Ec; [done|].
        destruct Hs as (_ & H2 & _). destruct (H2 0%nat c0 eq_refl) as (r & new & -> & _).
        assert (is_Some (nodes g !! r)) as [b Hb].
        { apply Hreg. simpl. left. }
        intros Hempty. rewrite Hempty in Hb. by rewrite lookup_empty in Hb.
      * intros u v Hu Hv. apply Hall; by apply Hreg.
    + intros [Hne Hall]. split.
      * apply map_choose in Hne as (k & b & Hk).
        assert (k ∈ concat comps) as Hin by (apply Hreg; by eexists).
        intros ->. by apply elem_of_nil in Hin.
      * intros u v Hu Hv. apply Hall; by apply Hreg.
Qed.

Lemma undirected_components_are_classes_witness :
  ∃ comps,
    ConnectedComponents 4 descending
      (build_undirected [(0, 1, 1%float); (2, 3, 1%float)]) = Some comps ∧
    (∀ u v, is_Some (nodes (build_undirected [(0, 1, 1%float); (2, 3, 1%float)]) !! u) →
            (∃ c, c ∈ comps ∧ u ∈ c ∧ v ∈ c)
            ↔ reachable (build_undirected [(0, 1, 1%float); (2, 3, 1%float)]) u v) ∧
    (IsConnected 4 descending (build_undirected [(0, 1, 1%float); (2, 3, 1%float)]) = Some true ↔
     nodes (build_undirected [(0, 1, 1%float); (2, 3, 1%float)]) ≠ ∅ ∧
     ∀ u v, is_Some (nodes (build_undirected [(0, 1, 1%float); (2, 3, 1%float)]) !! u) →
            is_Some (nodes (build_undirected [(0, 1, 1%float); (2, 3, 1%float)]) !! v) →
            reachable (build_undirected [(0, 1, 1%float); (2, 3, 1%float)]) u v).
Proof.
  apply (undirected_components_are_classes descending [(0, 1, 1%float); (2, 3, 1%float)] 4).
  vm_compute. lia.
Defined.

(** ** The edit-distance approximation: what it counts *)

(** Counting on a float64: [count++] once for every element that [p]
    holds of. The result depends on the number of such elements alone. *)
Lemma count_up {A} (p : A → bool) (l : list A) (c : nat) :
  foldl (λ x a, if p a then PrimFloat.add x 1%float else x) (fnat c) l
  = fnat (c + length (filter (λ a, p a = true) l)).
Proof.
  revert c. induction l as [|a l IH]; intros c; simpl; [by rewrite Nat.add_0_r|].
  destruct (p a) eqn:E.
  - rewrite filter_cons_True by done. change (PrimFloat.add (fnat c) 1) with (fnat (S c)).
    rewrite IH. f_equal. simpl. lia.
  - rewrite filter_cons_False by congruence. apply IH.
Qed.

Lemma count_perm {A} (p : A → bool) (l k : list A) :
  l ≡ₚ k → length (filter (λ a, p a = true) l) = length (filter (λ a, p a = true) k).
Proof. intros H. by rewrite H. Qed.

(** The test on a node of [a] and the test on an edge of [a], against [b]. *)
Definition node_differs (b : Graph) (e : Z * bool) : bool := negb (nodes b).[e.1].

Definition edge_differs (b : Graph) (e : Z * (Z * float)) : bool :=
  bool_decide (adjacency b !! e.1 = None) || PrimFloat.eqb (adjacency b).[e.1].[e.2.1] 0%float.

(** The numbers of nodes and of edges of [a] that the loops count. *)
Definition nodes_counted (a b : Graph) : nat :=
  length (filter (λ e, node_differs b e = true) (map_to_list (nodes a))).

Definition edges_counted (a b : Graph) : nat :=
  length (filter (λ e, edge_differs b e = true) (edges ascending a)).

Lemma edges_perm o1 o2 g : edges o1 g ≡ₚ edges o2 g.
Proof.
  apply NoDup_Permutation; [apply NoDup_edges|apply NoDup_edges|].
  intros [from [to w]]. by rewrite !elem_of_edges.
Qed.

Lemma count_nodes_fnat ord a b c :
  count_nodes ord a b (fnat c) = fnat (c + nodes_counted a b).
Proof.
  transitivity
    (fnat (c + length (filter (λ e, node_differs b e = true) (range ord (nodes a))))).
  - exact (count_up (node_differs b) (range ord (nodes a)) c).
  - unfold nodes_counted. f_equal. f_equal. apply count_perm, range_perm.
Qed.

Lemma count_edges_flat ord a b c :
  count_edges ord a b c
  = foldl (λ x e, if edge_differs b e then PrimFloat.add x 1%float else x) c (edges ord a).
Proof.
  unfold count_edges, edges. revert c.
  induction (range ord (adjacency a)) as [|r rows IH]; intros c; [done|].
  rewrite bind_cons, foldl_app. simpl. rewrite IH. f_equal.
  by rewrite foldl_fmap.
Qed.

Lemma count_edges_fnat ord a b c :
  count_edges ord a b (fnat c) = fnat (c + edges_counted a b).
Proof.
  rewrite count_edges_flat, (count_up (edge_differs b) (edges ord a) c).
  unfold edges_counted. f_equal. f_equal. apply count_perm, edges_perm.
Qed.

Lemma GraphEditDistance_counts ord g1 g2 :
  GraphEditDistance ord g1 g2
  = PrimFloat.add (fnat (nodes_counted g1 g2 + nodes_counted g2 g1))
                  (fnat (edges_counted g1 g2 + edges_counted g2 g1)).
Proof.
  unfold GraphEditDistance.
  change (count_nodes ord g1 g2 0%float) with (count_nodes ord g1 g2 (fnat 0)).
  change (count_edges ord g1 g2 0%float) with (count_edges ord g1 g2 (fnat 0)).
  by rewrite !count_nodes_fnat, !count_edges_fnat.
Qed.

(** X20: [GraphEditDistance] is symmetric and does not depend on the
    order in which the maps are ranged over, for all graphs: it counts
    nodes and edges one by one on a float64, and the result of such a
    count depends on the number of increments alone. *)
Theorem GraphEditDistance_symmetric (o1 o2 : RangeOrder) (g1 g2 : Graph) :
  GraphEditDistance o1 g1 g2 = GraphEditDistance o2 g2 g1 ∧
  GraphEditDistance o1 g1 g2 = GraphEditDistance o2 g1 g2.
Proof.
  rewrite !GraphEditDistance_counts. split; [|done].
  by rewrite (Nat.add_comm (nodes_counted g1 g2)), (Nat.add_comm (edges_counted g1 g2)).
Qed.

(** ** A graph against itself *)

Lemma filter_none {A} (P : A → Prop) `{∀ x, Decision (P x)} (l : list A) :
  length (filter P l) = 0%nat ↔ ∀ x, x ∈ l → ¬ P x.
Proof.
  induction l as [|a l IH]; simpl.
  - split; [|done]. intros _ x Hx. by apply elem_of_nil in Hx.
  - destruct (decide (P a)) as [Ha|Ha].
    + rewrite filter_cons_True by done. simpl. split; [done|].
      intros Hall. destruct (Hall a); [left|done].
    + rewrite filter_cons_False by done. rewrite IH. split.
      * intros Hall x [->|Hx]%elem_of_cons; auto.
      * intros Hall x Hx. apply Hall. by right.
Qed.

Lemma length_edges ord g : length (edges ord g) = edge_count g.
Proof.
  unfold edge_count.
  transitivity (sum_list_with (λ r : Z * gmap Z float, size r.2) (range ord (adjacency g)));
    [|apply sum_list_with_Permutation_proper, range_perm].
  unfold edges.
  assert (∀ r, r ∈ range ord (adjacency g) → (adjacency g).[r.1] = r.2) as Hrows.
  { intros [k row] Hr%elem_of_range. by apply index_map_Some. }
  revert Hrows. induction (range ord (adjacency g)) as [|r rows IH]; intros Hrows; [done|].
  rewrite bind_cons, length_app, length_fmap, length_range. simpl.
  rewrite Hrows by left. f_equal. apply IH. intros. apply Hrows. by right.
Qed.

Section self_distance.
Context (g : Graph) (Hg : wf g).

Lemma nodes_counted_self : nodes_counted g g = 0%nat.
Proof.
  unfold nodes_counted. apply filter_none. intros [k b] Hin.
  apply elem_of_map_to_list in Hin. unfold node_differs. simpl.
  rewrite (index_map_Some _ _ _ Hin), (wf_true _ Hg _ _ Hin). done.
Qed.

Lemma edge_differs_self from to w :
  has_edge g from to w → edge_differs g (from, (to, w)) = PrimFloat.eqb w 0%float.
Proof.
  intros (row & Hr & Hw). unfold edge_differs. simpl.
  rewrite bool_decide_eq_false_2 by congruence. simpl.
  by rewrite (index_map_Some _ _ _ Hr), (index_map_Some _ _ _ Hw).
Qed.

Lemma edges_counted_self :
  edges_counted g g = 0%nat ↔ ∀ u v w, has_edge g u v w → PrimFloat.eqb w 0%float = false.
Proof.
  unfold edges_counted. rewrite filter_none. split.
  - intros Hall u v w He. pose proof (Hall (u, (v, w))) as H.
    rewrite (edge_differs_self u v w He) in H.
    destruct (PrimFloat.eqb w 0); [|done]. destruct H; [|done]. by apply elem_of_edges.
  - intros Hall [u [v w]] He%elem_of_edges. rewrite (edge_differs_self u v w He).
    by rewrite (Hall u v w He).
Qed.

Lemma edges_counted_bound : (edges_counted g g ≤ edge_count g)%nat.
Proof.
  unfold edges_counted. rewrite <- (length_edges ascending g). apply length_filter.
Qed.
End self_distance.

(** X21: the distance of a graph to itself is 0 exactly when the graph has
    no edge of weight 0. On a graph built by the API with fewer than 2^52
    edges, for every range order, [GraphEditDistance(g, g)] is 0 if and
    only if no edge of [g] has a weight equal to 0. *)
Theorem GraphEditDistance_self (ord : RangeOrder) (es : list (Z * Z * float)) :
  Z.of_nat (2 * edge_count (build es)) < 2 ^ 53 →
  GraphEditDistance ord (build es) (build es) = 0%float ↔
  ∀ u v w, has_edge (build es) u v w → PrimFloat.eqb w 0%float = false.
Proof.
  intros HN%exact_below. pose proof (wf_build es) as Hg. set (g := build es) in *.
  set (N := (2 * edge_count g)%nat) in *.
  pose proof (edges_counted_bound g) as Hb. set (z := edges_counted g g) in *.
  rewrite GraphEditDistance_counts, (nodes_counted_self g Hg).
  fold z. rewrite (fnat_add N HN) by (unfold N; lia).
  rewrite <- (edges_counted_self g). fold z. simpl. split.
  - intros E. assert (z + z = 0)%nat; [|lia].
    apply (fnat_inj N (exact_counts N HN)); [unfold N; lia|lia|done].
  - intros ->. done.
Qed.

Lemma GraphEditDistance_self_witness :
  GraphEditDistance descending (build [(0, 1, 2%float); (1, 2, 3%float)])
                    (build [(0, 1, 2%float); (1, 2, 3%float)]) = 0%float ↔
  ∀ u v w, has_edge (build [(0, 1, 2%float); (1, 2, 3%float)]) u v w →
           PrimFloat.eqb w 0%float = false.
Proof.
  apply (GraphEditDistance_self descending [(0, 1, 2%float); (1, 2, 3%float)]).
  vm_compute. reflexivity.
Defined.
